(* ===== verification/_CoqProject ===== *)
-Q . S2P
Prelude.v
Segments.v
LogCodec.v
WalFrames.v
TimeMark.v
MemBlock.v
MemDB.v
MemLifecycle.v
TableDB.v
EntryDB.v
WalRead.v
Recovery.v
Query.v
FileCopy.v
TraceFile.v
Options.v
Iterator.v
DBCommit.v
DBInternal.v
TrieBoot.v
DBPut.v
DBSync.v
Metrics.v
FileLock.v
GoFmt.v
MemMap.v
PubAPI.v
Sample.v
WalTests.v
