(* ===== verification/Prelude.v ===== *)
(** * A verification development of unitdb's storage engine

    unitdb (src/) is an embedded time-series message store.  Writers
    publish messages under dotted topics.  Writes are staged in an
    in-memory store (memdb), coalesced into tiny batches, and logged to a
    write-ahead log (WAL) before they are applied to the index files.

    ** The program's parts and how they interact

    - Segmented log file (src/unnamed/part_001, lines 1-237, package
      wal).  The WAL's backing file with three free segments.
      [allocate] carves space from segment 1 or extends the file, [free]
      coalesces a released range with segment 0 or 1, and [swap] rotates
      the segments when the log reaches its target size.  [_File.copy]
      copies the file to a new one through a bounded buffer.
    - WAL codecs (src/wal/header.go, lines 1-95).  The 28-byte log-info
      header of each group and the 47-byte file header.
    - WAL reader (src/wal/reader.go, lines 29-157).  [Reader.Read]
      drops the RELEASED recovered logs, scans the log file through a
      buffer of at most [BufferSize] bytes, hands the body of every
      WRITTEN group to a callback, marks the group RELEASED and rewrites
      its header.  [Reader.Next] decodes the self-delimiting records
      [| u32 dataLen | bytes |] of a group.  [Writer.Append] is not under
      src/ and is modelled from the spec as the framing that [Next]
      undoes; the tiny-batch buffer is framed the same way.
    - Time mark (src/memdb/timemark.go).  A ledger of time IDs with a
      reference count, moved to [releasedRecords] when released and
      evicted by the expirer.
    - Memdb blocks (src/memdb/timelock.go, lines 49-555: memdb's db.go).
      One block per time ID: a byte slab plus a map from internal key
      [(delFlag, key)] to the offset of a framed record
      [| u32 len | u8 delFlag | u64 key | payload |].  [delete], [move],
      [tinyWrite] (block to WAL), [tinyCommit], [releaseLog] and the
      recovery replay of [startRecover] operate on it.  The time mark
      decides when a time ID is released.
    - Main DB entries (src/db_internal.go).  [setEntry] encodes a user
      entry into the cache entry logged by the tiny batch; [readEntry]
      finds a sequence in the memdb or in its index block; [lookup]
      resolves a query to window entries through the trie and the time
      window; [tinyCommit] and [commit] hand a batch's records to a WAL
      writer; the header counters are atomic operations.  Both call
      packages whose code is not under src/ (topic parser, trie, lease,
      message IDs, snappy, MAC, entry codec, index blocks).  The header
      ([writeHeader], [readHeader]) goes to offset 0 of the index file,
      which [newBlock] and [extendBlocks] grow by 4096-byte blocks;
      [loadTrie] rebuilds the trie from the window blocks on open;
      [delete] removes an entry from the memdb and its index block;
      [close] shuts the DB down once, taking the write lock and waiting
      for the commits in flight ([closeW]).
    - Memdb set-up and shutdown (src/memdb/timelock.go, lines 25-48,
      157-252).  The time lock (a bank of mutexes picked by a consistent
      hash), [addTimeBlock] (bloom-filter blocks per time ID),
      [newTinyBatch], [newBatchPool], [batch], [close], and the
      background [tinyBatchLoop] (lines 514-537) that dispatches the
      tiny batch on every tick and returns when [close] closes
      [closeC].
    - Metrics (src/unnamed/part_000, lines 86-345, package metrics).
      The [TimeSeries] interface and its two implementations, a series
      over a histogram and its read-only snapshot.
    - Options and the item iterator (src/options.go, src/iterator.go,
      package tracedb).  [copyWithDefaults] fills in the option
      defaults; [ItemIterator.Next] walks the hash buckets, queueing the
      live key/values of each bucket, and pops one item per call.
    - tracedb file helpers (src/unnamed/part_000, lines 12-85).  A
      file opened by [openFile] (size from [Stat], a random 64-bit
      cache ID) with a tracked size that grows by [extend] (zeros) and
      [append] (data), each returning where its bytes start, and reads
      and writes marshalled values at an offset.
    - Memory-mapped file (src/docs/usage/advanced.md, lines 313-436,
      package fs).  The usage documentation carries the listing of
      [OSFile]: an [os.File] with a memory-mapped region, opened by
      [osfs.OpenFile], re-mapped by [Mmap] as it grows, sliced by
      [Slice] and closed by [Close]; the tracedb file's [Mmap] call is
      this [Mmap] when the file's [Type()] is ["MemoryMap"].
    - Table memdb (src/unnamed/part_002).  An older key-value memdb: a
      byte table and a map from key to the offset of its last record.
    - Windows lock file (src/fs/file_windows.go).  [newLockFile] opens
      the lock file and takes an exclusive [LockFileEx] lock on it;
      [Unlock] removes the file and closes the handle.
    - Sample program (src/cmd/sample/main.go).  A client of the public
      API ([Open], [PutEntry], [Get], [Batch], [NewContract], [Close],
      not under src/): it stores 50 messages through one reused
      [Entry], writes four batches (two under a fresh contract), logs
      what its reads return and exits through [log.Fatal] on the
      errors it checks.  [PutEntry] writes through [DB.setEntry].
    - WAL tests (src/wal/reader.go, lines 176-333).  [newTestWal] and
      the four tests drive the WAL through its life: [wal.New] on a
      fresh or an existing file, a [Writer] that [Append]s 1000
      records and [SignalInitWrite]s them as one group, [Close], a
      reopen that must report recovery, [NewReader] and a [Read] whose
      callback drains the group with [Next], and [SignalLogApplied].
      The WAL itself ([New], [Close], the writer, the statuses) is not
      under src/ and is modelled from the spec over the parts above.

    ** Files, in dependency order

    - [Prelude]: this header, machine-width integers (wrap-around,
      two's complement), the little-endian codec on byte lists with its
      roundtrip lemmas, the error values of src/unnamed/part_003, Go's
      [copy] and index assignment ([go_copy], [go_set]), the [result]
      type with its notation in [unitdb_scope], and the hint database
      [unitdb].
    - [Segments]: Module [Segments] models [_Segments] and [_File]
      ([newSegments], [recoveryOffset], [freeSize], [allocate], [free],
      [swap], [_File.allocate]) and [openFile] over the results of
      [os.OpenFile] and [Stat], its error paths returning the zero
      [_File].  [Truncate] is a Section variable ([truncate_ok]).  The invariant [wf_file] says the free segments
      are disjoint and lie in [headerSize, size).  [file_step] is the
      step relation of the file.
    - [LogCodec]: [_LogInfo] and [_Header] with [MarshalBinary] and
      [UnmarshalBinary], and their roundtrip theorems.
    - [WalFrames]: [Reader] and [Next], the spec-modelled [append_frame]
      and [group], and the roundtrip theorem.
    - [TimeMark]: Module [TimeMark]: the record maps as stdpp [gmap]s,
      one definition per method, the step relation [tm_step], and its
      invariant by rule induction.
    - [MemBlock]: Module [MemBlock]: [_Key] and [iKey], [_Block] and
      [_Block.put] over the spec-modelled [_DataTable] (an append-only
      byte list), the memdb state [_DB] (block cache as a [gmap] from
      time ID to block, current tiny batch, time mark, the WAL as the
      list of written groups, the time IDs signalled applied), and
      [DB.delete], [DB.move], [DB.tinyWrite], [DB.tinyCommit],
      [DB.releaseLog], the ticker case of [DB.tinyBatchLoop], and the
      recovery replay of [DB.startRecover] ([apply_record], [replay],
      [read_groups]).  The API calls of a tiny batch ([Puts]) and their
      commit and recovery.
    - [MemDB]: Module [MemDB]: blocks as sequences of frames
      ([frames_ok]), the memdb step relation [db_step] (Put, Delete,
      tick, commit, release) and its invariant [markers_ok] by rule
      induction, and the theorems on [move], [releaseLog] and recovery.
    - [MemLifecycle]: Module [MemLifecycle]: [newTimeLock] and
      [getTimeLock], [addTimeBlock] over a [gmap] of block records,
      [newBatchPool], [batch] (registering its time ID in the time
      mark), and [close] over the closed flag and the closer, its
      goroutine side as a list of events; [close_n] runs it repeatedly;
      [tinyBatchLoop] over a run of ticks, [closeC] and the memdb
      [Put]s interleaved with them.
    - [TableDB]: Module [TableDB]: the table memdb of
      src/unnamed/part_002 ([Open], [Get], [Set] as [Set_], [Count],
      [FileSize], [Close]) over the same append-only table, its invariant
      [table_ok] and the [Get]-after-[Set] theorem.
    - [EntryDB]: Module [EntryDB]: [setEntry] split as the code is
      ([parse_entry], [assign_seq], [encode_entry]) and [readEntry], in
      Sections whose Context is the external packages.
    - [WalRead]: Module [WalRead]: [Reader.Read] as its two loops, the
      inner one over the window ([inner]) and the outer one with fuel
      ([outer]), over an explicit WAL state ([WalState]: recovered
      logs, file bytes, size, segments, buffer size); the release loop
      [remove_released]; [_File.readUnmarshalableAt]; and the layout of a well-formed log file
      ([lay], [laid]) with the callback run [call_groups] that [Read]
      refines.
    - [Recovery]: Module [Recovery]: the callback of [startRecover]
      ([recover_cb]) plugged into [WalRead.Read], against
      [MemBlock.startRecover].
    - [Query]: Module [Query]: [DB.lookup] ([collect] is its topic loop)
      against three interfaces given as type classes: [SortSlice]
      ([sort.Slice]) with its laws [SortSliceSpec], [TimeWindow] with
      [TimeWindowSpec], and [TopicTrie].  The theorems are proved in a
      Section whose Context is the classes and their laws; stdpp's merge
      sort, a table window and a list trie are instances used by the
      examples.
    - [FileCopy]: Module [FileCopy]: [_File.copy] over an OS file as its
      bytes and read offset ([os_read] is [os.File.Read]), its loop
      [copy_loop] run with fuel.
    - [TraceFile]: Module [TraceFile]: the tracedb [file], [openFile]
      (its file system calls and cache as Section context), [extend],
      [append], [writeMarshalableAt] and [readUnmarshalableAt] over
      [os.File]'s [Truncate], [WriteAt] and [ReadAt], with the memory
      map as Section context.
    - [DBCommit]: Module [DBCommit]: the main DB's [tinyCommit] and
      [commit] over a WAL writer in Section context, their record loop
      [commit_loop] with the trace of writer events, and the counters
      of db_internal.go with their wrap-around.
    - [DBInternal]: Module [DBInternal]: the DB state [DB] (the
      [DBCommit] counters, the rest of [dbInfo], the time window's
      index, the lease, the index file and the memdb); the index file as
      the class [IndexFile] with its law [IndexFileSpec], met by a
      header slot and by the tracedb file ([trace_index]); [writeHeader],
      [readHeader], [parseTopic], [newBlock], [extendBlocks], [delete]
      and [close]; the step relation [counter_step] of everything that
      touches the counters.
    - [TrieBoot]: Module [TrieBoot]: [loadTrie] as its callback
      ([loadTrie_cb], with the slot scan [find_entry]) over the
      spec-modelled [foreachWindowBlock], and the walk invariant
      [boot_inv].
    - [DBSync]: Module [DBSync]: the lock and wait-group operations of
      [close], [tinyCommit] and [commit], and of the memdb's [close] and
      [tinyCommit], as programs, an interleaving
      step relation [sync_step] over them, and [explore], a checker of
      every interleaving proved sound ([explore_sound]).
    - [DBPut]: Module [DBPut]: [EntryDB.setEntry] with its topic parser
      instantiated by [DBInternal.parseTopic], as [db.setEntry] calls
      [db.parseTopic].
    - [Options]: Module [Options]: [Options] and [copyWithDefaults],
      each default as [dflt] or [dflt_nil].
    - [Iterator]: Module [Iterator]: [ItemIterator] with [Next] as the
      callback over a bucket handle's slots ([slots_cb]), the walk of a
      bucket's chain ([forEachBucket], from the spec) and the bucket
      loop ([refill], its fuel the number of buckets left, which is the
      loop's own bound), and [Valid].
    - [Metrics]: Module [Metrics]: the histogram as the class
      [Histogram] with its law [HistogramSpec]; both [TimeSeries]
      implementations; a heap of objects and the registry, so that a
      series shared by two callers is one object.
    - [FileLock]: Module [FileLock]: [windowsFileLock], [Unlock],
      [lockFile] and [newLockFile] against the system calls as the
      class [WinAPI]; the instance [winOS] (file objects, handles,
      exclusive locks), the step relation [lock_step] of the process's
      lock and unlock calls, its invariants [lock_inv] (handles and
      locks) and [dir_inv] (directory), and the lock service
      [spec_lock]/[spec_unlock] it refines.
    - [GoFmt]: Module [GoFmt]: strings as byte lists ([bytes]) and the
      [%2d] verb of [fmt.Sprintf] ([fmt_2d]).
    - [MemMap]: Module [MemMap]: [OSFile] ([data] as an optional
      mapping, [mmapSize]) and the process's mapped regions and open
      handles ([world]); [Mmap], [Slice], [Close], [OpenFile],
      [oslockfile.Unlock] and [Type], over [mmap] and [munmap] as
      Section context.
    - [PubAPI]: Module [PubAPI]: the public API as the class [UnitDB]
      (the entry it is given is returned as the call leaves it, since
      the caller's [*Entry] is shared), [NewEntry], [WithPayload],
      queries and batch calls; modelled from the spec, the instance
      [storeDB]: a message store with the topic grammar ([parse_topic]:
      dotted parts, [*], a terminal [...], [ttl] and [last] options),
      the wildcard matching of section 4.H ([parts_match]), contract
      isolation, TTL expiry, newest-first reads cut at the limit and
      all-or-nothing batches.
    - [Sample]: Module [Sample]: [main] call by call over any [UnitDB]
      (its log lines, its [log.Fatal] exits, the deferred [Close]); the
      bulk loop [put_loop] over any [PutEntry], and [tb_PutEntry], the
      write path of the spec over [DBPut.setEntry] (the cache entry
      appended to the tiny batch).
    - [WalTests]: Module [WalTests]: the WAL from the spec ([WAL]: its
      [Segments._File], the file's bytes, the recovered and written
      logs, the options and the closed flag; [New] with its recovery
      scan [scan_logs], [Close], [NewWriter], [Append],
      [SignalInitWrite], [SignalLogApplied]), [NewReader] and
      [Reader_Read] ([WalRead.Read] with [writeHeader] writing the file
      header), and the four tests of reader.go; the disk is the log
      file's bytes, if it exists.

    ** What the theorems show

    - Segments: every operation keeps the free segments disjoint and in
      bounds, including [free] with [uint32] wrap-around.  The invariant
      holds for every reachable file.  An allocated range never overlaps
      a free segment.  [free] can wrap a segment size and lose space.
    - File copy: from the start of a non-empty file with a positive
      buffer size, [copy] ends within three reads and writes exactly the
      file's bytes; its buffer cap holds for the first read only (the
      second buffer holds all the bytes left); with a zero buffer size
      it copies nothing and reports success.
    - Main DB commit: on a framed buffer the record loop never panics
      and appends a prefix of the records, all of them unless an
      [Append] fails, in which case it stops right after that record.
      [tinyCommit] appends exactly the tiny batch's records in order,
      then signals the current sequence, which becomes the log
      sequence, and resets the tiny batch.
    - tracedb file: any run of [extend] and [append] lays the file out
      as the old bytes followed by each call's bytes, and each call
      returns where its own bytes start; a value written by
      [writeMarshalableAt] is read back by [readUnmarshalableAt], in
      the tracedb file and in the WAL's; [openFile]'s cache ID
      [uint64(r1)<<32 + uint64(r2)] gives back both random halves.
    - Main DB blocks and header: [extendBlocks(n)] equals [n] calls of
      [newBlock] while [n * 4096 < 2^32]; beyond [2^20] blocks its
      [uint32] size wraps and the file grows less than the blocks
      counted; [newBlock] counts a block its failed [extend] did not
      add.  [readHeader] after [writeHeader] restores every header
      field but resets [logSequence] to 0.  The counters keep their Go
      types through every operation ([counters_typed]).  [close] works
      once, after which commits fail without touching the WAL.
    - Trie bootstrap: [loadTrie] adds distinct topics, each with the
      offset of the first window block of its hash.
    - Memdb shutdown: over any number of [close] calls the closer is
      closed exactly once.  [tinyBatchLoop] returns on [closeC] without
      dispatching its tiny batch: Puts made after the last tick never
      reach the batch pool, while one more tick would have dispatched
      them.
    - Main DB shutdown and commits: some interleaving of [tinyCommit]
      and [close] deadlocks, [tinyCommit] holding [closeW] while waiting
      for the write lock that [close] holds while waiting for
      [closeW]; with [commit]'s order [close] returns in every
      interleaving, but a [commit] past [db.ok()] can wait for the lock
      forever.  The memdb's [close] joins the batch pool's workers
      before taking the lock, and with a worker in [tinyCommit] every
      interleaving ends with both returned.
    - Lock file: in every state reached by the process's calls, the
      lock file refines a lock service over the set of held names
      ([spec_lock], [spec_unlock]): [newLockFile] succeeds exactly on a
      free name and fails with [os.ErrExist] on a held one, and [Unlock]
      frees exactly its name; two held locks on one name are the same
      lock.  Any other failure of [LockFileEx] is ignored: [newLockFile]
      then returns a lock it does not hold.
    - Put path: a topic that does not parse makes [setEntry] fail with
      [errBadRequest] before the sequence or the lease is touched (the
      entry's zero contract is still defaulted); a topic's TTL becomes
      the expiry of an entry that has none.
    - Metrics: two callers of [GetOrRegisterTimeSeries] share one
      series; a snapshot keeps the readings it was taken with and
      panics on updates.
    - Options and iterator: [copyWithDefaults] is idempotent and never
      leaves the background sync or tiny-batch interval at 0 (which the
      field comments document as settings); an expired key in a bucket
      handle makes the iterator skip the live keys after it; [Valid]
      reads the queue, so it is false right after [Next] returns the
      single item of a bucket, before the later buckets are visited.
    - Codecs: [UnmarshalBinary (MarshalBinary x) = x] for every header
      whose fields fit their widths (signed [int64] fields included),
      and [Marshal] always produces exactly 28 or 47 bytes.
    - Frames: [Next], iterated [entryCount] times over a group written
      by [Append], returns the appended payloads in order and then
      stops.  A record whose length field is below 4 makes [Next]
      panic.
    - Time mark: in every reachable state, [records] holds reference
      count exactly 1 and [releasedRecords] holds 0 or -1 (aborted).
      [add] does not increment an existing count (a divergence from the
      spec).  The expirer never evicts a record stamped with a
      wall-clock time, because [isExpired] compares against
      [Nanosecond()] (the spec's open question ii).
    - Memdb: a tiny batch of [Put]s committed by [tinyCommit], with the
      block's records in any map order, writes one WAL group whose
      recovery replay rebuilds exactly the last-writer-wins map of the
      Puts, and releases the batch's time ID unless a user batch manages
      it (a refinement of the staged writes).  In every
      reachable memdb state, a deletion marker holds the time ID of its
      own block (the spec says the target's), so [move] always re-issues
      the first deletion it meets and only that one.  [releaseLog]
      panics on a missing block, and otherwise drops the block and
      signals the time ID applied.  A Put and a Delete of the same key in
      one tiny batch are recovered differently in the two map orders.
      A group whose replay returns an error makes [startRecover]
      report success and skip every later group; a runtime panic in
      the replay is not caught and ends the process.  The re-[Put] of the recovered map at the end of
      [startRecover], in any map order, is logged by the next
      [tinyCommit] as a group whose replay gives back the same map.
    - Entries: the cache entry of the first entry of a new topic is
      header, ID prefix, encryption bit, topic and value; an entry
      reused after parsing keeps its old [topicSize] with a zero-filled
      topic (the spec says [topicSize] is 0 there); a sequence missing
      from its index block is read as an empty slot without error (the
      spec says [MsgIdDoesNotExist]); the sequence counter wraps at
      [MaxUint64] into a panic.
    - WAL reader: the release loop of [Read] is a filter.  On a
      well-laid-out file whose groups fit the buffer, [Read] calls the
      callback on every WRITTEN group's body in file order (two
      iterations of the outer loop suffice: the second reads from the
      first group that did not fit to the end of the file), rewrites
      exactly those headers as RELEASED and returns the callback's
      errors.  A group larger than the buffer that follows another group
      in the window is read from the wrong offset: for any two such
      WRITTEN groups, the callback is handed, for the second, the bytes
      that follow the first group's header.  [Read] always returns: its unbounded outer
      loop ends within [2 * len(recoveredLogs) + 2] iterations on any
      file, buffer size and callback ([Read_terminates], by the measure
      [read_measure]: two per log left, one less once the window has
      grown to the next log).  With [startRecover]'s callback, [Read]
      computes exactly the map of [MemBlock.startRecover].
    - Memory-mapped file: when [Mmap] grows the mapping and [mmap]
      fails after [munmap] succeeded, [f.data] is left pointing at the
      unmapped region and [Slice] keeps handing out views of it; a
      failed [munmap] in [Close] is reported as success with the file
      left open; [Mmap] doubles the mapping once, so a file that has
      more than doubled is not covered by it.
    - Query: [lookup] returns, sorted by decreasing sequence, the first
      [Limit] window entries of the matching topics taken by decreasing
      window offset, so never more than [Limit]; when the limit cuts
      across topics it drops newer sequences of the topics with lower
      offsets.
    - Table memdb: every reachable table keeps its keys pointing at
      whole records; [Get] after [Set] returns the value set, leaves the
      other keys alone, and [Count] grows exactly on a new key.

    - Sample program: for every implementation of the API, [main]
      closes the DB exactly when it returns normally ([log.Fatal] skips
      the deferred [Close]), and returns normally whenever [Open] and
      the four checked batches succeed, whatever [PutEntry], [Get],
      [NewContract] and the first contract batch return (their errors
      are never checked).  On the spec's store it logs the 50 loop
      messages newest first, then the wildcard and per-receiver
      messages, and nothing for the three reads after the contract
      batches: those messages are under the new contract and the
      queries are not.  With [PutEntry] over [setEntry], the bulk loop
      stores one cache entry with the topic and 49 whose [topicSize]
      is stale and whose topic region is zeros.

    - WAL life cycle: on a fresh WAL, any non-empty group of records
      appended and signalled with [SignalInitWrite] survives [Close];
      [New] on the reopened file recovers it and reports that recovery
      is needed; and [Reader.Read], draining the group with [Next],
      reads exactly the records in order whatever the buffer size (a
      group larger than the buffer is re-read through a grown window),
      then rewrites its header as RELEASED.  On the model the four tests
      of reader.go pass, and [TestLogApplied] reads back [msg. 0] ...
      [msg.999].

    ** Modelling choices

    - Integers are [Z] at the width of their Go type.  Wrap-around is
      written out: [wrap 32] for [uint32], [wrap_i64] for [int64].
    - Byte slices are [list Z] with each element in [0, 256), checked
      against their length (a Go slice's capacity can be larger: see
      [WalFrames.Next]).
    - A Go panic (short slice, nil pointer) is the error [errPanic].
    - Go map iteration order is unspecified.  Where the code iterates a
      map, the model takes the order as an argument: any permutation of
      [map_to_list].
    - The wall clock is an explicit argument ([now]).  Channels, locks
      and goroutines are modelled only for the main DB's [close] and
      commits (DBSync: a single-token channel is a flag that blocks a
      send while full; the wait group is a counter whose [Wait] blocks
      until it is 0); elsewhere every operation runs atomically under
      the lock the source takes around it.
    - [DBSync.explore] explores every interleaving with fuel; 20 steps
      exceed the 13 instructions of [commit] and [close] together.
    - Fuel only where the code has an unbounded loop: the outer [for]
      of [Reader.Read] runs with fuel ([WalRead.outer]; [None] is
      running out): [Read_terminates] shows that
      [2 * len(recoveredLogs) + 2] iterations always suffice, and
      [Read_refines] that two do when every group fits the buffer; so does the loop of
      [_File.copy] ([FileCopy.copy_loop]), where three suffice.
      [WalTests.Reader_Read] runs [Read] with the fuel
      [Read_terminates] gives, so it never runs out.  Every other loop is structural
      recursion on a list, or on a [nat] that is the loop's own bound
      (the [Count()] of a group for the recovery replay, the length of
      the recovered logs for the release loop).

    ** Not modelled

    - The histogram behind a time series and the bucket store behind
      the iterator (outside src/).  Of the lock file, the lazy loading
      of kernel32's [LockFileEx]; the system calls are the class
      [WinAPI].
    - The usage documentation (src/docs) apart from its Go listing of
      package fs: prose and usage examples of the public API.  Of the
      public API the sample calls, only what the spec states: the
      store's clock is one instant, so TTL and [last] windows never cut
      anything in the sample's run.
    - The topic trie, window index, block index, block writer, filter
      and lease: their code is not under src/; the functions of
      db_internal.go that call them are modelled over Section context.
      The meter of [delete] and the logger.
    - In the memdb: locking (the time lock is modelled as the choice of
      a mutex), channels and wait groups (the steps of [close] are
      events), the meters, the batch pool's dispatcher, the deferred
      [tinyBatch.abort] of [tinyCommit], and its calls to [wal.New],
      [NewWriter] and [Reset] (the WAL's file I/O is modelled from the
      spec in [WalTests] only, for the tests of reader.go).  The final re-[Put] loop of
      [startRecover] is [Puts] over the recovered map in a map order.
    - In the WAL reader: the buffer pool (a byte list with the [Slice]
      bounds check stands for the buffer) and the lock.  [WAL.writeHeader]
      is not under src/: it is Section context of [WalRead], and
      [WalTests] instantiates it from the spec.  In the tests, the test
      directory ([os.MkdirAll], [os.RemoveAll] of a directory) is not
      modelled: the disk is the one log file.
    - In the table memdb: the mutex; [Close]'s table close, file
      removal and closer are Section context. *)

From stdpp Require Export base list gmap.
From Stdlib Require Export ZArith Lia.

Declare Scope unitdb_scope.
Delimit Scope unitdb_scope with udb.
Open Scope Z_scope.

Create HintDb unitdb discriminated.
Create Rewrite HintDb unitdb_rw.

(** ** Errors (src/unnamed/part_003), plus the ones raised elsewhere *)

Inductive error :=
| errTopicEmpty | errMsgIdEmpty | errMsgIdDeleted | errMsgIdDoesNotExist
| errMsgIdPrefixMismatch | errTtlTooLarge | errTopicTooLarge | errMsgExpired
| errValueEmpty | errValueTooLarge | errEntryInvalid | errImmutable | errFull
| errCorrupted | errLocked | errClosed | errBatchSeqComplete | errWriteConflict
| errBadRequest | errForbidden
| errEntryDoesNotExist   (** memdb's "entry does not exist" *)
| errLogData             (** reader.go: errors.New("logData error") *)
| errCacheNotFound       (** the table memdb's "cache for entry seq not found" *)
| errWalClosed           (** db_internal.go, [DB.ok]: errors.New("wal is closed") *)
| errDbClosed            (** memdb's [DB.ok]: errors.New("db is closed") *)
| errIO                  (** an I/O call of the file system failed *)
| errEOF                 (** [io.EOF] *)
| errExist               (** [os.ErrExist] *)
| errPanic.              (** a Go runtime panic: slice bounds, nil pointer *)

#[export] Instance error_eq_dec : EqDecision error.
Proof. solve_decision. Defined.

Inductive result (A : Type) := Ok (a : A) | Err (e : error).
Arguments Ok {A} a.
Arguments Err {A} e.

Definition bind_result {A B} (r : result A) (k : A -> result B) : result B :=
  match r with Ok a => k a | Err e => Err e end.

Notation "x <-- c ;; k" := (bind_result c (fun x => k))
  (at level 60, c at next level, right associativity) : unitdb_scope.
Open Scope unitdb_scope.

(** A partial Go slice expression [s[i:j]]: a panic when out of range. *)
Definition of_option {A} (o : option A) : result A :=
  match o with Some a => Ok a | None => Err errPanic end.

Lemma bind_result_ok {A B} (a : A) (k : A -> result B) :
  bind_result (Ok a) k = k a.
Proof. reflexivity. Qed.

Lemma bind_result_Ok_inv {A B} (r : result A) (k : A -> result B) (b : B) :
  bind_result r k = Ok b -> exists a, r = Ok a /\ k a = Ok b.
Proof. destruct r; simpl; [eauto|discriminate]. Qed.

#[export] Hint Rewrite @bind_result_ok : unitdb_rw.

(** ** Machine-width integers *)

Definition wrap (w : Z) (z : Z) : Z := z mod 2 ^ w.

(** Two's complement reading of a [w]-bit pattern (Go's [int64(u)]). *)
Definition to_signed (w : Z) (u : Z) : Z :=
  if u <? 2 ^ (w - 1) then u else u - 2 ^ w.

(** Go's [int64] arithmetic: the result wraps into [-2^63, 2^63). *)
Definition wrap_i64 (z : Z) : Z := to_signed 64 (wrap 64 z).

Definition in_uint (w z : Z) : Prop := 0 <= z < 2 ^ w.
Definition in_int64 (z : Z) : Prop := - 2 ^ 63 <= z < 2 ^ 63.

Lemma wrap_small w z : in_uint w z -> wrap w z = z.
Proof. unfold in_uint, wrap. intros. apply Z.mod_small. lia. Qed.

Lemma wrap_range w z : 0 <= w -> in_uint w (wrap w z).
Proof. unfold in_uint, wrap. intros. apply Z.mod_pos_bound. lia. Qed.

Lemma mod_pow64_neg z : - 2 ^ 63 <= z < 0 -> z mod 2 ^ 64 = z + 2 ^ 64.
Proof. intros. symmetry. apply Z.mod_unique with (-1); lia. Qed.

Lemma to_signed_wrap64 z : in_int64 z -> to_signed 64 (wrap 64 z) = z.
Proof.
  unfold in_int64, to_signed, wrap. intros Hz.
  destruct (Z.le_gt_cases 0 z).
  - rewrite Z.mod_small by lia. destruct (Z.ltb_spec z (2 ^ (64 - 1))); lia.
  - rewrite mod_pow64_neg by lia. destruct (Z.ltb_spec (z + 2 ^ 64) (2 ^ (64 - 1))); lia.
Qed.

Lemma wrap_i64_small z : in_int64 z -> wrap_i64 z = z.
Proof. apply to_signed_wrap64. Qed.

(** Go's [int32] arithmetic: a value already in range reads back as itself. *)
Lemma to_signed_wrap32 z : - 2 ^ 31 <= z < 2 ^ 31 -> to_signed 32 (wrap 32 z) = z.
Proof.
  unfold to_signed, wrap. intros Hz. destruct (Z.le_gt_cases 0 z).
  - rewrite Z.mod_small by lia. destruct (Z.ltb_spec z (2 ^ (32 - 1))); lia.
  - rewrite <- (Z.mod_unique z (2 ^ 32) (-1) (z + 2 ^ 32)) by lia.
    destruct (Z.ltb_spec (z + 2 ^ 32) (2 ^ (32 - 1))); lia.
Qed.

(** Reading a wrapped value as signed and adding again wraps as one sum:
    [atomic.AddInt32] twice is [atomic.AddInt32] once. *)
Lemma wrap_to_signed_add w z b : 0 < w -> wrap w (to_signed w (wrap w z) + b) = wrap w (z + b).
Proof.
  unfold to_signed, wrap. intros Hw. destruct (_ <? _).
  - by rewrite Zplus_mod_idemp_l.
  - replace (z mod 2 ^ w - 2 ^ w + b) with (z mod 2 ^ w + b + (-1) * 2 ^ w) by ring.
    by rewrite Z_mod_plus_full, Zplus_mod_idemp_l.
Qed.

#[export] Hint Resolve wrap_range : unitdb.
#[export] Hint Rewrite wrap_i64_small using (unfold in_int64; lia) : unitdb_rw.

(** ** Bytes and the little-endian codec (Go's encoding/binary) *)

Definition is_byte (b : Z) : Prop := 0 <= b < 256.
Definition bytes (l : list Z) : Prop := Forall is_byte l.

(** [PutUintN]: byte [i] is [byte(v >> 8i)]. *)
Fixpoint le_put (n : nat) (v : Z) : list Z :=
  match n with
  | O => []
  | S n' => v mod 256 :: le_put n' (Z.shiftr v 8)
  end.

(** [UintN] on exactly the bytes given: [b0 | b1 << 8 | ...]. *)
Fixpoint le_get (bs : list Z) : Z :=
  match bs with
  | [] => 0
  | b :: t => Z.lor b (Z.shiftl (le_get t) 8)
  end.

(** [binary.LittleEndian.UintN(data)] reads the first [n] bytes and
    panics when [data] is shorter. *)
Definition uint_le (n : nat) (data : list Z) : result Z :=
  if bool_decide (n <= length data)%nat then Ok (le_get (take n data))
  else Err errPanic.

Lemma lor_byte_shift (b x : Z) :
  is_byte b -> Z.lor b (Z.shiftl x 8) = b + x * 256.
Proof.
  unfold is_byte. intros Hb.
  rewrite Z.shiftl_mul_pow2 by lia.
  assert (Z.land b (x * 2 ^ 8) = 0) as Hland.
  { apply Z.bits_inj'; intros i Hi. rewrite Z.land_spec, Z.bits_0.
    destruct (Z.lt_ge_cases i 8).
    - rewrite Z.mul_pow2_bits_low by lia. apply andb_false_r.
    - rewrite (Z.bits_above_log2 b i); [reflexivity|lia|].
      destruct (Z.eq_dec b 0) as [->|Hn]; [simpl; lia|].
      assert (Z.log2 b < 8) by (apply Z.log2_lt_pow2; lia). lia. }
  rewrite <- Z.lxor_lor by exact Hland.
  rewrite <- Z.add_nocarry_lxor by exact Hland. reflexivity.
Qed.

Lemma length_le_put n v : length (le_put n v) = n.
Proof. revert v; induction n; simpl; auto. Qed.

Lemma le_put_bytes n v : bytes (le_put n v).
Proof.
  revert v; induction n; intros v; constructor; auto.
  unfold is_byte. apply Z.mod_pos_bound. lia.
  apply IHn.
Qed.

Lemma le_get_put n v : le_get (le_put n v) = v mod 2 ^ (8 * Z.of_nat n).
Proof.
  revert v; induction n as [|n IH]; intros v; simpl.
  - rewrite Z.mod_1_r. reflexivity.
  - rewrite IH, lor_byte_shift by (unfold is_byte; apply Z.mod_pos_bound; lia).
    rewrite Z.shiftr_div_pow2 by lia.
    replace (8 * Z.of_nat (S n)) with (8 + 8 * Z.of_nat n) by lia.
    rewrite Z.pow_add_r by lia.
    assert (0 < 2 ^ (8 * Z.of_nat n)) by (apply Z.pow_pos_nonneg; lia).
    rewrite Z.rem_mul_r by lia. change (2 ^ 8) with 256. ring.
Qed.

Lemma le_get_range bs : bytes bs -> 0 <= le_get bs < 2 ^ (8 * Z.of_nat (length bs)).
Proof.
  induction 1 as [|b t Hb Ht IH]; simpl; [lia|].
  rewrite lor_byte_shift by exact Hb. unfold is_byte in Hb.
  replace (8 * Z.of_nat (S (length t))) with (8 + 8 * Z.of_nat (length t)) by lia.
  rewrite Z.pow_add_r by lia. lia.
Qed.

(** Decoding what [PutUintN] wrote gives the value back when it fits. *)
Lemma uint_le_put_app n v rest :
  in_uint (8 * Z.of_nat n) v -> uint_le n (le_put n v ++ rest) = Ok v.
Proof.
  intros Hv. unfold uint_le.
  rewrite bool_decide_eq_true_2 by (rewrite length_app, length_le_put; lia).
  rewrite take_app_length' by (symmetry; apply length_le_put).
  rewrite le_get_put. f_equal. apply Z.mod_small. exact Hv.
Qed.

Lemma uint_le_put n v :
  in_uint (8 * Z.of_nat n) v -> uint_le n (le_put n v) = Ok v.
Proof. intros Hv. rewrite <- (app_nil_r (le_put n v)). by apply uint_le_put_app. Qed.

Lemma bytes_app l1 l2 : bytes l1 -> bytes l2 -> bytes (l1 ++ l2).
Proof. unfold bytes. intros. apply Forall_app; auto. Qed.

#[export] Hint Resolve le_put_bytes bytes_app : unitdb.
#[export] Hint Rewrite length_le_put le_get_put : unitdb_rw.

(** Bounds used throughout. *)
Lemma in_uint_mono w w' z : w <= w' -> 0 <= w -> in_uint w z -> in_uint w' z.
Proof.
  unfold in_uint. intros Hw H0 [H1 H2]. split; [lia|].
  apply Z.lt_le_trans with (2 ^ w); [lia|]. apply Z.pow_le_mono_r; lia.
Qed.

(** Turns the boolean tests of the code into propositions. *)
Ltac decide_tests :=
  repeat match goal with
  | |- context [Z.eqb ?a ?b] => destruct (Z.eqb_spec a b)
  | |- context [Z.ltb ?a ?b] => destruct (Z.ltb_spec a b)
  | |- context [Z.leb ?a ?b] => destruct (Z.leb_spec a b)
  | H : context [Z.eqb ?a ?b] |- _ => destruct (Z.eqb_spec a b)
  | H : context [Z.ltb ?a ?b] |- _ => destruct (Z.ltb_spec a b)
  | H : context [Z.leb ?a ?b] |- _ => destruct (Z.leb_spec a b)
  end.

(** ** Go slices *)

(** [data[i:j]] on a slice whose capacity is its length: a panic when
    [j] exceeds the length or [i > j]. *)
Definition slice (i j : nat) (data : list Z) : result (list Z) :=
  if bool_decide (i <= j /\ j <= length data)%nat then Ok (take (j - i) (drop i data))
  else Err errPanic.

(** [binary.LittleEndian.UintN(data[i:j])] with [n = j - i]. *)
Definition get_le (i j : nat) (data : list Z) : result Z :=
  s <-- slice i j data ;; uint_le (j - i) s.

(** The same with [int64]/[uint32] indices: negative ones panic too. *)
Definition slice_z (i j : Z) (data : list Z) : result (list Z) :=
  if (i <? 0) || (j <? 0) then Err errPanic else slice (Z.to_nat i) (Z.to_nat j) data.

Lemma slice_app_exact (pre mid post : list Z) :
  slice (length pre) (length pre + length mid) (pre ++ mid ++ post) = Ok mid.
Proof.
  unfold slice. rewrite bool_decide_eq_true_2 by (rewrite !length_app; lia).
  rewrite drop_app_length. replace (length pre + length mid - length pre)%nat with (length mid) by lia.
  rewrite take_app_length. reflexivity.
Qed.

Lemma get_le_put (pre post : list Z) n v :
  in_uint (8 * Z.of_nat n) v ->
  get_le (length pre) (length pre + n) (pre ++ le_put n v ++ post) = Ok v.
Proof.
  intros Hv. unfold get_le.
  replace (length pre + n)%nat with (length pre + length (le_put n v))%nat
    by (rewrite length_le_put; lia).
  rewrite slice_app_exact. simpl. rewrite length_le_put.
  replace (length pre + n - length pre)%nat with n by lia.
  by apply uint_le_put.
Qed.

(** Encoding what [UintN] decoded gives the bytes back. *)
Lemma le_put_get bs : bytes bs -> le_put (length bs) (le_get bs) = bs.
Proof.
  induction 1 as [|b t Hb Ht IH]; simpl; [reflexivity|].
  rewrite lor_byte_shift by exact Hb. unfold is_byte in Hb.
  pose proof (le_get_range t Ht).
  f_equal.
  - symmetry. apply Z.mod_unique with (le_get t); lia.
  - rewrite Z.shiftr_div_pow2 by lia. change (2 ^ 8) with 256.
    transitivity (le_put (length t) (le_get t)); [|exact IH]. f_equal.
    rewrite Z.div_add by lia. rewrite Z.div_small by lia. lia.
Qed.

Lemma wrap64_to_signed u : in_uint 64 u -> wrap 64 (to_signed 64 u) = u.
Proof.
  unfold in_uint, wrap, to_signed. intros Hu.
  destruct (Z.ltb_spec u (2 ^ (64 - 1))).
  - apply Z.mod_small. lia.
  - symmetry. apply Z.mod_unique with (-1); lia.
Qed.

Lemma to_signed_range u : in_uint 64 u -> in_int64 (to_signed 64 u).
Proof.
  unfold in_uint, in_int64, to_signed. intros. destruct (Z.ltb_spec u (2 ^ (64 - 1))); lia.
Qed.

#[export] Hint Resolve to_signed_range : unitdb.

Lemma wrap_i64_range z : in_int64 (wrap_i64 z).
Proof. apply to_signed_range, wrap_range. lia. Qed.

Lemma slice_skip (pre rest : list Z) i j :
  (length pre <= i <= j)%nat ->
  slice i j (pre ++ rest) = slice (i - length pre) (j - length pre) rest.
Proof.
  intros Hij. unfold slice.
  rewrite drop_app_ge by lia. rewrite length_app.
  replace (j - length pre - (i - length pre))%nat with (j - i)%nat by lia.
  destruct (bool_decide (i <= j /\ j <= length pre + length rest)%nat) eqn:E1;
  destruct (bool_decide (i - length pre <= j - length pre /\ j - length pre <= length rest)%nat) eqn:E2;
    try reflexivity; exfalso.
  - apply bool_decide_eq_true in E1. apply bool_decide_eq_false in E2. lia.
  - apply bool_decide_eq_false in E1. apply bool_decide_eq_true in E2. lia.
Qed.

Lemma slice_suffix (pre rest : list Z) :
  slice (length pre) (length (pre ++ rest)) (pre ++ rest) = Ok rest.
Proof.
  unfold slice. rewrite length_app, bool_decide_eq_true_2 by lia.
  rewrite drop_app_length, take_ge by lia. reflexivity.
Qed.

Lemma slice_z_suffix (pre rest : list Z) :
  slice_z (Z.of_nat (length pre)) (Z.of_nat (length (pre ++ rest))) (pre ++ rest) = Ok rest.
Proof.
  unfold slice_z. rewrite !Nat2Z.id.
  assert ((Z.of_nat (length pre) <? 0) || (Z.of_nat (length (pre ++ rest)) <? 0) = false) as ->
    by (apply orb_false_iff; split; apply Z.ltb_ge; lia).
  apply slice_suffix.
Qed.

Lemma slice_z_exact (pre mid post : list Z) i j :
  i = Z.of_nat (length pre) -> j = Z.of_nat (length pre + length mid) ->
  slice_z i j (pre ++ mid ++ post) = Ok mid.
Proof.
  intros -> ->. unfold slice_z. rewrite !Nat2Z.id.
  assert ((Z.of_nat (length pre) <? 0) || (Z.of_nat (length pre + length mid) <? 0) = false) as ->
    by (apply orb_false_iff; split; apply Z.ltb_ge; lia).
  apply slice_app_exact.
Qed.

Lemma get_le_skip (pre rest : list Z) i j :
  (length pre <= i <= j)%nat ->
  get_le i j (pre ++ rest) = get_le (i - length pre) (j - length pre) rest.
Proof.
  intros Hij. unfold get_le. rewrite slice_skip by exact Hij.
  replace (j - length pre - (i - length pre))%nat with (j - i)%nat by lia. reflexivity.
Qed.

Lemma get_le_head n v rest :
  in_uint (8 * Z.of_nat n) v -> get_le 0 n (le_put n v ++ rest) = Ok v.
Proof. intros Hv. exact (get_le_put [] rest n v Hv). Qed.

Lemma get_le_last n v :
  in_uint (8 * Z.of_nat n) v -> get_le 0 n (le_put n v) = Ok v.
Proof. intros Hv. rewrite <- (app_nil_r (le_put n v)). by apply get_le_head. Qed.

Lemma slice_head (pre rest : list Z) n :
  length pre = n -> slice 0 n (pre ++ rest) = Ok pre.
Proof. intros <-. exact (slice_app_exact [] pre rest). Qed.

(** Reads the fixed-offset fields of a buffer written field by field. *)
(** From here on the codec is handled by its lemmas, not by unfolding. *)
(** ** Go's [copy(dst[i:], src)] and [dst[i] = v] *)

(** [copy] writes [min(len(src), len(dst) - i)] bytes; [dst[i:]] panics
    when [i > len(dst)]. *)
Definition go_copy (dst : list Z) (i : nat) (src : list Z) : result (list Z) :=
  if bool_decide (i <= length dst)%nat then
    let n := Nat.min (length src) (length dst - i) in
    Ok (take i dst ++ take n src ++ drop (i + n) dst)
  else Err errPanic.

Definition go_set (dst : list Z) (i : nat) (v : Z) : result (list Z) :=
  if bool_decide (i < length dst)%nat then Ok (<[i := v]> dst) else Err errPanic.

Lemma go_copy_exact (pre mid post src : list Z) :
  length src = length mid -> go_copy (pre ++ mid ++ post) (length pre) src = Ok (pre ++ src ++ post).
Proof.
  intros Hl. unfold go_copy. rewrite bool_decide_eq_true_2 by (rewrite !length_app; lia).
  rewrite !length_app. replace (Nat.min (length src) (length pre + (length mid + length post) - length pre))
    with (length src) by lia.
  rewrite take_app_length', take_ge by lia. rewrite Hl.
  replace (length pre + length mid)%nat with (length (pre ++ mid)) by (rewrite length_app; lia).
  rewrite (app_assoc pre mid post), drop_app_length. reflexivity.
Qed.

(** [copy] into the tail of a slice. *)
Lemma go_copy_tail (pre mid src : list Z) :
  length src = length mid -> go_copy (pre ++ mid) (length pre) src = Ok (pre ++ src).
Proof. intros Hl. rewrite <- (app_nil_r mid), go_copy_exact by done. by rewrite app_nil_r. Qed.
Lemma go_copy_nil dst i : (i <= length dst)%nat -> go_copy dst i [] = Ok dst.
Proof.
  intros Hi. unfold go_copy. rewrite bool_decide_eq_true_2 by exact Hi. cbn [length].
  rewrite Nat.min_0_l, Nat.add_0_r. simpl. by rewrite take_drop.
Qed.

Lemma go_set_exact (pre post : list Z) x v :
  go_set (pre ++ x :: post) (length pre) v = Ok (pre ++ v :: post).
Proof.
  unfold go_set. rewrite bool_decide_eq_true_2 by (rewrite length_app; simpl; lia).
  f_equal. rewrite insert_app_r_alt by lia. rewrite Nat.sub_diag. reflexivity.
Qed.

#[global] Arguments le_put : simpl never.
#[global] Arguments le_get : simpl never.

Ltac uint_side :=
  simpl; first [ assumption | apply wrap_range; lia | unfold in_uint in *; lia ].

Ltac decode_fields :=
  repeat first
    [ rewrite get_le_head by uint_side
    | rewrite get_le_last by uint_side
    | rewrite get_le_skip by (rewrite ?length_le_put, ?length_take; simpl; lia)
    | rewrite slice_skip by (rewrite ?length_le_put, ?length_take; simpl; lia)
    | rewrite length_le_put
    | match goal with H : length ?l = _ |- context [length ?l] => rewrite H end
    | progress cbn [bind_result Nat.sub length] ].

(** Cutting [n] bytes off the front of a byte buffer. *)
Lemma bytes_split_le n d :
  bytes d -> (n <= length d)%nat -> d = le_put n (le_get (take n d)) ++ drop n d.
Proof.
  intros Hd Hn. rewrite <- (take_drop n d) at 1. f_equal.
  assert (length (take n d) = n) as Hl by (rewrite length_take; lia).
  pose proof (le_put_get (take n d) (Forall_take _ _ _ Hd)) as H.
  rewrite Hl in H. symmetry. exact H.
Qed.

Lemma bytes_drop n d : bytes d -> bytes (drop n d).
Proof. apply Forall_drop. Qed.

Lemma le_get_take_range n d :
  bytes d -> (n <= length d)%nat -> in_uint (8 * Z.of_nat n) (le_get (take n d)).
Proof.
  intros Hd Hn. unfold in_uint.
  pose proof (le_get_range (take n d) (Forall_take _ _ _ Hd)) as H.
  rewrite length_take in H. replace (Nat.min n (length d)) with n in H by lia. exact H.
Qed.
