(* ===== verification/Segments.v ===== *)
(** * The WAL's segmented log file (src/unnamed/part_001, lines 1-237)

    [_Segments] is an array of three free segments [{offset, size}] with
    [int64] offsets and [uint32] sizes; [_File] adds the file size and
    the target size.  The file system call [Truncate] is a Section
    variable [truncate_ok] (whether growing the file to a size
    succeeds).  The invariant [wf_file] says that every non-empty
    segment lies in [headerSize, size) and that the segments are
    pairwise disjoint; [file_step] is the step relation of [allocate],
    [free] and [swap], and [wf_file_reachable] shows the invariant for
    every reachable file. *)

From S2P Require Import Prelude.

Module Segments.

(** wal/header.go: [headerSize = uint32(47)]. *)
Definition headerSize : Z := 47.

(** The model keeps file sizes and offsets below [2^62], so that [int64]
    sums of an offset and a [uint32] size never wrap. *)
Definition maxOff : Z := 2 ^ 62.

Record _Segment := mkSegment { offset : Z; size : Z }.

(** [type _Segments [3]_Segment]: [sg0], [sg1], [sg2] are [sg[0..2]]. *)
Record _Segments := mkSegments { sg0 : _Segment; sg1 : _Segment; sg2 : _Segment }.

Record _File := mkFile { segments : _Segments; file_size : Z; targetSize : Z }.

Definition newSegments : _Segments :=
  {| sg0 := mkSegment headerSize 0; sg1 := mkSegment headerSize 0;
     sg2 := mkSegment 0 0 |}.

Definition currSize (sg : _Segments) : Z := size (sg1 sg).

(** Steps over the free segments that start at [offset]. *)
Definition recoveryOffset (sg : _Segments) (off : Z) : Z :=
  let off := if off =? offset (sg0 sg) then wrap_i64 (off + size (sg0 sg)) else off in
  let off := if off =? offset (sg1 sg) then wrap_i64 (off + size (sg1 sg)) else off in
  if off =? offset (sg2 sg) then wrap_i64 (off + size (sg2 sg)) else off.

Definition freeSize (sg : _Segments) (off : Z) : Z :=
  if off =? offset (sg0 sg) then size (sg0 sg)
  else if off =? offset (sg1 sg) then size (sg1 sg)
  else if off =? offset (sg2 sg) then size (sg2 sg)
  else 0.

(** [_Segments.allocate]: carve [sz] bytes from the head of segment 1.
    [sg[1].size -= size] is a [uint32] subtraction and wraps. *)
Definition allocate (sg : _Segments) (sz : Z) : Z * _Segments :=
  let s1 := sg1 sg in
  (offset s1,
   {| sg0 := sg0 sg;
      sg1 := mkSegment (wrap_i64 (offset s1 + sz)) (wrap 32 (size s1 - sz));
      sg2 := sg2 sg |}).

(** [_Segments.free]: coalesce with the end of segment 0, else of
    segment 1; otherwise report [false]. *)
Definition free (sg : _Segments) (off sz : Z) : bool * _Segments :=
  let s0 := sg0 sg in
  let s1 := sg1 sg in
  if wrap_i64 (offset s0 + size s0) =? off then
    (true, {| sg0 := mkSegment (offset s0) (wrap 32 (size s0 + sz));
              sg1 := s1; sg2 := sg2 sg |})
  else if wrap_i64 (offset s1 + size s1) =? off then
    (true, {| sg0 := s0; sg1 := mkSegment (offset s1) (wrap 32 (size s1 + sz));
              sg2 := sg2 sg |})
  else (false, sg).

(** [_Segments.swap]: merge segment 2 into a non-empty segment 1 that
    ends where it starts, then rotate when segment 0 outgrows the target.
    The function always returns a nil error; the [fmt.Println] is
    dropped. *)
Definition swap_merge (sg : _Segments) : _Segments :=
  let s1 := sg1 sg in
  let s2 := sg2 sg in
  if negb (size s1 =? 0) && (wrap_i64 (offset s1 + size s1) =? offset s2) then
    {| sg0 := sg0 sg; sg1 := mkSegment (offset s1) (wrap 32 (size s1 + size s2));
       sg2 := mkSegment (offset s2) 0 |}
  else sg.

Definition swap (sg : _Segments) (target : Z) : _Segments :=
  let sg := swap_merge sg in
  if target <? size (sg0 sg) then
    {| sg2 := sg1 sg; sg1 := sg0 sg; sg0 := mkSegment (offset (sg0 sg)) 0 |}
  else sg.

Section FileOps.
(** Whether [Truncate] to the given size succeeds. *)
Variable truncate_ok : Z -> bool.

(** [_File.allocate]: extend the file while it is below its target
    size or segment 1 is too small; otherwise carve from segment 1. *)
Definition File_allocate (f : _File) (sz : Z) : result (Z * _File) :=
  if sz =? 0 then Err errPanic
  else if (wrap_i64 (file_size f + sz) <? targetSize f) || (currSize (segments f) <? sz) then
    let off := file_size f in
    if truncate_ok (wrap_i64 (off + sz)) then
      Ok (off, {| segments := segments f; file_size := wrap_i64 (file_size f + sz);
                  targetSize := targetSize f |})
    else Err errIO
  else
    let (off, sg) := allocate (segments f) sz in
    Ok (off, {| segments := sg; file_size := file_size f; targetSize := targetSize f |}).

(** [_File.truncate] and [_File.reset]. *)
Definition File_truncate (f : _File) (sz : Z) : result _File :=
  if truncate_ok sz then
    Ok {| segments := segments f; file_size := sz; targetSize := targetSize f |}
  else Err errIO.

Definition File_reset (f : _File) : result _File :=
  File_truncate {| segments := segments f; file_size := 0; targetSize := targetSize f |} 0.
End FileOps.

(** ** The invariant: disjoint free segments inside the file *)

Definition seg_ok (fsz : Z) (s : _Segment) : Prop :=
  0 <= offset s <= maxOff /\ in_uint 32 (size s) /\
  (size s = 0 \/ headerSize <= offset s /\ offset s + size s <= fsz).

Definition disjoint (s t : _Segment) : Prop :=
  size s = 0 \/ size t = 0 \/
  offset s + size s <= offset t \/ offset t + size t <= offset s.

Definition wf_segments (fsz : Z) (sg : _Segments) : Prop :=
  seg_ok fsz (sg0 sg) /\ seg_ok fsz (sg1 sg) /\ seg_ok fsz (sg2 sg) /\
  disjoint (sg0 sg) (sg1 sg) /\ disjoint (sg0 sg) (sg2 sg) /\ disjoint (sg1 sg) (sg2 sg).

Definition wf_file (f : _File) : Prop :=
  0 <= file_size f <= maxOff /\ wf_segments (file_size f) (segments f).

(** A range [off, off+sz) that the caller may free: inside the file and
    outside every free segment. *)
Definition free_range_ok (f : _File) (off sz : Z) : Prop :=
  in_uint 32 sz /\ headerSize <= off /\ off + sz <= file_size f /\
  disjoint (mkSegment off sz) (sg0 (segments f)) /\
  disjoint (mkSegment off sz) (sg1 (segments f)) /\
  disjoint (mkSegment off sz) (sg2 (segments f)).

Inductive file_step (tok : Z -> bool) : _File -> _File -> Prop :=
| step_allocate f sz off f' :
    in_uint 32 sz -> file_size f + sz <= maxOff ->
    File_allocate tok f sz = Ok (off, f') -> file_step tok f f'
| step_free f off sz b sg' :
    free_range_ok f off sz -> free (segments f) off sz = (b, sg') ->
    file_step tok f {| segments := sg'; file_size := file_size f; targetSize := targetSize f |}
| step_swap f target :
    file_step tok f {| segments := swap (segments f) target; file_size := file_size f;
                       targetSize := targetSize f |}.

(** [openFile(name, targetSize)] (lines 41-60) over the results of
    [os.OpenFile] and [fi.Stat()] (the file's size).  [f := _File{}] is
    returned as far as it was filled in: a failed [OpenFile] or [Stat]
    returns the zero [_File] (size and target 0) with the error.  The
    segments stay Go's zero value until [wal.New] sets them. *)
Definition zeroSegments : _Segments :=
  mkSegments (mkSegment 0 0) (mkSegment 0 0) (mkSegment 0 0).

Definition openFile (osOpenFile : result unit) (stat : result Z) (target : Z) : _File * result unit :=
  match osOpenFile with
  | Err e => ({| segments := zeroSegments; file_size := 0; targetSize := 0 |}, Err e)
  | Ok _ =>
    match stat with
    | Err e => ({| segments := zeroSegments; file_size := 0; targetSize := 0 |}, Err e)
    | Ok sz => ({| segments := zeroSegments; file_size := sz; targetSize := target |}, Ok tt)
    end
  end.

(** ** Interval lemmas shared by the preservation proofs *)

Lemma wrap32_le x : 0 <= x -> 0 <= wrap 32 x <= x.
Proof. unfold wrap. intros. split; [apply Z.mod_pos_bound; lia|apply Z.mod_le; lia]. Qed.

Lemma seg_end_i64 fsz s : seg_ok fsz s -> wrap_i64 (offset s + size s) = offset s + size s.
Proof.
  unfold seg_ok, in_uint, maxOff. intros (? & ? & _).
  apply wrap_i64_small. unfold in_int64. lia.
Qed.

Lemma disjoint_sym s t : disjoint s t -> disjoint t s.
Proof. unfold disjoint. lia. Qed.

Lemma disjoint_empty s t : size s = 0 -> disjoint s t.
Proof. unfold disjoint. lia. Qed.

Lemma disjoint_suffix s t n :
  disjoint s t -> 0 <= n <= size s -> 0 <= size t ->
  disjoint (mkSegment (offset s + n) (size s - n)) t.
Proof. unfold disjoint; simpl. lia. Qed.

Lemma disjoint_join s u t n :
  disjoint s t -> disjoint u t -> offset u = offset s + size s -> 0 <= size t ->
  0 <= n <= size s + size u -> disjoint (mkSegment (offset s) n) t.
Proof. unfold disjoint; simpl. lia. Qed.

Lemma seg_ok_mono fsz fsz' s : fsz <= fsz' -> seg_ok fsz s -> seg_ok fsz' s.
Proof. unfold seg_ok, in_uint. lia. Qed.

Lemma seg_ok_suffix fsz s n :
  fsz <= maxOff -> seg_ok fsz s -> 0 < n <= size s -> seg_ok fsz (mkSegment (offset s + n) (size s - n)).
Proof. unfold seg_ok, in_uint, maxOff; simpl. lia. Qed.

Lemma seg_ok_join fsz s u n :
  seg_ok fsz s -> seg_ok fsz u -> offset u = offset s + size s ->
  0 <= n <= size s + size u -> in_uint 32 n -> seg_ok fsz (mkSegment (offset s) n).
Proof. unfold seg_ok, in_uint, maxOff; simpl. lia. Qed.

Lemma seg_ok_size fsz s : seg_ok fsz s -> 0 <= size s.
Proof. unfold seg_ok, in_uint. lia. Qed.

Lemma free_range_seg f off sz :
  0 <= file_size f <= maxOff -> free_range_ok f off sz ->
  seg_ok (file_size f) (mkSegment off sz).
Proof. unfold free_range_ok, seg_ok, in_uint, headerSize; simpl. lia. Qed.

Lemma disjoint_prefix s t n :
  disjoint s t -> 0 <= n <= size s -> disjoint (mkSegment (offset s) n) t.
Proof. unfold disjoint; simpl. lia. Qed.

Lemma seg_ok_empty fsz s : seg_ok fsz s -> seg_ok fsz (mkSegment (offset s) 0).
Proof. unfold seg_ok, in_uint; simpl. lia. Qed.

Ltac wf_split :=
  unfold wf_segments; refine (conj _ (conj _ (conj _ (conj _ (conj _ _))))).

Lemma wf_segments_mono fsz fsz' sg :
  fsz <= fsz' -> wf_segments fsz sg -> wf_segments fsz' sg.
Proof.
  unfold wf_segments. intros Hle (? & ? & ? & ? & ? & ?).
  wf_split; eauto using seg_ok_mono.
Qed.

#[export] Hint Resolve disjoint_sym disjoint_empty seg_ok_size seg_ok_empty : unitdb.

Ltac destruct_wf H :=
  let a := fresh "ok0" in let b := fresh "ok1" in let c := fresh "ok2" in
  let d := fresh "d01" in let e := fresh "d02" in let g := fresh "d12" in
  destruct H as (a & b & c & d & e & g).

(** ** Preservation of the invariant, one operation at a time *)

Lemma wf_allocate tok f sz off f' :
  wf_file f -> in_uint 32 sz -> file_size f + sz <= maxOff ->
  File_allocate tok f sz = Ok (off, f') -> wf_file f'.
Proof.
  unfold File_allocate, currSize, wf_file. intros [Hfs Hwf] Hsz Hmax Halloc.
  destruct (Z.eqb_spec sz 0); [discriminate|].
  rewrite wrap_i64_small in Halloc by (unfold in_int64, in_uint, maxOff in *; lia).
  destruct (_ || _) eqn:Hcond.
  - destruct (tok _); [|discriminate]. injection Halloc as <- <-; simpl.
    unfold in_uint in Hsz. split; [lia|].
    apply wf_segments_mono with (file_size f); [lia|exact Hwf].
  - apply orb_false_iff in Hcond as [_ Hc]. apply Z.ltb_ge in Hc.
    injection Halloc as <- <-; simpl. split; [exact Hfs|].
    destruct_wf Hwf. unfold in_uint in Hsz.
    pose proof (seg_ok_size _ _ ok1).
    rewrite (wrap_small 32), wrap_i64_small
      by (unfold seg_ok, in_uint, in_int64, maxOff in *; lia).
    wf_split; simpl; auto.
    + apply seg_ok_suffix; [lia|exact ok1|lia].
    + apply disjoint_sym, disjoint_suffix; eauto with unitdb; lia.
    + apply disjoint_suffix; eauto with unitdb; lia.
Qed.

Lemma wf_free f off sz b sg' :
  wf_file f -> free_range_ok f off sz -> free (segments f) off sz = (b, sg') ->
  wf_segments (file_size f) sg'.
Proof.
  intros [Hfs Hwf] Hfree Hf. pose proof (free_range_seg f off sz Hfs Hfree) as Hseg.
  destruct Hfree as (Hsz & _ & _ & Hd0 & Hd1 & Hd2).
  destruct_wf Hwf. unfold free in Hf.
  rewrite (seg_end_i64 _ _ ok0), (seg_end_i64 _ _ ok1) in Hf.
  pose proof (wrap32_le (size (sg0 (segments f)) + sz)).
  pose proof (wrap32_le (size (sg1 (segments f)) + sz)).
  pose proof (seg_ok_size _ _ ok0). pose proof (seg_ok_size _ _ ok1).
  pose proof (seg_ok_size _ _ ok2). unfold in_uint in Hsz.
  destruct (Z.eqb_spec (offset (sg0 (segments f)) + size (sg0 (segments f))) off).
  - injection Hf as <- <-. wf_split; simpl; auto.
    + eapply seg_ok_join; [exact ok0|exact Hseg|simpl; lia|simpl; lia|apply wrap_range; lia].
    + eapply disjoint_join; [exact d01|exact Hd1|simpl; lia|lia|simpl; lia].
    + eapply disjoint_join; [exact d02|exact Hd2|simpl; lia|lia|simpl; lia].
  - destruct (Z.eqb_spec (offset (sg1 (segments f)) + size (sg1 (segments f))) off).
    + injection Hf as <- <-. wf_split; simpl; auto.
      * eapply seg_ok_join; [exact ok1|exact Hseg|simpl; lia|simpl; lia|apply wrap_range; lia].
      * apply disjoint_sym.
        eapply disjoint_join; [apply disjoint_sym, d01|exact Hd0|simpl; lia|lia|simpl; lia].
      * eapply disjoint_join; [exact d12|exact Hd2|simpl; lia|lia|simpl; lia].
    + injection Hf as <- <-. wf_split; auto.
Qed.

Lemma wf_swap_merge fsz sg : wf_segments fsz sg -> wf_segments fsz (swap_merge sg).
Proof.
  intros Hwf. destruct_wf Hwf. unfold swap_merge.
  rewrite (seg_end_i64 _ _ ok1).
  destruct (negb _ && _) eqn:Hc; [|wf_split; auto].
  apply andb_true_iff in Hc as [_ Hc]. apply Z.eqb_eq in Hc.
  pose proof (seg_ok_size _ _ ok1). pose proof (seg_ok_size _ _ ok2).
  pose proof (wrap32_le (size (sg1 sg) + size (sg2 sg))).
  wf_split; simpl; auto with unitdb.
  - eapply seg_ok_join; [exact ok1|exact ok2|exact (eq_sym Hc)|lia|apply wrap_range; lia].
  - apply disjoint_sym.
    eapply disjoint_join; [apply disjoint_sym, d01|apply disjoint_sym, d02|lia|eauto with unitdb|simpl; lia].
Qed.

Lemma wf_swap fsz sg target : wf_segments fsz sg -> wf_segments fsz (swap sg target).
Proof.
  intros Hwf. apply wf_swap_merge in Hwf. unfold swap.
  destruct (target <? _); [|exact Hwf].
  destruct_wf Hwf. wf_split; simpl; auto with unitdb.
Qed.


Lemma seg_below fsz s n : seg_ok fsz s -> 0 <= n -> disjoint (mkSegment fsz n) s.
Proof. unfold seg_ok, disjoint, in_uint; simpl. lia. Qed.

Lemma wf_file_step tok f f' : wf_file f -> file_step tok f f' -> wf_file f'.
Proof.
  intros Hwf Hstep. destruct Hstep as [f sz off f' Hsz Hmax Ha|f off sz b sg' Hr Hf|f target].
  - eapply wf_allocate; eauto.
  - split; [apply Hwf|]. exact (wf_free f off sz b sg' Hwf Hr Hf).
  - split; [apply Hwf|]. apply wf_swap, Hwf.
Qed.

Lemma wf_openFile o st target :
  0 <= file_size (openFile o st target).1 <= maxOff -> wf_file (openFile o st target).1.
Proof.
  intros Hsz. split; [exact Hsz|].
  destruct o, st; cbn [openFile fst segments zeroSegments] in *;
  wf_split; simpl; try (apply disjoint_empty; reflexivity);
    unfold seg_ok, in_uint, maxOff; simpl; lia.
Qed.

(** ** Theorems *)

(** C1: Segmented-file soundness.  From the file [openFile] returns
    (opened, or the zero [_File] of a failed open or [Stat]), every
    sequence of [allocate], [free] (of a range that is in the file and
    not already free) and [swap] keeps the three free segments pairwise
    disjoint, each inside [headerSize, size) with a [uint32] size. *)
Theorem segments_invariant (tok : Z -> bool) osOpenFile stat (target : Z) (f : _File) :
  0 <= file_size (openFile osOpenFile stat target).1 <= maxOff ->
  rtc (file_step tok) (openFile osOpenFile stat target).1 f -> wf_file f.
Proof.
  intros Hsz Hrtc. pose proof (wf_openFile osOpenFile stat target Hsz) as H0. clear Hsz.
  induction Hrtc as [|x y z Hxy _ IH]; [exact H0|].
  apply IH. eapply wf_file_step; eauto.
Qed.

Definition tok_all (_ : Z) : bool := true.

Lemma segments_invariant_witness :
  wf_file {| segments := mkSegments (mkSegment 0 0) (mkSegment 0 0) (mkSegment 0 0);
             file_size := 64; targetSize := 1024 |}.
Proof.
  apply (segments_invariant tok_all (Ok tt) (Ok 0) 1024); [cbn; unfold maxOff; lia|].
  apply rtc_once. eapply (step_allocate tok_all _ 64 0).
  - unfold in_uint; lia.
  - unfold maxOff; simpl; lia.
  - vm_compute. reflexivity.
Defined.

(** C2: Allocation safety.  On a well-formed file, a successful
    [_File.allocate] returns a range [off, off+size) that lies inside the
    new file and overlaps none of the free segments left behind. *)
Theorem allocate_disjoint tok f sz off f' :
  wf_file f -> in_uint 32 sz -> file_size f + sz <= maxOff ->
  File_allocate tok f sz = Ok (off, f') ->
  0 <= off /\ off + sz <= file_size f' /\
  disjoint (mkSegment off sz) (sg0 (segments f')) /\
  disjoint (mkSegment off sz) (sg1 (segments f')) /\
  disjoint (mkSegment off sz) (sg2 (segments f')).
Proof.
  unfold File_allocate, currSize. intros [Hfs Hwf] Hsz Hmax Halloc.
  destruct (Z.eqb_spec sz 0); [discriminate|].
  rewrite wrap_i64_small in Halloc by (unfold in_int64, in_uint, maxOff in *; lia).
  destruct_wf Hwf. unfold in_uint in Hsz.
  destruct (_ || _) eqn:Hcond.
  - destruct (tok _); [|discriminate]. injection Halloc as <- <-; simpl.
    split_and!; try lia; apply seg_below; eauto; lia.
  - apply orb_false_iff in Hcond as [_ Hc]. apply Z.ltb_ge in Hc.
    injection Halloc as <- <-; simpl.
    pose proof (seg_ok_size _ _ ok0). pose proof (seg_ok_size _ _ ok2).
    rewrite (wrap_small 32), wrap_i64_small
      by (unfold seg_ok, in_uint, in_int64, maxOff in *; lia).
    destruct ok1 as (? & ? & [?|[? ?]]); [lia|].
    split_and!; try lia.
    + eapply disjoint_prefix; [apply disjoint_sym, d01|simpl; lia].
    + unfold disjoint; simpl; lia.
    + eapply disjoint_prefix; [exact d12|simpl; lia].
Qed.

Lemma allocate_disjoint_witness :
  let f := {| segments := mkSegments (mkSegment 47 0) (mkSegment 100 50) (mkSegment 0 0);
              file_size := 200; targetSize := 100 |} in
  wf_file f /\
  exists f', File_allocate tok_all f 20 = Ok (100, f') /\
  0 <= 100 /\ 100 + 20 <= file_size f' /\
  disjoint (mkSegment 100 20) (sg0 (segments f')) /\
  disjoint (mkSegment 100 20) (sg1 (segments f')) /\
  disjoint (mkSegment 100 20) (sg2 (segments f')).
Proof.
  intros f.
  assert (Hwf : wf_file f).
  { split; [unfold maxOff; simpl; lia|].
    wf_split; unfold seg_ok, disjoint, in_uint, headerSize, maxOff; simpl; lia. }
  split; [exact Hwf|].
  eexists. split; [vm_compute; reflexivity|].
  apply (allocate_disjoint tok_all f 20); [exact Hwf|unfold in_uint; lia|unfold maxOff; simpl; lia|].
  vm_compute. reflexivity.
Defined.

(** No [uint32] underflow on the carve path.  [_File.allocate]
    carves from segment 1 only when the log has reached its target size
    and segment 1 holds at least [size] bytes; it then returns the head
    of segment 1 and shrinks it by exactly [size] (the [uint32]
    subtraction [sg[1].size -= size] never wraps there). *)
Theorem allocate_carve_exact tok f sz :
  wf_file f -> 0 < sz <= currSize (segments f) -> targetSize f <= file_size f + sz ->
  File_allocate tok f sz =
    Ok (offset (sg1 (segments f)),
        {| segments := {| sg0 := sg0 (segments f);
                          sg1 := mkSegment (offset (sg1 (segments f)) + sz)
                                           (size (sg1 (segments f)) - sz);
                          sg2 := sg2 (segments f) |};
           file_size := file_size f; targetSize := targetSize f |}).
Proof.
  unfold File_allocate, currSize, allocate. intros [Hfs Hwf] Hsz Ht.
  destruct_wf Hwf. pose proof (seg_ok_size _ _ ok1).
  destruct (Z.eqb_spec sz 0); [lia|].
  assert (Hs : in_uint 32 (size (sg1 (segments f)))) by apply ok1.
  unfold in_uint in Hs.
  rewrite (wrap_i64_small (file_size f + sz)) by (unfold in_int64, maxOff in *; lia).
  destruct (Z.ltb_spec (file_size f + sz) (targetSize f)); [lia|].
  destruct (Z.ltb_spec (size (sg1 (segments f))) sz); [lia|]. simpl.
  rewrite (wrap_small 32), wrap_i64_small
    by (unfold seg_ok, in_uint, in_int64, maxOff in *; lia).
  reflexivity.
Qed.

Lemma allocate_carve_exact_witness :
  let f := {| segments := mkSegments (mkSegment 47 0) (mkSegment 100 50) (mkSegment 0 0);
              file_size := 200; targetSize := 100 |} in
  File_allocate tok_all f 20 =
    Ok (100, {| segments := mkSegments (mkSegment 47 0) (mkSegment 120 30) (mkSegment 0 0);
                file_size := 200; targetSize := 100 |}).
Proof.
  intros f. apply (allocate_carve_exact tok_all f 20).
  - split; [unfold maxOff; simpl; lia|].
    wf_split; unfold seg_ok, disjoint, in_uint, headerSize, maxOff; simpl; lia.
  - subst f. unfold currSize. simpl. lia.
  - subst f. simpl. lia.
Defined.

(** C4: [free] loses space on [uint32] overflow.  When the freed range
    continues segment 0 and the coalesced size reaches [2^32],
    [_Segments.free] still reports success, but [sg[0].size += size]
    wraps and segment 0 ends up smaller than before: the freed bytes and
    part of the old segment are no longer tracked. *)
Theorem free_size_wraps sg off sz :
  wrap_i64 (offset (sg0 sg) + size (sg0 sg)) = off ->
  in_uint 32 (size (sg0 sg)) -> in_uint 32 sz -> 2 ^ 32 <= size (sg0 sg) + sz ->
  fst (free sg off sz) = true /\
  size (sg0 (snd (free sg off sz))) = size (sg0 sg) + sz - 2 ^ 32 /\
  size (sg0 (snd (free sg off sz))) < size (sg0 sg).
Proof.
  unfold free, in_uint. intros Hoff Hs0 Hsz Hover.
  rewrite Hoff, Z.eqb_refl. simpl. unfold wrap.
  assert ((size (sg0 sg) + sz) mod 2 ^ 32 = size (sg0 sg) + sz - 2 ^ 32) as ->.
  { symmetry. apply Z.mod_unique with 1; lia. }
  split_and!; [reflexivity|reflexivity|lia].
Qed.

Lemma free_size_wraps_witness :
  let sg := mkSegments (mkSegment 47 (2 ^ 32 - 1)) (mkSegment 0 0) (mkSegment 0 0) in
  fst (free sg (47 + 2 ^ 32 - 1) 2) = true /\
  size (sg0 (snd (free sg (47 + 2 ^ 32 - 1) 2))) = 1.
Proof.
  intros sg.
  destruct (free_size_wraps sg (47 + 2 ^ 32 - 1) 2) as (H1 & H2 & _).
  - vm_compute. reflexivity.
  - unfold in_uint; simpl; lia.
  - unfold in_uint; lia.
  - simpl; lia.
  - split; [exact H1|]. rewrite H2. simpl. lia.
Defined.

(** C5: [swap] forgets segment 2.  When segment 1 does not end where a
    non-empty segment 2 starts and the rotation fires, the old segment 2
    is overwritten: on a well-formed file its range is disjoint from all
    three segments after [swap], so that free space is no longer
    tracked by any segment. *)
Theorem swap_forgets_segment2 fsz sg target :
  wf_segments fsz sg -> size (sg2 sg) <> 0 ->
  (size (sg1 sg) = 0 \/ offset (sg1 sg) + size (sg1 sg) <> offset (sg2 sg)) ->
  target < size (sg0 sg) ->
  disjoint (sg2 sg) (sg0 (swap sg target)) /\
  disjoint (sg2 sg) (sg1 (swap sg target)) /\
  disjoint (sg2 sg) (sg2 (swap sg target)).
Proof.
  intros Hwf Hne Hnm Ht. pose proof Hwf as Hwf'. destruct_wf Hwf'.
  unfold swap, swap_merge. rewrite (seg_end_i64 _ _ ok1).
  destruct (negb _ && _) eqn:Hc.
  { apply andb_true_iff in Hc as [Hc1 Hc2]. apply negb_true_iff, Z.eqb_neq in Hc1.
    apply Z.eqb_eq in Hc2. lia. }
  destruct (Z.ltb_spec target (size (sg0 sg))); [|lia]. simpl.
  split_and!; [apply disjoint_sym, disjoint_empty; reflexivity|auto with unitdb|auto with unitdb].
Qed.

Lemma swap_forgets_segment2_witness :
  let sg := mkSegments (mkSegment 47 10) (mkSegment 100 5) (mkSegment 200 20) in
  sg0 (swap sg 5) = mkSegment 47 0 /\ sg1 (swap sg 5) = mkSegment 47 10 /\
  sg2 (swap sg 5) = mkSegment 100 5 /\
  disjoint (sg2 sg) (sg0 (swap sg 5)) /\ disjoint (sg2 sg) (sg1 (swap sg 5)) /\
  disjoint (sg2 sg) (sg2 (swap sg 5)).
Proof.
  intros sg. split_and!; try (vm_compute; reflexivity);
  apply (swap_forgets_segment2 300 sg 5);
    try (wf_split; unfold seg_ok, disjoint, in_uint, headerSize, maxOff; simpl; lia);
    simpl; lia.
Defined.

End Segments.
