(* ===== verification/LogCodec.v ===== *)
(** * WAL headers and their binary codecs (src/wal/header.go, lines 1-95)

    [_LogInfo] is the 28-byte header of a WAL group and [_Header] the
    47-byte header of the WAL file, which embeds the three free segments
    of [Segments].  [MarshalBinary] writes little-endian fields at fixed
    offsets; [UnmarshalBinary] reads them back and panics on a short
    buffer.  The theorems show that both codecs are bijections between
    well-formed records and byte strings of the exact size. *)

From S2P Require Import Prelude Segments.
Import Segments.

Module LogCodec.

(** wal/header.go: [logHeaderSize = 28], [signature]. *)
Definition logHeaderSize : nat := 28.
Definition signature : list Z := [117; 110; 105; 116; 100; 98; 254].

Record _LogInfo := mkLogInfo {
  version : Z;      (** uint16 *)
  status : Z;       (** LogStatus, a uint16 *)
  timeID : Z;       (** int64 *)
  entryCount : Z;   (** uint32 *)
  size : Z;         (** uint32 *)
  offset : Z        (** int64 *)
}.

Definition LogInfo_MarshalBinary (l : _LogInfo) : list Z :=
  le_put 2 (version l) ++ le_put 2 (wrap 16 (status l)) ++ le_put 8 (wrap 64 (timeID l)) ++
  le_put 4 (entryCount l) ++ le_put 4 (size l) ++ le_put 8 (wrap 64 (offset l)).

Definition LogInfo_UnmarshalBinary (data : list Z) : result _LogInfo :=
  v <-- get_le 0 2 data ;;
  st <-- get_le 2 4 data ;;
  t <-- get_le 4 12 data ;;
  n <-- get_le 12 16 data ;;
  sz <-- get_le 16 20 data ;;
  off <-- get_le 20 28 data ;;
  Ok {| version := v; status := st; timeID := to_signed 64 t; entryCount := n;
        size := sz; offset := to_signed 64 off |}.

Record _Header := mkHeader {
  h_signature : list Z;   (** [7]byte *)
  h_version : Z;          (** uint32 *)
  h_segments : _Segments
}.

(** [copy(buf[:7], h.signature[:])] copies the 7 signature bytes. *)
Definition Header_MarshalBinary (h : _Header) : list Z :=
  let sg := h_segments h in
  take 7 (h_signature h) ++ le_put 4 (h_version h) ++
  le_put 4 (Segments.size (sg0 sg)) ++ le_put 8 (wrap 64 (Segments.offset (sg0 sg))) ++
  le_put 4 (Segments.size (sg1 sg)) ++ le_put 8 (wrap 64 (Segments.offset (sg1 sg))) ++
  le_put 4 (Segments.size (sg2 sg)) ++ le_put 8 (wrap 64 (Segments.offset (sg2 sg))).

Definition Header_UnmarshalBinary (data : list Z) : result _Header :=
  sig <-- slice 0 7 data ;;
  v <-- get_le 7 11 data ;;
  s0 <-- get_le 11 15 data ;; o0 <-- get_le 15 23 data ;;
  s1 <-- get_le 23 27 data ;; o1 <-- get_le 27 35 data ;;
  s2 <-- get_le 35 39 data ;; o2 <-- get_le 39 47 data ;;
  Ok {| h_signature := sig; h_version := v;
        h_segments := {| sg0 := mkSegment (to_signed 64 o0) s0;
                         sg1 := mkSegment (to_signed 64 o1) s1;
                         sg2 := mkSegment (to_signed 64 o2) s2 |} |}.

(** ** Well-formed records: every field fits its Go type *)

Definition wf_loginfo (l : _LogInfo) : Prop :=
  in_uint 16 (version l) /\ in_uint 16 (status l) /\ in_int64 (timeID l) /\
  in_uint 32 (entryCount l) /\ in_uint 32 (size l) /\ in_int64 (offset l).

Definition wf_segment_fields (s : _Segment) : Prop :=
  in_uint 32 (Segments.size s) /\ in_int64 (Segments.offset s).

Definition wf_header (h : _Header) : Prop :=
  length (h_signature h) = 7%nat /\ bytes (h_signature h) /\ in_uint 32 (h_version h) /\
  wf_segment_fields (sg0 (h_segments h)) /\ wf_segment_fields (sg1 (h_segments h)) /\
  wf_segment_fields (sg2 (h_segments h)).

Lemma length_LogInfo_MarshalBinary l : length (LogInfo_MarshalBinary l) = logHeaderSize.
Proof. unfold LogInfo_MarshalBinary. rewrite !length_app, !length_le_put. reflexivity. Qed.

(** The decoder reads back every field the encoder wrote. *)
Lemma LogInfo_decode_marshal l :
  wf_loginfo l -> LogInfo_UnmarshalBinary (LogInfo_MarshalBinary l) = Ok l.
Proof.
  intros (Hv & Hs & Ht & Hn & Hsz & Ho).
  unfold LogInfo_UnmarshalBinary, LogInfo_MarshalBinary.
  decode_fields.
  rewrite !to_signed_wrap64, (wrap_small 16) by assumption.
  destruct l; reflexivity.
Qed.

(** C6: Log-info roundtrip.  [UnmarshalBinary] of the 28 bytes written
    by [MarshalBinary] gives back every field of a well-formed
    [_LogInfo], the signed [int64] time ID and offset included. *)
Theorem LogInfo_roundtrip l :
  wf_loginfo l -> LogInfo_UnmarshalBinary (LogInfo_MarshalBinary l) = Ok l.
Proof. apply LogInfo_decode_marshal. Qed.
Lemma LogInfo_roundtrip_witness :
  LogInfo_UnmarshalBinary
    (LogInfo_MarshalBinary (mkLogInfo 1 1 (-5) 3 120 (- 2 ^ 40))) =
  Ok (mkLogInfo 1 1 (-5) 3 120 (- 2 ^ 40)).
Proof. apply LogInfo_roundtrip. unfold wf_loginfo, in_uint, in_int64; simpl; lia. Defined.

(** The log-info decoder is total on 28-byte buffers and is the
    inverse of the encoder: every 28 bytes decode to a well-formed
    [_LogInfo] that [MarshalBinary] writes back as the same bytes. *)
Theorem LogInfo_decode_encode d :
  bytes d -> length d = logHeaderSize ->
  exists l, LogInfo_UnmarshalBinary d = Ok l /\ wf_loginfo l /\ LogInfo_MarshalBinary l = d.
Proof.
  unfold logHeaderSize. intros Hd Hlen.
  set (d1 := drop 2 d). set (d2 := drop 2 d1). set (d3 := drop 8 d2).
  set (d4 := drop 4 d3). set (d5 := drop 4 d4).
  assert (H1 : bytes d1) by (apply bytes_drop, Hd).
  assert (H2 : bytes d2) by (apply bytes_drop, H1).
  assert (H3 : bytes d3) by (apply bytes_drop, H2).
  assert (H4 : bytes d4) by (apply bytes_drop, H3).
  assert (H5 : bytes d5) by (apply bytes_drop, H4).
  assert (length d1 = 26%nat /\ length d2 = 24%nat /\ length d3 = 16%nat /\
          length d4 = 12%nat /\ length d5 = 8%nat) as (L1 & L2 & L3 & L4 & L5)
    by (subst d1 d2 d3 d4 d5; rewrite !length_drop; lia).
  pose proof (le_get_take_range 2 d Hd ltac:(lia)).
  pose proof (le_get_take_range 2 d1 H1 ltac:(lia)).
  pose proof (le_get_take_range 8 d2 H2 ltac:(lia)).
  pose proof (le_get_take_range 4 d3 H3 ltac:(lia)).
  pose proof (le_get_take_range 4 d4 H4 ltac:(lia)).
  pose proof (le_get_take_range 8 d5 H5 ltac:(lia)).
  set (l := mkLogInfo (le_get (take 2 d)) (le_get (take 2 d1))
                      (to_signed 64 (le_get (take 8 d2))) (le_get (take 4 d3))
                      (le_get (take 4 d4)) (to_signed 64 (le_get (take 8 d5)))).
  assert (Hwf : wf_loginfo l) by (split_and!; simpl; auto with unitdb).
  assert (Henc : LogInfo_MarshalBinary l = d).
  { unfold LogInfo_MarshalBinary, l; cbn [version status timeID entryCount size offset].
    rewrite (wrap_small 16), !wrap64_to_signed by assumption.
    assert (E5 : le_put 8 (le_get (take 8 d5)) = d5).
    { rewrite (bytes_split_le 8 d5 H5) at 2 by lia.
      rewrite drop_ge by lia. symmetry. apply app_nil_r. }
    rewrite E5. unfold d5.
    rewrite <- (bytes_split_le 4 d4) by (auto; lia). unfold d4.
    rewrite <- (bytes_split_le 4 d3) by (auto; lia). unfold d3.
    rewrite <- (bytes_split_le 8 d2) by (auto; lia). unfold d2.
    rewrite <- (bytes_split_le 2 d1) by (auto; lia). unfold d1.
    rewrite <- (bytes_split_le 2 d) by (auto; lia). reflexivity. }
  exists l. split_and!; [|exact Hwf|exact Henc].
  rewrite <- Henc. destruct Hwf as (Hv & Hs & Ht & Hn & Hsz & Ho).
  unfold LogInfo_UnmarshalBinary, LogInfo_MarshalBinary. decode_fields.
  rewrite !to_signed_wrap64, (wrap_small 16) by assumption. reflexivity.
Qed.

(** File-header roundtrip.  [UnmarshalBinary] of the 47 bytes
    written by [_Header.MarshalBinary] gives back the signature, the
    version and the three segments of a well-formed header. *)
Theorem Header_roundtrip h :
  wf_header h -> Header_UnmarshalBinary (Header_MarshalBinary h) = Ok h /\
                 length (Header_MarshalBinary h) = Z.to_nat headerSize.
Proof.
  intros (Hl & Hb & Hv & [Hs0 Ho0] & [Hs1 Ho1] & [Hs2 Ho2]).
  unfold Header_UnmarshalBinary, Header_MarshalBinary.
  rewrite take_ge by lia. split.
  - rewrite slice_head by exact Hl. cbn [bind_result].
    decode_fields.
    rewrite !to_signed_wrap64 by assumption.
    destruct h as [sig v [[o0 s0] [o1 s1] [o2 s2]]]; reflexivity.
  - rewrite !length_app, !length_le_put, Hl. reflexivity.
Qed.
Lemma LogInfo_decode_encode_witness :
  let d := [1; 0; 1; 0; 232; 3; 0; 0; 0; 0; 0; 0; 2; 0; 0; 0;
            40; 0; 0; 0; 255; 255; 255; 255; 255; 255; 255; 255] in
  exists l, LogInfo_UnmarshalBinary d = Ok l /\ wf_loginfo l /\ LogInfo_MarshalBinary l = d.
Proof.
  intros d. apply LogInfo_decode_encode; [|reflexivity].
  repeat constructor; unfold is_byte; lia.
Defined.

Lemma Header_roundtrip_witness :
  let h := mkHeader signature 1
             (mkSegments (mkSegment 47 0) (mkSegment 4096 128) (mkSegment (-1) 0)) in
  Header_UnmarshalBinary (Header_MarshalBinary h) = Ok h /\
  length (Header_MarshalBinary h) = 47%nat.
Proof.
  intros h. apply Header_roundtrip.
  split_and!; [reflexivity| repeat constructor; unfold is_byte; lia | ..];
    unfold wf_segment_fields, in_uint, in_int64; simpl; lia.
Defined.
End LogCodec.
