(* ===== verification/WalFrames.v ===== *)
(** * WAL records: [Writer.Append] framing and [Reader.Next]

    A WAL group body is a sequence of self-delimiting records
    [| u32 dataLen | bytes[dataLen-4] |].  [Reader.Next]
    (src/wal/reader.go lines 144-157) decodes them one at
    a time, [Reader.Count] bounds the loop.  [Writer.Append] is not under
    src/; it is modelled from the spec (section 6) as [append_frame].
    The tiny-batch buffer that [db.tinyCommit] splits is framed the same
    way ([DBCommit]). *)

From S2P Require Import Prelude.

Module WalFrames.

(** ** Writer.Append (spec-modelled) *)

Definition append_frame (p : list Z) : list Z :=
  le_put 4 (Z.of_nat (length p) + 4) ++ p.

Definition group (ps : list (list Z)) : list Z := concat (map append_frame ps).

(** ** Reader *)

Record Reader := mkReader { logData : list Z; r_offset : Z; entryCount : Z }.

Definition Count (r : Reader) : Z := entryCount r.

(** [Next]: [r.entryCount--] and [r.offset += dataLen] happen before
    the error returns and the final slice, so the reader returned with
    an error is the updated one.  [None] is Go's [(nil, false, nil)].
    The log data is modelled by its length: Go checks [logData[0:4]]
    against the slice's capacity, which for the body of a group read
    through the buffer may extend past the group, so on fewer than 4
    bytes left Go may read the length from the bytes after the group
    where the model panics.  Within a well-framed group the two agree. *)
Definition Next (r : Reader) : Reader * result (option (list Z)) :=
  if entryCount r =? 0 then (r, Ok None) else
  let r1 := mkReader (logData r) (r_offset r) (entryCount r - 1) in
  match slice_z (r_offset r) (Z.of_nat (length (logData r))) (logData r) with
  | Err e => (r1, Err e)
  | Ok ld =>
    match uint_le 4 ld with
    | Err e => (r1, Err e)
    | Ok dataLen =>
      if wrap 32 (Z.of_nat (length ld)) <? dataLen then (r1, Err errLogData)
      else
        let r2 := mkReader (logData r) (wrap_i64 (r_offset r + dataLen)) (entryCount r - 1) in
        match slice_z 4 dataLen ld with
        | Err e => (r2, Err e)
        | Ok d => (r2, Ok (Some d))
        end
    end
  end.

(** The callers' loop ([startRecover]'s callback, the WAL tests):
    at most [n] calls of [Next], stopping at the first error or at the
    end of the group. *)
Fixpoint next_n (n : nat) (r : Reader) : Reader * result (list (list Z)) :=
  match n with
  | O => (r, Ok [])
  | S n' =>
    match Next r with
    | (r', Err e) => (r', Err e)
    | (r', Ok None) => (r', Ok [])
    | (r', Ok (Some d)) =>
      match next_n n' r' with
      | (r'', Ok ds) => (r'', Ok (d :: ds))
      | (r'', Err e) => (r'', Err e)
      end
    end
  end.

Lemma next_n_S n r :
  next_n (S n) r =
  match Next r with
  | (r', Err e) => (r', Err e)
  | (r', Ok None) => (r', Ok [])
  | (r', Ok (Some d)) =>
    match next_n n r' with
    | (r'', Ok ds) => (r'', Ok (d :: ds))
    | (r'', Err e) => (r'', Err e)
    end
  end.
Proof. reflexivity. Qed.

(** ** One record *)

Lemma length_append_frame p : length (append_frame p) = (4 + length p)%nat.
Proof. unfold append_frame. rewrite length_app, length_le_put. reflexivity. Qed.

Lemma length_group_cons p ps :
  length (group (p :: ps)) = (4 + length p + length (group ps))%nat.
Proof. unfold group. cbn [map concat]. rewrite length_app, length_append_frame. lia. Qed.

(** The payload of a frame: [logData[4:dataLen]]. *)
Lemma slice_frame_payload p rest :
  slice_z 4 (Z.of_nat (length p) + 4) (append_frame p ++ rest) = Ok p.
Proof.
  unfold slice_z.
  assert ((4 <? 0) || (Z.of_nat (length p) + 4 <? 0) = false) as ->
    by (apply orb_false_iff; split; apply Z.ltb_ge; lia).
  replace (Z.to_nat 4) with (length (le_put 4 (Z.of_nat (length p) + 4)))
    by (rewrite length_le_put; reflexivity).
  replace (Z.to_nat (Z.of_nat (length p) + 4))
    with (length (le_put 4 (Z.of_nat (length p) + 4)) + length p)%nat
    by (rewrite length_le_put; lia).
  unfold append_frame. rewrite <- app_assoc. apply slice_app_exact.
Qed.

Lemma uint_le_frame p rest :
  Z.of_nat (length p) + 4 < 2 ^ 32 ->
  uint_le 4 (append_frame p ++ rest) = Ok (Z.of_nat (length p) + 4).
Proof.
  intros H. unfold append_frame. rewrite <- app_assoc.
  apply uint_le_put_app. unfold in_uint. simpl. lia.
Qed.

Lemma Next_frame pre p rest k :
  Z.of_nat (length (pre ++ append_frame p ++ rest)) < 2 ^ 32 ->
  Next (mkReader (pre ++ append_frame p ++ rest) (Z.of_nat (length pre)) (Z.of_nat (S k))) =
  (mkReader (pre ++ append_frame p ++ rest) (Z.of_nat (length (pre ++ append_frame p))) (Z.of_nat k),
   Ok (Some p)).
Proof.
  intros Hlen. unfold Next; cbn [entryCount logData r_offset].
  assert (Hl : Z.of_nat (length pre) + Z.of_nat (length p) + 4 + Z.of_nat (length rest) < 2 ^ 32)
    by (rewrite !length_app, length_append_frame in Hlen; lia).
  destruct (Z.eqb_spec (Z.of_nat (S k)) 0); [lia|].
  rewrite slice_z_suffix. cbv iota beta.
  rewrite uint_le_frame by lia.
  rewrite wrap_small by (unfold in_uint; rewrite length_app, length_append_frame; lia).
  rewrite length_app, length_append_frame.
  destruct (Z.ltb_spec (Z.of_nat (4 + length p + length rest)) (Z.of_nat (length p) + 4)); [lia|].
  rewrite slice_frame_payload. f_equal. f_equal; [|lia].
  rewrite length_app, length_append_frame.
  rewrite wrap_i64_small by (unfold in_int64; lia). lia.
Qed.

(** [next_n] over a group reads its records back, one frame at a time. *)
Lemma next_n_group pre ps rest :
  Z.of_nat (length (pre ++ group ps ++ rest)) < 2 ^ 32 ->
  next_n (S (length ps))
    (mkReader (pre ++ group ps ++ rest) (Z.of_nat (length pre)) (Z.of_nat (length ps))) =
  (mkReader (pre ++ group ps ++ rest) (Z.of_nat (length (pre ++ group ps))) 0, Ok ps).
Proof.
  revert pre. induction ps as [|p ps IH]; intros pre Hlen.
  - rewrite app_nil_r. reflexivity.
  - change (group (p :: ps)) with (append_frame p ++ group ps) in *.
    rewrite <- (app_assoc (append_frame p)) in *.
    cbn [length]. rewrite next_n_S, Next_frame by exact Hlen. cbv iota beta.
    rewrite app_assoc. rewrite (app_assoc pre (append_frame p)) in Hlen.
    rewrite IH by exact Hlen. rewrite <- !app_assoc. reflexivity.
Qed.

(** C9: WAL record roundtrip.  A reader positioned on a group written
    by [Append]s of the payloads [ps], with [entryCount = len ps],
    returns exactly [ps] in order from the first [len ps] calls of
    [Next] and then reports the end of the group; it stops with its
    offset at the end of the group. *)
Theorem Next_group_roundtrip pre ps rest :
  Z.of_nat (length (pre ++ group ps ++ rest)) < 2 ^ 32 ->
  next_n (S (length ps))
    (mkReader (pre ++ group ps ++ rest) (Z.of_nat (length pre)) (Z.of_nat (length ps))) =
  (mkReader (pre ++ group ps ++ rest) (Z.of_nat (length (pre ++ group ps))) 0, Ok ps).
Proof. exact (next_n_group pre ps rest). Qed.

Lemma Next_group_roundtrip_witness :
  next_n 3 (mkReader (group [[7; 8]; [9]]) 0 2) =
  (mkReader (group [[7; 8]; [9]]) 11 0, Ok [[7; 8]; [9]]).
Proof.
  pose proof (Next_group_roundtrip [] [[7; 8]; [9]] []) as H.
  rewrite !app_nil_r in H. apply H. vm_compute. reflexivity.
Defined.
(** C11: A corrupt record length panics.  When the length field of the
    next record is below 4 (shorter than its own header), [Next] passes
    the [len(logData) < dataLen] check and then evaluates
    [logData[4:dataLen]], a Go runtime panic, instead of returning an
    error ([Corrupted] in the spec's error taxonomy). *)
Theorem Next_short_length_panics d rest k :
  0 <= d < 4 -> Z.of_nat (length (le_put 4 d ++ rest)) < 2 ^ 32 ->
  snd (Next (mkReader (le_put 4 d ++ rest) 0 (Z.of_nat (S k)))) = Err errPanic.
Proof.
  intros Hd Hlen. unfold Next; cbn [entryCount logData r_offset].
  destruct (Z.eqb_spec (Z.of_nat (S k)) 0); [lia|].
  pose proof (slice_z_suffix [] (le_put 4 d ++ rest)) as Hs. cbn [app] in Hs. change (Z.of_nat (length (@nil Z))) with 0 in Hs. rewrite Hs.
  cbv iota beta. rewrite uint_le_put_app by (unfold in_uint; simpl; lia).
  rewrite wrap_small by (unfold in_uint; lia).
  rewrite length_app, length_le_put.
  destruct (Z.ltb_spec (Z.of_nat (4 + length rest)) d); [lia|].
  unfold slice_z. destruct (Z.ltb_spec d 0); [lia|]. simpl.
  unfold slice. rewrite bool_decide_eq_false_2 by lia. reflexivity.
Qed.

Lemma Next_short_length_panics_witness :
  snd (Next (mkReader (le_put 4 2 ++ [5; 6]) 0 1)) = Err errPanic.
Proof. apply (Next_short_length_panics 2 [5; 6] 0); [lia|vm_compute; reflexivity]. Defined.
End WalFrames.
