(* ===== verification/TimeMark.v ===== *)
(** * The time mark: the ledger of time IDs (src/memdb/timemark.go)

    [_TimeMark] holds the time IDs in use ([records], with a reference
    count) and the released or aborted ones ([releasedRecords], with the
    time record of their release).  The two Go maps are stdpp [gmap]s.
    Each method is one definition; the wall clock ([time.Now()]) is the
    argument [now], in Unix nanoseconds.  [tm_step] is the step relation
    of the methods, with the clock only moving forward, and
    [tm_invariant] holds in every reachable state. *)

From S2P Require Import Prelude.

Module TimeMark.

Record _TimeRecord := mkTimeRecord { refs : Z; lastUnref : Z }.

#[export] Instance TimeRecord_eq_dec : EqDecision _TimeRecord.
Proof. solve_decision. Defined.

Record _TimeMark := mkTimeMark {
  durations : Z;
  timeRecord : _TimeRecord;
  records : gmap Z _TimeRecord;
  releasedRecords : gmap Z _TimeRecord
}.

Definition newTimeMark (expiryDuration now : Z) : _TimeMark :=
  {| durations := expiryDuration; timeRecord := mkTimeRecord 0 now;
     records := ∅; releasedRecords := ∅ |}.

(** [time.Now().UTC().Nanosecond()]: the nanoseconds within the current
    second, not a Unix time. *)
Definition Nanosecond (now : Z) : Z := now mod 1000000000.

Definition isExpired (r : _TimeRecord) (expDur now : Z) : bool :=
  (0 <? lastUnref r) && (wrap_i64 (lastUnref r + expDur) <=? Nanosecond now).

Definition isReleased_rec (r : _TimeRecord) (lu : Z) : bool :=
  (0 <? lastUnref r) && (lastUnref r <? lu).

Definition newTimeRecord (tm : _TimeMark) (now : Z) : _TimeMark :=
  {| durations := durations tm; timeRecord := mkTimeRecord 0 now;
     records := records tm; releasedRecords := releasedRecords tm |}.

(** [add]: the [r.refs++] acts on a copy of the map value, and the
    record is then overwritten with [refs: 1] whether or not it existed. *)
Definition add (tm : _TimeMark) (timeID : Z) : _TimeMark :=
  {| durations := durations tm; timeRecord := timeRecord tm;
     records := <[timeID := mkTimeRecord 1 0]> (records tm);
     releasedRecords := releasedRecords tm |}.

Definition newTimeID (tm : _TimeMark) (now : Z) : Z * _TimeMark := (now, add tm now).

Definition release (tm : _TimeMark) (timeID : Z) : _TimeMark :=
  match records tm !! timeID with
  | None => tm
  | Some r =>
    let r' := mkTimeRecord (refs r - 1) (lastUnref r) in
    if 0 <? refs r' then
      {| durations := durations tm; timeRecord := timeRecord tm;
         records := <[timeID := r']> (records tm); releasedRecords := releasedRecords tm |}
    else
      {| durations := durations tm; timeRecord := timeRecord tm;
         records := delete timeID (records tm);
         releasedRecords :=
           <[timeID := mkTimeRecord (refs r') (lastUnref (timeRecord tm))]> (releasedRecords tm) |}
  end.

Definition isReleased (tm : _TimeMark) (timeID : Z) : bool :=
  match releasedRecords tm !! timeID with
  | Some r => if refs r =? -1 then false else isReleased_rec r (lastUnref (timeRecord tm))
  | None => false
  end.

Definition isAborted (tm : _TimeMark) (timeID : Z) : bool :=
  match releasedRecords tm !! timeID with
  | Some r => refs r =? -1
  | None => false
  end.

Definition abort (tm : _TimeMark) (timeID : Z) : _TimeMark :=
  {| durations := durations tm; timeRecord := timeRecord tm;
     records := delete timeID (records tm);
     releasedRecords :=
       <[timeID := mkTimeRecord (-1) (lastUnref (timeRecord tm))]> (releasedRecords tm) |}.

(** [startExpirer]: deleting during [range] removes every expired record. *)
Definition startExpirer (tm : _TimeMark) (now : Z) : _TimeMark :=
  {| durations := durations tm; timeRecord := timeRecord tm; records := records tm;
     releasedRecords :=
       filter (fun kv : Z * _TimeRecord => isExpired kv.2 (durations tm) now = false)
              (releasedRecords tm) |}.

(** ** The methods as a step relation *)

Inductive label :=
| LNewTimeRecord (now : Z) | LAdd (timeID : Z) | LRelease (timeID : Z)
| LAbort (timeID : Z) | LExpire (now : Z).

Definition apply_label (tm : _TimeMark) (l : label) : _TimeMark :=
  match l with
  | LNewTimeRecord now => newTimeRecord tm now
  | LAdd t => add tm t
  | LRelease t => release tm t
  | LAbort t => abort tm t
  | LExpire now => startExpirer tm now
  end.

(** The wall clock read by [newTimeRecord] does not go backwards. *)
Definition clock_ok (tm : _TimeMark) (l : label) : Prop :=
  match l with
  | LNewTimeRecord now => lastUnref (timeRecord tm) <= now
  | _ => True
  end.

Inductive tm_step : _TimeMark -> _TimeMark -> Prop :=
| tm_step_intro tm l : clock_ok tm l -> tm_step tm (apply_label tm l).

(** ** The invariant *)

Definition tm_invariant (tm : _TimeMark) : Prop :=
  (forall t r, records tm !! t = Some r -> r = mkTimeRecord 1 0) /\
  (forall t r, releasedRecords tm !! t = Some r ->
     (refs r = 0 \/ refs r = -1) /\ lastUnref r <= lastUnref (timeRecord tm)).

Lemma tm_invariant_new d now : tm_invariant (newTimeMark d now).
Proof. split; intros t r H; simpl in H; rewrite lookup_empty in H; discriminate. Qed.

Lemma tm_invariant_step tm tm' : tm_invariant tm -> tm_step tm tm' -> tm_invariant tm'.
Proof.
  intros Hinv Hstep. destruct Hstep as [tm0 l Hclk]. destruct Hinv as [Hr Hrel].
  destruct l as [now|t|t|t|now]; cbn [apply_label clock_ok] in *;
    unfold newTimeRecord, add, abort, startExpirer; cbn [records releasedRecords timeRecord].
  - split; [exact Hr|]. intros t r H; cbn [records releasedRecords timeRecord lastUnref refs] in H |- *. destruct (Hrel t r H). simpl. lia.
  - split; [|exact Hrel]. intros t' r H; cbn [records releasedRecords timeRecord lastUnref refs] in H |- *.
    apply lookup_insert_Some in H as [[_ <-]|[_ H]]; eauto.
  - unfold release. destruct (records tm0 !! t) as [r|] eqn:Ht; [|split; assumption].
    rewrite (Hr t r Ht). simpl. split.
    + intros t' r' H; cbn [records releasedRecords timeRecord lastUnref refs] in H |- *. apply lookup_delete_Some in H as [_ H]. eauto.
    + intros t' r' H; cbn [records releasedRecords timeRecord lastUnref refs] in H |- *. apply lookup_insert_Some in H as [[_ <-]|[_ H]]; simpl; [lia|eauto].
  - split.
    + intros t' r' H; cbn [records releasedRecords timeRecord lastUnref refs] in H |- *. apply lookup_delete_Some in H as [_ H]. eauto.
    + intros t' r' H; cbn [records releasedRecords timeRecord lastUnref refs] in H |- *. apply lookup_insert_Some in H as [[_ <-]|[_ H]]; simpl; [lia|eauto].
  - split; [exact Hr|]. intros t r H; cbn [records releasedRecords timeRecord lastUnref refs] in H |- *.
    apply map_lookup_filter_Some_1_1 in H. eauto.
Qed.

(** C12: Time-mark invariant.  In every state reachable from
    [newTimeMark] by the methods (with a clock that does not go back),
    every time ID in [records] has reference count exactly 1, and every
    record in [releasedRecords] is released (count 0) or aborted (-1)
    and stamped no later than the current time record. *)
Theorem tm_reachable_invariant d now tm :
  rtc tm_step (newTimeMark d now) tm -> tm_invariant tm.
Proof.
  intros Hrtc. pose proof (tm_invariant_new d now) as H0.
  induction Hrtc as [|x y z Hxy _ IH]; [exact H0|].
  apply IH. eapply tm_invariant_step; eauto.
Qed.

Lemma tm_reachable_invariant_witness :
  tm_invariant (release (add (newTimeMark 60 100) 100) 100).
Proof.
  apply (tm_reachable_invariant 60 100).
  eapply rtc_l; [apply (tm_step_intro _ (LAdd 100)); exact I|].
  apply rtc_once. apply (tm_step_intro _ (LRelease 100)). exact I.
Defined.

(** [add] does not count references.  Adding a time ID twice and
    releasing it once already moves it to [releasedRecords]: the
    [r.refs++] of [add] acts on a copy, so the count stays 1, while the
    spec says [add] increments it. *)
Theorem add_twice_release_once tm t :
  records (release (add (add tm t) t) t) !! t = None /\
  releasedRecords (release (add (add tm t) t) t) !! t =
    Some (mkTimeRecord 0 (lastUnref (timeRecord tm))).
Proof.
  unfold release. simpl. rewrite lookup_insert_eq. simpl.
  rewrite lookup_delete_eq, lookup_insert_eq. split; reflexivity.
Qed.

(** Release takes effect at the next time record.  Releasing a
    time ID held once moves it to [releasedRecords] but [isReleased]
    stays false until [newTimeRecord] reads a later clock; from then on
    it is true. *)
Theorem release_isReleased tm t r :
  tm_invariant tm -> records tm !! t = Some r -> 0 < lastUnref (timeRecord tm) ->
  isReleased (release tm t) t = false /\
  forall now, lastUnref (timeRecord tm) < now ->
    isReleased (newTimeRecord (release tm t) now) t = true.
Proof.
  intros [Hr _] Ht Hpos. pose proof (Hr t r Ht) as ->.
  unfold release, isReleased, isReleased_rec. rewrite Ht. simpl.
  rewrite lookup_insert_eq. simpl. split.
  - decide_tests; auto; lia.
  - intros now Hnow. simpl. decide_tests; auto; lia.
Qed.

Lemma release_isReleased_witness :
  isReleased (release (add (newTimeMark 60 100) 5) 5) 5 = false /\
  isReleased (newTimeRecord (release (add (newTimeMark 60 100) 5) 5) 200) 5 = true.
Proof.
  destruct (release_isReleased (add (newTimeMark 60 100) 5) 5 (mkTimeRecord 1 0)) as [H1 H2].
  - eapply tm_invariant_step; [apply tm_invariant_new|].
    apply (tm_step_intro _ (LAdd 5)). exact I.
  - reflexivity.
  - simpl. lia.
  - split; [exact H1|]. apply H2. simpl. lia.
Defined.

(** C15: The expirer never evicts.  [isExpired] compares the release
    stamp plus the expiry duration with [Nanosecond()], which is below
    [10^9]; for release stamps taken from the wall clock (any Unix time
    after 1970-01-01T00:00:01) [startExpirer] therefore removes
    nothing, whatever the clock. *)
Theorem startExpirer_noop tm now :
  0 <= durations tm ->
  (forall t r, releasedRecords tm !! t = Some r ->
     1000000000 <= lastUnref r /\ lastUnref r + durations tm < 2 ^ 63) ->
  startExpirer tm now = tm.
Proof.
  intros Hd Hall. unfold startExpirer.
  rewrite map_filter_id; [destruct tm; reflexivity|].
  intros t r Ht. destruct (Hall t r Ht) as [H1 H2]. simpl.
  unfold isExpired, Nanosecond.
  rewrite wrap_i64_small by (unfold in_int64; lia).
  pose proof (Z.mod_pos_bound now 1000000000 ltac:(lia)).
  decide_tests; simpl; auto; lia.
Qed.

Lemma startExpirer_noop_witness :
  let tm := release (add (newTimeMark 60 1600000000000000000) 7) 7 in
  startExpirer tm 1700000000000000000 = tm.
Proof.
  intros tm. apply startExpirer_noop.
  - change (durations tm) with 60. lia.
  - assert (E : releasedRecords tm = {[7 := mkTimeRecord 0 1600000000000000000]})
      by (vm_compute; reflexivity).
    change (durations tm) with 60.
    intros t r Ht. rewrite E in Ht.
    apply lookup_singleton_Some in Ht as [_ <-]. simpl. lia.
Defined.

(** A released time ID can be held again and still read as
    released.  [add] does not clear [releasedRecords], so after adding
    a released time ID it has reference count 1 in [records] and
    [isReleased] is still true; the spec says [isReleased] is false
    until the count drops to zero. *)
Theorem add_keeps_released tm t :
  isReleased tm t = true ->
  records (add tm t) !! t = Some (mkTimeRecord 1 0) /\ isReleased (add tm t) t = true.
Proof.
  intros H. split; [apply lookup_insert_eq|]. exact H.
Qed.

Lemma add_keeps_released_witness :
  let tm := newTimeRecord (release (add (newTimeMark 60 100) 5) 5) 200 in
  records (add tm 5) !! 5 = Some (mkTimeRecord 1 0) /\ isReleased (add tm 5) 5 = true.
Proof. intros tm. apply add_keeps_released. reflexivity. Defined.
End TimeMark.
