(* ===== verification/MemBlock.v ===== *)
(** * Memdb: blocks, tiny batches and WAL recovery
      (src/memdb/timelock.go, lines 49-555, memdb's db.go)

    A [_Block] is the staging area of one time ID: a byte slab
    ([_DataTable]) holding framed records [| u32 len | u8 delFlag |
    u64 key | payload |] and a map [records] from the internal key
    [(delFlag, key)] to the record's offset.  The memdb state [_DB] holds
    the block cache (a [gmap] from time ID to block), the current tiny
    batch, the time mark of [TimeMark], and the WAL seen as the list of
    groups written by [SignalInitWrite] and the time IDs signalled
    applied.  Go's map iteration order is an argument of the operations
    that range over a map ([move], [tinyWrite]).  [_DataTable],
    [_TinyBatch], the memdb [Put] and the WAL writer are outside src/ and
    are modelled from the spec. *)

From S2P Require Import Prelude WalFrames TimeMark.
Import WalFrames TimeMark.

Module MemBlock.

(** ** Internal keys *)

Record _Key := mkKey { delFlag : Z; key : Z }.

#[export] Instance Key_eq_dec : EqDecision _Key.
Proof. solve_decision. Defined.

#[export] Instance Key_countable : Countable _Key :=
  inj_countable' (fun k => (delFlag k, key k)) (fun p => mkKey p.1 p.2) (fun k => match k with mkKey _ _ => eq_refl end).

Definition iKey (del : bool) (k : Z) : _Key := mkKey (if del then 1 else 0) k.

(** ** The data table (spec-modelled): an append-only byte slab *)

Definition dt_allocate (data : list Z) (n : Z) : Z * list Z :=
  (Z.of_nat (length data), data ++ replicate (Z.to_nat n) 0).

Definition dt_writeAt (data : list Z) (bs : list Z) (off : Z) : result (list Z) :=
  if (0 <=? off) && (off + Z.of_nat (length bs) <=? Z.of_nat (length data)) then
    Ok (take (Z.to_nat off) data ++ bs ++ drop (Z.to_nat off + length bs) data)
  else Err errIO.

Definition dt_readRaw (data : list Z) (off n : Z) : result (list Z) :=
  if (0 <=? off) && (0 <=? n) && (off + n <=? Z.of_nat (length data)) then
    Ok (take (Z.to_nat n) (drop (Z.to_nat off) data))
  else Err errIO.

(** ** Blocks *)

Record _Block := mkBlock { count : Z; data : list Z; records : gmap _Key Z }.

Definition newBlock : _Block := mkBlock 0 [] ∅.

(** [_Block.put]: the record is entered in [records] before the payload
    is written, so a failing last write leaves it there; [dataLen] is a
    [uint32] and wraps. *)
Definition put (b : _Block) (ikey : _Key) (payload : list Z) : _Block * result unit :=
  let dataLen := wrap 32 (Z.of_nat (length payload) + 8 + 1 + 4) in
  let (off, d0) := dt_allocate (data b) dataLen in
  match dt_writeAt d0 (le_put 4 dataLen) off with
  | Err e => (mkBlock (count b) d0 (records b), Err e)
  | Ok d1 =>
    match dt_writeAt d1 (delFlag ikey :: le_put 8 (key ikey)) (off + 4) with
    | Err e => (mkBlock (count b) d1 (records b), Err e)
    | Ok d2 =>
      let recs := <[ikey := off]> (records b) in
      match dt_writeAt d2 payload (off + 8 + 1 + 4) with
      | Err e => (mkBlock (count b) d2 recs, Err e)
      | Ok d3 => (mkBlock (if delFlag ikey =? 0 then count b + 1 else count b) d3 recs, Ok tt)
      end
    end
  end.

(** ** The memdb state *)

(** [_TinyBatch] (spec-modelled): its time ID, the number of entries and
    whether a user [Batch] manages it. *)
Record _TinyBatch := mkTinyBatch { tb_timeID : Z; tb_count : Z; managed : bool }.

Record _DB := mkDB {
  blockCache : gmap Z _Block;
  tinyBatch : _TinyBatch;
  timeMark : _TimeMark;
  wal : list (Z * Z * list Z);   (** groups written: time ID, entry count, body *)
  applied : list Z               (** time IDs passed to [SignalLogApplied] *)
}.

Definition set_blockCache (db : _DB) (bc : gmap Z _Block) : _DB :=
  mkDB bc (tinyBatch db) (timeMark db) (wal db) (applied db).

Definition incount (tb : _TinyBatch) : _TinyBatch :=
  mkTinyBatch (tb_timeID tb) (tb_count tb + 1) (managed tb).

(** The block of the current tiny batch, created on first use, and the
    tiny-batch count incremented: the shared part of [delete] and
    [Put]; the error of [block.put] is dropped by both. *)
Definition put_current (db : _DB) (ikey : _Key) (payload : list Z) : _DB :=
  let timeID := tb_timeID (tinyBatch db) in
  let block := match blockCache db !! timeID with Some b => b | None => newBlock end in
  let (block', _) := put block ikey payload in
  mkDB (<[timeID := block']> (blockCache db)) (incount (tinyBatch db)) (timeMark db)
       (wal db) (applied db).

(** The block of the current tiny batch, as [put_current] finds it. *)
Definition cur_block (db : _DB) : _Block :=
  match blockCache db !! tb_timeID (tinyBatch db) with Some b => b | None => newBlock end.

(** [DB.delete]: the payload of a deletion marker is the current time ID. *)
Definition delete (db : _DB) (k : Z) : _DB :=
  put_current db (iKey true k) (le_put 8 (wrap 64 (tb_timeID (tinyBatch db)))).

(** [DB.Put] (spec-modelled, section 4.E-F). *)
Definition Put (db : _DB) (k : Z) (payload : list Z) : _DB :=
  put_current db (iKey false k) payload.

(** [DB.move], with [dkeys] the deletion keys of the block in Go's map
    order.  A missing block is a nil pointer: [block.RLock()] panics.
    The loop returns after the first re-issued delete. *)
Fixpoint move_keys (db : _DB) (b : _Block) (dkeys : list _Key) : result _DB :=
  match dkeys with
  | [] => Ok db
  | ik :: rest =>
    match records b !! ik with
    | None => move_keys db b rest
    | Some off =>
      scratch <-- dt_readRaw (data b) off 4 ;;
      dataLen <-- uint_le 4 scratch ;;
      rec <-- dt_readRaw (data b) off dataLen ;;
      if negb (dataLen =? 8 + 1 + 4 + 8) then Err errBadRequest else
      t <-- get_le 13 21 rec ;;
      match blockCache db !! to_signed 64 t with
      | Some _ => Ok (delete db (key ik))
      | None => move_keys db b rest
      end
    end
  end.

Definition move (db : _DB) (timeID : Z) (dkeys : list _Key) : result _DB :=
  match blockCache db !! timeID with
  | None => Err errPanic
  | Some b => move_keys db b dkeys
  end.

(** The deletion keys of a block, in some map order. *)
Definition del_keys (b : _Block) (order : list _Key) : Prop :=
  order ≡ₚ filter (fun ik => delFlag ik = 1) (map fst (map_to_list (records b))).

(** [DB.tinyWrite]: one WAL group holding [data[4:]] of every record,
    in the map order [offs]; a record whose read fails is skipped. *)
Fixpoint tinyWrite_records (d : list Z) (offs : list Z) : result (list (list Z)) :=
  match offs with
  | [] => Ok []
  | off :: rest =>
    scratch <-- dt_readRaw d off 4 ;;
    dataLen <-- uint_le 4 scratch ;;
    match dt_readRaw d off dataLen with
    | Ok rec => ps <-- tinyWrite_records d rest ;; Ok (drop 4 rec :: ps)
    | Err _ => tinyWrite_records d rest
    end
  end.

(** [SignalInitWrite] appends the group to the WAL. *)
Definition tinyWrite (db : _DB) (tb : _TinyBatch) (offs : list Z) : result _DB :=
  match blockCache db !! tb_timeID tb with
  | None => Ok db
  | Some b =>
    ps <-- tinyWrite_records (data b) offs ;;
    Ok (mkDB (blockCache db) (tinyBatch db) (timeMark db)
             (wal db ++ [(tb_timeID tb, Z.of_nat (length ps), group ps)]) (applied db))
  end.

(** The record offsets of a block, in some map order. *)
Definition rec_order (b : _Block) (offs : list Z) : Prop :=
  offs ≡ₚ map snd (map_to_list (records b)).

(** [DB.tinyCommit]: an empty tiny batch is skipped; after the WAL write
    an unmanaged tiny batch releases its time ID. *)
Definition tinyCommit (db : _DB) (tb : _TinyBatch) (offs : list Z) : result _DB :=
  if tb_count tb =? 0 then Ok db else
  db' <-- tinyWrite db tb offs ;;
  if managed tb then Ok db'
  else Ok (mkDB (blockCache db') (tinyBatch db') (release (timeMark db') (tb_timeID tb))
                (wal db') (applied db')).

(** [DB.releaseLog]: the result of [move] is dropped; a missing block is
    dereferenced by [block.Lock()] before [ok] is tested. *)
Definition releaseLog (db : _DB) (timeID : Z) (dkeys : list _Key) : result _DB :=
  let db := match move db timeID dkeys with Ok db' => db' | Err _ => db end in
  match blockCache db !! timeID with
  | None => Err errPanic
  | Some _ =>
    Ok (mkDB (base.delete timeID (blockCache db)) (tinyBatch db) (timeMark db) (wal db)
             (timeID :: applied db))
  end.

(** [DB.newTinyBatch]: a tiny batch whose time ID is a fresh one of the
    time mark. *)
Definition newTinyBatch (tm : _TimeMark) (now : Z) : _TinyBatch * _TimeMark :=
  let (tid, tm') := newTimeID tm now in (mkTinyBatch tid 0 false, tm').

(** The tiny-batch ticker of [tinyBatchLoop]: a non-empty tiny batch is
    handed to the batch pool (returned here), and a new one starts with a
    fresh time ID read from the clock. *)
Definition tinyBatchTick (db : _DB) (now : Z) : option _TinyBatch * _DB :=
  let tb := tinyBatch db in
  let (tb', tm) := newTinyBatch (timeMark db) now in
  (if tb_count tb =? 0 then None else Some tb, mkDB (blockCache db) tb' tm (wal db) (applied db)).

(** ** Recovery ([startRecover]) *)

(** One WAL record: [dBit := logData[0]], [key := Uint64(logData[1:9])],
    [val := logData[9:]]. *)
Definition apply_record (log : gmap Z (list Z)) (logData : list Z) : result (gmap Z (list Z)) :=
  dBit <-- of_option (head logData) ;;
  k <-- get_le 1 9 logData ;;
  if dBit =? 1 then Ok (base.delete k log) else Ok (<[k := drop 9 logData]> log).

(** The [Read] callback: at most [Count] calls of [Next]. *)
Fixpoint replay (fuel : nat) (r : Reader) (log : gmap Z (list Z)) : gmap Z (list Z) * result unit :=
  match fuel with
  | O => (log, Ok tt)
  | S f =>
    match Next r with
    | (_, Err e) => (log, Err e)
    | (_, Ok None) => (log, Ok tt)
    | (r', Ok (Some d)) =>
      match apply_record log d with
      | Err e => (log, Err e)
      | Ok log' => replay f r' log'
      end
    end
  end.

(** [Reader.Read] over the WRITTEN groups, stopping at the first error. *)
Fixpoint read_groups (gs : list (Z * Z * list Z)) (log : gmap Z (list Z))
  : gmap Z (list Z) * result unit :=
  match gs with
  | [] => (log, Ok tt)
  | (_, n, body) :: rest =>
    match replay (Z.to_nat n) (mkReader body 0 n) log with
    | (log', Err e) => (log', Err e)
    | (log', Ok _) => read_groups rest log'
    end
  end.

(** [startRecover] after [wal.New] reported pending groups: the error
    [r.Read] returns is overwritten by the [wal.Reset()] check (lines
    449-473), and the recovered map is then replayed with [Put] (in map
    order).  A Go runtime panic in the callback ([logData[0]] or
    [logData[1:9]] on a short record, [logData[4:dataLen]] in [Next])
    is not an error value: no [recover()] catches it and the process
    dies, which the model keeps as [errPanic]. *)
Definition startRecover (gs : list (Z * Z * list Z)) : gmap Z (list Z) * result unit :=
  let (log, r) := read_groups gs ∅ in
  (log, match r with Err errPanic => Err errPanic | _ => Ok tt end).

(** ** The slab after a [put] *)

(** What [tinyWrite] appends for the record at [off]: [data[4:]] of the
    frame. *)
Definition record_payload (d : list Z) (off : Z) : result (list Z) :=
  scratch <-- dt_readRaw d off 4 ;;
  dataLen <-- uint_le 4 scratch ;;
  rec <-- dt_readRaw d off dataLen ;;
  Ok (drop 4 rec).

(** The frame of a record, as [put] lays it out. *)
Definition frame (ik : _Key) (payload : list Z) : list Z :=
  le_put 4 (Z.of_nat (length payload) + 13) ++ (delFlag ik :: le_put 8 (key ik)) ++ payload.

(** The record fits a [uint32] length and its key fits the frame. *)
Definition put_ok (ik : _Key) (payload : list Z) : Prop :=
  in_uint 8 (delFlag ik) /\ in_uint 64 (key ik) /\ Z.of_nat (length payload) + 13 < 2 ^ 32.

Lemma dt_writeAt_fill pre bs m :
  dt_writeAt (pre ++ replicate (length bs + m) 0) bs (Z.of_nat (length pre)) =
  Ok (pre ++ bs ++ replicate m 0).
Proof.
  unfold dt_writeAt. rewrite length_app, length_replicate.
  destruct (Z.leb_spec 0 (Z.of_nat (length pre))); [|lia].
  destruct (Z.leb_spec (Z.of_nat (length pre) + Z.of_nat (length bs))
                       (Z.of_nat (length pre + (length bs + m)))); [|lia].
  simpl. rewrite Nat2Z.id, take_app_length', drop_app_ge by lia.
  replace (length pre + length bs - length pre)%nat with (length bs) by lia.
  rewrite replicate_add, drop_app_length', app_assoc by (rewrite length_replicate; lia).
  by rewrite <- app_assoc.
Qed.

Lemma put_data b ik p :
  put_ok ik p ->
  put b ik p = (mkBlock (if delFlag ik =? 0 then count b + 1 else count b)
                        (data b ++ frame ik p)
                        (<[ik := Z.of_nat (length (data b))]> (records b)), Ok tt).
Proof.
  intros (Hf & Hk & Hl). unfold put, dt_allocate.
  rewrite wrap_small by (unfold in_uint; lia).
  replace (Z.to_nat (Z.of_nat (length p) + 8 + 1 + 4))
    with (length (le_put 4 (Z.of_nat (length p) + 8 + 1 + 4)) + (length (delFlag ik :: le_put 8 (key ik)) + (length p + 0)))%nat
    by (cbn [length]; rewrite !length_le_put; lia).
  rewrite dt_writeAt_fill. cbv iota beta.
  rewrite replicate_add.
  replace (Z.of_nat (length (data b)) + 4) with (Z.of_nat (length (data b ++ le_put 4 (Z.of_nat (length p) + 8 + 1 + 4))))
    by (rewrite length_app, length_le_put; lia).
  rewrite <- replicate_add, app_assoc, dt_writeAt_fill. cbv iota beta.
  replace (Z.of_nat (length (data b)) + 8 + 1 + 4)
    with (Z.of_nat (length ((data b ++ le_put 4 (Z.of_nat (length p) + 8 + 1 + 4)) ++ delFlag ik :: le_put 8 (key ik))))
    by (rewrite !length_app; cbn [length]; rewrite !length_le_put; lia).
  rewrite app_assoc, (dt_writeAt_fill _ p 0). cbv iota beta.
  unfold frame. rewrite app_nil_r, <- !app_assoc.
  replace (Z.of_nat (length p) + 8 + 1 + 4) with (Z.of_nat (length p) + 13) by lia.
  reflexivity.
Qed.

Lemma dt_readRaw_at pre mid post :
  dt_readRaw (pre ++ mid ++ post) (Z.of_nat (length pre)) (Z.of_nat (length mid)) = Ok mid.
Proof.
  unfold dt_readRaw. rewrite !length_app.
  destruct (Z.leb_spec 0 (Z.of_nat (length pre))); [|lia].
  destruct (Z.leb_spec 0 (Z.of_nat (length mid))); [|lia].
  destruct (Z.leb_spec (Z.of_nat (length pre) + Z.of_nat (length mid))
                       (Z.of_nat (length pre + (length mid + length post)))); [|lia].
  simpl. rewrite !Nat2Z.id, drop_app_length, take_app_length. reflexivity.
Qed.

Lemma dt_readRaw_app d e off n x :
  dt_readRaw d off n = Ok x -> dt_readRaw (d ++ e) off n = Ok x.
Proof.
  unfold dt_readRaw. rewrite length_app.
  destruct (Z.leb_spec 0 off), (Z.leb_spec 0 n), (Z.leb_spec (off + n) (Z.of_nat (length d)));
    simpl; try discriminate.
  intros [= <-].
  destruct (Z.leb_spec (off + n) (Z.of_nat (length d + length e))); [|lia].
  f_equal. rewrite drop_app_le by lia. rewrite take_app_le; [reflexivity|].
  rewrite length_drop. lia.
Qed.

Lemma record_payload_app d e off x :
  record_payload d off = Ok x -> record_payload (d ++ e) off = Ok x.
Proof.
  unfold record_payload. intros H.
  destruct (dt_readRaw d off 4) as [sc|] eqn:E1; [|discriminate]. cbn [bind_result] in H.
  rewrite (dt_readRaw_app _ _ _ _ _ E1). cbn [bind_result].
  destruct (uint_le 4 sc) as [n|]; [|discriminate]. cbn [bind_result] in H |- *.
  destruct (dt_readRaw d off n) as [r|] eqn:E2; [|discriminate].
  by rewrite (dt_readRaw_app _ _ _ _ _ E2).
Qed.

Lemma record_payload_frame pre ik p post :
  put_ok ik p ->
  record_payload (pre ++ frame ik p ++ post) (Z.of_nat (length pre)) =
  Ok (delFlag ik :: le_put 8 (key ik) ++ p).
Proof.
  intros (Hf & Hk & Hl). unfold record_payload, frame.
  rewrite <- !app_assoc.
  replace 4 with (Z.of_nat (length (le_put 4 (Z.of_nat (length p) + 13)))) at 1
    by (rewrite length_le_put; reflexivity).
  rewrite dt_readRaw_at. cbn [bind_result].
  rewrite uint_le_put by (unfold in_uint; simpl; lia). cbn [bind_result].
  rewrite (app_assoc (le_put 4 _) (_ :: _)), (app_assoc (le_put 4 _ ++ _ :: _) p).
  replace (Z.of_nat (length p) + 13)
    with (Z.of_nat (length ((le_put 4 (Z.of_nat (length p) + 13) ++ delFlag ik :: le_put 8 (key ik)) ++ p)))
    at 2 by (rewrite !length_app; cbn [length]; rewrite !length_le_put; lia).
  rewrite dt_readRaw_at. cbn [bind_result].
  rewrite <- app_assoc, drop_app_length' by (rewrite length_le_put; reflexivity).
  reflexivity.
Qed.

(** ** Blocks written by [Put] only *)

(** The block holds, for every key of [m], one record [(0, key)] whose
    payload is the value of the key in [m], and nothing else. *)
Definition puts_inv (b : _Block) (m : gmap Z (list Z)) : Prop :=
  (forall ik off, records b !! ik = Some off ->
     delFlag ik = 0 /\ in_uint 64 (key ik) /\ exists v, m !! key ik = Some v /\
       record_payload (data b) off = Ok (0 :: le_put 8 (key ik) ++ v)) /\
  (forall k v, m !! k = Some v -> is_Some (records b !! mkKey 0 k)).

Lemma puts_inv_new : puts_inv newBlock ∅.
Proof.
  split; intros ? ? H; simpl in H; rewrite lookup_empty in H; discriminate.
Qed.

Lemma puts_inv_put b m k v :
  puts_inv b m -> put_ok (iKey false k) v ->
  puts_inv (fst (put b (iKey false k) v)) (<[k := v]> m).
Proof.
  intros [H1 H2] Hok. rewrite put_data by exact Hok. unfold puts_inv. cbn [fst records data]. split.
  - intros ik off Hik. apply lookup_insert_Some in Hik as [[<- <-]|[Hne Hik]].
    + split; [reflexivity|]. split; [apply Hok|].
      exists v. rewrite lookup_insert_eq. split; [reflexivity|].
      rewrite <- (app_nil_r (frame _ v)). by apply record_payload_frame.
    + destruct (H1 ik off Hik) as (Hd & Hkr & v' & Hm & Hp). split; [exact Hd|].
      split; [exact Hkr|]. exists v'. split; [|by apply record_payload_app].
      rewrite lookup_insert_ne; [exact Hm|].
      intros Heq. apply Hne. destruct ik; simpl in *. subst. reflexivity.
  - intros k' v' Hk'. destruct (decide (k = k')) as [<-|Hne].
    + rewrite lookup_insert_eq. eauto.
    + rewrite lookup_insert_ne in Hk' by exact Hne.
      rewrite lookup_insert_ne by (intros [=]; contradiction). eauto.
Qed.

(** ** From a block to its WAL group, and back by recovery *)

(** A WAL record as [tinyWrite] logs it, [data[4:]] of its frame:
    [dBit], the [uint64] key and the payload. *)
Definition rec_bytes (r : Z * Z * list Z) : list Z := r.1.1 :: le_put 8 r.1.2 ++ r.2.

(** What the recovery callback does with one record. *)
Definition apply_rec (log : gmap Z (list Z)) (r : Z * Z * list Z) : gmap Z (list Z) :=
  if r.1.1 =? 1 then base.delete r.1.2 log else <[r.1.2 := r.2]> log.

Definition enc (k : Z) (v : list Z) : list Z := rec_bytes (0, k, v).

Definition ins (m : gmap Z (list Z)) (kv : Z * list Z) : gmap Z (list Z) := <[kv.1 := kv.2]> m.

Lemma tinyWrite_records_map d (es : list (_Key * Z)) (F : _Key * Z -> list Z) :
  Forall (fun e => record_payload d e.2 = Ok (F e)) es ->
  tinyWrite_records d (map snd es) = Ok (map F es).
Proof.
  induction 1 as [|e es He _ IH]; [reflexivity|].
  unfold record_payload in He. cbn [map tinyWrite_records].
  destruct (dt_readRaw d e.2 4) as [sc|]; [|discriminate]. cbn [bind_result] in He |- *.
  destruct (uint_le 4 sc) as [n|]; [|discriminate]. cbn [bind_result] in He |- *.
  destruct (dt_readRaw d e.2 n) as [r|]; [|discriminate]. cbn [bind_result] in He |- *.
  rewrite IH. cbn [bind_result]. injection He as ->. reflexivity.
Qed.

Lemma apply_record_rec log r :
  in_uint 64 r.1.2 -> apply_record log (rec_bytes r) = Ok (apply_rec log r).
Proof.
  intros Hk. destruct r as [[dbit k] v]. unfold apply_record, rec_bytes, apply_rec.
  cbn [head of_option bind_result fst snd] in *.
  change (dbit :: le_put 8 k ++ v) with ([dbit] ++ le_put 8 k ++ v).
  rewrite (get_le_put [dbit]) by (unfold in_uint in *; simpl; lia). cbn [bind_result].
  cbn [drop app].
  rewrite drop_app_length' by (rewrite length_le_put; reflexivity). by destruct (dbit =? 1).
Qed.

(** The replay of one group of [rs] records applies them in order. *)
Lemma replay_recs pre (rs : list (Z * Z * list Z)) log :
  Forall (fun r => in_uint 64 r.1.2) rs ->
  Z.of_nat (length (pre ++ group (map rec_bytes rs) ++ [])) < 2 ^ 32 ->
  replay (length rs)
    (mkReader (pre ++ group (map rec_bytes rs) ++ [])
              (Z.of_nat (length pre)) (Z.of_nat (length rs))) log =
  (foldl apply_rec log rs, Ok tt).
Proof.
  revert pre log. induction rs as [|r rs IH]; intros pre log Hk Hlen; [reflexivity|].
  inversion Hk as [|? ? Hk1 Hks]; subst.
  cbn [map length foldl] in *. change (group (?x :: ?y)) with (append_frame x ++ group y) in *.
  rewrite <- (app_assoc (append_frame _)) in *.
  cbn [replay]. rewrite Next_frame by exact Hlen. cbv iota beta.
  rewrite apply_record_rec by exact Hk1. cbv iota beta.
  rewrite app_assoc, IH; [reflexivity|exact Hks|].
  rewrite <- app_assoc. exact Hlen.
Qed.

(** A whole group, read from offset 0 as [read_groups] does. *)
Lemma read_group_recs t rs log rest :
  Forall (fun r => in_uint 64 r.1.2) rs ->
  Z.of_nat (length (group (map rec_bytes rs))) < 2 ^ 32 ->
  read_groups ((t, Z.of_nat (length rs), group (map rec_bytes rs)) :: rest) log =
  read_groups rest (foldl apply_rec log rs).
Proof.
  intros Hk Hlen. cbn [read_groups]. rewrite Nat2Z.id.
  pose proof (replay_recs [] rs log Hk) as Hr.
  rewrite !app_nil_l, !app_nil_r in Hr. change (Z.of_nat (length [])) with 0 in Hr.
  rewrite Hr by exact Hlen. reflexivity.
Qed.

Lemma foldl_ins_list_to_map (kvs : list (Z * list Z)) :
  foldl ins ∅ kvs = list_to_map (rev kvs).
Proof.
  unfold list_to_map. generalize (∅ : gmap Z (list Z)).
  induction kvs as [|kv kvs IH]; intros m; [reflexivity|].
  cbn [foldl rev]. rewrite IH, foldr_app. reflexivity.
Qed.

(** Put records [(0, k, v)] of key/value pairs. *)
Definition puts_recs (kvs : list (Z * list Z)) : list (Z * Z * list Z) :=
  map (fun kv => (0, kv.1, kv.2)) kvs.

Lemma foldl_puts_recs log kvs : foldl apply_rec log (puts_recs kvs) = foldl ins log kvs.
Proof. revert log. induction kvs as [|kv kvs IH]; intros log; [reflexivity|]. apply IH. Qed.

Lemma fmap_map_eq {A B} (f : A -> B) (l : list A) : f <$> l = map f l.
Proof. induction l as [|x l IH]; simpl; [reflexivity|]. by rewrite <- IH. Qed.

(** The pairs recovered from a Put-only block, in the order [es]. *)
Definition block_pairs (m : gmap Z (list Z)) (es : list (_Key * Z)) : list (Z * list Z) :=
  map (fun e => (key e.1, m !!! key e.1)) es.

Lemma block_pairs_nodup b m es :
  puts_inv b m -> es ≡ₚ map_to_list (records b) -> NoDup (block_pairs m es).*1.
Proof.
  intros [H1 H2] Hes.
  assert (Hin : forall e, e ∈ es -> records b !! e.1 = Some e.2).
  { intros [ik off] He. apply elem_of_map_to_list. by rewrite <- Hes. }
  rewrite fmap_map_eq. unfold block_pairs. rewrite map_map. simpl.
    rewrite <- (map_map fst key), <- !fmap_map_eq.
    apply NoDup_fmap_2_strong.
    - intros ik1 ik2 Hi1 Hi2 Hk.
      apply list_elem_of_fmap_1 in Hi1 as [[i1 o1] [-> Hi1]].
      apply list_elem_of_fmap_1 in Hi2 as [[i2 o2] [-> Hi2]].
      destruct (H1 _ _ (Hin _ Hi1)) as [Hd1 _]. destruct (H1 _ _ (Hin _ Hi2)) as [Hd2 _].
      destruct i1, i2; simpl in *; congruence.
    - rewrite Hes. apply NoDup_fst_map_to_list.
Qed.

Lemma block_pairs_spec b m es :
  puts_inv b m -> es ≡ₚ map_to_list (records b) ->
  list_to_map (block_pairs m es) = m.
Proof.
  intros Hinv Hes. pose proof (block_pairs_nodup b m es Hinv Hes) as Hnd.
  destruct Hinv as [H1 H2].
  assert (Hin : forall e, e ∈ es -> records b !! e.1 = Some e.2).
  { intros [ik off] He. apply elem_of_map_to_list. by rewrite <- Hes. }
  apply map_eq. intros k. destruct (m !! k) as [v|] eqn:Hk.
  - apply elem_of_list_to_map; [exact Hnd|].
    destruct (H2 k v Hk) as [off Hoff].
    apply list_elem_of_In, in_map_iff. exists (mkKey 0 k, off). split.
    + simpl. f_equal. by apply lookup_total_correct.
    + apply list_elem_of_In. rewrite Hes. by apply elem_of_map_to_list.
  - apply not_elem_of_list_to_map. intros Hk'.
    rewrite fmap_map_eq in Hk'. unfold block_pairs in Hk'. rewrite map_map in Hk'.
    apply list_elem_of_In, in_map_iff in Hk' as [[ik off] [Heq Hi]]. simpl in Heq. subst k.
    apply list_elem_of_In, Hin in Hi. destruct (H1 _ _ Hi) as (_ & _ & v & Hv & _).
    simpl in Hv. congruence.
Qed.

(** Recovery of a block written by [Put]s, whose contents are the map
    [m] from keys to their latest payloads: [tinyWrite] succeeds for
    every map order of [records], and when its WAL group fits the
    reader's [uint32] length check, the replay rebuilds exactly [m]. *)
Lemma block_recover b m offs t :
  puts_inv b m -> rec_order b offs ->
  exists ps, tinyWrite_records (data b) offs = Ok ps /\
    (Z.of_nat (length (group ps)) < 2 ^ 32 ->
     read_groups [(t, Z.of_nat (length ps), group ps)] ∅ = (m, Ok tt)).
Proof.
  intros Hinv Hord. pose proof Hinv as [H1 _].
  destruct (Permutation_map_inv snd (map_to_list (records b)) Hord) as [es [-> Hes]].
  assert (Hin : forall e, e ∈ es -> records b !! e.1 = Some e.2).
  { intros [ik off] He. apply elem_of_map_to_list. by rewrite Hes. }
  exists (map (fun e => enc (key e.1) (m !!! key e.1)) es). split.
  - apply tinyWrite_records_map, Forall_forall. intros e He.
    destruct (H1 _ _ (Hin e He)) as (Hd & _ & v & Hv & Hp).
    rewrite Hp, (lookup_total_correct _ _ _ Hv). reflexivity.
  - intros Hlen.
    assert (E : map (fun e => enc (key e.1) (m !!! key e.1)) es =
                map rec_bytes (puts_recs (block_pairs m es)))
      by (unfold puts_recs, block_pairs; rewrite !map_map; reflexivity).
    rewrite E in *.
    rewrite length_map, read_group_recs by (exact Hlen || (
      apply Forall_forall; intros r Hr; unfold puts_recs, block_pairs in Hr;
      rewrite map_map in Hr; apply list_elem_of_In, in_map_iff in Hr as [e [<- He]];
      apply list_elem_of_In in He; destruct (H1 _ _ (Hin e He)) as (_ & Hk & _); exact Hk)).
    cbn [read_groups]. f_equal.
    rewrite foldl_puts_recs, foldl_ins_list_to_map.
    rewrite <- (list_to_map_proper (block_pairs m es)); [by rewrite (block_pairs_spec b)| |].
    + apply (block_pairs_nodup b); [exact Hinv|by symmetry].
    + apply Permutation_rev.
Qed.


(** ** A tiny batch of Puts, committed and recovered *)

Lemma put_current_cache db ik p :
  blockCache (put_current db ik p) =
    <[tb_timeID (tinyBatch db) := fst (put (cur_block db) ik p)]> (blockCache db) /\
  tinyBatch (put_current db ik p) = incount (tinyBatch db) /\
  wal (put_current db ik p) = wal db /\ applied (put_current db ik p) = applied db /\
  timeMark (put_current db ik p) = timeMark db.
Proof. unfold put_current, cur_block. destruct (put _ _ _). auto. Qed.

(** The API calls [Put k v] of a tiny batch, in order. *)
Definition Puts (db : _DB) (kvs : list (Z * list Z)) : _DB :=
  foldl (fun db kv => Put db kv.1 kv.2) db kvs.

Lemma Puts_fields db kvs :
  tb_timeID (tinyBatch (Puts db kvs)) = tb_timeID (tinyBatch db) /\
  tb_count (tinyBatch (Puts db kvs)) = tb_count (tinyBatch db) + Z.of_nat (length kvs) /\
  managed (tinyBatch (Puts db kvs)) = managed (tinyBatch db) /\
  wal (Puts db kvs) = wal db /\ timeMark (Puts db kvs) = timeMark db /\
  applied (Puts db kvs) = applied db.
Proof.
  revert db. induction kvs as [|[k v] kvs IH]; intros db; [simpl; split_and!; auto; lia|].
  change (Puts db ((k, v) :: kvs)) with (Puts (Put db k v) kvs).
  destruct (IH (Put db k v)) as (T & C & M & W & TM & A). rewrite T, C, M, W, TM, A.
  unfold Put. destruct (put_current_cache db (iKey false k) v) as (_ & T' & W' & A' & TM').
  rewrite T', W', A', TM'. cbn [tb_timeID tb_count managed incount length]. split_and!; auto; lia.
Qed.

(** After the Puts, the block of the tiny batch holds their latest values. *)
Lemma Puts_block db kvs m :
  puts_inv (cur_block db) m -> Forall (fun kv => put_ok (iKey false kv.1) kv.2) kvs ->
  puts_inv (cur_block (Puts db kvs)) (foldl ins m kvs) /\
  (kvs <> [] -> blockCache (Puts db kvs) !! tb_timeID (tinyBatch db) = Some (cur_block (Puts db kvs))).
Proof.
  revert db m. induction kvs as [|[k v] kvs IH]; intros db m Hinv Hok; [split; [exact Hinv|done]|].
  inversion Hok as [|? ? Hkv Hkvs]; subst.
  change (Puts db ((k, v) :: kvs)) with (Puts (Put db k v) kvs).
  unfold Put. destruct (put_current_cache db (iKey false k) v) as (C & T & _).
  assert (Hcur : cur_block (put_current db (iKey false k) v) = fst (put (cur_block db) (iKey false k) v)).
  { unfold cur_block at 1. rewrite C, T. cbn [tb_timeID incount]. by rewrite lookup_insert_eq. }
  destruct (IH (put_current db (iKey false k) v) (<[k := v]> m)) as [IH1 IH2].
  { rewrite Hcur. by apply puts_inv_put. }
  { exact Hkvs. }
  split; [exact IH1|]. intros _. destruct kvs as [|kv' kvs'].
  - cbn [Puts foldl]. rewrite C, lookup_insert_eq, Hcur. reflexivity.
  - rewrite T in IH2. apply IH2. discriminate.
Qed.

(** The Puts of a tiny batch, committed and replayed. *)
Lemma Puts_commit db kvs offs b :
  blockCache db !! tb_timeID (tinyBatch db) = None -> 0 <= tb_count (tinyBatch db) -> kvs <> [] ->
  Forall (fun kv => put_ok (iKey false kv.1) kv.2) kvs ->
  blockCache (Puts db kvs) !! tb_timeID (tinyBatch db) = Some b -> rec_order b offs ->
  exists db' g, tinyCommit (Puts db kvs) (tinyBatch (Puts db kvs)) offs = Ok db' /\
    wal db' = wal db ++ [g] /\
    timeMark db' = (if managed (tinyBatch db) then timeMark db
                    else release (timeMark db) (tb_timeID (tinyBatch db))) /\
    (Z.of_nat (length g.2) < 2 ^ 32 -> read_groups [g] ∅ = (foldl ins ∅ kvs, Ok tt)).
Proof.
  intros Hn Hc Hne Hok Hb Ho.
  destruct (Puts_fields db kvs) as (T & C & M & W & TM & _).
  destruct (Puts_block db kvs ∅) as [Hinv Hcache];
    [unfold cur_block; rewrite Hn; apply puts_inv_new|exact Hok|].
  rewrite (Hcache Hne) in Hb. injection Hb as <-.
  set (tid := tb_timeID (tinyBatch db)) in *.
  destruct (block_recover _ _ offs tid Hinv Ho) as [ps [Hps Hrec]].
  set (P := Puts db kvs) in *. set (g := (tid, Z.of_nat (length ps), group ps)).
  exists (mkDB (blockCache P) (tinyBatch P)
            (if managed (tinyBatch db) then timeMark P else release (timeMark P) tid)
            (wal P ++ [g]) (applied P)), g.
  split_and!.
  - unfold tinyCommit, tinyWrite. rewrite C.
    rewrite (proj2 (Z.eqb_neq _ _)) by (destruct kvs; [done|simpl length; lia]).
    rewrite T. fold tid. rewrite (Hcache Hne), Hps. cbn [bind_result]. rewrite M.
    by destruct (managed (tinyBatch db)).
  - cbn [wal]. by rewrite W.
  - cbn [timeMark]. by rewrite TM.
  - exact Hrec.
Qed.

(** C17: A committed tiny batch of Puts is recovered.  Starting from a
    memdb whose current tiny batch has no block yet, the API calls
    [Put k v] of the tiny batch (with keys and values of valid size)
    followed by [DB.tinyCommit], with the block's records in any map
    order, append one group [g] to the WAL and release the batch's time
    ID unless a user batch manages it; when [g] fits the reader's
    [uint32] length check, the recovery replay of [g] in [startRecover]
    rebuilds the last-writer-wins map of the Puts. *)
Theorem Puts_commit_recover db kvs offs b :
  blockCache db !! tb_timeID (tinyBatch db) = None -> 0 <= tb_count (tinyBatch db) -> kvs <> [] ->
  Forall (fun kv => put_ok (iKey false kv.1) kv.2) kvs ->
  blockCache (Puts db kvs) !! tb_timeID (tinyBatch db) = Some b -> rec_order b offs ->
  exists db' g, tinyCommit (Puts db kvs) (tinyBatch (Puts db kvs)) offs = Ok db' /\
    wal db' = wal db ++ [g] /\
    timeMark db' = (if managed (tinyBatch db) then timeMark db
                    else release (timeMark db) (tb_timeID (tinyBatch db))) /\
    (Z.of_nat (length g.2) < 2 ^ 32 -> read_groups [g] ∅ = (foldl ins ∅ kvs, Ok tt)).
Proof. intros Hn Hc Hne Hok Hb Ho. exact (Puts_commit db kvs offs b Hn Hc Hne Hok Hb Ho). Qed.

Lemma Puts_commit_recover_witness :
  let db := mkDB ∅ (mkTinyBatch 100 0 false) (newTimeMark 60 100) [] [] in
  let kvs := [(5, [7]); (9, [1; 2]); (5, [8])] in
  blockCache db !! 100 = None /\ 0 <= 0 /\ kvs <> [] /\
  Forall (fun kv => put_ok (iKey false kv.1) kv.2) kvs /\
  blockCache (Puts db kvs) !! 100 = Some (cur_block (Puts db kvs)) /\
  rec_order (cur_block (Puts db kvs)) [14; 29] /\
  exists db' g, tinyCommit (Puts db kvs) (tinyBatch (Puts db kvs)) [14; 29] = Ok db' /\
    wal db' = [g] /\ timeMark db' = release (newTimeMark 60 100) 100 /\
    (Z.of_nat (length g.2) < 2 ^ 32 -> read_groups [g] ∅ = (foldl ins ∅ kvs, Ok tt)).
Proof.
  intros db kvs.
  assert (H1 : blockCache db !! 100 = None) by reflexivity.
  assert (H2 : kvs <> []) by discriminate.
  assert (H3 : Forall (fun kv => put_ok (iKey false kv.1) kv.2) kvs)
    by (repeat constructor; unfold in_uint; simpl; lia).
  assert (H4 : blockCache (Puts db kvs) !! 100 = Some (cur_block (Puts db kvs)))
    by (vm_compute; reflexivity).
  assert (H5 : rec_order (cur_block (Puts db kvs)) [14; 29])
    by (unfold rec_order; vm_compute; first [reflexivity|apply perm_swap]).
  split_and!; try assumption; [lia|].
  exact (Puts_commit_recover db kvs [14; 29] _ H1 ltac:(simpl; lia) H2 H3 H4 H5).
Defined.

End MemBlock.
