(* ===== verification/MemDB.v ===== *)
(** * Memdb as a state machine: delete markers, [move] and [releaseLog]
      (src/memdb/timelock.go, lines 283-349 and 492-512)

    [frames_ok P b] says that every record of a block points at a frame
    laid out by [_Block.put] whose payload satisfies [P].  The memdb
    operations of [MemBlock] form the step relation [db_step]; its
    invariant [markers_ok] says that the deletion marker of every block
    holds the time ID of that very block, because [DB.delete] writes the
    current tiny batch's time ID.  From it follows what [DB.move] really
    does: the marker always names a live block (its own), so [move]
    re-issues the first deletion it finds and returns.  The file also
    holds the theorems on [releaseLog] and on recovery: its dependence
    on map order, the groups it drops after a failure, and the re-[Put]
    of the recovered map at the end of [startRecover] (lines 476-486),
    which the next [tinyCommit] logs as a group that replays to the same
    map. *)

From S2P Require Import Prelude WalFrames TimeMark MemBlock.
Import WalFrames TimeMark MemBlock.

Module MemDB.

(** ** Blocks made of frames *)

Definition frames_ok (P : _Key -> list Z -> Prop) (b : _Block) : Prop :=
  forall ik off, records b !! ik = Some off ->
    exists pre p post, data b = pre ++ frame ik p ++ post /\
      off = Z.of_nat (length pre) /\ put_ok ik p /\ P ik p.

(** The payload of a deletion marker of the block of [t]. *)
Definition marker_of (t : Z) (ik : _Key) (p : list Z) : Prop :=
  delFlag ik = 1 -> p = le_put 8 (wrap 64 t).

Definition markers_ok (db : _DB) : Prop :=
  forall t b, blockCache db !! t = Some b -> frames_ok (marker_of t) b.

Lemma length_frame ik p : length (frame ik p) = (length p + 13)%nat.
Proof. unfold frame. rewrite !length_app, length_le_put. cbn [length]. rewrite length_le_put. lia. Qed.

Lemma frames_ok_new P : frames_ok P newBlock.
Proof. intros ik off H. discriminate H. Qed.

Lemma frames_ok_put P b ik p :
  frames_ok P b -> put_ok ik p -> P ik p -> frames_ok P (fst (put b ik p)).
Proof.
  intros Hb Hok HP. rewrite put_data by exact Hok. intros ik' off Hik. cbn [fst records data] in *.
  apply lookup_insert_Some in Hik as [[<- <-]|[_ Hik]].
  - exists (data b), p, []. rewrite app_nil_r. auto.
  - destruct (Hb ik' off Hik) as (pre & p' & post & Hd & Ho & Hok' & HP').
    exists pre, p', (post ++ frame ik p). rewrite Hd, <- !app_assoc. auto.
Qed.

(** The two reads [move] makes at the offset of a frame. *)
Lemma dt_readRaw_frame pre ik p post :
  dt_readRaw (pre ++ frame ik p ++ post) (Z.of_nat (length pre)) 4 =
    Ok (le_put 4 (Z.of_nat (length p) + 13)) /\
  dt_readRaw (pre ++ frame ik p ++ post) (Z.of_nat (length pre)) (Z.of_nat (length p) + 13) =
    Ok (frame ik p).
Proof.
  split.
  - unfold frame. rewrite <- !app_assoc.
    replace 4 with (Z.of_nat (length (le_put 4 (Z.of_nat (length p) + 13)))) at 1
      by (rewrite length_le_put; reflexivity).
    apply dt_readRaw_at.
  - replace (Z.of_nat (length p) + 13) with (Z.of_nat (length (frame ik p))) at 1
      by (rewrite length_frame; lia).
    apply dt_readRaw_at.
Qed.

(** The time ID stored in a deletion marker, as [move] decodes it. *)
Lemma get_le_marker ik t :
  get_le 13 21 (frame ik (le_put 8 (wrap 64 t))) = Ok (wrap 64 t).
Proof.
  unfold frame. rewrite length_le_put.
  pose proof (get_le_put (le_put 4 (Z.of_nat 8 + 13) ++ delFlag ik :: le_put 8 (key ik)) [] 8
                (wrap 64 t) ltac:(uint_side)) as G.
  rewrite length_app in G. cbn [length] in G. rewrite !length_le_put, app_nil_r, <- app_assoc in G.
  exact G.
Qed.

(** ** What [move] does on one key *)

Lemma move_keys_skip db b ik rest :
  records b !! ik = None -> move_keys db b (ik :: rest) = move_keys db b rest.
Proof. intros H. cbn [move_keys]. by rewrite H. Qed.

(** A deletion marker of the block of [t] names [t]; while that block is
    cached, the marker is re-issued and [move] returns. *)
Lemma move_keys_marker db b t ik off rest :
  frames_ok (marker_of t) b -> records b !! ik = Some off -> delFlag ik = 1 ->
  in_int64 t -> is_Some (blockCache db !! t) ->
  move_keys db b (ik :: rest) = Ok (delete db (key ik)).
Proof.
  intros Hb Hik Hd Ht [b' Hc].
  destruct (Hb ik off Hik) as (pre & p & post & Hdata & -> & Hok & Hp).
  specialize (Hp Hd). subst p.
  destruct (dt_readRaw_frame pre ik (le_put 8 (wrap 64 t)) post) as [R1 R2].
  rewrite length_le_put in R1, R2.
  cbn [move_keys]. rewrite Hik, Hdata, R1. cbn [bind_result].
  rewrite uint_le_put by (unfold in_uint; simpl; lia). cbn [bind_result].
  rewrite R2. cbn [bind_result].
  assert (E : (Z.of_nat 8 + 13 =? 8 + 1 + 4 + 8) = true) by reflexivity.
  rewrite E. cbn [negb]. rewrite get_le_marker. cbn [bind_result].
  rewrite to_signed_wrap64 by exact Ht. by rewrite Hc.
Qed.

Ltac bind_cases H :=
  repeat match type of H with
  | bind_result ?c _ = _ => destruct c; cbn [bind_result] in H; try discriminate H
  end.

(** [move] leaves the state alone or issues one [delete], of a key that
    has a record in the moved block. *)
Lemma move_keys_cases db b dk db' :
  move_keys db b dk = Ok db' ->
  db' = db \/ exists ik off, ik ∈ dk /\ records b !! ik = Some off /\ db' = delete db (key ik).
Proof.
  induction dk as [|ik dk IH]; cbn [move_keys]; intros H; [left; congruence|].
  destruct (records b !! ik) as [off|] eqn:E.
  - bind_cases H. destruct (negb _); [discriminate H|]. bind_cases H.
    destruct (blockCache db !! _).
    + injection H as <-. right. exists ik, off. split_and!; [left|exact E|reflexivity].
    + destruct (IH H) as [->|(ik' & off' & Hin & Hr & ->)]; [by left|].
      right. exists ik', off'. split_and!; [by right|exact Hr|reflexivity].
  - destruct (IH H) as [->|(ik' & off' & Hin & Hr & ->)]; [by left|].
    right. exists ik', off'. split_and!; [by right|exact Hr|reflexivity].
Qed.

(** ** The marker invariant is preserved by every memdb operation *)

Lemma put_current_markers db ik p :
  markers_ok db -> put_ok ik p -> marker_of (tb_timeID (tinyBatch db)) ik p ->
  markers_ok (put_current db ik p).
Proof.
  intros Hm Hok HP t b Ht. unfold put_current in Ht.
  assert (Hb0 : frames_ok (marker_of (tb_timeID (tinyBatch db)))
                  (match blockCache db !! tb_timeID (tinyBatch db) with
                   | Some b => b | None => newBlock end)).
  { destruct (blockCache db !! _) eqn:Eb; [exact (Hm _ _ Eb)|apply frames_ok_new]. }
  revert Hb0 Ht. generalize (match blockCache db !! tb_timeID (tinyBatch db) with
                   | Some b => b | None => newBlock end). intros b0 Hb0 Ht.
  destruct (put b0 ik p) as [b' r] eqn:E. cbn [blockCache] in Ht.
  apply lookup_insert_Some in Ht as [[<- <-]|[_ Ht]]; [|exact (Hm _ _ Ht)].
  replace b' with (fst (put b0 ik p)) by (rewrite E; reflexivity).
  by apply frames_ok_put.
Qed.

Lemma delete_markers db k : markers_ok db -> in_uint 64 k -> markers_ok (delete db k).
Proof.
  intros Hm Hk. apply put_current_markers; [exact Hm| |by intros _].
  unfold put_ok, iKey. cbn [delFlag key]. rewrite length_le_put. unfold in_uint in *; simpl; lia.
Qed.

Lemma Put_markers db k p :
  markers_ok db -> in_uint 64 k -> Z.of_nat (length p) + 13 < 2 ^ 32 -> markers_ok (Put db k p).
Proof.
  intros Hm Hk Hp. apply put_current_markers; [exact Hm| |by intros Hd].
  unfold put_ok, iKey. cbn [delFlag key]. unfold in_uint in *; simpl; lia.
Qed.

Lemma move_markers db t dk db' : markers_ok db -> move db t dk = Ok db' -> markers_ok db'.
Proof.
  unfold move. intros Hm H. destruct (blockCache db !! t) as [b|] eqn:Eb; [|discriminate H].
  destruct (move_keys_cases db b dk db' H) as [->|(ik & off & _ & Hr & ->)]; [exact Hm|].
  apply delete_markers; [exact Hm|].
  destruct (Hm t b Eb ik off Hr) as (_ & _ & _ & _ & _ & (_ & Hk & _) & _). exact Hk.
Qed.

Lemma releaseLog_markers db t dk db' :
  markers_ok db -> releaseLog db t dk = Ok db' -> markers_ok db'.
Proof.
  intros Hm. unfold releaseLog.
  assert (Hm' : markers_ok (match move db t dk with Ok db' => db' | Err _ => db end)).
  { destruct (move db t dk) eqn:E; [exact (move_markers _ _ _ _ Hm E)|exact Hm]. }
  revert Hm'. generalize (match move db t dk with Ok db' => db' | Err _ => db end).
  intros d Hd H. destruct (blockCache d !! t); [|discriminate H]. injection H as <-.
  intros t' b Hb. cbn [blockCache] in Hb. apply lookup_delete_Some in Hb as [_ Hb]. exact (Hd _ _ Hb).
Qed.

Lemma tinyCommit_blockCache db tb offs db' :
  tinyCommit db tb offs = Ok db' -> blockCache db' = blockCache db.
Proof.
  unfold tinyCommit, tinyWrite. destruct (tb_count tb =? 0); [congruence|].
  destruct (blockCache db !! tb_timeID tb); cbn [bind_result].
  - destruct (tinyWrite_records _ _); cbn [bind_result]; [|discriminate].
    destruct (managed tb); intros [= <-]; reflexivity.
  - destruct (managed tb); intros [= <-]; reflexivity.
Qed.

Lemma tinyBatchTick_blockCache db now tb db' :
  tinyBatchTick db now = (tb, db') -> blockCache db' = blockCache db.
Proof. unfold tinyBatchTick, newTinyBatch. destruct (newTimeID _ _). intros [= _ <-]. reflexivity. Qed.

(** ** The memdb as a state machine *)

(** One operation of the memdb: a [Put] or [Delete] of the API (whose
    key and value sizes the API validates), the tiny-batch ticker, the
    commit of a tiny batch with the record order of the Go map, and the
    release of a time ID with the deletion keys of its block in map
    order. *)
Inductive db_step : _DB -> _DB -> Prop :=
| step_Put db k p :
    in_uint 64 k -> Z.of_nat (length p) + 13 < 2 ^ 32 -> db_step db (Put db k p)
| step_delete db k : in_uint 64 k -> db_step db (delete db k)
| step_tick db now tb db' : tinyBatchTick db now = (tb, db') -> db_step db db'
| step_commit db tb offs db' : tinyCommit db tb offs = Ok db' -> db_step db db'
| step_release db t dk db' : releaseLog db t dk = Ok db' -> db_step db db'.

Lemma markers_ok_step db db' : markers_ok db -> db_step db db' -> markers_ok db'.
Proof.
  intros Hm Hs. destruct Hs as [db k p Hk Hp|db k Hk|db now tb db' E|db tb offs db' E|db t dk db' E].
  - by apply Put_markers.
  - by apply delete_markers.
  - intros t b. rewrite (tinyBatchTick_blockCache _ _ _ _ E). apply Hm.
  - intros t b. rewrite (tinyCommit_blockCache _ _ _ _ E). apply Hm.
  - exact (releaseLog_markers _ _ _ _ Hm E).
Qed.

Lemma markers_ok_rtc db db' : markers_ok db -> rtc db_step db db' -> markers_ok db'.
Proof. induction 2; eauto using markers_ok_step. Qed.

(** ** Helpers on the current block *)


Lemma tinyWrite_records_cons d o rest x :
  record_payload d o = Ok x ->
  tinyWrite_records d (o :: rest) = (ps <-- tinyWrite_records d rest ;; Ok (x :: ps)).
Proof.
  unfold record_payload. intros H. cbn [tinyWrite_records].
  destruct (dt_readRaw d o 4); cbn [bind_result] in H |- *; [|discriminate].
  destruct (uint_le 4 _); cbn [bind_result] in H |- *; [|discriminate].
  destruct (dt_readRaw d o _); cbn [bind_result] in H |- *; [|discriminate].
  by injection H as <-.
Qed.

(** The block of a tiny batch that put [k] and then deleted it. *)
Lemma put_delete_block db k v :
  blockCache db !! tb_timeID (tinyBatch db) = None -> in_uint 64 k ->
  Z.of_nat (length v) + 13 < 2 ^ 32 ->
  blockCache (delete (Put db k v) k) !! tb_timeID (tinyBatch db) =
    Some (mkBlock 1 (frame (iKey false k) v ++ frame (iKey true k) (le_put 8 (wrap 64 (tb_timeID (tinyBatch db)))))
           (<[iKey true k := Z.of_nat (length (frame (iKey false k) v))]> (<[iKey false k := 0]> ∅))).
Proof.
  intros Hnone Hk Hv. unfold delete, Put.
  destruct (put_current_cache db (iKey false k) v) as (C1 & T1 & _).
  destruct (put_current_cache (put_current db (iKey false k) v) (iKey true k)
              (le_put 8 (wrap 64 (tb_timeID (tinyBatch (put_current db (iKey false k) v)))))) as (C2 & _).
  rewrite C2. rewrite T1. cbn [tb_timeID incount]. rewrite lookup_insert_eq.
  unfold cur_block. rewrite C1, T1. cbn [tb_timeID incount]. rewrite lookup_insert_eq.
  unfold cur_block. rewrite Hnone.
  rewrite !put_data by (unfold put_ok, iKey; cbn [delFlag key]; rewrite ?length_le_put;
                        split_and!; [unfold in_uint; lia|exact Hk|simpl; lia]).
  reflexivity.
Qed.


Lemma delete_fields db k t :
  is_Some (blockCache db !! t) -> is_Some (blockCache (delete db k) !! t) /\
  applied (delete db k) = applied db /\ wal (delete db k) = wal db /\
  timeMark (delete db k) = timeMark db.
Proof.
  intros Hs. unfold delete.
  destruct (put_current_cache db (iKey true k) (le_put 8 (wrap 64 (tb_timeID (tinyBatch db)))))
    as (C & _ & W & A & T).
  rewrite C, W, A, T. split_and!; try reflexivity.
  destruct (decide (tb_timeID (tinyBatch db) = t)) as [<-|Hne].
  - rewrite lookup_insert_eq. eauto.
  - by rewrite lookup_insert_ne.
Qed.

(** What [releaseLog] sees after its [move]: the block is still cached,
    and the WAL, the applied list and the time mark are unchanged. *)
Lemma move_result_fields db t dk :
  is_Some (blockCache db !! t) ->
  let d := match move db t dk with Ok d => d | Err _ => db end in
  is_Some (blockCache d !! t) /\ applied d = applied db /\ wal d = wal db /\
  timeMark d = timeMark db.
Proof.
  intros Hs d. subst d. destruct (move db t dk) as [d|] eqn:E; [|auto].
  unfold move in E. destruct (blockCache db !! t) as [b|] eqn:Eb; [|discriminate E].
  destruct (move_keys_cases _ _ _ _ E) as [->|(ik & off & _ & _ & ->)].
  - rewrite Eb. auto.
  - apply delete_fields. rewrite Eb. eauto.
Qed.


Lemma tinyWrite_ok db tb b offs ps :
  blockCache db !! tb_timeID tb = Some b -> tinyWrite_records (data b) offs = Ok ps ->
  tinyWrite db tb offs =
    Ok (mkDB (blockCache db) (tinyBatch db) (timeMark db)
             (wal db ++ [(tb_timeID tb, Z.of_nat (length ps), group ps)]) (applied db)).
Proof. intros Hb Hp. unfold tinyWrite. by rewrite Hb, Hp. Qed.

Lemma length_rec_bytes r : length (rec_bytes r) = (9 + length r.2)%nat.
Proof. unfold rec_bytes. cbn [length]. rewrite length_app, length_le_put. lia. Qed.

(** The two records of the block of [put_delete_block], as [tinyWrite]
    reads them. *)
Lemma put_delete_payloads k v m8 :
  in_uint 64 k -> Z.of_nat (length v) + 13 < 2 ^ 32 -> length m8 = 8%nat ->
  let d := frame (iKey false k) v ++ frame (iKey true k) m8 in
  record_payload d 0 = Ok (rec_bytes (0, k, v)) /\
  record_payload d (Z.of_nat (length (frame (iKey false k) v))) = Ok (rec_bytes (1, k, m8)).
Proof.
  intros Hk Hv Hm d. split.
  - apply (record_payload_frame [] (iKey false k) v).
    unfold put_ok, iKey; cbn [delFlag key]. split_and!; [unfold in_uint; lia|exact Hk|exact Hv].
  - pose proof (record_payload_frame (frame (iKey false k) v) (iKey true k) m8 []) as H.
    rewrite app_nil_r in H. apply H.
    unfold put_ok, iKey; cbn [delFlag key]. rewrite Hm.
    split_and!; [unfold in_uint; lia|exact Hk|simpl; lia].
Qed.

Lemma put_delete_fields db k v :
  tb_timeID (tinyBatch (delete (Put db k v) k)) = tb_timeID (tinyBatch db) /\
  wal (delete (Put db k v) k) = wal db.
Proof.
  unfold delete, Put.
  destruct (put_current_cache db (iKey false k) v) as (_ & T1 & W1 & _).
  destruct (put_current_cache (put_current db (iKey false k) v) (iKey true k)
    (le_put 8 (wrap 64 (tb_timeID (tinyBatch (put_current db (iKey false k) v)))))) as (_ & T2 & W2 & _).
  split; [by rewrite T2, T1|by rewrite W2, W1].
Qed.

(** ** Claims on the memdb state machine *)

(** C18: Deletion markers name their own block.  In every state reachable
    from a memdb with an empty block cache, each record with [delFlag = 1]
    of the block of time ID [t] is a frame whose 8-byte payload is [t]
    itself: [DB.delete] stores the current tiny batch's time ID, not the
    time ID of the deleted entry. *)
Theorem markers_reachable db0 db :
  blockCache db0 = ∅ -> rtc db_step db0 db -> markers_ok db.
Proof.
  intros H0 Hr. apply (markers_ok_rtc db0); [|exact Hr].
  intros t b Hb. rewrite H0, lookup_empty in Hb. discriminate Hb.
Qed.

(** The memdb a witness starts from: no block, tiny batch 100. *)
Definition db_init : _DB := mkDB ∅ (mkTinyBatch 100 0 false) (newTimeMark 60 100) [] [].

Lemma markers_reachable_witness :
  blockCache db_init = ∅ /\ rtc db_step db_init (delete db_init 5) /\ markers_ok (delete db_init 5).
Proof.
  assert (H0 : blockCache db_init = ∅) by reflexivity.
  assert (Hs : rtc db_step db_init (delete db_init 5)).
  { apply rtc_once, step_delete. unfold in_uint; lia. }
  split; [exact H0|]. split; [exact Hs|]. exact (markers_reachable db_init _ H0 Hs).
Defined.

(** C19: [move] re-issues exactly the first deletion marker.  When the
    markers invariant holds and the block of [t] is cached, [DB.move]
    over the deletion keys [dkeys] of that block (in map order) deletes
    again the key of the first of them that has a record, in the current
    tiny batch, and does nothing else: the marker's time ID is [t], whose
    block is live, and the loop returns after the first [delete]. *)
Theorem move_first_marker db t b dkeys :
  markers_ok db -> blockCache db !! t = Some b -> in_int64 t ->
  Forall (fun ik => delFlag ik = 1) dkeys ->
  move db t dkeys =
    Ok (match List.find (fun ik => bool_decide (is_Some (records b !! ik))) dkeys with
        | Some ik => delete db (key ik)
        | None => db
        end).
Proof.
  intros Hm Hb Ht Hd. unfold move. rewrite Hb.
  induction Hd as [|ik dk Hik _ IH]; [reflexivity|]. cbn [List.find].
  destruct (records b !! ik) as [off|] eqn:E.
  - rewrite bool_decide_eq_true_2 by eauto.
    apply (move_keys_marker db b t ik off dk (Hm t b Hb) E Hik Ht). rewrite Hb. eauto.
  - rewrite bool_decide_eq_false_2 by apply is_Some_None.
    rewrite move_keys_skip by exact E. exact IH.
Qed.

Lemma move_first_marker_witness :
  let db := delete db_init 5 in
  let b := fst (put newBlock (iKey true 5) (le_put 8 (wrap 64 100))) in
  markers_ok db /\ blockCache db !! 100 = Some b /\ in_int64 100 /\
  Forall (fun ik => delFlag ik = 1) [iKey true 5; iKey true 7] /\
  move db 100 [iKey true 5; iKey true 7] = Ok (delete db 5).
Proof.
  intros db b.
  assert (Hm : markers_ok db).
  { apply delete_markers; [|unfold in_uint; lia]. intros t b' Hb'. discriminate Hb'. }
  assert (Hb : blockCache db !! 100 = Some b) by reflexivity.
  assert (Ht : in_int64 100) by (unfold in_int64; lia).
  assert (Hd : Forall (fun ik => delFlag ik = 1) [iKey true 5; iKey true 7])
    by (repeat constructor).
  split_and!; try assumption.
  rewrite (move_first_marker db 100 b _ Hm Hb Ht Hd). reflexivity.
Defined.

(** C20: [releaseLog] drops the block or panics.  With no block for [t],
    [DB.releaseLog] panics ([block.Lock()] on a nil block comes before
    the [!ok] test, so [errEntryDoesNotExist] is never returned).  With a
    block, it always succeeds: after [move], the block of [t] leaves the
    cache, [t] is signalled applied, and the WAL and the time mark are
    unchanged. *)
Theorem releaseLog_spec db t dk :
  (blockCache db !! t = None -> releaseLog db t dk = Err errPanic) /\
  (is_Some (blockCache db !! t) ->
   exists db', releaseLog db t dk = Ok db' /\ blockCache db' !! t = None /\
     applied db' = t :: applied db /\ wal db' = wal db /\ timeMark db' = timeMark db).
Proof.
  split.
  - intros Hn. unfold releaseLog, move. rewrite Hn. cbv zeta iota. by rewrite Hn.
  - intros Hs. unfold releaseLog. cbv zeta.
    destruct (move_result_fields db t dk Hs) as ([b Hb] & A & W & T).
    revert Hb A W T. generalize (match move db t dk with Ok d => d | Err _ => db end).
    intros d Hb A W T. rewrite Hb. eexists. split; [reflexivity|].
    cbn [blockCache applied wal timeMark]. rewrite lookup_delete_eq, A, W, T. auto.
Qed.

Lemma releaseLog_spec_witness :
  releaseLog db_init 100 [] = Err errPanic /\
  exists db', releaseLog (delete db_init 5) 100 [iKey true 5] = Ok db' /\
    blockCache db' !! 100 = None /\ applied db' = 100 :: applied (delete db_init 5) /\
    wal db' = wal (delete db_init 5) /\ timeMark db' = timeMark (delete db_init 5).
Proof.
  split.
  - apply (releaseLog_spec db_init 100 []). reflexivity.
  - apply (releaseLog_spec (delete db_init 5) 100 [iKey true 5]). eexists. reflexivity.
Defined.

(** C21: Recovery depends on Go's map order.  Take a memdb whose WAL is
    empty and whose current tiny batch has no block; [Put] a key and then
    [Delete] it in the same tiny batch.  The block's [records] map holds
    both internal keys; [tinyWrite] logs them in the map's iteration
    order, and both orders are possible.  After a crash, [startRecover]
    replays the group in that order: in one order the key is gone, in
    the other it comes back with its value. *)
Theorem recovery_map_order db k v :
  blockCache db !! tb_timeID (tinyBatch db) = None -> wal db = [] -> in_uint 64 k ->
  Z.of_nat (length v) + 34 < 2 ^ 32 ->
  let db' := delete (Put db k v) k in
  exists b o1 o2 db1 db2,
    blockCache db' !! tb_timeID (tinyBatch db') = Some b /\
    rec_order b o1 /\ rec_order b o2 /\
    tinyWrite db' (tinyBatch db') o1 = Ok db1 /\ tinyWrite db' (tinyBatch db') o2 = Ok db2 /\
    fst (startRecover (wal db1)) = ∅ /\ fst (startRecover (wal db2)) = {[k := v]}.
Proof.
  intros Hn Hw Hk Hv db'.
  set (tid := tb_timeID (tinyBatch db)). set (m8 := le_put 8 (wrap 64 tid)).
  set (L := Z.of_nat (length (frame (iKey false k) v))).
  destruct (put_delete_fields db k v) as [Ht Hwal]. fold db' tid in Ht, Hwal. rewrite Hw in Hwal.
  pose proof (put_delete_block db k v Hn Hk ltac:(lia)) as Hb. fold tid m8 db' in Hb.
  rewrite <- Ht in Hb. fold L in Hb.
  set (b := mkBlock 1 (frame (iKey false k) v ++ frame (iKey true k) m8)
                      (<[iKey true k := L]> (<[iKey false k := 0]> ∅))) in Hb.
  destruct (put_delete_payloads k v m8 Hk ltac:(lia) ltac:(apply length_le_put)) as [P0 P1].
  assert (Hperm : map snd (map_to_list (records b)) ≡ₚ [L; 0]).
  { cbn [records b]. rewrite map_to_list_insert, map_to_list_insert, map_to_list_empty.
    - reflexivity.
    - apply lookup_empty.
    - rewrite lookup_insert_ne, lookup_empty; [reflexivity|discriminate]. }
  set (r0 := (0, k, v)). set (r1 := (1, k, m8)).
  assert (Hg : forall rs, rs = [r0; r1] \/ rs = [r1; r0] ->
                Z.of_nat (length (group (map rec_bytes rs))) < 2 ^ 32 /\
                Forall (fun r => in_uint 64 r.1.2) rs).
  { intros rs [-> | ->]; (split; [|constructor; [exact Hk|constructor; [exact Hk|constructor]]]);
      unfold group; cbn [map concat]; rewrite !length_app, !length_append_frame, !length_rec_bytes;
      cbn [length snd r0 r1]; subst m8; rewrite length_le_put; lia. }
  exists b, [0; L], [L; 0].
  eexists. eexists. split_and!.
  - exact Hb.
  - unfold rec_order. rewrite Hperm. apply perm_swap.
  - unfold rec_order. by rewrite Hperm.
  - apply (tinyWrite_ok _ _ b); [exact Hb|].
    rewrite (tinyWrite_records_cons _ _ _ _ P0), (tinyWrite_records_cons _ _ _ _ P1). reflexivity.
  - apply (tinyWrite_ok _ _ b); [exact Hb|].
    rewrite (tinyWrite_records_cons _ _ _ _ P1), (tinyWrite_records_cons _ _ _ _ P0). reflexivity.
  - cbn [wal]. rewrite Hwal, Ht. cbn [app]. unfold startRecover.
    rewrite (read_group_recs tid [r0; r1] ∅ []) by (apply Hg; by left).
    cbn [read_groups foldl fst]. unfold apply_rec. cbn [r0 r1 fst snd Z.eqb].
    by rewrite delete_insert_eq, delete_empty.
  - cbn [wal]. rewrite Hwal, Ht. cbn [app]. unfold startRecover.
    rewrite (read_group_recs tid [r1; r0] ∅ []) by (apply Hg; by right).
    cbn [read_groups foldl fst]. unfold apply_rec. cbn [r0 r1 fst snd Z.eqb].
    by rewrite delete_empty.
Qed.

Lemma recovery_map_order_witness :
  blockCache db_init !! tb_timeID (tinyBatch db_init) = None /\ wal db_init = [] /\
  in_uint 64 5 /\ Z.of_nat (length [7]) + 34 < 2 ^ 32 /\
  let db' := delete (Put db_init 5 [7]) 5 in
  exists b o1 o2 db1 db2,
    blockCache db' !! tb_timeID (tinyBatch db') = Some b /\
    rec_order b o1 /\ rec_order b o2 /\
    tinyWrite db' (tinyBatch db') o1 = Ok db1 /\ tinyWrite db' (tinyBatch db') o2 = Ok db2 /\
    fst (startRecover (wal db1)) = ∅ /\ fst (startRecover (wal db2)) = {[5 := [7]]}.
Proof.
  assert (H1 : blockCache db_init !! tb_timeID (tinyBatch db_init) = None) by reflexivity.
  assert (H2 : wal db_init = []) by reflexivity.
  assert (H3 : in_uint 64 5) by (unfold in_uint; lia).
  assert (H4 : Z.of_nat (length [7]) + 34 < 2 ^ 32) by (simpl; lia).
  split_and!; try assumption.
  exact (recovery_map_order db_init 5 [7] H1 H2 H3 H4).
Defined.

(** C22: Recovery hides a failed group and drops the rest.  When the
    replay of a WRITTEN group stops on an error value (a record whose
    length field runs past the group makes [Reader.Next] return its
    "logData error"), [Reader.Read] returns that error, it is
    overwritten by the [wal.Reset()] check, and [startRecover] reports
    success with the entries read so far: the groups after the failed
    one are never replayed, whatever they hold, and the WAL is reset. *)
Theorem startRecover_drops_after_error t n body log' e rest :
  replay (Z.to_nat n) (mkReader body 0 n) ∅ = (log', Err e) -> e <> errPanic ->
  startRecover ((t, n, body) :: rest) = (log', Ok tt).
Proof. intros H He. unfold startRecover. cbn [read_groups]. rewrite H. by destruct e. Qed.

(** A runtime panic in the replay is not hidden: the process dies. *)
Lemma startRecover_panic t n body log' rest :
  replay (Z.to_nat n) (mkReader body 0 n) ∅ = (log', Err errPanic) ->
  startRecover ((t, n, body) :: rest) = (log', Err errPanic).
Proof. intros H. unfold startRecover. cbn [read_groups]. by rewrite H. Qed.

(** A group of one record whose length field says 100 bytes, followed by
    a well-formed group. *)
Lemma startRecover_drops_after_error_witness :
  replay 1 (mkReader [100; 0; 0; 0] 0 1) ∅ = (∅, Err errLogData) /\ errLogData <> errPanic /\
  startRecover [(1, 1, [100; 0; 0; 0]); (2, 1, group [rec_bytes (0, 5, [7])])] = (∅, Ok tt).
Proof.
  assert (H : replay 1 (mkReader [100; 0; 0; 0] 0 1) ∅ = (∅, Err errLogData)) by (vm_compute; reflexivity).
  assert (He : errLogData <> errPanic) by discriminate.
  split_and!; [exact H|exact He|]. exact (startRecover_drops_after_error 1 1 _ _ _ _ H He).
Defined.

(** The recovered map, re-Put in any map order and committed, is
    recovered again.  [startRecover] ends with
    [for k, val := range log { db.Put(k, val) }]: from a memdb whose
    tiny batch has no block yet, these Puts (keys and values of valid
    size) in whatever order Go's map iteration takes, followed by the
    next [tinyCommit], append one WAL group whose replay rebuilds exactly
    [log]. *)
Theorem recovered_reput_roundtrip db (log : gmap Z (list Z)) kvs offs b :
  blockCache db !! tb_timeID (tinyBatch db) = None -> 0 <= tb_count (tinyBatch db) -> log <> ∅ ->
  kvs ≡ₚ map_to_list log -> map_Forall (fun k v => put_ok (iKey false k) v) log ->
  blockCache (Puts db kvs) !! tb_timeID (tinyBatch db) = Some b -> rec_order b offs ->
  exists db' g, tinyCommit (Puts db kvs) (tinyBatch (Puts db kvs)) offs = Ok db' /\
    wal db' = wal db ++ [g] /\
    (Z.of_nat (length g.2) < 2 ^ 32 -> read_groups [g] ∅ = (log, Ok tt)).
Proof.
  intros Hn Hc Hne Hkvs Hok Hb Ho.
  assert (Hne' : kvs <> []).
  { intros ->. apply Hne, map_to_list_empty_iff. by apply Permutation_nil. }
  assert (Hok' : Forall (fun kv => put_ok (iKey false kv.1) kv.2) kvs).
  { apply Forall_forall. intros [k v] Hin. rewrite Hkvs in Hin.
    apply elem_of_map_to_list in Hin. exact (Hok k v Hin). }
  destruct (Puts_commit db kvs offs b Hn Hc Hne' Hok' Hb Ho) as (db' & g & H1 & H2 & _ & H4).
  exists db', g. split_and!; [done|done|]. intros Hl. rewrite (H4 Hl), foldl_ins_list_to_map.
  assert (Hp : rev kvs ≡ₚ map_to_list log) by (rewrite <- Hkvs; symmetry; apply Permutation_rev).
  rewrite <- (list_to_map_to_list log). f_equal. apply list_to_map_proper; [|exact Hp].
  rewrite Hp. apply NoDup_fst_map_to_list.
Qed.

Lemma recovered_reput_roundtrip_witness :
  let log : gmap Z (list Z) := <[9 := [1; 2]]> {[5 := [7]]} in
  let kvs := map_to_list log in
  let offs := map snd (map_to_list (records (cur_block (Puts db_init kvs)))) in
  exists db' g, tinyCommit (Puts db_init kvs) (tinyBatch (Puts db_init kvs)) offs = Ok db' /\
    wal db' = wal db_init ++ [g] /\
    (Z.of_nat (length g.2) < 2 ^ 32 -> read_groups [g] ∅ = (log, Ok tt)).
Proof.
  intros log kvs offs.
  apply (recovered_reput_roundtrip db_init log kvs offs (cur_block (Puts db_init kvs))).
  - reflexivity.
  - cbn. lia.
  - vm_compute. discriminate.
  - reflexivity.
  - apply map_Forall_insert_2; [|apply map_Forall_singleton]; unfold put_ok, in_uint; cbn; lia.
  - vm_compute. reflexivity.
  - unfold rec_order. reflexivity.
Defined.

End MemDB.
