(* ===== verification/MemLifecycle.v ===== *)
(** * Memdb set-up and shutdown (src/memdb/timelock.go, lines 25-48, 157-252, 540-555)

    The time lock is a bank of [nLocks] mutexes picked by a consistent
    hash of the time ID; [addTimeBlock] records, for the block key of a
    key, a bloom-filter block per time ID and appends the key to the
    block key's filter; [newBatchPool] clamps its worker count; [batch]
    starts a user batch under a fresh time ID registered in the time
    mark; [close] sets the closed flag once, runs the shutdown steps and
    closes the closer once.

    The mutexes are their indices (locking is not modelled: every
    operation runs atomically); the consistent hash, the bloom filter
    and the closer are outside src/ and are Section context, the bloom
    filter as the spec describes it: a generator that appends keys and
    whose [Bytes()] is a snapshot a filter block is built from. *)

From S2P Require Import Prelude TimeMark MemBlock.

Module MemLifecycle.

(** ** The time lock (lines 25-48) *)

(** [_TimeLock]: the mutexes, here their indices. *)
Record _TimeLock := mkTimeLock { internal : list nat }.

Section TimeLock.
(** [nLocks] and [hash.Consistent.FindBlock]. *)
Context (nLocks : nat) (findBlock : Z -> nat).

(** [newTimeLock]: [nLocks] mutexes. *)
Definition newTimeLock : _TimeLock := mkTimeLock (seq 0 nLocks).

(** [mu.internal[mu.consistent.FindBlock(uint64(timeID))]]: an index out
    of range panics. *)
Definition getTimeLock (mu : _TimeLock) (timeID : Z) : result nat :=
  of_option (internal mu !! findBlock (wrap 64 timeID)).

End TimeLock.

(** ** [addTimeBlock] (lines 157-184) *)

(** [_BlockRecord]: the filter block of each time ID and the block key's
    filter generator, as the keys appended to it. *)
Record _BlockRecord := mkBlockRecord { timeRecords : gmap Z (list Z); filter : list Z }.

Section TimeBlocks.
(** [db.consistent.FindBlock(key)]. *)
Context (findBlock : Z -> Z).

(** [DB.blockID]: the [_BlockKey] is a [uint16]. *)
Definition blockID (key : Z) : Z := wrap 16 (findBlock key).

(** [DB.addTimeBlock(timeID, key)]: a block key without a record is left
    alone; a new time ID gets [filter.NewFilterBlock(r.filter.Bytes())]
    before the key is appended. *)
Definition addTimeBlock (timeBlocks : gmap Z _BlockRecord) (timeID key : Z)
  : gmap Z _BlockRecord * result unit :=
  let blockKey := blockID key in
  match timeBlocks !! blockKey with
  | None => (timeBlocks, Ok tt)
  | Some r =>
    let trs :=
      match timeRecords r !! timeID with
      | Some _ => timeRecords r
      | None => <[timeID := filter r]> (timeRecords r)
      end in
    (<[blockKey := mkBlockRecord trs (filter r ++ [key])]> timeBlocks, Ok tt)
  end.

End TimeBlocks.

(** ** [newBatchPool] and [batch] (lines 192-210, 242-252) *)

(** The fields [newBatchPool] sets: [maxBatches] and the capacity of
    [writeQueue]; the dispatcher goroutine is not modelled. *)
Record _BatchPool := mkBatchPool { maxBatches : Z; writeQueueCap : Z }.

(** [DB.newBatchPool(maxBatches)]: there must be at least one batch. *)
Definition newBatchPool (maxB : Z) : _BatchPool :=
  let maxB := if maxB <? 1 then 1 else maxB in
  mkBatchPool maxB 1.

(** A user [Batch]: its tiny batch and its group of tiny batches. *)
Record Batch := mkBatch { b_tinyBatch : MemBlock._TinyBatch; tinyBatchGroup : gmap Z MemBlock._TinyBatch }.

(** [DB.batch()]: the time ID is the clock's [UnixNano], registered in
    the time mark. *)
Definition batch (db : MemBlock._DB) (now : Z) : MemBlock._DB * Batch :=
  let tm := TimeMark.add (MemBlock.timeMark db) now in
  (MemBlock.mkDB (MemBlock.blockCache db) (MemBlock.tinyBatch db) tm (MemBlock.wal db) (MemBlock.applied db),
   mkBatch (MemBlock.mkTinyBatch now 0 false) ∅).

(** ** [close] (lines 212-240, 540-555) *)

(** The closed flag and the closer. *)
Record Lifecycle (C : Type) := mkLifecycle { closed : bool; closer : option C }.
Arguments mkLifecycle {C}. Arguments closed {C}. Arguments closer {C}.

(** What [close] does after setting the flag. *)
Inductive close_event :=
| SleepRecordInterval | CloseSignal | StopBatchPool | AcquireWriteLock | WaitGoroutines
| CloseCloser | UnregisterMeters.

Section Close.
Context {C : Type} (closerClose : C -> result unit).

(** [DB.setClosed]: [atomic.CompareAndSwapUint32(&db.closed, 0, 1)]. *)
Definition setClosed (s : Lifecycle C) : Lifecycle C * bool :=
  if closed s then (s, false) else (mkLifecycle true (closer s), true).

(** [DB.isClosed] and [DB.ok]. *)
Definition isClosed (s : Lifecycle C) : bool := closed s.

Definition ok (s : Lifecycle C) : result unit := if isClosed s then Err errDbClosed else Ok tt.

(** [DB.close]: the closer's error is returned, and the closer is
    dropped whether it failed or not. *)
Definition close (s : Lifecycle C) : Lifecycle C * list close_event * result unit :=
  let '(s1, fresh) := setClosed s in
  if negb fresh then (s1, [], Err errClosed) else
  let steps := [SleepRecordInterval; CloseSignal; StopBatchPool; AcquireWriteLock; WaitGoroutines] in
  match closer s1 with
  | Some c => (mkLifecycle (closed s1) None, steps ++ [CloseCloser; UnregisterMeters], closerClose c)
  | None => (s1, steps ++ [UnregisterMeters], Ok tt)
  end.

End Close.

#[export] Instance close_event_eq_dec : EqDecision close_event.
Proof. solve_decision. Defined.

(** ** [tinyBatchLoop] (lines 514-537) *)

(** What the loop's [select] receives, and the memdb [Put] calls that
    run between its iterations. *)
Inductive loop_event := Tick (now : Z) | CloseC | UserPut (k : Z) (payload : list Z).

(** [tinyBatchLoop] over a run of events: the memdb, the tiny batches
    handed to [batchPool.write] in order, and whether the loop returned.
    A tick dispatches a non-empty tiny batch and starts a new one; the
    closed [closeC] returns at once. *)
Fixpoint tinyBatchLoop (db : MemBlock._DB) (evs : list loop_event) : MemBlock._DB * list MemBlock._TinyBatch * bool :=
  match evs with
  | [] => (db, [], false)
  | CloseC :: _ => (db, [], true)
  | Tick now :: rest =>
    let '(w, db1) := MemBlock.tinyBatchTick db now in
    let '(db2, ws, ret) := tinyBatchLoop db1 rest in
    (db2, match w with Some tb => tb :: ws | None => ws end, ret)
  | UserPut k p :: rest => tinyBatchLoop (MemBlock.Put db k p) rest
  end.

Section CloseRuns.
Context {C : Type} (closerClose : C -> result unit).

(** [n] calls of [close] in a row: the state, the steps run and the errors returned. *)
Fixpoint close_n (n : nat) (s : Lifecycle C) : Lifecycle C * list close_event * list (result unit) :=
  match n with
  | O => (s, [], [])
  | S n' =>
    let '(s1, ev, r) := close closerClose s in
    let '(s2, evs, rs) := close_n n' s1 in (s2, ev ++ evs, r :: rs)
  end.

(** Once closed, [close] does nothing but fail. *)
Lemma close_n_closed n s :
  closed s = true -> close_n n s = (s, [], replicate n (Err errClosed)).
Proof.
  intros Hc. induction n as [|n IH]; [done|]. cbn [close_n].
  unfold close, setClosed. rewrite Hc. cbn. by rewrite IH.
Qed.

(** C7: The closer is closed exactly once.  From an open memdb with a
    closer, any run of one or more [close] calls closes the closer once
    and only once: the first call runs every shutdown step and returns
    the closer's error, drops the closer and leaves [ok] failing with
    "db is closed"; every later call returns [errClosed] and runs no
    step. *)
Theorem close_closer_once n s c :
  closed s = false -> closer s = Some c ->
  let '(s', evs, rs) := close_n (S n) s in
  count_occ close_event_eq_dec evs CloseCloser = 1%nat /\ closer s' = None /\ ok s' = Err errDbClosed /\
  rs = closerClose c :: replicate n (Err errClosed) /\
  evs = [SleepRecordInterval; CloseSignal; StopBatchPool; AcquireWriteLock; WaitGoroutines;
         CloseCloser; UnregisterMeters].
Proof.
  intros Hc Hcl. cbn [close_n]. unfold close at 1, setClosed. rewrite Hc. cbn [negb closer]. rewrite Hcl.
  rewrite close_n_closed by done. cbn. by split_and!.
Qed.

End CloseRuns.

Lemma close_closer_once_witness :
  closed (mkLifecycle false (Some tt)) = false /\ closer (mkLifecycle false (Some tt)) = Some tt /\
  let '(s', evs, rs) := close_n (fun _ => Err errIO) 2 (mkLifecycle false (Some tt)) in
  count_occ close_event_eq_dec evs CloseCloser = 1%nat /\ closer s' = None /\ ok s' = Err errDbClosed /\
  rs = (fun _ : unit => Err errIO) tt :: replicate 1 (Err errClosed) /\
  evs = [SleepRecordInterval; CloseSignal; StopBatchPool; AcquireWriteLock; WaitGoroutines;
         CloseCloser; UnregisterMeters].
Proof.
  split_and!; [reflexivity|reflexivity|].
  exact (close_closer_once (fun _ => Err errIO) 1 (mkLifecycle false (Some tt)) tt eq_refl eq_refl).
Defined.

(** The [Put] events run as [Puts]. *)
Lemma tinyBatchLoop_puts db kvs evs :
  tinyBatchLoop db (map (fun kv => UserPut kv.1 kv.2) kvs ++ evs) = tinyBatchLoop (MemBlock.Puts db kvs) evs.
Proof. revert db. induction kvs as [|[k v] kvs IH]; intros db; [done|]. apply IH. Qed.

(** C28: Puts after the last tick are not written at shutdown.  [close]
    sleeps and then closes [closeC]; the loop returns on [closeC]
    without dispatching its tiny batch, so Puts made after the last tick
    stay in a tiny batch that no [batchPool.write] receives, while a
    tick before [closeC] would have dispatched exactly that batch. *)
Theorem tinyBatchLoop_close_drops db kvs now rest :
  kvs <> [] ->
  let '(db', ws, ret) := tinyBatchLoop db (map (fun kv => UserPut kv.1 kv.2) kvs ++ CloseC :: rest) in
  ret = true /\ ws = [] /\ db' = MemBlock.Puts db kvs /\
  MemBlock.tb_count (MemBlock.tinyBatch db') = MemBlock.tb_count (MemBlock.tinyBatch db) + Z.of_nat (length kvs) /\
  (0 <= MemBlock.tb_count (MemBlock.tinyBatch db) ->
   (tinyBatchLoop db (map (fun kv => UserPut kv.1 kv.2) kvs ++ Tick now :: CloseC :: rest)).1.2 = [MemBlock.tinyBatch db']).
Proof.
  intros Hk. rewrite !tinyBatchLoop_puts. cbn [tinyBatchLoop].
  destruct (MemBlock.Puts_fields db kvs) as (_ & C & _).
  split_and!; [done|done|done|done|]. intros Hc.
  unfold MemBlock.tinyBatchTick. destruct (MemBlock.newTinyBatch _ _). cbn.
  rewrite C. destruct kvs; [done|]. cbn [length]. by rewrite (proj2 (Z.eqb_neq _ _)) by lia.
Qed.

(** An empty memdb whose tiny batch has time ID 100. *)
Definition ex_memdb : MemBlock._DB :=
  MemBlock.mkDB ∅ (MemBlock.mkTinyBatch 100 0 false) (TimeMark.newTimeMark 60 100) [] [].

Lemma tinyBatchLoop_close_drops_witness :
  [(5, [1])] <> [] /\
  let '(db', ws, ret) := tinyBatchLoop ex_memdb (map (fun kv => UserPut kv.1 kv.2) [(5, [1])] ++ CloseC :: []) in
  ret = true /\ ws = [] /\ db' = MemBlock.Puts ex_memdb [(5, [1])] /\
  MemBlock.tb_count (MemBlock.tinyBatch db') = MemBlock.tb_count (MemBlock.tinyBatch ex_memdb) + Z.of_nat (length [(5, [1])]) /\
  (0 <= MemBlock.tb_count (MemBlock.tinyBatch ex_memdb) ->
   (tinyBatchLoop ex_memdb (map (fun kv => UserPut kv.1 kv.2) [(5, [1])] ++ Tick 9 :: CloseC :: [])).1.2 =
     [MemBlock.tinyBatch db']).
Proof. split; [discriminate|]. exact (tinyBatchLoop_close_drops ex_memdb [(5, [1])] 9 [] ltac:(discriminate)). Defined.

End MemLifecycle.
