(* ===== verification/TableDB.v ===== *)
(** * The table memdb (src/unnamed/part_002, package memdb)

    An older memdb kept beside the block memdb: a [DB] is a byte table
    of package mem (not under src/; it behaves like the append-only
    [_DataTable] of [MemBlock], whose [dt_allocate], [dt_writeAt] and
    [dt_readRaw] model it) and a map [cache] from a [uint64] key to the
    offset of the record [| u32 len | data |] last written for it.
    [Set] appends a record and points the key at it; [Get] follows the
    key and returns [data[4:]]; [Count] is [uint32(len(cache))].  The
    theorems show that [Get] returns the value of the last [Set] of a key
    and the values of the other keys untouched, and how [Count]
    moves. *)

From S2P Require Import Prelude MemBlock.

Module TableDB.

(** [MaxTableSize = (1 << 33) - 1]. *)
Definition MaxTableSize : Z := 2 ^ 33 - 1.

(** [type DB struct]: the table ([blockCache]), its capacity, and
    [cache]; the mutex is not modelled and the closer is an argument of
    [Close]. *)
Record DB := mkTableDB { blockCache : list Z; memSize : Z; cache : gmap Z Z }.

(** [Open]: a size below 1GB is replaced by [MaxTableSize]. *)
Definition Open (memSize : Z) : DB :=
  mkTableDB [] (if memSize <? 2 ^ 30 then MaxTableSize else memSize) ∅.

(** [DB.Get]: [data[4:]] of the record the key points at. *)
Definition Get (db : DB) (key : Z) : result (list Z) :=
  match cache db !! key with
  | None => Err errCacheNotFound
  | Some off =>
    scratch <-- MemBlock.dt_readRaw (blockCache db) off 4 ;;
    dataLen <-- uint_le 4 scratch ;;
    data <-- MemBlock.dt_readRaw (blockCache db) off dataLen ;;
    slice 4 (length data) data
  end.

(** [DB.Set]: the table has grown by the allocation even when a write
    fails; [cache] is updated only after both writes. *)
Definition Set_ (db : DB) (key : Z) (data : list Z) : DB * result unit :=
  let n := wrap 32 (Z.of_nat (length data) + 4) in
  let (off, d0) := MemBlock.dt_allocate (blockCache db) n in
  match MemBlock.dt_writeAt d0 (le_put 4 n) off with
  | Err e => (mkTableDB d0 (memSize db) (cache db), Err e)
  | Ok d1 =>
    match MemBlock.dt_writeAt d1 data (off + 4) with
    | Err e => (mkTableDB d1 (memSize db) (cache db), Err e)
    | Ok d2 => (mkTableDB d2 (memSize db) (<[key := off]> (cache db)), Ok tt)
    end
  end.

(** [DB.Count] and [DB.FileSize]. *)
Definition Count (db : DB) : Z := wrap 32 (Z.of_nat (size (cache db))).

Definition FileSize (db : DB) : Z := Z.of_nat (length (blockCache db)).

Section Close.
Context {C : Type}.
(** [db.blockCache.close()], [mem.remove(db.blockCache.name())] and
    [db.closer.Close()]. *)
Context (tableClose : list Z -> result unit) (memRemove : result unit) (closerClose : C -> result unit).

(** [DB.Close] with the closer [db.closer]: the table is closed and its
    file removed before the closer; the closer is dropped once closed.
    The test [err == nil] holds wherever it is reached, so the closer's
    error is returned. *)
Definition Close (db : DB) (closer : option C) : option C * result unit :=
  match tableClose (blockCache db) with
  | Err e => (closer, Err e)
  | Ok _ =>
    match memRemove with
    | Err e => (closer, Err e)
    | Ok _ =>
      match closer with
      | Some c => (None, closerClose c)
      | None => (None, Ok tt)
      end
    end
  end.

End Close.

(** ** The table invariant: every key points at a whole record *)

Definition table_ok (db : DB) : Prop :=
  forall k off, cache db !! k = Some off ->
    exists pre v post, blockCache db = pre ++ le_put 4 (Z.of_nat (length v) + 4) ++ v ++ post /\
      off = Z.of_nat (length pre) /\ Z.of_nat (length v) + 4 < 2 ^ 32.

Lemma dt_readRaw_len pre mid post n :
  n = Z.of_nat (length mid) ->
  MemBlock.dt_readRaw (pre ++ mid ++ post) (Z.of_nat (length pre)) n = Ok mid.
Proof. intros ->. apply MemBlock.dt_readRaw_at. Qed.

(** [Get] of a key that points at a whole record. *)
Lemma Get_record db k pre v post :
  blockCache db = pre ++ le_put 4 (Z.of_nat (length v) + 4) ++ v ++ post ->
  cache db !! k = Some (Z.of_nat (length pre)) -> Z.of_nat (length v) + 4 < 2 ^ 32 ->
  Get db k = Ok v.
Proof.
  intros Hd Hk Hl. unfold Get. rewrite Hk, Hd.
  rewrite (dt_readRaw_len pre (le_put 4 _) (v ++ post) 4) by (rewrite length_le_put; reflexivity).
  cbn [bind_result]. rewrite uint_le_put by (unfold in_uint; simpl; lia). cbn [bind_result].
  rewrite (app_assoc (le_put 4 _) v post), (dt_readRaw_len pre (le_put 4 _ ++ v) post)
    by (rewrite length_app, length_le_put; lia).
  cbn [bind_result].
  change 4%nat with (length (le_put 4 (Z.of_nat (length v) + 4))) at 1.
  apply slice_suffix.
Qed.

Lemma Get_table_ok db k :
  table_ok db -> (cache db !! k = None /\ Get db k = Err errCacheNotFound) \/
  exists pre v post, blockCache db = pre ++ le_put 4 (Z.of_nat (length v) + 4) ++ v ++ post /\
    cache db !! k = Some (Z.of_nat (length pre)) /\ Z.of_nat (length v) + 4 < 2 ^ 32 /\
    Get db k = Ok v.
Proof.
  intros Hok. destruct (cache db !! k) as [off|] eqn:E.
  - destruct (Hok k off E) as (pre & v & post & Hd & -> & Hl). right.
    exists pre, v, post. split_and!; auto. by apply (Get_record db k pre v post).
  - left. unfold Get. by rewrite E.
Qed.

(** [Set] of a value that fits a [uint32] record. *)
Lemma Set_ok db k data :
  Z.of_nat (length data) + 4 < 2 ^ 32 ->
  Set_ db k data =
    (mkTableDB (blockCache db ++ le_put 4 (Z.of_nat (length data) + 4) ++ data) (memSize db)
               (<[k := Z.of_nat (length (blockCache db))]> (cache db)), Ok tt).
Proof.
  intros Hl. unfold Set_, MemBlock.dt_allocate.
  rewrite wrap_small by (unfold in_uint; lia).
  replace (Z.to_nat (Z.of_nat (length data) + 4))
    with (length (le_put 4 (Z.of_nat (length data) + 4)) + (length data + 0))%nat
    by (rewrite length_le_put; lia).
  rewrite MemBlock.dt_writeAt_fill. cbv iota beta.
  replace (Z.of_nat (length (blockCache db)) + 4)
    with (Z.of_nat (length (blockCache db ++ le_put 4 (Z.of_nat (length data) + 4))))
    by (rewrite length_app, length_le_put; lia).
  rewrite app_assoc, (MemBlock.dt_writeAt_fill _ data 0). cbv iota beta.
  rewrite app_nil_r, <- app_assoc. reflexivity.
Qed.

(** [dt_writeAt] past the end of a prefix keeps the prefix. *)
Lemma dt_writeAt_keeps_prefix p r bs off d' :
  Z.of_nat (length p) <= off -> MemBlock.dt_writeAt (p ++ r) bs off = Ok d' ->
  exists r', d' = p ++ r'.
Proof.
  unfold MemBlock.dt_writeAt. intros Hoff.
  destruct (_ && _); [|discriminate]. intros [= <-].
  rewrite take_app_ge by lia. exists (take (Z.to_nat off - length p) r ++ bs ++ drop (Z.to_nat off + length bs) (p ++ r)).
  by rewrite <- app_assoc.
Qed.

Lemma dt_writeAt_length d bs off d' :
  MemBlock.dt_writeAt d bs off = Ok d' -> length d' = length d.
Proof.
  unfold MemBlock.dt_writeAt. destruct (_ && _) eqn:H; [|discriminate]. intros [= <-].
  apply andb_true_iff in H as [H1 H2]. apply Z.leb_le in H1, H2.
  rewrite !length_app, length_take, length_drop. lia.
Qed.

Lemma table_ok_grow db db' :
  table_ok db -> (exists r, blockCache db' = blockCache db ++ r) -> cache db' = cache db ->
  table_ok db'.
Proof.
  intros Hok [r Hr] Hc k off Hk. rewrite Hc in Hk.
  destruct (Hok k off Hk) as (pre & v & post & Hd & Ho & Hl).
  exists pre, v, (post ++ r). rewrite Hr, Hd, <- !app_assoc. auto.
Qed.

(** Every [Set], failing or not, keeps the table invariant. *)
Lemma table_ok_Set db k data : table_ok db -> table_ok (fst (Set_ db k data)).
Proof.
  intros Hok.
  destruct (Z_lt_le_dec (Z.of_nat (length data) + 4) (2 ^ 32)) as [Hl|Hl].
  - rewrite Set_ok by exact Hl. intros k' off Hk. cbn [fst cache blockCache] in *.
    apply lookup_insert_Some in Hk as [[<- <-]|[_ Hk]].
    + exists (blockCache db), data, []. rewrite app_nil_r. auto.
    + destruct (Hok k' off Hk) as (pre & v & post & Hd & Ho & Hl').
      exists pre, v, (post ++ le_put 4 (Z.of_nat (length data) + 4) ++ data).
      rewrite Hd, <- !app_assoc. auto.
  - unfold Set_, MemBlock.dt_allocate.
    set (d0 := blockCache db ++ replicate _ 0).
    destruct (MemBlock.dt_writeAt d0 _ _) as [d1|e] eqn:E1.
    + destruct (MemBlock.dt_writeAt d1 data _) as [d2|e] eqn:E2.
      * exfalso. pose proof (dt_writeAt_length _ _ _ _ E1) as L1.
        unfold MemBlock.dt_writeAt in E2. destruct (_ && _) eqn:Hc; [|discriminate].
        apply andb_true_iff in Hc as [_ Hc]. apply Z.leb_le in Hc.
        rewrite L1 in Hc. subst d0. rewrite length_app, length_replicate in Hc.
        pose proof (wrap_range 32 (Z.of_nat (length data) + 4) ltac:(lia)) as Hw.
        unfold in_uint in Hw. lia.
      * apply (table_ok_grow db); [exact Hok| |reflexivity].
        eapply (dt_writeAt_keeps_prefix (blockCache db)); [|exact E1]. lia.
    + apply (table_ok_grow db); [exact Hok| |reflexivity]. by eexists.
Qed.

(** The table memdb as a state machine: any [Set] from [Open]. *)
Inductive table_step : DB -> DB -> Prop :=
| step_Set db k data : table_step db (fst (Set_ db k data)).

(** ** Claims *)

(** C23: The table invariant.  In every table memdb reachable from
    [Open] by [Set]s of any key and any value (including those whose
    write fails), each key of [cache] points at a whole record
    [| u32 len | data |] of the table with [len = len(data) + 4]. *)
Theorem table_reachable n db : rtc table_step (Open n) db -> table_ok db.
Proof.
  intros Hr. remember (Open n) as d0 eqn:E.
  assert (H0 : table_ok d0) by (subst d0; intros k off Hk; discriminate Hk).
  clear E. induction Hr as [x|x y z [db' k data] _ IH]; [exact H0|].
  apply IH. by apply table_ok_Set.
Qed.

Lemma table_reachable_witness :
  table_ok (fst (Set_ (fst (Set_ (Open 0) 3 [1; 2])) 3 [9])).
Proof.
  apply (table_reachable 0). eapply rtc_l; [apply step_Set|]. apply rtc_once, step_Set.
Defined.

(** C8: [Get] after [Set].  On a table satisfying the invariant, a
    [Set] of a value that fits a [uint32] record succeeds; [Get] of its
    key then returns the value, [Get] of every other key returns what it
    returned before, and [Count] grows by one exactly when the key was
    new. *)
Theorem Get_after_Set db k data :
  table_ok db -> Z.of_nat (length data) + 4 < 2 ^ 32 ->
  snd (Set_ db k data) = Ok tt /\
  Get (fst (Set_ db k data)) k = Ok data /\
  (forall k', k' <> k -> Get (fst (Set_ db k data)) k' = Get db k') /\
  Count (fst (Set_ db k data)) =
    match cache db !! k with
    | Some _ => Count db
    | None => wrap 32 (Z.of_nat (size (cache db)) + 1)
    end.
Proof.
  intros Hok Hl. rewrite Set_ok by exact Hl. cbn [fst snd]. split_and!.
  - reflexivity.
  - apply (Get_record _ k (blockCache db) data []); [by rewrite app_nil_r| |exact Hl].
    cbn [cache]. apply lookup_insert_eq.
  - intros k' Hne.
    destruct (Get_table_ok db k' Hok) as [[Hn HE]|(pre & v & post & Hd & Hk & Hl' & HG)].
    + rewrite HE. unfold Get. cbn [cache]. by rewrite lookup_insert_ne, Hn by congruence.
    + rewrite HG. apply (Get_record _ k' pre v (post ++ le_put 4 (Z.of_nat (length data) + 4) ++ data));
        [cbn [blockCache]; rewrite Hd, <- !app_assoc; reflexivity| |exact Hl'].
      cbn [cache]. rewrite lookup_insert_ne by congruence. exact Hk.
  - unfold Count. cbn [cache]. destruct (cache db !! k) eqn:E.
    + rewrite map_size_insert_Some by eauto. reflexivity.
    + rewrite map_size_insert_None by exact E. f_equal. lia.
Qed.

Lemma Get_after_Set_witness :
  let db := fst (Set_ (Open 0) 3 [1; 2]) in
  table_ok db /\ Z.of_nat (length [7; 7; 7]) + 4 < 2 ^ 32 /\
  snd (Set_ db 3 [7; 7; 7]) = Ok tt /\ Get (fst (Set_ db 3 [7; 7; 7])) 3 = Ok [7; 7; 7] /\
  (forall k', k' <> 3 -> Get (fst (Set_ db 3 [7; 7; 7])) k' = Get db k') /\
  Count (fst (Set_ db 3 [7; 7; 7])) = Count db.
Proof.
  intros db.
  assert (Hok : table_ok db) by (apply table_ok_Set; intros k off Hk; discriminate Hk).
  assert (Hl : Z.of_nat (length [7; 7; 7]) + 4 < 2 ^ 32) by (simpl; lia).
  split_and!; try assumption; apply (Get_after_Set db 3 [7; 7; 7] Hok Hl).
Defined.

End TableDB.
