(* ===== verification/EntryDB.v ===== *)
(** * Entries of the main DB: [setEntry] and [readEntry]
      (src/db_internal.go, lines 200-236 and 292-360)

    [setEntry] turns a user [Entry] into the cache entry that the tiny
    batch logs: the marshalled entry header, the 9-byte message-ID prefix
    whose last byte is the encryption bit, the topic (only for the first
    entry of a new topic) and the compressed, possibly encrypted value.
    It calls the topic parser, the trie, the lease, the message-ID
    package, snappy, the MAC and the entry codec, whose code is not under
    src/: they are the Context of Section [Externals], with the two facts
    the layout relies on as hypotheses (the ID prefix has 8 bytes, the
    entry header [entrySize] bytes).  [Go]'s [copy] and index assignment
    are [go_copy] and [go_set] of [Prelude].  [readEntry] looks a
    sequence up in the memdb and then in the 255 slots of its index
    block. *)

From S2P Require Import Prelude.

Module EntryDB.

(** [idSize = 9]: the message-ID prefix with the encryption bit. *)
Definition idSize : nat := 9.
Definition entriesPerIndexBlock : nat := 255.

(** The fields of [Entry] that [setEntry] reads and writes (the type is
    declared outside src/).  [ID = None] is a nil ID. *)
Record Entry := mkEntry {
  ID : option (list Z); Contract : Z; Topic : list Z; Payload : list Z; ExpiresAt : Z;
  parsed : bool; topicHash : Z; topicSize : Z; seq : Z; expiresAt : Z; valueSize : Z;
  cacheEntry : list Z
}.

(** An index slot and the memdb entry decoded by [readEntry]. *)
Record slot := mkSlot { s_seq : Z; s_topicSize : Z; s_valueSize : Z; cacheBlock : list Z }.

Definition empty_slot : slot := mkSlot 0 0 0 [].

Section Externals.

Context {TopicT Lease : Type}.
Context (MasterContract : Z).
(** [db.parseTopic]: the parsed topic and its TTL. *)
Context (parseTopic : Z -> list Z -> result (TopicT * Z)).
Context (addContract : TopicT -> Z -> TopicT) (getHash : TopicT -> Z -> Z)
        (marshalTopic : TopicT -> list Z).
(** [db.trie.getOffset(hash)] succeeds. *)
Context (trie_has : Z -> bool).
(** [db.data.lease.getSlot]: a freed sequence of the topic, if any. *)
Context (getSlot : Lease -> Z -> option Z * Lease).
Context (idSequence : list Z -> Z) (newID : Z -> list Z) (setContract : list Z -> Z -> list Z)
        (idPrefix : list Z -> list Z).
Context (snappyEncode encrypt : list Z -> list Z).
(** [e.MarshalBinary()] (its error is always nil) and [entrySize]. *)
Context (marshalEntry : Entry -> list Z) (entrySize : nat).

(** The part of the main DB that [setEntry] touches. *)
Record EDB := mkEDB { encryption : Z; sequence : Z; lease : Lease }.

(** The first block of [setEntry]: parse the topic once per entry.  On a
    parse error the entry keeps the defaulted contract.  The raw topic
    is returned only when the trie does not know the topic yet. *)
Definition parse_entry (e : Entry) : Entry * list Z * result unit :=
  if parsed e then (e, [], Ok tt) else
  let c := if Contract e =? 0 then MasterContract else Contract e in
  let e0 := mkEntry (ID e) c (Topic e) (Payload e) (ExpiresAt e) (parsed e) (topicHash e)
                    (topicSize e) (seq e) (expiresAt e) (valueSize e) (cacheEntry e) in
  match parseTopic c (Topic e) with
  | Err err => (e0, [], Err err)
  | Ok (t, ttl) =>
    let exp := if (ExpiresAt e =? 0) && (0 <? ttl) then ttl else ExpiresAt e in
    let t' := addContract t c in
    let h := getHash t' c in
    let raw := if trie_has h then [] else marshalTopic t' in
    let tsize := if trie_has h then topicSize e else wrap 16 (Z.of_nat (length raw)) in
    (mkEntry (ID e) c (Topic e) (Payload e) exp true h tsize (seq e) (expiresAt e)
             (valueSize e) (cacheEntry e), raw, Ok tt)
  end.

(** The sequence of the entry: that of its ID, else a leased slot, else
    [db.nextSeq()] ([uint64] increment). *)
Definition assign_seq (db : EDB) (e : Entry) : EDB * Z * list Z :=
  match ID e with
  | Some id => (db, idSequence id, id)
  | None =>
    match getSlot (lease db) (topicHash e) with
    | (Some s, l) => (mkEDB (encryption db) (sequence db) l, s, newID s)
    | (None, l) =>
      let s := wrap 64 (sequence db + 1) in
      (mkEDB (encryption db) s l, s, newID s)
    end
  end.

(** The encoding block of [setEntry]: value, sizes and the cache entry
    built by the four [copy] calls and the [eBit] assignment. *)
Definition enc_bit (db : EDB) (encr : bool) : Z :=
  if (encryption db =? 1) || encr then 1 else 0.

Definition enc_value (db : EDB) (e : Entry) (encr : bool) : list Z :=
  let val0 := snappyEncode (Payload e) in
  if (encryption db =? 1) || encr then encrypt val0 else val0.

Definition encode_entry (db : EDB) (e : Entry) (s : Z) (id : list Z) (raw : list Z)
    (encr : bool) : Entry * result unit :=
  let id' := setContract id (Contract e) in
  let ebit := enc_bit db encr in
  let val := enc_value db e encr in
  let vsize := wrap 32 (Z.of_nat (length val)) in
  let mLen := wrap 32 (Z.of_nat entrySize + Z.of_nat idSize + topicSize e + vsize) in
  let ce0 := replicate (Z.to_nat mLen) 0 in
  let e1 := mkEntry (ID e) (Contract e) (Topic e) (Payload e) (ExpiresAt e) (parsed e)
                    (topicHash e) (topicSize e) s (ExpiresAt e) vsize ce0 in
  let entryData := marshalEntry e1 in
  let ce := (ce1 <-- go_copy ce0 0 entryData ;;
             ce2 <-- go_copy ce1 entrySize (idPrefix id') ;;
             ce3 <-- go_set ce2 (entrySize + idSize - 1) ebit ;;
             ce4 <-- (if topicSize e =? 0 then Ok ce3
                      else go_copy ce3 (entrySize + idSize) raw) ;;
             go_copy ce4 (Z.to_nat (wrap 32 (Z.of_nat entrySize + Z.of_nat idSize + topicSize e))) val) in
  match ce with
  | Err err => (e1, Err err)
  | Ok c => (mkEntry (ID e) (Contract e) (Topic e) (Payload e) (ExpiresAt e) (parsed e)
                     (topicHash e) (topicSize e) s (ExpiresAt e) vsize c, Ok tt)
  end.

(** [DB.setEntry]: a zero sequence panics. *)
Definition setEntry (db : EDB) (e : Entry) (encr : bool) : EDB * Entry * result unit :=
  match parse_entry e with
  | (e1, _, Err err) => (db, e1, Err err)
  | (e1, raw, Ok _) =>
    let '(db', s, id) := assign_seq db e1 in
    if s =? 0 then (db', e1, Err errPanic)
    else let '(e2, r) := encode_entry db' e1 s id raw encr in (db', e2, r)
  end.

(** The sequence counter wraps into a panic.  For an entry without
    an ID and no leased slot, [setEntry] takes [db.nextSeq()], a
    [uint64] increment: once the counter is at [MaxUint64] it wraps to 0
    and [setEntry] panics ("seq is zero"), with the counter left at 0. *)
Theorem setEntry_seq_overflow db e encr e1 raw l :
  parse_entry e = (e1, raw, Ok tt) -> ID e1 = None ->
  getSlot (lease db) (topicHash e1) = (None, l) -> sequence db = 2 ^ 64 - 1 ->
  setEntry db e encr = (mkEDB (encryption db) 0 l, e1, Err errPanic).
Proof.
  intros Hp Hid Hs Hseq. unfold setEntry. rewrite Hp. unfold assign_seq. rewrite Hid, Hs, Hseq.
  reflexivity.
Qed.

(** ** The layout of the cache entry *)

Hypothesis marshal_len : forall e, length (marshalEntry e) = entrySize.
Hypothesis prefix_len : forall id, length (idPrefix id) = 8%nat.

(** The topic region of the cache entry: left zero for a topic size of
    0, else filled with the raw topic, or kept zero when there is none. *)
Lemma topic_region (pre V0 raw T : list Z) ts :
  length T = Z.to_nat ts -> (raw = T \/ (raw = [] /\ T = replicate (Z.to_nat ts) 0)) ->
  (if ts =? 0 then Ok (pre ++ replicate (Z.to_nat ts) 0 ++ V0)
   else go_copy (pre ++ replicate (Z.to_nat ts) 0 ++ V0) (length pre) raw) = Ok (pre ++ T ++ V0).
Proof.
  intros HT Hraw. destruct (Z.eqb_spec ts 0) as [->|_].
  - destruct T; [reflexivity|discriminate HT].
  - destruct Hraw as [->|[-> ->]].
    + rewrite go_copy_exact; [done|]. by rewrite length_replicate.
    + apply go_copy_nil. rewrite !length_app. lia.
Qed.

(** With the topic region [T] (the raw topic, or zeros when no raw topic
    is at hand), the cache entry is the header, the ID prefix, the
    encryption bit, [T] and the value. *)
Lemma encode_entry_ok db e s id raw encr T :
  0 <= topicSize e ->
  Z.of_nat entrySize + 9 + topicSize e + Z.of_nat (length (enc_value db e encr)) < 2 ^ 32 ->
  length T = Z.to_nat (topicSize e) ->
  (raw = T \/ (raw = [] /\ T = replicate (Z.to_nat (topicSize e)) 0)) ->
  exists hdr, length hdr = entrySize /\
    encode_entry db e s id raw encr =
      (mkEntry (ID e) (Contract e) (Topic e) (Payload e) (ExpiresAt e) (parsed e)
               (topicHash e) (topicSize e) s (ExpiresAt e)
               (Z.of_nat (length (enc_value db e encr)))
               (hdr ++ idPrefix (setContract id (Contract e)) ++
                enc_bit db encr :: T ++ enc_value db e encr), Ok tt).
Proof.
  intros Ht Hb HT Hraw. unfold encode_entry.
  set (val := enc_value db e encr) in *. set (P := idPrefix (setContract id (Contract e))).
  set (tsz := Z.to_nat (topicSize e)).
  rewrite (wrap_small 32 (Z.of_nat (length val))) by (unfold in_uint; lia).
  rewrite (wrap_small 32) by (unfold in_uint, idSize; simpl; lia).
  rewrite (wrap_small 32 (Z.of_nat entrySize + Z.of_nat idSize + topicSize e)) by (unfold in_uint, idSize; simpl; lia).
  set (e1 := mkEntry _ _ _ _ _ _ _ _ _ _ _ _).
  exists (marshalEntry e1). split; [apply marshal_len|].
  replace (Z.to_nat (Z.of_nat entrySize + Z.of_nat idSize + topicSize e + Z.of_nat (length val)))
    with (entrySize + (length P + (1 + (tsz + length val))))%nat
    by (unfold P, tsz, idSize; rewrite prefix_len; lia).
  rewrite !replicate_add.
  set (H := marshalEntry e1).
  assert (HH : length H = entrySize) by apply marshal_len.
  assert (HP : length P = 8%nat) by apply prefix_len.
  set (Z0 := replicate tsz 0). set (V0 := replicate (length val) 0).
  assert (E1 : go_copy (replicate entrySize 0 ++ replicate (length P) 0 ++ replicate 1 0 ++ Z0 ++ V0) 0 H
               = Ok (H ++ replicate (length P) 0 ++ replicate 1 0 ++ Z0 ++ V0)).
  { apply (go_copy_exact [] (replicate entrySize 0)). by rewrite length_replicate. }
  rewrite E1. cbn [bind_result].
  assert (E2 : go_copy (H ++ replicate (length P) 0 ++ replicate 1 0 ++ Z0 ++ V0) entrySize P
               = Ok (H ++ P ++ replicate 1 0 ++ Z0 ++ V0)).
  { rewrite <- HH. apply go_copy_exact. by rewrite length_replicate. }
  rewrite E2. cbn [bind_result].
  assert (E3 : go_set (H ++ P ++ replicate 1 0 ++ Z0 ++ V0) (entrySize + idSize - 1) (enc_bit db encr)
               = Ok ((H ++ P ++ [enc_bit db encr]) ++ Z0 ++ V0)).
  { replace (entrySize + idSize - 1)%nat with (length (H ++ P))
      by (rewrite length_app, HH, HP; unfold idSize; lia).
    rewrite app_assoc. cbn [replicate app]. rewrite go_set_exact.
    by rewrite <- !app_assoc. }
  rewrite E3. cbn [bind_result].
  assert (E4 := topic_region (H ++ P ++ [enc_bit db encr]) V0 raw T (topicSize e) HT Hraw).
  replace (length (H ++ P ++ [enc_bit db encr])) with (entrySize + idSize)%nat in E4
    by (rewrite !length_app, HH, HP; unfold idSize; simpl; lia).
  fold tsz Z0 in E4. rewrite E4. cbn [bind_result].
  replace (Z.to_nat (Z.of_nat entrySize + Z.of_nat idSize + topicSize e))
    with (length ((H ++ P ++ [enc_bit db encr]) ++ T))
    by (rewrite !length_app, HH, HP, HT; unfold idSize, tsz; simpl; lia).
  rewrite app_assoc, go_copy_tail by (unfold V0; by rewrite length_replicate).
  cbv iota beta. by rewrite <- !app_assoc.
Qed.

Lemma enc_db db db' e encr :
  encryption db' = encryption db ->
  enc_value db' e encr = enc_value db e encr /\ enc_bit db' encr = enc_bit db encr.
Proof. unfold enc_value, enc_bit. by intros ->. Qed.

Lemma assign_seq_encryption db e : encryption (assign_seq db e).1.1 = encryption db.
Proof. unfold assign_seq. destruct (ID e); [reflexivity|]. by destruct (getSlot _ _) as [[]]. Qed.

(** [setEntry] once parsing succeeded and the sequence is not zero. *)
Lemma setEntry_encode db e encr e1 raw db' s id :
  parse_entry e = (e1, raw, Ok tt) -> assign_seq db e1 = (db', s, id) -> s <> 0 ->
  setEntry db e encr = (db', fst (encode_entry db' e1 s id raw encr), snd (encode_entry db' e1 s id raw encr)).
Proof.
  intros Hp Ha Hs. unfold setEntry. rewrite Hp, Ha.
  rewrite (proj2 (Z.eqb_neq s 0) Hs). by destruct (encode_entry _ _ _ _ _ _).
Qed.

Lemma parse_entry_new e t ttl :
  parsed e = false ->
  let c := if Contract e =? 0 then MasterContract else Contract e in
  parseTopic c (Topic e) = Ok (t, ttl) ->
  trie_has (getHash (addContract t c) c) = false ->
  Z.of_nat (length (marshalTopic (addContract t c))) < 2 ^ 16 ->
  exists e1, parse_entry e = (e1, marshalTopic (addContract t c), Ok tt) /\
    parsed e1 = true /\ Contract e1 = c /\ Payload e1 = Payload e /\ ID e1 = ID e /\
    topicSize e1 = Z.of_nat (length (marshalTopic (addContract t c))).
Proof.
  intros Hp c Ht Hh Hl. unfold parse_entry. rewrite Hp. fold c. rewrite Ht. cbv zeta.
  rewrite Hh. eexists. split; [reflexivity|]. cbn. split_and!; auto.
  apply wrap_small. unfold in_uint. lia.
Qed.

(** The first entry of a new topic.  For an entry not yet parsed
    whose topic parses and is not in the trie, when the sequence it gets
    is not zero and the sizes fit the [uint32] length, [setEntry]
    succeeds and its cache entry is the [entrySize]-byte header, the
    8-byte ID prefix, the encryption bit, the marshalled topic and the
    value; [topicSize] is the topic's length. *)
Theorem setEntry_new_topic db e encr t ttl :
  parsed e = false ->
  let c := if Contract e =? 0 then MasterContract else Contract e in
  parseTopic c (Topic e) = Ok (t, ttl) ->
  trie_has (getHash (addContract t c) c) = false ->
  let raw := marshalTopic (addContract t c) in
  Z.of_nat (length raw) < 2 ^ 16 ->
  Z.of_nat entrySize + 9 + Z.of_nat (length raw) + Z.of_nat (length (enc_value db e encr)) < 2 ^ 32 ->
  forall db' s id, assign_seq db (fst (fst (parse_entry e))) = (db', s, id) -> s <> 0 ->
  exists e' hdr, setEntry db e encr = (db', e', Ok tt) /\ length hdr = entrySize /\
    topicSize e' = Z.of_nat (length raw) /\
    cacheEntry e' = hdr ++ idPrefix (setContract id c) ++ enc_bit db encr :: raw ++ enc_value db e encr.
Proof.
  intros Hp c Ht Hh raw Hl Hb db' s id Ha Hs.
  destruct (parse_entry_new e t ttl Hp Ht Hh Hl) as (e1 & He1 & _ & Hc & HP & _ & Hts).
  rewrite He1 in Ha. cbn [fst] in Ha.
  pose proof (assign_seq_encryption db e1) as Henc. rewrite Ha in Henc. cbn [fst] in Henc.
  destruct (enc_db db db' e1 encr Henc) as [Ev Eb].
  assert (Ev' : enc_value db e1 encr = enc_value db e encr) by (unfold enc_value; by rewrite HP).
  destruct (encode_entry_ok db' e1 s id raw encr raw) as (hdr & Hhdr & Henc_eq).
  - rewrite Hts. lia.
  - rewrite Hts, Ev, Ev'. exact Hb.
  - rewrite Hts, Nat2Z.id. reflexivity.
  - by left.
  - exists (fst (encode_entry db' e1 s id raw encr)), hdr. split_and!.
    + rewrite (setEntry_encode db e encr e1 raw db' s id He1 Ha Hs), Henc_eq. reflexivity.
    + exact Hhdr.
    + rewrite Henc_eq. cbn. exact Hts.
    + rewrite Henc_eq. cbn. by rewrite Ev, Eb, Ev', Hc.
Qed.

(** A reused entry keeps a stale topic size.  When [setEntry] is
    called again with an entry it has already parsed (the sample program
    stores 50 payloads with one [Entry] and [WithPayload]) whose
    [topicSize] is not zero, the parse block is skipped: [topicSize]
    keeps its old value instead of becoming 0, no raw topic is at hand,
    and the topic region of the cache entry is [topicSize] zero bytes.
    The spec says [topicSize = 0] for every entry that is not the first
    of its topic. *)
Theorem setEntry_reused_entry db e encr :
  parsed e = true -> 0 < topicSize e ->
  Z.of_nat entrySize + 9 + topicSize e + Z.of_nat (length (enc_value db e encr)) < 2 ^ 32 ->
  forall db' s id, assign_seq db e = (db', s, id) -> s <> 0 ->
  exists e' hdr, setEntry db e encr = (db', e', Ok tt) /\ length hdr = entrySize /\
    topicSize e' = topicSize e /\
    cacheEntry e' = hdr ++ idPrefix (setContract id (Contract e)) ++ enc_bit db encr ::
                    replicate (Z.to_nat (topicSize e)) 0 ++ enc_value db e encr.
Proof.
  intros Hp Hts Hb db' s id Ha Hs.
  assert (He1 : parse_entry e = (e, [], Ok tt)) by (unfold parse_entry; by rewrite Hp).
  pose proof (assign_seq_encryption db e) as Henc. rewrite Ha in Henc. cbn [fst] in Henc.
  destruct (enc_db db db' e encr Henc) as [Ev Eb].
  destruct (encode_entry_ok db' e s id [] encr (replicate (Z.to_nat (topicSize e)) 0))
    as (hdr & Hhdr & Henc_eq).
  - lia.
  - by rewrite Ev.
  - apply length_replicate.
  - by right.
  - exists (fst (encode_entry db' e s id [] encr)), hdr. split_and!.
    + rewrite (setEntry_encode db e encr e [] db' s id He1 Ha Hs), Henc_eq. reflexivity.
    + exact Hhdr.
    + by rewrite Henc_eq.
    + rewrite Henc_eq. cbn. by rewrite Ev, Eb.
Qed.

(** What [encode_entry] keeps of the entry it encodes. *)
Lemma encode_entry_keeps db e s id raw encr :
  let e2 := fst (encode_entry db e s id raw encr) in
  ID e2 = ID e /\ Contract e2 = Contract e /\ Topic e2 = Topic e /\ Payload e2 = Payload e /\
  parsed e2 = parsed e /\ topicSize e2 = topicSize e.
Proof. unfold encode_entry. cbv zeta. by destruct (bind_result (go_copy _ _ _) _). Qed.

(** A successful [setEntry] leaves the entry parsed, with its ID,
    topic and payload, and the contract it parsed it under. *)
Lemma setEntry_ok_fields db e encr db' e' :
  setEntry db e encr = (db', e', Ok tt) ->
  parsed e' = true /\ ID e' = ID e /\ Topic e' = Topic e /\ Payload e' = Payload e /\
  Contract e' = (if parsed e then Contract e else if Contract e =? 0 then MasterContract else Contract e) /\
  (parsed e = true -> topicSize e' = topicSize e).
Proof.
  unfold setEntry. destruct (parse_entry e) as [[e1 raw] [u|err]] eqn:Hp; [|by intros [= _ <- _]].
  destruct (assign_seq db e1) as [[db1 s] id]. destruct (s =? 0); [done|].
  destruct (encode_entry db1 e1 s id raw encr) as [e2 r] eqn:He. intros [= _ <- ->].
  pose proof (encode_entry_keeps db1 e1 s id raw encr) as K. rewrite He in K. cbn in K.
  destruct K as (-> & -> & -> & -> & -> & ->). unfold parse_entry in Hp.
  destruct (parsed e) eqn:E; [injection Hp as -> _; by rewrite E|].
  destruct (parseTopic _ _) as [[t ttl']|]; [|done]. by injection Hp as <- _.
Qed.

End Externals.

Section ReadEntry.

(** The memdb lookup [db.mem.Get(blockID, memseq)] ([None] for a nil
    result), the entry decoder, [startBlockIndex], [blockOffset] and the
    read of an index block's 255 slots. *)
Context (memGet : Z -> Z -> result (option (list Z))).
Context (unmarshalEntry : list Z -> slot) (entrySize : nat).
Context (startBlockIndex : Z -> Z) (blockOffset : Z -> Z).
Context (readBlock : Z -> result (list slot)).

(** The linear scan [for i := 0; i < entriesPerIndexBlock; i++] of the
    block's slot array. *)
Fixpoint scan_slots (n : nat) (slots : list slot) (sq : Z) : result slot :=
  match n with
  | O => Ok empty_slot
  | S n' =>
    match slots with
    | [] => Err errPanic
    | s :: rest => if s_seq s =? sq then Ok s else scan_slots n' rest sq
    end
  end.

(** [DB.readEntry]: a memdb error is reported as [errMsgIdDeleted]; a
    sequence found nowhere gives an empty slot and no error. *)
Definition readEntry (cacheID topicHash sq : Z) : result slot :=
  let blockID := startBlockIndex sq in
  let memseq := Z.lxor cacheID sq in
  match memGet blockID memseq with
  | Err _ => Err errMsgIdDeleted
  | Ok (Some data) =>
    let e := unmarshalEntry (take entrySize data) in
    if bool_decide (entrySize <= length data)%nat then
      Ok (mkSlot (s_seq e) (s_topicSize e) (s_valueSize e) (drop entrySize data))
    else Err errPanic
  | Ok None =>
    slots <-- readBlock (blockOffset (startBlockIndex sq)) ;;
    scan_slots entriesPerIndexBlock slots sq
  end.

Lemma scan_slots_find n slots sq :
  length slots = n ->
  scan_slots n slots sq =
    Ok (match List.find (fun s => s_seq s =? sq) slots with Some s => s | None => empty_slot end).
Proof.
  revert slots. induction n as [|n IH]; intros [|s rest] Hl; try discriminate Hl; [reflexivity|].
  cbn [scan_slots List.find]. destruct (s_seq s =? sq); [reflexivity|]. apply IH. simpl in Hl. lia.
Qed.

(** C27: [readEntry] on a memdb miss.  When the memdb has no entry for
    the sequence, [readEntry] scans the 255 slots of the sequence's index
    block and returns the first slot with that sequence; when none has
    it, it returns an empty slot and no error, while the spec says
    [readEntry] reports [MsgIdDoesNotExist]. *)
Theorem readEntry_index cacheID topicHash sq slots :
  memGet (startBlockIndex sq) (Z.lxor cacheID sq) = Ok None ->
  readBlock (blockOffset (startBlockIndex sq)) = Ok slots -> length slots = entriesPerIndexBlock ->
  readEntry cacheID topicHash sq =
    Ok (match List.find (fun s => s_seq s =? sq) slots with Some s => s | None => empty_slot end).
Proof.
  intros Hm Hb Hl. unfold readEntry. rewrite Hm, Hb. cbn [bind_result].
  by apply scan_slots_find.
Qed.

End ReadEntry.

(** ** Witnesses, with small stand-ins for the external packages *)

Definition ex_entry : Entry :=
  mkEntry None 0 [116; 46; 49] [104; 105] 0 false 0 0 0 0 0 [].

Definition ex_db : EDB (Lease := unit) := mkEDB 0 41 tt.

Definition ex_marshal (e : Entry) : list Z := le_put 4 (seq e).

Definition ex_prefix (id : list Z) : list Z := take 8 (id ++ replicate 8 0).

Lemma ex_prefix_len id : length (ex_prefix id) = 8%nat.
Proof. unfold ex_prefix. rewrite length_take, length_app, length_replicate. lia. Qed.

Lemma ex_marshal_len e : length (ex_marshal e) = 4%nat.
Proof. apply length_le_put. Qed.

Lemma setEntry_new_topic_witness :
  exists e' hdr,
    setEntry 7 (fun _ t => Ok (t, 0)) (fun t _ => t) (fun _ _ => 99) (fun t => t) (fun _ => false)
      (fun l _ => (None, l)) (fun _ => 0) (le_put 8) (fun id _ => id) ex_prefix (fun v => v) (fun v => v)
      ex_marshal 4 ex_db ex_entry false = (mkEDB 0 42 tt, e', Ok tt) /\ length hdr = 4%nat /\
    topicSize e' = 3 /\
    cacheEntry e' = hdr ++ ex_prefix (le_put 8 42) ++ 0 :: [116; 46; 49] ++ [104; 105].
Proof.
  refine (setEntry_new_topic 7 (fun _ t => Ok (t, 0)) (fun t _ => t) (fun _ _ => 99) (fun t => t)
            (fun _ => false) (fun l _ => (None, l)) (fun _ => 0) (le_put 8) (fun id _ => id) ex_prefix
            (fun v => v) (fun v => v) ex_marshal 4 ex_marshal_len ex_prefix_len ex_db ex_entry false
            [116; 46; 49] 0 eq_refl eq_refl eq_refl ltac:(simpl; lia) ltac:(simpl; lia)
            (mkEDB 0 42 tt) 42 (le_put 8 42) _ ltac:(lia)).
  vm_compute. reflexivity.
Defined.

Lemma setEntry_reused_entry_witness :
  let e := mkEntry None 7 [116; 46; 49] [120] 0 true 99 3 42 0 2 [] in
  exists e' hdr,
    setEntry 7 (fun _ t => Ok (t, 0)) (fun t _ => t) (fun _ _ => 99) (fun t => t) (fun _ => true)
      (fun l _ => (None, l)) (fun _ => 0) (le_put 8) (fun id _ => id) ex_prefix (fun v => v) (fun v => v)
      ex_marshal 4 (mkEDB 0 42 tt) e false = (mkEDB 0 43 tt, e', Ok tt) /\ length hdr = 4%nat /\
    topicSize e' = 3 /\
    cacheEntry e' = hdr ++ ex_prefix (le_put 8 43) ++ 0 :: [0; 0; 0] ++ [120].
Proof.
  intros e.
  refine (setEntry_reused_entry 7 (fun _ t => Ok (t, 0)) (fun t _ => t) (fun _ _ => 99) (fun t => t)
            (fun _ => true) (fun l _ => (None, l)) (fun _ => 0) (le_put 8) (fun id _ => id) ex_prefix
            (fun v => v) (fun v => v) ex_marshal 4 ex_marshal_len ex_prefix_len (mkEDB 0 42 tt) e false
            eq_refl ltac:(simpl; lia) ltac:(simpl; lia) (mkEDB 0 43 tt) 43 (le_put 8 43) _ ltac:(lia)).
  vm_compute. reflexivity.
Defined.

Lemma setEntry_seq_overflow_witness :
  setEntry 7 (fun _ t => Ok (t, 0)) (fun t _ => t) (fun _ _ => 99) (fun t => t) (fun _ => false)
    (fun l _ => (None, l)) (fun _ => 0) (le_put 8) (fun id _ => id) ex_prefix (fun v => v) (fun v => v)
    ex_marshal 4 (mkEDB 0 (2 ^ 64 - 1) tt) ex_entry false =
  (mkEDB 0 0 tt, fst (fst (parse_entry 7 (fun _ t => Ok (t, 0)) (fun t _ => t) (fun _ _ => 99)
                                       (fun t => t) (fun _ => false) ex_entry)), Err errPanic).
Proof.
  apply (setEntry_seq_overflow 7 (fun _ t => Ok (t, 0)) (fun t _ => t) (fun _ _ => 99) (fun t => t)
           (fun _ => false) (fun l _ => (None, l)) (fun _ => 0) (le_put 8) (fun id _ => id) ex_prefix
           (fun v => v) (fun v => v) ex_marshal 4 (mkEDB 0 (2 ^ 64 - 1) tt) ex_entry false _
           [116; 46; 49] tt); reflexivity.
Defined.

Lemma readEntry_index_witness :
  let blk := [mkSlot 5 0 3 []; mkSlot 9 0 4 []] ++ replicate 253 empty_slot in
  readEntry (fun _ _ => Ok None) (fun _ => empty_slot) 4 (fun _ => 0) (fun _ => 0) (fun _ => Ok blk)
    0 1 9 = Ok (mkSlot 9 0 4 []) /\
  readEntry (fun _ _ => Ok None) (fun _ => empty_slot) 4 (fun _ => 0) (fun _ => 0) (fun _ => Ok blk)
    0 1 7 = Ok empty_slot.
Proof.
  intros blk. split.
  - rewrite (readEntry_index _ _ _ _ _ _ 0 1 9 blk eq_refl eq_refl); [reflexivity|vm_compute; reflexivity].
  - rewrite (readEntry_index _ _ _ _ _ _ 0 1 7 blk eq_refl eq_refl); [reflexivity|vm_compute; reflexivity].
Defined.

End EntryDB.
