(* ===== verification/WalRead.v ===== *)
(** * Reading the recovered WAL groups: [Reader.Read]
      (src/wal/reader.go, lines 55-137)

    At recovery the WAL holds the log-info headers of its groups
    ([recoveredLogs]).  [Read] first drops the RELEASED ones, then scans
    the file through a buffer of at most [BufferSize] bytes starting at
    the first group: a group that is empty or not WRITTEN is stepped over
    (with the free space after it, [freeSize]); a WRITTEN group is handed
    to the callback as a [Reader] over its body, then marked RELEASED and
    its header rewritten.  When a group does not fit the buffer, the
    outer loop reads the file again, with a larger buffer or from the
    group's offset.  The outer [for] loop has no bound in the code: the
    model runs it with fuel: [Read_terminates] shows that it always
    returns within [2 * len(recoveredLogs) + 2] iterations, and
    [Read_refines] that two iterations suffice on a well-laid-out file
    whose groups fit the buffer, where [Read] is the callback run over the groups
    ([call_groups]) followed by [writeHeader].

    The log statuses, [bpool.Buffer] and [WAL.writeHeader] are not under
    src/: the statuses are Section context, the buffer is a byte list
    with the [Slice] bounds check, and [writeHeader] is context. *)

From S2P Require Import Prelude Segments LogCodec WalFrames.
Import LogCodec WalFrames.

Module WalRead.

(** The WAL as [Read] sees it: the recovered headers, the bytes of the
    log file, its [Size()], its free segments and [opts.BufferSize]. *)
Record WalState := mkWal {
  recoveredLogs : list _LogInfo;
  logFile : list Z;
  fileSize : Z;
  segs : Segments._Segments;
  bufferSize : Z
}.

(** [_File.readAt] into a buffer of [n] bytes: a short read fails. *)
Definition readAt (file : list Z) (off n : Z) : result (list Z) :=
  if (0 <=? off) && (0 <=? n) && (off + n <=? Z.of_nat (length file)) then
    Ok (take (Z.to_nat n) (drop (Z.to_nat off) file))
  else Err errIO.

(** [bpool.Buffer.Slice(i, j)]. *)
Definition buf_slice (buf : list Z) (i j : Z) : result (list Z) :=
  if (0 <=? i) && (i <=? j) && (j <=? Z.of_nat (length buf)) then
    Ok (take (Z.to_nat (j - i)) (drop (Z.to_nat i) buf))
  else Err errIO.

(** [writeMarshalableAt(m, off)] once [m] is marshalled: [os.File.WriteAt]
    overwrites the bytes at [off], extending the file (with zeros up to
    [off]) past its end; a negative offset fails. *)
Definition writeAt (file : list Z) (bs : list Z) (off : Z) : result (list Z) :=
  if 0 <=? off then
    Ok (take (Z.to_nat off) file ++ replicate (Z.to_nat off - length file) 0 ++ bs ++
        drop (Z.to_nat off + length bs) file)
  else Err errIO.

(** [_File.readUnmarshalableAt(m, size, off)]: [size] is a [uint32]. *)
Definition readUnmarshalableAt {A} (unmarshal : list Z -> result A) (file : list Z) (sz off : Z) : result A :=
  buf <-- readAt file off (wrap 32 sz) ;; unmarshal buf.

Definition set_status (l : _LogInfo) (st : Z) : _LogInfo :=
  mkLogInfo (version l) st (timeID l) (LogCodec.entryCount l) (size l) (offset l).

Section ReadLoop.

Context (logStatusWritten logStatusReleased : Z).

(** The first loop of [Read]: remove the RELEASED logs in place. *)
Fixpoint remove_released (fuel i : nat) (rl : list _LogInfo) : list _LogInfo :=
  match fuel with
  | O => rl
  | S fu =>
    match rl !! i with
    | None => rl
    | Some ul =>
      if status ul =? logStatusReleased then remove_released fu i (take i rl ++ drop (S i) rl)
      else remove_released fu (S i) rl
    end
  end.

Context {St : Type}.
(** The callback [f(timeID)], reading through the [Reader] that [Read]
    has set up; it returns [(stop, err)]. *)
Context (f : St -> Z -> Reader -> St * (bool * result unit)).
Context (writeHeader : list Z -> result (list Z)).

(** The state of the scan: the index [idx] of the next log, the window
    ([fileOff], [size]), the logs, the file and the callback's state. *)
Record scan := mkScan {
  idx : nat; fileOff : Z; win : Z; logs : list _LogInfo; file : list Z; cb : St
}.

(** How an inner loop ends: the logs are done, the outer loop must read
    again, or [Read] returns. *)
Inductive inner_end := Done (s : scan) | Again (s : scan) | Return (s : scan) (r : result unit).

(** The inner [for i := idx; i < l; i++] loop over the window [buf],
    [off] being the offset of log [i] in the buffer. *)
Fixpoint inner (w : WalState) (buf : list Z) (todo : list _LogInfo) (i : nat) (off : Z) (s : scan)
  : inner_end :=
  match todo with
  | [] => Done s
  | ul :: rest =>
    let skip := wrap_i64 (wrap_i64 (off + size ul) +
                  Segments.freeSize (segs w) (wrap_i64 (offset ul + size ul))) in
    if (LogCodec.entryCount ul =? 0) || negb (status ul =? logStatusWritten) then
      inner w buf rest (S i) skip (mkScan (S (idx s)) (fileOff s) (win s) (logs s) (file s) (cb s))
    else if win s <? size ul then
      Again (mkScan (idx s) (fileOff s) (size ul) (logs s) (file s) (cb s))
    else if wrap_i64 (win s - off) <? size ul then
      Again (mkScan (idx s) (offset ul) (wrap_i64 (fileSize w - offset ul)) (logs s) (file s) (cb s))
    else
      match buf_slice buf (wrap_i64 (off + Z.of_nat logHeaderSize)) (wrap_i64 (off + size ul)) with
      | Err e => Return s (Err e)
      | Ok data =>
        let '(c', (stop, err)) := f (cb s) (timeID ul) (mkReader data 0 (LogCodec.entryCount ul)) in
        match err with
        | Err e => Return (mkScan (idx s) (fileOff s) (win s) (logs s) (file s) c') (Err e)
        | Ok _ =>
          if stop then Return (mkScan (idx s) (fileOff s) (win s) (logs s) (file s) c') (Ok tt)
          else
            let ul' := set_status ul logStatusReleased in
            let logs' := <[i := ul']> (logs s) in
            match writeAt (file s) (LogInfo_MarshalBinary ul') (offset ul') with
            | Err e => Return (mkScan (idx s) (fileOff s) (win s) logs' (file s) c') (Err e)
            | Ok file' =>
              inner w buf rest (S i) skip (mkScan (S (idx s)) (fileOff s) (win s) logs' file' c')
            end
        end
      end
  end.

(** The outer [for] loop, with fuel. [None] is running out of fuel. *)
Fixpoint outer (fuel : nat) (w : WalState) (s : scan) : option (scan * result unit) :=
  match fuel with
  | O => None
  | S fu =>
    if win s <? 0 then Some (s, Err errIO) else
    match readAt (file s) (fileOff s) (win s) with
    | Err e => Some (s, Err e)
    | Ok buf =>
      match inner w buf (drop (idx s) (logs s)) (idx s) 0 s with
      | Return s' r => Some (s', r)
      | Done s' => Some (s', Ok tt)
      | Again s' => if (idx s' =? length (logs s'))%nat then Some (s', Ok tt) else outer fu w s'
      end
    end
  end.

(** [Reader.Read f]: the deferred [recoveredLogs[:0]] empties the logs
    on every return; [writeHeader] runs after a complete scan. *)
Definition Read (fuel : nat) (w : WalState) (c : St) : option (St * WalState * result unit) :=
  let rl := remove_released (length (recoveredLogs w)) 0 (recoveredLogs w) in
  match rl with
  | [] => Some (c, mkWal [] (logFile w) (fileSize w) (segs w) (bufferSize w), Ok tt)
  | ul0 :: _ =>
    let fo := offset ul0 in
    let sz := wrap_i64 (fileSize w - fo) in
    let sz := if bufferSize w <? sz then bufferSize w else sz in
    match outer fuel w (mkScan 0 fo sz rl (logFile w) c) with
    | None => None
    | Some (s, Err e) => Some (cb s, mkWal [] (file s) (fileSize w) (segs w) (bufferSize w), Err e)
    | Some (s, Ok _) =>
      if (idx s =? length (logs s))%nat then
        match writeHeader (file s) with
        | Err e => Some (cb s, mkWal [] (file s) (fileSize w) (segs w) (bufferSize w), Err e)
        | Ok file' => Some (cb s, mkWal [] file' (fileSize w) (segs w) (bufferSize w), Ok tt)
        end
      else Some (cb s, mkWal [] (file s) (fileSize w) (segs w) (bufferSize w), Ok tt)
    end
  end.

(** ** The release loop is a filter *)

Lemma remove_released_spec_aux fuel i rl :
  (length rl - i <= fuel)%nat -> (i <= length rl)%nat ->
  remove_released fuel i rl = take i rl ++ filter (fun ul => status ul <> logStatusReleased) (drop i rl).
Proof.
  revert i rl. induction fuel as [|fu IH]; intros i rl Hf Hi.
  - rewrite drop_ge, take_ge by lia. by rewrite app_nil_r.
  - cbn [remove_released]. destruct (rl !! i) as [ul|] eqn:E.
    + pose proof (take_drop_middle rl i ul E) as Hmid.
      assert (Hd : drop i rl = ul :: drop (S i) rl).
      { rewrite <- Hmid at 1. rewrite drop_app_length' by (rewrite length_take; apply lookup_lt_Some in E; lia).
        reflexivity. }
      pose proof (lookup_lt_Some _ _ _ E) as Hlt.
      destruct (Z.eqb_spec (status ul) logStatusReleased) as [Hr|Hr].
      * rewrite IH by (rewrite length_app, length_take, length_drop; lia).
        rewrite take_app_le, take_ge, drop_app_ge by (rewrite ?length_take; lia).
        rewrite length_take, Nat.min_l, Nat.sub_diag, drop_0 by lia.
        rewrite Hd, filter_cons_False by (intros Hn; exact (Hn Hr)). reflexivity.
      * rewrite IH by lia. rewrite Hd, filter_cons_True by exact Hr.
        rewrite (take_S_r _ _ _ E), <- app_assoc. reflexivity.
    + apply lookup_ge_None in E. rewrite drop_ge, take_ge by lia. by rewrite app_nil_r.
Qed.

(** The release loop of [Read] is a filter.  The in-place removal
    [rl = rl[:i+copy(rl[i:], rl[i+1:])]; l--; i--] of the RELEASED logs,
    run with the bound [len(recoveredLogs)], keeps exactly the logs that
    are not RELEASED, in their order. *)
Theorem remove_released_filter rl :
  remove_released (length rl) 0 rl = filter (fun ul => status ul <> logStatusReleased) rl.
Proof. rewrite remove_released_spec_aux by lia. reflexivity. Qed.

(** ** A well-laid-out WAL and what [Read] does with it *)

(** A recovered group as the file holds it: its header, whose 28 bytes
    [Read] never reads, its body and the free space after it. *)
Record group := mkGroup { gl : _LogInfo; gbody : list Z; ggap : list Z }.

Fixpoint lay (hs : list (list Z)) (gs : list group) : list Z :=
  match gs, hs with
  | g :: gs', h :: hs' => h ++ gbody g ++ ggap g ++ lay hs' gs'
  | _, _ => []
  end.

(** The groups start at [pos] and follow each other with the free space
    [freeSize] reports after each; none is RELEASED. *)
Fixpoint laid (sg : Segments._Segments) (pos : Z) (hs : list (list Z)) (gs : list group) : Prop :=
  match gs, hs with
  | [], [] => True
  | g :: gs', h :: hs' =>
    offset (gl g) = pos /\ length h = logHeaderSize /\
    size (gl g) = Z.of_nat (logHeaderSize + length (gbody g)) /\
    Z.of_nat (length (ggap g)) = Segments.freeSize sg (pos + size (gl g)) /\
    status (gl g) <> logStatusReleased /\
    laid sg (pos + Z.of_nat (length (h ++ gbody g ++ ggap g))) hs' gs'
  | _, _ => False
  end.

(** A group [Read] steps over. *)
Definition skipped (g : group) : bool :=
  (LogCodec.entryCount (gl g) =? 0) || negb (status (gl g) =? logStatusWritten).

(** The callback run over the bodies of the groups it is given, in
    order, until it stops ([Ok false]) or fails. *)
Fixpoint call_groups (c : St) (gs : list group) : St * result bool :=
  match gs with
  | [] => (c, Ok true)
  | g :: rest =>
    if skipped g then call_groups c rest else
    let '(c', (stop, err)) := f c (timeID (gl g)) (mkReader (gbody g) 0 (LogCodec.entryCount (gl g))) in
    match err with
    | Err e => (c', Err e)
    | Ok _ => if stop then (c', Ok false) else call_groups c' rest
    end
  end.

Lemma readAt_ok file off n :
  0 <= off -> 0 <= n -> off + n <= Z.of_nat (length file) ->
  readAt file off n = Ok (take (Z.to_nat n) (drop (Z.to_nat off) file)).
Proof.
  intros H1 H2 H3. unfold readAt.
  rewrite (proj2 (Z.leb_le _ _) H1), (proj2 (Z.leb_le _ _) H2), (proj2 (Z.leb_le _ _) H3).
  reflexivity.
Qed.

(** What [writeMarshalableAt] wrote at [off] reads back with its size. *)
Lemma readUnmarshalableAt_writeAt {A} (unmarshal : list Z -> result A) file bs off file' :
  writeAt file bs off = Ok file' -> Z.of_nat (length bs) < 2 ^ 32 ->
  readUnmarshalableAt unmarshal file' (Z.of_nat (length bs)) off = unmarshal bs.
Proof.
  unfold writeAt. destruct (Z.leb_spec 0 off) as [Ho|]; [|done]. intros [= <-] Hl.
  set (P := take (Z.to_nat off) file ++ replicate (Z.to_nat off - length file) 0).
  assert (HP : length P = Z.to_nat off) by (subst P; rewrite length_app, length_take, length_replicate; lia).
  unfold readUnmarshalableAt. rewrite wrap_small by (unfold in_uint; lia). rewrite app_assoc. fold P.
  rewrite readAt_ok by (rewrite ?length_app; lia). cbn.
  rewrite Nat2Z.id, <- HP, drop_app_length, take_app_length. done.
Qed.

Lemma take_drop_take {A} n i w (X : list A) :
  (i + n <= w)%nat -> take n (drop i (take w X)) = take n (drop i X).
Proof. intros H. rewrite !take_drop_commute, take_take, Nat.min_l by lia. reflexivity. Qed.

(** The body of a group, sliced from a window of the file. *)
Lemma buf_slice_body A h body rest fo win :
  0 <= fo <= Z.of_nat (length A) -> length h = logHeaderSize ->
  Z.of_nat (length A + logHeaderSize + length body) <= fo + win ->
  fo + win <= Z.of_nat (length (A ++ h ++ body ++ rest)) ->
  buf_slice (take (Z.to_nat win) (drop (Z.to_nat fo) (A ++ h ++ body ++ rest)))
            (Z.of_nat (length A) - fo + Z.of_nat logHeaderSize)
            (Z.of_nat (length A) - fo + Z.of_nat (logHeaderSize + length body)) = Ok body.
Proof.
  intros Hfo Hh Hend Hfile. rewrite !length_app in Hfile. unfold buf_slice.
  rewrite length_take, length_drop, !length_app.
  rewrite (proj2 (Z.leb_le _ _)) by lia. rewrite (proj2 (Z.leb_le _ _)) by lia.
  rewrite (proj2 (Z.leb_le _ _)) by lia. cbn [andb]. f_equal.
  rewrite take_drop_take by lia. rewrite drop_drop.
  replace (Z.to_nat fo + Z.to_nat (Z.of_nat (length A) - fo + Z.of_nat logHeaderSize))%nat
    with (length (A ++ h)) by (rewrite length_app, Hh; lia).
  rewrite app_assoc, drop_app_length.
  replace (Z.to_nat (Z.of_nat (length A) - fo + Z.of_nat (logHeaderSize + length body) -
                     (Z.of_nat (length A) - fo + Z.of_nat logHeaderSize))) with (length body) by lia.
  apply take_app_length.
Qed.

Lemma writeAt_hdr A h h' R :
  length h' = length h -> writeAt (A ++ h ++ R) h' (Z.of_nat (length A)) = Ok (A ++ h' ++ R).
Proof.
  intros Hl. unfold writeAt. rewrite (proj2 (Z.leb_le _ _)) by lia.
  rewrite Nat2Z.id, take_app_length.
  replace (length A - length (A ++ h ++ R))%nat with 0%nat by (rewrite !length_app; lia).
  cbn [replicate app]. do 3 f_equal.
  rewrite drop_app_ge by lia. replace (length A + length h' - length A)%nat with (length h) by lia.
  apply drop_app_length.
Qed.

(** The header [Read] writes back for a group it has handed over. *)
Definition released_hdr (g : group) : list Z :=
  LogInfo_MarshalBinary (set_status (gl g) logStatusReleased).

(** The headers after a complete scan: every group handed over is
    RELEASED, the others keep theirs. *)
Fixpoint rel_hdrs (hs : list (list Z)) (gs : list group) : list (list Z) :=
  match gs, hs with
  | g :: gs', h :: hs' => (if skipped g then h else released_hdr g) :: rel_hdrs hs' gs'
  | _, _ => []
  end.

(** What the inner loop keeps true: the file holds [lay hs gr] after
    [A], the window read at the start of the outer iteration holds it
    after a prefix [A0] as long as [A], and [gr] are the logs left. *)
Definition scan_inv (buf A : list Z) (hs : list (list Z)) (gr : list group) (T : list Z)
    (s : scan) : Prop :=
  exists A0, file s = A ++ lay hs gr ++ T /\ length A0 = length A /\
    buf = take (Z.to_nat (win s)) (drop (Z.to_nat (fileOff s)) (A0 ++ lay hs gr ++ T)) /\
    0 <= fileOff s <= Z.of_nat (length A) /\ 0 <= win s /\
    fileOff s + win s <= Z.of_nat (length (file s)) /\ Z.of_nat (length (file s)) < 2 ^ 62 /\
    drop (idx s) (logs s) = map gl gr /\ (idx s + length gr = length (logs s))%nat.

(** An inner loop that ends as the callback run [res] does: all groups
    done with the file [fl], stopped on a log, or failed. *)
Definition ends_as (e : inner_end) (res : St * result bool) (n : nat) (fl : list Z) : Prop :=
  match e, res with
  | Done s', (c', Ok true) => cb s' = c' /\ idx s' = n /\ length (logs s') = n /\ file s' = fl
  | Return s' (Ok _), (c', Ok false) => cb s' = c' /\ (idx s' < length (logs s'))%nat
  | Return s' (Err e), (c', Err e') => cb s' = c' /\ e = e'
  | _, _ => False
  end.

(** The inner loop over [gs] from [s] ends as the callback run does, or
    stops at the first group [gr2] that does not fit the window and asks
    for a window from that group to the end of the file. *)
Definition sim (w : WalState) (e : inner_end) (A : list Z) (hs : list (list Z)) (gs : list group)
    (T : list Z) (s : scan) : Prop :=
  ends_as e (call_groups (cb s) gs) (length (logs s)) (A ++ lay (rel_hdrs hs gs) gs ++ T) \/
  exists s' hs1 gr1 hs2 gr2,
    e = Again s' /\ hs = hs1 ++ hs2 /\ gs = gr1 ++ gr2 /\ length hs1 = length gr1 /\ gr2 <> [] /\
    call_groups (cb s) gs = call_groups (cb s') gr2 /\
    fileOff s' = Z.of_nat (length A + length (lay hs1 gr1)) /\ win s' = fileSize w - fileOff s' /\
    file s' = A ++ lay (rel_hdrs hs1 gr1) gr1 ++ lay hs2 gr2 ++ T /\
    drop (idx s') (logs s') = map gl gr2 /\ (idx s' + length gr2 = length (logs s'))%nat /\
    fileOff s + win s < Z.of_nat (length (file s)).

Lemma sim_cons w e A A' h hr hs g gs T s s1 :
  sim w e A' hs gs T s1 -> A' = A ++ hr ++ gbody g ++ ggap g ->
  hr = (if skipped g then h else released_hdr g) -> length hr = length h ->
  call_groups (cb s) (g :: gs) = call_groups (cb s1) gs ->
  length (logs s1) = length (logs s) -> fileOff s1 = fileOff s -> win s1 = win s ->
  length (file s1) = length (file s) ->
  sim w e A (h :: hs) (g :: gs) T s.
Proof.
  intros [He|(s' & hs1 & gr1 & hs2 & gr2 & He & -> & -> & Hl & Hne & Hc & Ho & Hw & Hf & Hd & Hi & Hlt)]
    -> Hhr Hlen Hcg Hlogs Hfo Hwin Hfl.
  - left. rewrite Hcg, <- Hlogs. cbn [rel_hdrs lay]. rewrite <- Hhr, <- !app_assoc in *. exact He.
  - right. exists s', (h :: hs1), (g :: gr1), hs2, gr2. rewrite Hcg, <- Hfo, <- Hwin, <- Hfl.
    cbn [rel_hdrs lay]. rewrite <- Hhr. rewrite Ho, Hf, !length_app in *. cbn [length].
    repeat split; (done || lia || by rewrite <- !app_assoc).
Qed.

Lemma drop_next {A} i (l : list A) x r : drop i l = x :: r -> drop (S i) l = r.
Proof. intros H. rewrite <- Nat.add_1_r, <- drop_drop, H. reflexivity. Qed.

(** *** The layout *)

Lemma lay_app hs1 hs2 gr1 gr2 :
  length hs1 = length gr1 -> lay (hs1 ++ hs2) (gr1 ++ gr2) = lay hs1 gr1 ++ lay hs2 gr2.
Proof.
  revert hs1. induction gr1 as [|g gr1 IH]; intros [|h hs1] Hl; cbn [laid lay rel_hdrs length app] in *; try done.
  rewrite IH by lia. by rewrite <- !app_assoc.
Qed.

Lemma rel_hdrs_app hs1 hs2 gr1 gr2 :
  length hs1 = length gr1 -> rel_hdrs (hs1 ++ hs2) (gr1 ++ gr2) = rel_hdrs hs1 gr1 ++ rel_hdrs hs2 gr2.
Proof.
  revert hs1. induction gr1 as [|g gr1 IH]; intros [|h hs1] Hl; cbn [laid lay rel_hdrs length app] in *; try done.
  rewrite IH by lia. done.
Qed.

Lemma laid_app sg pos hs1 hs2 gr1 gr2 :
  length hs1 = length gr1 -> laid sg pos (hs1 ++ hs2) (gr1 ++ gr2) ->
  laid sg pos hs1 gr1 /\ laid sg (pos + Z.of_nat (length (lay hs1 gr1))) hs2 gr2.
Proof.
  revert pos hs1. induction gr1 as [|g gr1 IH]; intros pos [|h hs1] Hl H; cbn [laid lay rel_hdrs length] in *; try done.
  - by rewrite Z.add_0_r.
  - destruct H as (H1 & H2 & H3 & H4 & H5 & H6). apply IH in H6 as [H6 H7]; [|lia].
    rewrite !length_app in *. split; [tauto|]. refine (eq_ind _ (fun p => laid sg p hs2 gr2) H7 _ _). lia.
Qed.

(** Rewriting the headers keeps the layout's length. *)
Lemma length_lay_rel sg pos hs gs :
  laid sg pos hs gs -> length (lay (rel_hdrs hs gs) gs) = length (lay hs gs).
Proof.
  revert pos hs. induction gs as [|g gs IH]; intros pos [|h hs] H; cbn [laid lay rel_hdrs length] in *; try done.
  destruct H as (_ & Hh & _ & _ & _ & H). rewrite !length_app, (IH _ _ H).
  destruct (skipped g); [done|]. unfold released_hdr. rewrite length_LogInfo_MarshalBinary. lia.
Qed.

(** Every group lies inside the layout. *)
Lemma laid_bounds sg pos hs gs :
  laid sg pos hs gs ->
  Forall (fun g => pos <= offset (gl g) /\
    offset (gl g) + size (gl g) <= pos + Z.of_nat (length (lay hs gs))) gs.
Proof.
  revert pos hs. induction gs as [|g gs IH]; intros pos [|h hs] H; cbn [laid lay rel_hdrs length] in *; try done.
  destruct H as (Ho & Hh & Hs & _ & _ & H). constructor.
  - rewrite Ho, Hs, !length_app. lia.
  - eapply Forall_impl; [exact (IH _ _ H)|]. intros g' Hg'. rewrite !length_app in *. lia.
Qed.

Lemma laid_not_released sg pos hs gs :
  laid sg pos hs gs -> Forall (fun g => status (gl g) <> logStatusReleased) gs.
Proof.
  revert pos hs. induction gs as [|g gs IH]; intros pos [|h hs] H; cbn [laid lay rel_hdrs length] in *; try done.
  destruct H as (_ & _ & _ & _ & Hr & H). constructor; [done|]. eapply IH, H.
Qed.

(** The loop's arithmetic on a laid-out group never wraps. *)
Lemma skip_offset w A fo g h gs hs T :
  laid (segs w) (Z.of_nat (length A)) (h :: hs) (g :: gs) -> 0 <= fo <= Z.of_nat (length A) ->
  Z.of_nat (length (A ++ lay (h :: hs) (g :: gs) ++ T)) < 2 ^ 62 ->
  wrap_i64 (wrap_i64 (Z.of_nat (length A) - fo + size (gl g)) +
    Segments.freeSize (segs w) (wrap_i64 (offset (gl g) + size (gl g)))) =
  Z.of_nat (length (A ++ h ++ gbody g ++ ggap g)) - fo.
Proof.
  intros (Ho & Hh & Hs & Hg & _) Hfo Hlen. cbn [lay] in Hlen. rewrite !length_app in *.
  rewrite Ho, Hs in *. rewrite (wrap_i64_small (Z.of_nat (length A) - fo + _)) by (unfold in_int64; lia).
  rewrite (wrap_i64_small (Z.of_nat (length A) + _)) by (unfold in_int64; lia). rewrite <- Hg.
  rewrite wrap_i64_small by (unfold in_int64; lia). unfold logHeaderSize in *. lia.
Qed.

(** The inner loop over the groups [gs] simulates the callback run over
    them. *)
Definition inner_sim_P (w : WalState) (buf : list Z) (gs : list group) : Prop :=
  forall hs A T s,
  scan_inv buf A hs gs T s -> laid (segs w) (Z.of_nat (length A)) hs gs ->
  fileSize w = Z.of_nat (length (file s)) ->
  Forall (fun g => skipped g = false -> size (gl g) <= win s) gs ->
  sim w (inner w buf (map gl gs) (idx s) (Z.of_nat (length A) - fileOff s) s) A hs gs T s.

(** After a group, its header (or the rewritten one [hr]), body and gap
    join the prefix [A]. *)
Lemma scan_inv_next buf A h hs g gs T s s1 hr :
  scan_inv buf A (h :: hs) (g :: gs) T s -> length hr = length h ->
  file s1 = A ++ hr ++ gbody g ++ ggap g ++ lay hs gs ++ T ->
  idx s1 = S (idx s) -> fileOff s1 = fileOff s -> win s1 = win s ->
  drop (S (idx s)) (logs s1) = drop (S (idx s)) (logs s) -> length (logs s1) = length (logs s) ->
  scan_inv buf (A ++ hr ++ gbody g ++ ggap g) hs gs T s1.
Proof.
  intros (A0 & Hf & HA0 & Hbuf & Hfo & Hw & Hfw & Hlen & Hd & Hi) Hhr Hf1 Hi1 Hfo1 Hw1 Hd1 Hl1.
  cbn [lay length] in *. exists (A0 ++ h ++ gbody g ++ ggap g).
  assert (Hfl : length (file s1) = length (file s)) by (rewrite Hf1, Hf, !length_app; lia).
  rewrite Hfl, Hi1, Hfo1, Hw1, Hd1, Hl1, (drop_next _ _ _ _ Hd), Hf1, Hbuf, !length_app, <- !app_assoc.
  split_and!; try done; lia.
Qed.

Lemma inner_sim_nil w buf : inner_sim_P w buf [].
Proof.
  intros hs A T s Hinv Hlaid _ _. destruct hs; [|contradiction].
  destruct Hinv as (A0 & Hf & _ & _ & _ & _ & _ & _ & _ & Hi). left. cbn in *. rewrite Hf. repeat split; lia.
Qed.

Lemma inner_sim_cons w buf g gs : inner_sim_P w buf gs -> inner_sim_P w buf (g :: gs).
Proof.
  intros IH hs A T s Hinv Hlaid Hfs Hsz. destruct hs as [|h hs]; [contradiction|]. pose proof Hlaid as Hlaid0.
  destruct Hlaid as (Ho & Hh & Hs & Hg & _ & Hlaid). pose proof Hinv as Hinv0.
  destruct Hinv as (A0 & Hf & HA0 & Hbuf & Hfo & Hw & Hfw & Hlen & Hd & Hi).
  cbn [length] in Hi. apply Forall_cons in Hsz as [Hsz1 Hsz]. cbn [map inner].
  rewrite Hf in Hlen, Hfw. rewrite (skip_offset w A (fileOff s) g h gs hs T) by done.
  change ((LogCodec.entryCount (gl g) =? 0) || negb (status (gl g) =? logStatusWritten)) with (skipped g).
  cbn [lay] in Hf, Hbuf, Hlen, Hfw. rewrite <- !app_assoc in Hf, Hbuf. rewrite !length_app in Hlen, Hfw.
  destruct (skipped g) eqn:Hsk.
  - eapply sim_cons with (A' := A ++ h ++ gbody g ++ ggap g) (hr := h);
      [|done|by rewrite Hsk|done|by cbn; rewrite Hsk|done..].
    apply (IH hs _ T (mkScan (S (idx s)) (fileOff s) (win s) (logs s) (file s) (cb s)));
      [by eapply scan_inv_next|by rewrite length_app, Nat2Z.inj_add|done|done].
  - specialize (Hsz1 eq_refl). rewrite (proj2 (Z.ltb_ge _ _) Hsz1).
    rewrite (wrap_i64_small (win s - _)) by (unfold in_int64; lia).
    destruct (Z.ltb_spec (win s - (Z.of_nat (length A) - fileOff s)) (size (gl g))) as [Hnf|Hfit].
    + right. exists (mkScan (idx s) (offset (gl g)) (wrap_i64 (fileSize w - offset (gl g)))
        (logs s) (file s) (cb s)), [], [], (h :: hs), (g :: gs). cbn.
      rewrite Hf, Hfs, Ho, !length_app in *. rewrite wrap_i64_small by (unfold in_int64; lia).
      repeat split; (done || lia || by rewrite <- !app_assoc).
    + rewrite Hbuf, <- HA0, !wrap_i64_small by (unfold in_int64; rewrite ?Hs; lia).
      rewrite Hs, buf_slice_body by (rewrite ?length_app; lia). rewrite ?HA0, <- Hbuf.
      destruct (f (cb s) (timeID (gl g)) (mkReader (gbody g) 0 (LogCodec.entryCount (gl g))))
        as [c1 [[|] [u|e]]] eqn:Hcb;
        [left; cbn; rewrite Hsk, Hcb; cbn; split; [done|lia]
        |left; cbn; rewrite Hsk, Hcb; done|..|left; cbn; rewrite Hsk, Hcb; done].
      cbn [offset set_status]. rewrite Hf, Ho, writeAt_hdr; [|rewrite length_LogInfo_MarshalBinary; symmetry; exact Hh].
      assert (Hrl : length (released_hdr g) = length h)
        by (unfold released_hdr; rewrite length_LogInfo_MarshalBinary; done).
      set (s1 := mkScan (S (idx s)) (fileOff s) (win s) (<[idx s := set_status (gl g) logStatusReleased]> (logs s))
                  (A ++ released_hdr g ++ gbody g ++ ggap g ++ lay hs gs ++ T) c1).
      eapply sim_cons with (A' := A ++ released_hdr g ++ gbody g ++ ggap g) (hr := released_hdr g) (s1 := s1);
        [|done|by rewrite Hsk|done|by cbn [call_groups cb]; rewrite Hsk, Hcb|by cbn; rewrite length_insert|done|done
        |by cbn; rewrite Hf, !length_app, Hrl].
      replace (Z.of_nat (length (A ++ h ++ gbody g ++ ggap g))) with
        (Z.of_nat (length (A ++ released_hdr g ++ gbody g ++ ggap g))) by (rewrite !length_app; lia).
      apply (IH hs _ T s1); [|by replace (Z.of_nat (length (A ++ released_hdr g ++ gbody g ++ ggap g))) with
        (Z.of_nat (length A) + Z.of_nat (length (h ++ gbody g ++ ggap g))) by (rewrite !length_app; lia)|by cbn; rewrite Hfs, Hf, !length_app, Hrl|done].
      apply (scan_inv_next _ _ h _ _ _ _ s); try done; cbn; [by rewrite drop_insert_lt by lia|by rewrite length_insert].
Qed.

(** The inner loop simulates the callback run over the groups. *)
Lemma inner_sim w buf gs : inner_sim_P w buf gs.
Proof. induction gs; [apply inner_sim_nil|by apply inner_sim_cons]. Qed.

Lemma length_rel_hdrs hs gs : length hs = length gs -> length (rel_hdrs hs gs) = length gs.
Proof.
  revert hs. induction gs as [|g gs IH]; intros [|h hs] Hl; cbn [rel_hdrs length] in *; try done.
  rewrite IH by lia. done.
Qed.

Lemma filter_all_not_released gs :
  Forall (fun g => status (gl g) <> logStatusReleased) gs ->
  filter (fun ul => status ul <> logStatusReleased) (map gl gs) = map gl gs.
Proof.
  induction 1 as [|g gs Hg _ IH]; [done|]. cbn [map]. by rewrite filter_cons_True, IH.
Qed.

(** *** The outer loop *)

Lemma outer_S fu w s :
  outer (S fu) w s =
  if win s <? 0 then Some (s, Err errIO) else
  match readAt (file s) (fileOff s) (win s) with
  | Err e => Some (s, Err e)
  | Ok buf =>
    match inner w buf (drop (idx s) (logs s)) (idx s) 0 s with
    | Return s' r => Some (s', r)
    | Done s' => Some (s', Ok tt)
    | Again s' => if (idx s' =? length (logs s'))%nat then Some (s', Ok tt) else outer fu w s'
    end
  end.
Proof. reflexivity. Qed.

(** How the outer loop returns, given how the callback run ends. *)
Definition outer_res (s' : scan) (r : result unit) (res : St * result bool) (fl : list Z) : Prop :=
  match res with
  | (c', Ok true) => cb s' = c' /\ idx s' = length (logs s') /\ file s' = fl /\ r = Ok tt
  | (c', Ok false) => cb s' = c' /\ (idx s' < length (logs s'))%nat /\ r = Ok tt
  | (c', Err e) => cb s' = c' /\ r = Err e
  end.

Lemma outer_ends fu w s buf e res fl :
  0 <= win s -> readAt (file s) (fileOff s) (win s) = Ok buf ->
  inner w buf (drop (idx s) (logs s)) (idx s) 0 s = e -> ends_as e res (length (logs s)) fl ->
  exists s' r, outer (S fu) w s = Some (s', r) /\ outer_res s' r res fl.
Proof.
  intros Hw Hr He Hend. cbn [outer]. rewrite (proj2 (Z.ltb_ge _ _) Hw), Hr, He.
  destruct e as [s'|s'|s' [[]|e]]; destruct res as [c' [[|]|e']]; cbn in Hend; try contradiction;
    eexists _, _; (split; [reflexivity|]); cbn; intuition congruence.
Qed.

(** The inner loop over a well-laid-out rest of the file. *)
Lemma inner_sim_read w A hs gs T s :
  file s = A ++ lay hs gs ++ T -> fileOff s = Z.of_nat (length A) -> 0 <= win s ->
  fileOff s + win s <= Z.of_nat (length (file s)) -> Z.of_nat (length (file s)) < 2 ^ 62 ->
  drop (idx s) (logs s) = map gl gs -> (idx s + length gs = length (logs s))%nat ->
  laid (segs w) (Z.of_nat (length A)) hs gs -> fileSize w = Z.of_nat (length (file s)) ->
  Forall (fun g => skipped g = false -> size (gl g) <= win s) gs ->
  sim w (inner w (take (Z.to_nat (win s)) (drop (Z.to_nat (fileOff s)) (file s)))
    (drop (idx s) (logs s)) (idx s) 0 s) A hs gs T s.
Proof.
  intros Hf Ho Hw Hfw Hl Hd Hi Hlaid Hfs Hsz. rewrite Hd.
  replace 0 with (Z.of_nat (length A) - fileOff s) by lia.
  apply inner_sim; [|done..]. exists A. rewrite <- Hf. repeat split; (done || lia).
Qed.

(** With the window running to the end of the file, one iteration
    of the outer loop does all the work. *)
Lemma outer_last fu w A hs gs T s :
  file s = A ++ lay hs gs ++ T -> fileOff s = Z.of_nat (length A) ->
  fileOff s + win s = Z.of_nat (length (file s)) -> Z.of_nat (length (file s)) < 2 ^ 62 ->
  drop (idx s) (logs s) = map gl gs -> (idx s + length gs = length (logs s))%nat ->
  laid (segs w) (Z.of_nat (length A)) hs gs -> fileSize w = Z.of_nat (length (file s)) ->
  exists s' r, outer (S fu) w s = Some (s', r) /\
    outer_res s' r (call_groups (cb s) gs) (A ++ lay (rel_hdrs hs gs) gs ++ T).
Proof.
  intros Hf Ho Hw Hl Hd Hi Hlaid Hfs.
  assert (Hlen : Z.of_nat (length (file s)) =
    Z.of_nat (length A) + Z.of_nat (length (lay hs gs)) + Z.of_nat (length T))
    by (rewrite Hf, !length_app; lia).
  destruct (inner_sim_read w A hs gs T s) as [Hend|(s' & ? & ? & ? & ? & ? & ? & ? & ? & ? & ? & ? & ? & Hlt)];
    try (done || lia).
  - eapply Forall_impl; [exact (laid_bounds _ _ _ _ Hlaid)|]. cbn. intros g Hg _. lia.
  - eapply outer_ends; [lia|apply readAt_ok; lia|reflexivity|exact Hend].
Qed.

(** When every group handed over fits the window, the outer loop needs
    at most two iterations: the second one reads from the first group
    that did not fit to the end of the file. *)
Lemma outer_sim fu w A hs gs T s :
  file s = A ++ lay hs gs ++ T -> fileOff s = Z.of_nat (length A) -> 0 <= win s ->
  fileOff s + win s <= Z.of_nat (length (file s)) -> Z.of_nat (length (file s)) < 2 ^ 62 ->
  drop (idx s) (logs s) = map gl gs -> (idx s + length gs = length (logs s))%nat ->
  laid (segs w) (Z.of_nat (length A)) hs gs -> fileSize w = Z.of_nat (length (file s)) ->
  Forall (fun g => skipped g = false -> size (gl g) <= win s) gs ->
  exists s' r, outer (S (S fu)) w s = Some (s', r) /\
    outer_res s' r (call_groups (cb s) gs) (A ++ lay (rel_hdrs hs gs) gs ++ T).
Proof.
  intros Hf Ho Hw Hfw Hl Hd Hi Hlaid Hfs Hsz.
  destruct (inner_sim_read w A hs gs T s) as
    [Hend|(s' & hs1 & gr1 & hs2 & gr2 & He & -> & -> & Hl1 & Hne & Hc & Ho' & Hw' & Hf' & Hd' & Hi' & _)];
    try done.
  - eapply outer_ends; [done|apply readAt_ok; lia|reflexivity|exact Hend].
  - rewrite outer_S, (proj2 (Z.ltb_ge _ _) Hw), readAt_ok, He by lia.
    rewrite (proj2 (Nat.eqb_neq _ _)) by (destruct gr2; [done|cbn [length] in Hi'; lia]).
    apply laid_app in Hlaid as [Hl1' Hl2]; [|done].
    assert (Hlr := length_lay_rel _ _ _ _ Hl1').
    assert (Hls : length (file s') = length (file s))
      by (rewrite Hf', Hf, lay_app, !length_app, Hlr by done; lia).
    rewrite Hc, rel_hdrs_app, lay_app, <- app_assoc, (app_assoc A) by (rewrite ?length_rel_hdrs; lia).
    apply (outer_last fu w (A ++ lay (rel_hdrs hs1 gr1) gr1) hs2 gr2 T s'); try done.
    + by rewrite Hf', <- app_assoc.
    + rewrite Ho', length_app, Hlr. lia.
    + rewrite Hls. lia.
    + by rewrite Hls.
    + by rewrite length_app, Hlr, Nat2Z.inj_add.
    + by rewrite Hls.
Qed.

(** [Read] on a well-laid-out log file, every group handed over
    fitting the buffer: the callback run, the header rewrites and
    [writeHeader]. *)
Lemma Read_sim fuel w c P hs gs T :
  (2 <= fuel)%nat -> gs <> [] ->
  recoveredLogs w = map gl gs -> logFile w = P ++ lay hs gs ++ T ->
  laid (segs w) (Z.of_nat (length P)) hs gs ->
  fileSize w = Z.of_nat (length (logFile w)) -> fileSize w < 2 ^ 62 -> 0 <= bufferSize w ->
  Forall (fun g => skipped g = false -> size (gl g) <= bufferSize w) gs ->
  exists w' r, Read fuel w c = Some (fst (call_groups c gs), w', r) /\ recoveredLogs w' = [] /\
    match snd (call_groups c gs) with
    | Ok true =>
      match writeHeader (P ++ lay (rel_hdrs hs gs) gs ++ T) with
      | Ok fl => logFile w' = fl /\ r = Ok tt
      | Err e => logFile w' = P ++ lay (rel_hdrs hs gs) gs ++ T /\ r = Err e
      end
    | Ok false => r = Ok tt
    | Err e => r = Err e
    end.
Proof.
  intros Hfu Hne Hrl Hf Hlaid Hfs Hl Hb Hsz.
  destruct fuel as [|[|fu]]; [lia|lia|].
  destruct gs as [|g0 gs']; [done|]. destruct hs as [|h0 hs']; [contradiction|].
  assert (Hrm : remove_released (length (recoveredLogs w)) 0 (recoveredLogs w) = map gl (g0 :: gs')).
  { rewrite remove_released_spec_aux, Hrl by lia. eapply filter_all_not_released, laid_not_released, Hlaid. }
  assert (Hlen : Z.of_nat (length (logFile w)) =
    Z.of_nat (length P) + Z.of_nat (length (lay (h0 :: hs') (g0 :: gs'))) + Z.of_nat (length T))
    by (rewrite Hf, !length_app; lia).
  pose proof Hlaid as (Ho & _).
  unfold Read. cbv zeta. rewrite Hrm. cbn [map]. cbv iota beta zeta. rewrite Ho, wrap_i64_small by (unfold in_int64; lia).
  set (win0 := if bufferSize w <? fileSize w - Z.of_nat (length P) then bufferSize w
               else fileSize w - Z.of_nat (length P)).
  assert (Hw0 : 0 <= win0 <= fileSize w - Z.of_nat (length P) /\
                (win0 = bufferSize w \/ win0 = fileSize w - Z.of_nat (length P)))
    by (unfold win0; destruct (Z.ltb_spec (bufferSize w) (fileSize w - Z.of_nat (length P))); lia).
  destruct (outer_sim fu w P (h0 :: hs') (g0 :: gs') T
    (mkScan 0 (Z.of_nat (length P)) win0 (gl g0 :: map gl gs') (logFile w) c))
    as (s' & r & Hout & Hres); cbn [file fileOff win idx logs cb]; try (done || lia).
  - by cbn [length]; rewrite length_map.
  - pose proof (proj2 (Forall_and _ _) (conj Hsz (laid_bounds _ _ _ _ Hlaid))) as Hb2.
    eapply Forall_impl; [exact Hb2|]. cbn beta. intros g [Hg1 Hg2] Hsk. specialize (Hg1 Hsk). lia.
  - rewrite Hout. cbn [cb] in Hres. destruct (call_groups c (g0 :: gs')) as [c' [[|]|e]]; unfold outer_res in Hres; cbn [fst snd] in Hres |- *.
    + destruct Hres as (<- & Hi & Hfl & ->). rewrite Hi, Nat.eqb_refl, Hfl.
      destruct (writeHeader _); eexists _, _; (split; [reflexivity|]); done.
    + destruct Hres as (<- & Hi & ->). rewrite (proj2 (Nat.eqb_neq _ _)) by lia.
      eexists _, _; (split; [reflexivity|]); done.
    + destruct Hres as (<- & ->). eexists _, _; (split; [reflexivity|]); done.
Qed.

(** C31: [Read] refines the callback run over the groups.  On a log file
    laid out as a run of groups after a prefix [P] (each group at the
    offset its header says, of the size it says, followed by the free
    space [freeSize] reports, none RELEASED), if every group handed over
    fits the buffer, [Read] with two or more iterations of its outer loop
    returns the callback's state after calling it on the body of every
    WRITTEN non-empty group in order, until it stops or fails; it fails
    exactly when the callback does or, after a complete run, when
    [writeHeader] does; after a complete run the file it passes to
    [writeHeader] is the original file with exactly the headers of the
    groups handed over rewritten as RELEASED; and the recovered logs are
    emptied. *)
Theorem Read_refines fuel w c P hs gs T :
  (2 <= fuel)%nat -> gs <> [] ->
  recoveredLogs w = map gl gs -> logFile w = P ++ lay hs gs ++ T ->
  laid (segs w) (Z.of_nat (length P)) hs gs ->
  fileSize w = Z.of_nat (length (logFile w)) -> fileSize w < 2 ^ 62 -> 0 <= bufferSize w ->
  Forall (fun g => skipped g = false -> size (gl g) <= bufferSize w) gs ->
  exists w' r, Read fuel w c = Some (fst (call_groups c gs), w', r) /\ recoveredLogs w' = [] /\
    match snd (call_groups c gs) with
    | Ok true =>
      match writeHeader (P ++ lay (rel_hdrs hs gs) gs ++ T) with
      | Ok fl => logFile w' = fl /\ r = Ok tt
      | Err e => logFile w' = P ++ lay (rel_hdrs hs gs) gs ++ T /\ r = Err e
      end
    | Ok false => r = Ok tt
    | Err e => r = Err e
    end.
Proof.
  intros. by apply Read_sim.
Qed.

(** ** Termination of the outer loop *)

Definition size_ok (l : _LogInfo) : Prop := in_uint 32 (size l).

(** What an [Again] of the inner loop keeps: the logs' number and
    sizes, a window below [2^63], and an index between the one it
    started at and the end of the logs it was given. *)
Lemma inner_again_inv w buf todo : forall i off s s',
  inner w buf todo i off s = Again s' ->
  Forall size_ok todo -> Forall size_ok (logs s) -> win s < 2 ^ 63 ->
  length (logs s') = length (logs s) /\ Forall size_ok (logs s') /\ win s' < 2 ^ 63 /\
  (idx s <= idx s' <= idx s + length todo)%nat.
Proof.
  induction todo as [|ul rest IH]; intros i off s s' H Ht Hl Hw; cbn [inner] in H; [done|].
  inversion Ht as [|? ? Hu Hr]; subst. cbv zeta in H.
  repeat case_match; try discriminate.
  2: { injection H as <-; cbn; unfold size_ok, in_uint in Hu; split_and!; [done|done|lia..]. }
  2: { injection H as <-; cbn; pose proof (wrap_i64_range (fileSize w - offset ul)); unfold in_int64 in *.
       split_and!; [done|done|lia..]. }
  all: edestruct IH as (Hlen & Hf & Hw' & Hi);
    [exact H|exact Hr|first [exact Hl|apply Forall_insert; [exact Hl|exact Hu]]|done|];
    cbn in *; rewrite ?length_insert in Hlen; split_and!; [done|done|done|lia..].
Qed.

(** An [Again] that leaves the index where it was comes from the first
    log: either the window is smaller than the log ([size < ul.size]),
    and the next window is the log's size at the same file offset, or
    the log does not fit the rest of the window ([size-offset < ul.size]). *)
Lemma inner_again_stall w buf ul rest i off s s' :
  inner w buf (ul :: rest) i off s = Again s' -> idx s' = idx s ->
  Forall size_ok (ul :: rest) -> Forall size_ok (logs s) -> win s < 2 ^ 63 ->
  (win s < size ul /\ s' = mkScan (idx s) (fileOff s) (size ul) (logs s) (file s) (cb s)) \/
  (size ul <= win s /\ wrap_i64 (win s - off) < size ul).
Proof.
  intros H Hi Ht Hl Hw. pose proof H as H'. apply inner_again_inv in H'; [|done|done|done].
  cbn [inner length] in H, H'. cbv zeta in H. repeat case_match; try discriminate; rewrite ?Z.ltb_lt, ?Z.ltb_ge in *.
  2: { left. by injection H as <-. }
  2: { right. lia. }
  all: apply inner_again_inv in H as (_ & _ & _ & Hi' & _); cbn in *; [lia|by inversion Ht|..|done].
  - done.
  - apply Forall_insert; [done|by inversion Ht].
Qed.

(** The window has been set to the size of the next log, as a stalled
    [Again] sets it. *)
Definition stalled (s : scan) : bool :=
  match drop (idx s) (logs s) with ul :: _ => win s =? size ul | [] => false end.

(** Two per log left, less one once the window has grown to the next
    log. *)
Definition read_measure (s : scan) : nat :=
  2 * (length (logs s) - idx s) + (if stalled s then 0 else 1).

(** An [Again] of the outer loop's inner loop decreases the measure. *)
Lemma outer_again_measure w buf s s' :
  0 <= win s < 2 ^ 63 -> Forall size_ok (logs s) ->
  inner w buf (drop (idx s) (logs s)) (idx s) 0 s = Again s' -> idx s' <> length (logs s') ->
  (read_measure s' < read_measure s)%nat /\ Forall size_ok (logs s') /\ win s' < 2 ^ 63.
Proof.
  intros Hw Hl H Hn. assert (Ht : Forall size_ok (drop (idx s) (logs s))) by by apply Forall_drop.
  pose proof H as (Hlen & Hl' & Hw' & Hi1 & Hi2)%inner_again_inv; [|done|done|lia].
  split; [|done]. unfold read_measure. rewrite Hlen in *.
  destruct (drop (idx s) (logs s)) as [|ul rest] eqn:Hd; [done|].
  assert (Hd' : (length (ul :: rest) = length (logs s) - idx s)%nat) by (rewrite <- Hd, length_drop; lia).
  destruct (decide (idx s' = idx s)) as [He|He].
  - destruct (inner_again_stall w buf ul rest _ _ s s' H He Ht Hl ltac:(lia)) as [[Hlt ->]|[Hle Hb]].
    + unfold stalled. cbn. rewrite Hd, Z.eqb_refl. rewrite (proj2 (Z.eqb_neq _ _)) by lia. lia.
    + rewrite Z.sub_0_r, wrap_i64_small in Hb by (unfold in_int64; lia). lia.
  - destruct (stalled s'), (stalled s); cbn [length] in *; lia.
Qed.

(** The outer loop returns once its fuel exceeds the measure. *)
Lemma outer_total n w s :
  Forall size_ok (logs s) -> win s < 2 ^ 63 -> (read_measure s < n)%nat -> outer n w s <> None.
Proof.
  revert s. induction n as [|n IH]; intros s Hl Hw Hn; [lia|]. rewrite outer_S.
  destruct (Z.ltb_spec (win s) 0); [done|]. destruct (readAt _ _ _) as [buf|]; [|done].
  destruct (inner _ _ _ _ _ _) as [s'|s'|s' r] eqn:E; [done| |done].
  destruct (Nat.eqb_spec (idx s') (length (logs s'))) as [|Hne]; [done|].
  destruct (outer_again_measure w buf s s') as (Hm & Hl' & Hw'); [lia|done|done|done|].
  apply IH; [done|done|lia].
Qed.

(** C13: [Reader.Read] terminates.  The outer [for] loop of reader.go
    has no bound of its own, yet on every WAL whose recovered logs have
    [uint32] sizes (as [UnmarshalBinary] decodes them) [Read] returns
    within [2 * len(recoveredLogs) + 2] iterations, whatever the file,
    the buffer size and the callback: an iteration either steps past a
    log or grows the window to the size of the next log, and after that
    the next one steps past it or returns. *)
Theorem Read_terminates fuel w c :
  Forall size_ok (recoveredLogs w) -> (2 * length (recoveredLogs w) + 2 <= fuel)%nat ->
  Read fuel w c <> None.
Proof.
  intros Hs Hf. unfold Read. rewrite remove_released_filter.
  pose proof (length_filter (fun ul => status ul <> logStatusReleased) (recoveredLogs w)) as Hlen.
  destruct (filter _ (recoveredLogs w)) as [|ul0 rest] eqn:Hr; [done|].
  assert (Hl : Forall size_ok (ul0 :: rest)) by (rewrite <- Hr, Forall_forall; intros x [_ Hx]%list_elem_of_filter; by eapply Forall_forall).
  pose proof (wrap_i64_range (fileSize w - offset ul0)) as Hw. unfold in_int64 in Hw.
  destruct (outer fuel w _) as [[s [u|e]]|] eqn:E; [|done|].
  - destruct (Nat.eqb _ _); [destruct (writeHeader _)|]; done.
  - intros _. eapply outer_total; [..|exact E]; [done|cbn; case_match; rewrite ?Z.ltb_lt in *; lia|].
    unfold read_measure. cbn [idx logs]. destruct (stalled _); lia.
Qed.

End ReadLoop.

(** ** A group larger than the buffer, after another group *)

(** Two WRITTEN groups laid out back to back from offset 47 (after the
    file header): A with an 8-byte body and B with an 80-byte body, and a
    64-byte buffer.  The callback records the log data it is given. *)
Definition ex_info (off sz : Z) : _LogInfo := mkLogInfo 1 1 7 1 sz off.
Definition ex_bodyA : list Z := map Z.of_nat (seq 1 8).
Definition ex_bodyB : list Z := map Z.of_nat (seq 100 80).
Definition ex_hdr : list Z := replicate 28 9.
Definition ex_wal : WalState :=
  mkWal [ex_info 47 36; ex_info 83 108]
        (replicate 47 0 ++ ex_hdr ++ ex_bodyA ++ ex_hdr ++ ex_bodyB)
        191 Segments.newSegments 64.
Definition ex_record (c : list (list Z)) (_ : Z) (r : Reader) : list (list Z) * (bool * result unit) :=
  (c ++ [logData r], (false, Ok tt)).


(** A slice of a window read from the file is a slice of the file. *)
Lemma buf_slice_window file fo win i j :
  0 <= fo -> 0 <= i <= j -> j <= win -> fo + win <= Z.of_nat (length file) ->
  buf_slice (take (Z.to_nat win) (drop (Z.to_nat fo) file)) i j =
  Ok (take (Z.to_nat (j - i)) (drop (Z.to_nat (fo + i)) file)).
Proof.
  intros Hfo Hij Hj Hw. unfold buf_slice. rewrite length_take, length_drop.
  rewrite (proj2 (Z.leb_le 0 i)), (proj2 (Z.leb_le i j)), (proj2 (Z.leb_le _ _)) by lia.
  cbn [andb]. f_equal. rewrite take_drop_take by lia. rewrite drop_drop. do 2 f_equal. lia.
Qed.

(** A header rewritten inside the file keeps its length and what follows. *)
Lemma writeAt_inside file bs off file' :
  writeAt file bs off = Ok file' -> off + Z.of_nat (length bs) <= Z.of_nat (length file) ->
  length file' = length file /\
  drop (Z.to_nat off + length bs) file' = drop (Z.to_nat off + length bs) file.
Proof.
  unfold writeAt. destruct (Z.leb_spec 0 off); [|done]. intros [= <-] Hl.
  assert (Hr : (Z.to_nat off - length file = 0)%nat) by lia. rewrite Hr. cbn [replicate app].
  split.
  - rewrite !length_app, length_take, length_drop. lia.
  - rewrite app_assoc, drop_app_length'; [done|]. rewrite length_app, length_take. lia.
Qed.

(** C30: A group larger than the buffer is read from the wrong place.
    Let the recovered logs be two WRITTEN, non-empty groups A and B,
    where A fits the buffer and B does not, and the file holds B within
    the window that starts at A.  [Read] reads A's window, hands A's
    body to the callback, then meets B with [size < ul.size]: it grows
    [size] to B's size but keeps [fileOff] at A (reader.go:102-104), and
    the next window restarts its offset at 0.  So the log data handed to
    the callback for B is the [size(B) - 28] bytes after A's header, not
    the bytes after B's header.  The callback here records the log data
    it is given. *)
Theorem Read_oversized_group_misread W R wh fuel w la lb :
  (2 <= fuel)%nat -> recoveredLogs w = [la; lb] ->
  status la = W -> status lb = W -> W <> R ->
  LogCodec.entryCount la <> 0 -> LogCodec.entryCount lb <> 0 ->
  0 <= offset la -> 0 <= offset lb ->
  Z.of_nat logHeaderSize <= size la <= bufferSize w -> bufferSize w < size lb ->
  offset la + size lb <= fileSize w -> fileSize w = Z.of_nat (length (logFile w)) -> fileSize w < 2 ^ 62 ->
  exists w' r, Read W R ex_record wh fuel w [] =
    Some ([take (Z.to_nat (size la - 28)) (drop (Z.to_nat (offset la + 28)) (logFile w));
           take (Z.to_nat (size lb - 28)) (drop (Z.to_nat (offset la + 28)) (logFile w))], w', r).
Proof.
  intros Hfu Hrl Hsa Hsb HWR Hna Hnb Hoa Hob Ha Hb Hend Hfs Hmax.
  destruct fuel as [|[|fu]]; [lia|lia|].
  unfold Read. rewrite remove_released_filter, Hrl.
  rewrite filter_cons_True, filter_cons_True, filter_nil by congruence.
  cbv zeta iota beta. change (Z.of_nat logHeaderSize) with 28 in *.
  rewrite wrap_i64_small by (unfold in_int64; lia). rewrite (proj2 (Z.ltb_lt _ _)) by lia.
  rewrite outer_S. cbn [win fileOff file idx logs cb].
  rewrite (proj2 (Z.ltb_ge (bufferSize w) 0)), readAt_ok by lia. cbn [drop inner].
  rewrite (proj2 (Z.eqb_neq _ _) Hna), Hsa, Z.eqb_refl. cbn [orb negb idx fileOff win logs file cb].
  rewrite (proj2 (Z.ltb_ge (bufferSize w) (size la))), Z.sub_0_r, wrap_i64_small,
    (proj2 (Z.ltb_ge (bufferSize w) (size la))) by (unfold in_int64; lia).
  change (Z.of_nat logHeaderSize) with 28.
  rewrite !Z.add_0_l, (wrap_i64_small 28), !(wrap_i64_small (size la)) by (unfold in_int64; lia).
  rewrite buf_slice_window by lia. cbn [ex_record app logData].
  assert (Hw1 : exists f1, writeAt (logFile w) (LogInfo_MarshalBinary (set_status la R)) (offset la) = Ok f1)
    by (unfold writeAt; rewrite (proj2 (Z.leb_le _ _) Hoa); eauto).
  destruct Hw1 as [f1 Hw1]. change (offset (set_status la R)) with (offset la). rewrite Hw1.
  destruct (writeAt_inside _ _ _ _ Hw1) as [Hl1 Hd1]; [rewrite length_LogInfo_MarshalBinary; unfold logHeaderSize; lia|].
  rewrite length_LogInfo_MarshalBinary in Hd1.
  replace (Z.to_nat (offset la) + logHeaderSize)%nat with (Z.to_nat (offset la + 28)) in Hd1
    by (unfold logHeaderSize; lia).
  cbn [inner]. rewrite (proj2 (Z.eqb_neq _ _) Hnb), Hsb, Z.eqb_refl, (proj2 (Z.ltb_lt _ _) Hb).
  cbn [orb negb]. change (<[0%nat:=set_status la R]> [la; lb]) with [set_status la R; lb].
  cbn [idx logs length Nat.eqb].
  rewrite outer_S. cbn [win fileOff file idx logs cb].
  rewrite (proj2 (Z.ltb_ge (size lb) 0)), readAt_ok by (rewrite ?Hl1; lia). cbn [drop inner].
  rewrite (proj2 (Z.eqb_neq _ _) Hnb), Hsb, Z.eqb_refl. cbn [orb negb idx fileOff win logs file cb].
  rewrite Z.ltb_irrefl, Z.sub_0_r, wrap_i64_small, Z.ltb_irrefl by (unfold in_int64; lia).
  change (Z.of_nat logHeaderSize) with 28.
  rewrite !Z.add_0_l, (wrap_i64_small 28), (wrap_i64_small (size lb)) by (unfold in_int64; lia).
  rewrite buf_slice_window by (rewrite ?Hl1; lia). rewrite Hd1. cbn [ex_record app logData].
  change (offset (set_status lb R)) with (offset lb). unfold writeAt at 1.
  rewrite (proj2 (Z.leb_le _ _) Hob). cbn [inner].
  change (<[1%nat:=set_status lb R]> [set_status la R; lb]) with [set_status la R; set_status lb R].
  cbn [idx logs length Nat.eqb file cb].
  destruct (wh _); eexists _, _; reflexivity.
Qed.

(** On [ex_wal]: B (108 bytes) follows A (36 bytes) and does not fit
    the 64-byte buffer; the data handed over for B is A's body, B's
    header and the first 44 bytes of B's body, not B's body. *)
Lemma Read_oversized_group_misread_witness :
  (exists w' r, Read 1 3 ex_record (fun f => Ok f) 3 ex_wal [] =
    Some ([take (Z.to_nat (36 - 28)) (drop (Z.to_nat (47 + 28)) (logFile ex_wal));
           take (Z.to_nat (108 - 28)) (drop (Z.to_nat (47 + 28)) (logFile ex_wal))], w', r)) /\
  take (Z.to_nat (108 - 28)) (drop (Z.to_nat (47 + 28)) (logFile ex_wal)) =
    ex_bodyA ++ ex_hdr ++ take 44 ex_bodyB /\
  ex_bodyA ++ ex_hdr ++ take 44 ex_bodyB <> ex_bodyB.
Proof.
  split_and!.
  - apply (Read_oversized_group_misread 1 3 (fun f => Ok f) 3 ex_wal (ex_info 47 36) (ex_info 83 108));
      cbn; unfold logHeaderSize; (lia || reflexivity).
  - vm_compute. reflexivity.
  - intros H. apply (f_equal (fun l => head l)) in H. vm_compute in H. discriminate H.
Defined.

(** A second group that does not fit the window read from the first: the
    outer loop re-reads from it, and [Read] hands over both bodies. *)
Definition ex_bodyC : list Z := map Z.of_nat (seq 100 20).
Definition ex_groups2 : list group :=
  [mkGroup (ex_info 47 36) ex_bodyA []; mkGroup (ex_info 83 48) ex_bodyC []].
Definition ex_wal2 : WalState :=
  mkWal (map gl ex_groups2) (replicate 47 0 ++ lay [ex_hdr; ex_hdr] ex_groups2)
        131 Segments.newSegments 64.

Lemma Read_refines_witness :
  exists w' r, Read 1 3 ex_record (fun f => Ok f) 2 ex_wal2 [] =
    Some (fst (call_groups 1 ex_record [] ex_groups2), w', r) /\ recoveredLogs w' = [] /\
    match snd (call_groups 1 ex_record [] ex_groups2) with
    | Ok true =>
      match (fun f => Ok f) (replicate 47 0 ++ lay (rel_hdrs 1 3 [ex_hdr; ex_hdr] ex_groups2) ex_groups2 ++ [])
      with
      | Ok fl => logFile w' = fl /\ r = Ok tt
      | Err e => logFile w' = replicate 47 0 ++ lay (rel_hdrs 1 3 [ex_hdr; ex_hdr] ex_groups2) ex_groups2 ++ []
                 /\ r = Err e
      end
    | Ok false => r = Ok tt
    | Err e => r = Err e
    end.
Proof.
  apply (Read_refines 1 3 ex_record (fun f => Ok f) 2 ex_wal2 [] (replicate 47 0) [ex_hdr; ex_hdr]
    ex_groups2 []).
  - lia.
  - discriminate.
  - reflexivity.
  - by rewrite app_nil_r.
  - vm_compute. repeat split; discriminate.
  - reflexivity.
  - vm_compute. reflexivity.
  - vm_compute. discriminate.
  - repeat constructor; vm_compute; discriminate.
Defined.

(** [Read] on the WAL of [Read_oversized_group_misread] returns with the
    fuel [Read_terminates] asks for. *)
Lemma Read_terminates_witness :
  Forall size_ok (recoveredLogs ex_wal) /\ (2 * length (recoveredLogs ex_wal) + 2 <= 6)%nat /\
  Read 1 3 ex_record (fun f => Ok f) 6 ex_wal [] <> None.
Proof.
  assert (H : Forall size_ok (recoveredLogs ex_wal)) by (repeat constructor; cbn; lia).
  split_and!; [exact H|cbn; lia|]. apply Read_terminates; [exact H|cbn; lia].
Defined.

End WalRead.
