(* ===== verification/Recovery.v ===== *)
(** * Recovery through the WAL reader: [DB.startRecover]
      (src/memdb/timelock.go, lines 443-468, with src/wal/reader.go)

    [startRecover] hands [Reader.Read] a callback that replays every
    record of a group into the map [log].  [MemBlock.startRecover] models
    the replay over the list of groups handed over; this file plugs the
    callback into the model of [Read] ([WalRead]) and shows that, on a
    well-laid-out log file, the two agree. *)

From S2P Require Import Prelude Segments LogCodec WalFrames MemBlock WalRead.
Import WalFrames MemBlock WalRead.

Module Recovery.

Section Recovery.

Context (logStatusWritten logStatusReleased : Z).
Context (writeHeader : list Z -> result (list Z)).

(** The callback of [startRecover]: [Count] calls of [Next], each record
    applied to [log]; it never asks to stop. *)
Definition recover_cb (log : gmap Z (list Z)) (_ : Z) (r : Reader)
  : gmap Z (list Z) * (bool * result unit) :=
  let '(log', err) := replay (Z.to_nat (Count r)) r log in (log', (false, err)).

(** The groups [Read] hands over, as [MemBlock.read_groups] takes them:
    time ID, entry count and body. *)
Definition live_groups (gs : list group) : list (Z * Z * list Z) :=
  map (fun g => (LogCodec.timeID (gl g), LogCodec.entryCount (gl g), gbody g))
      (filter (fun g => skipped logStatusWritten g = false) gs).

Lemma call_groups_recover c gs :
  call_groups logStatusWritten recover_cb c gs =
  (fst (read_groups (live_groups gs) c),
   match snd (read_groups (live_groups gs) c) with Ok _ => Ok true | Err e => Err e end).
Proof.
  revert c. induction gs as [|g gs IH]; intros c; [done|].
  unfold live_groups. cbn [call_groups]. destruct (skipped logStatusWritten g) eqn:Hs.
  - rewrite filter_cons_False by (rewrite Hs; discriminate). apply IH.
  - rewrite filter_cons_True by done. cbn [map read_groups]. unfold recover_cb, Count.
    cbn [entryCount]. destruct (replay _ _ c) as [c' [u|e]]; [apply IH|done].
Qed.

(** C32: [Read] with [startRecover]'s callback computes the recovered map
    of [MemBlock.startRecover].  On a well-laid-out log file whose groups
    handed over fit the buffer, [Read] run with the callback of
    [startRecover] from an empty map returns exactly the map that
    [MemBlock.startRecover] replays from the WRITTEN non-empty groups in
    file order, and an error of that replay is the error [Read] returns. *)
Theorem Read_startRecover fuel w P hs gs T :
  (2 <= fuel)%nat -> gs <> [] ->
  recoveredLogs w = map gl gs -> logFile w = P ++ lay hs gs ++ T ->
  laid logStatusReleased (segs w) (Z.of_nat (length P)) hs gs ->
  fileSize w = Z.of_nat (length (logFile w)) -> fileSize w < 2 ^ 62 -> 0 <= bufferSize w ->
  Forall (fun g => skipped logStatusWritten g = false -> LogCodec.size (gl g) <= bufferSize w) gs ->
  exists w' r,
    Read logStatusWritten logStatusReleased recover_cb writeHeader fuel w ∅ =
      Some (fst (MemBlock.startRecover (live_groups gs)), w', r) /\
    forall e, snd (read_groups (live_groups gs) ∅) = Err e -> r = Err e.
Proof.
  intros.
  destruct (Read_sim logStatusWritten logStatusReleased recover_cb writeHeader fuel w ∅ P hs gs T)
    as (w' & r & HR & _ & Hr); try done.
  rewrite call_groups_recover in HR, Hr. exists w', r. unfold MemBlock.startRecover.
  destruct (read_groups (live_groups gs) ∅) as [m [u|e]]; cbn [fst snd] in *.
  - split; [done|discriminate].
  - split; [done|]. intros e' [= <-]. done.
Qed.

End Recovery.

(** Two groups of one record each, the second beyond the 50-byte window
    that starts at the first. *)
Definition ex_body1 : list Z := WalFrames.group [rec_bytes (0, 5, [7])].
Definition ex_body2 : list Z := WalFrames.group [rec_bytes (0, 9, [1; 2])].
Definition ex_groupsR : list group :=
  [mkGroup (ex_info 47 (Z.of_nat (28 + length ex_body1))) ex_body1 [];
   mkGroup (ex_info (47 + Z.of_nat (28 + length ex_body1)) (Z.of_nat (28 + length ex_body2))) ex_body2 []].
Definition ex_walR : WalState :=
  mkWal (map gl ex_groupsR) (replicate 47 0 ++ lay [ex_hdr; ex_hdr] ex_groupsR)
        (Z.of_nat (47 + length (lay [ex_hdr; ex_hdr] ex_groupsR))) Segments.newSegments 50.

Lemma Read_startRecover_witness :
  (exists w' r,
    Read 1 3 recover_cb (fun f => Ok f) 2 ex_walR ∅ =
      Some (fst (MemBlock.startRecover (live_groups 1 ex_groupsR)), w', r) /\
    forall e, snd (read_groups (live_groups 1 ex_groupsR) ∅) = Err e -> r = Err e) /\
  fst (MemBlock.startRecover (live_groups 1 ex_groupsR)) = <[9 := [1; 2]]> (<[5 := [7]]> ∅).
Proof.
  split; [|vm_compute; reflexivity].
  apply (Read_startRecover 1 3 (fun f => Ok f) 2 ex_walR (replicate 47 0) [ex_hdr; ex_hdr] ex_groupsR []).
  - lia.
  - discriminate.
  - reflexivity.
  - by rewrite app_nil_r.
  - vm_compute. repeat split; discriminate.
  - reflexivity.
  - vm_compute. reflexivity.
  - vm_compute. discriminate.
  - repeat constructor; vm_compute; discriminate.
Defined.

End Recovery.
