(* ===== verification/Query.v ===== *)
(** * Query lookup: [DB.lookup] (src/db_internal.go, lines 235-257)

    [lookup] resolves a query's topic pattern to topics through the
    trie, sorts them by window offset (highest first), asks the time
    window of each for at most the entries still allowed by [q.Limit],
    and sorts what it collected by sequence (highest first).  The trie,
    the time window and Go's [sort.Slice] are not under src/: each is an
    interface ([TopicTrie], [TimeWindow], [SortSlice]) and the contracts
    the spec gives them are classes of laws ([TimeWindowSpec]: the window
    lookup returns the first [limit] entries of the topic's chain;
    [SortSliceSpec]: a sort returns a sorted permutation).  The theorems
    on [lookup] are proved against the interfaces; stdpp's merge sort and
    a table of chains implement them in the examples. *)

From stdpp Require Import sorting.
From S2P Require Import Prelude.

Module Query.

(** An entry [lookup] collects: [query{topicHash, seq}]. *)
Record query := mkq { q_topicHash : Z; q_seq : Z }.

(** A topic of the trie: [topic{hash, offset}], the offset of its window
    block. *)
Record topic := mkTopic { t_hash : Z; t_offset : Z }.

(** The orders of the two [sort.Slice] calls, as "comes no later than":
    [topics[i].offset > topics[j].offset] and
    [q.winEntries[i].seq > q.winEntries[j].seq]. *)
Definition by_offset (a b : topic) : Prop := t_offset b <= t_offset a.
Definition by_seq (a b : query) : Prop := q_seq b <= q_seq a.
#[export] Instance by_offset_dec : RelDecision by_offset := fun a b => decide (t_offset b <= t_offset a).
#[export] Instance by_seq_dec : RelDecision by_seq := fun a b => decide (q_seq b <= q_seq a).
#[export] Instance by_offset_total : Total by_offset.
Proof. intros a b. unfold by_offset. lia. Qed.
#[export] Instance by_seq_total : Total by_seq.
Proof. intros a b. unfold by_seq. lia. Qed.

(** ** The collaborators' interfaces *)

(** [sort.Slice(x, less)], with [R a b] meaning [not (less b a)]. *)
Class SortSlice := sort_slice : forall {A} (R : relation A) `{!RelDecision R}, list A -> list A.
Class SortSliceSpec `{SortSlice} := {
  sort_slice_perm {A} (R : relation A) `{!RelDecision R} l : sort_slice R l ≡ₚ l;
  sort_slice_sorted {A} (R : relation A) `{!RelDecision R, !Total R} l : Sorted R (sort_slice R l)
}.

(** [db.timeWindow.lookup(topicHash, offset, cutoff, limit)] on a time
    window of type [T]: sequences. *)
Class TimeWindow (T : Type) := win_lookup : T -> Z -> Z -> Z -> Z -> list Z.
(** The window as the spec describes it: [win_all tw h o c] is the chain
    of topic [h] from [o], newest first, cut at [cutoff]; the lookup
    stops after [limit] entries. *)
Class TimeWindowSpec (T : Type) `{TimeWindow T} := {
  win_all : T -> Z -> Z -> Z -> list Z;
  win_lookup_take tw h o c lim :
    0 <= lim -> win_lookup tw h o c lim = take (Z.to_nat lim) (win_all tw h o c)
}.

(** [db.trie.lookup(q.parts, q.depth, q.topicType)] on a trie of type
    [R] for patterns of type [P]. *)
Class TopicTrie (R P : Type) := trie_lookup : R -> P -> list topic.

(** The part of [Query] that [lookup] reads and writes. *)
Record Query (P : Type) := mkQuery { parts : P; cutoff : Z; Limit : Z; winEntries : list query }.
Arguments mkQuery {P}.
Arguments parts {P}. Arguments cutoff {P}. Arguments Limit {P}. Arguments winEntries {P}.

Section Lookup.

Context `{SortSlice} {Tw : Type} `{TimeWindow Tw} {Tr P : Type} `{TopicTrie Tr P}.

(** The [for _, topic := range topics] loop over the window [tw]. *)
Fixpoint collect (tw : Tw) (lim cut : Z) (topics : list topic) (acc : list query) : list query :=
  match topics with
  | [] => acc
  | t :: ts =>
    if lim <? Z.of_nat (length acc) then acc else
    let limit := lim - Z.of_nat (length acc) in
    collect tw lim cut ts (acc ++ map (mkq (t_hash t)) (win_lookup tw (t_hash t) (t_offset t) cut limit))
  end.

(** [DB.lookup], with [db.trie] and [db.timeWindow]. *)
Definition lookup (tr : Tr) (tw : Tw) (q : Query P) : Query P * result unit :=
  let topics := sort_slice by_offset (trie_lookup tr (parts q)) in
  let we := collect tw (Limit q) (cutoff q) topics (winEntries q) in
  (mkQuery (parts q) (cutoff q) (Limit q) (sort_slice by_seq we), Ok tt).

(** ** Against the contracts *)

Context `{!SortSliceSpec} `{!TimeWindowSpec Tw}.

(** The entries of a topic's window chain. *)
Definition topic_entries (tw : Tw) (cut : Z) (t : topic) : list query :=
  map (mkq (t_hash t)) (win_all tw (t_hash t) (t_offset t) cut).

(** The loop takes, topic after topic, entries until [Limit] is reached. *)
Lemma collect_take tw lim cut ts acc :
  Z.of_nat (length acc) <= lim ->
  collect tw lim cut ts acc =
  acc ++ take (Z.to_nat lim - length acc) (concat (map (topic_entries tw cut) ts)).
Proof.
  revert acc. induction ts as [|t ts IH]; intros acc Hacc; cbn [collect map concat].
  - by rewrite take_nil, app_nil_r.
  - rewrite (proj2 (Z.ltb_ge _ _)) by lia. rewrite win_lookup_take by lia.
    rewrite IH by (rewrite length_app, length_map, length_take; lia).
    rewrite <- app_assoc, take_app. unfold topic_entries. rewrite <- firstn_map, length_app, length_map, length_take.
    f_equal. f_equal; f_equal; rewrite ?length_map; lia.
Qed.

(** A sorted permutation of a list sorted with distinct keys is that list. *)
Lemma sorted_pair {A} (key : A -> Z) (x y : A) l :
  key y < key x -> l ≡ₚ [x; y] -> Sorted (fun a b => key b <= key a) l -> l = [x; y].
Proof.
  intros Hk Hp Hs. symmetry in Hp. apply Permutation_length_2_inv in Hp as [->| ->]; [done|].
  apply Sorted_inv in Hs as [_ Hr]. inversion Hr; lia.
Qed.

(** C33: [lookup] returns the newest entries of each topic, topics taken by
    decreasing window offset, up to [Limit].  From a query whose
    collected entries do not exceed [Limit], [lookup] succeeds, keeps the
    pattern, cutoff and limit, and returns, sorted by decreasing sequence,
    the entries already collected followed by the first
    [Limit - len(winEntries)] entries of the topics' window chains read in
    the order of decreasing window offset; so it never returns more than
    [Limit] entries. *)
Theorem lookup_spec tr tw q :
  Z.of_nat (length (winEntries q)) <= Limit q ->
  let '(q', r) := lookup tr tw q in
  r = Ok tt /\ parts q' = parts q /\ cutoff q' = cutoff q /\ Limit q' = Limit q /\
  winEntries q' ≡ₚ winEntries q ++ take (Z.to_nat (Limit q) - length (winEntries q))
    (concat (map (topic_entries tw (cutoff q)) (sort_slice by_offset (trie_lookup tr (parts q))))) /\
  Sorted by_seq (winEntries q') /\
  Z.of_nat (length (winEntries q')) <= Limit q.
Proof.
  intros Hq. unfold lookup. cbn [parts cutoff Limit winEntries]. rewrite collect_take by done.
  split_and!; try done; [apply sort_slice_perm|apply (sort_slice_sorted by_seq)|].
  rewrite (Permutation_length (sort_slice_perm by_seq _)), length_app, length_take. lia.
Qed.

(** The limit keeps the topics with the highest window offset, not the
    newest entries.  When a pattern matches two topics, [a] whose window
    block lies after [b]'s, with entries 2 and 1 for [a] and 10 and 9 for
    [b], [lookup] with limit 2 returns [a]'s entries 2 and 1 and drops
    the newer 10 and 9 of [b], whatever sort meets its contract. *)
Theorem lookup_limit_by_offset tr tw q a b :
  trie_lookup tr (parts q) = [a; b] -> t_offset b < t_offset a -> winEntries q = [] -> Limit q = 2 ->
  win_all tw (t_hash a) (t_offset a) (cutoff q) = [2; 1] ->
  win_all tw (t_hash b) (t_offset b) (cutoff q) = [10; 9] ->
  winEntries (fst (lookup tr tw q)) = [mkq (t_hash a) 2; mkq (t_hash a) 1].
Proof.
  intros Ht Hab Hw Hl Ha Hb. unfold lookup. cbn [fst winEntries]. rewrite Ht, Hw, Hl.
  rewrite (sorted_pair t_offset a b (sort_slice by_offset [a; b]))
    by (done || apply sort_slice_perm || apply (sort_slice_sorted by_offset)).
  rewrite collect_take by (cbn; lia). cbn [map concat]. unfold topic_entries. rewrite Ha, Hb.
  apply (sorted_pair q_seq); [cbn; lia|apply sort_slice_perm|apply (sort_slice_sorted by_seq)].
Qed.

End Lookup.

(** ** Implementations *)

(** stdpp's merge sort meets the contract of [sort.Slice]. *)
#[export] Instance merge_sort_slice : SortSlice := fun A R _ => merge_sort R.
#[export] Instance merge_sort_slice_spec : SortSliceSpec.
Proof. split; intros; [apply merge_sort_Permutation|by apply Sorted_merge_sort]. Qed.

(** A time window given by its chains, [(topic hash, sequences)]. *)
Record TableWindow := mkTableWindow { chains : list (Z * list Z) }.
Definition chain_of (tw : TableWindow) (h : Z) : list Z :=
  match list_find (fun c => c.1 = h) (chains tw) with Some (_, c) => c.2 | None => [] end.
#[export] Instance table_window : TimeWindow TableWindow :=
  fun tw h _ _ lim => take (Z.to_nat lim) (chain_of tw h).
#[export] Instance table_window_spec : TimeWindowSpec TableWindow.
Proof. exists (fun tw h _ _ => chain_of tw h). done. Defined.

(** A trie that resolves every pattern to the same topics. *)
Record ListTrie := mkListTrie { trie_topics : list topic }.
#[export] Instance list_trie : TopicTrie ListTrie unit := fun tr _ => trie_topics tr.

(** ** A pattern matching two topics *)

(** Topic 1 has its window block at 100 and entries 2 and 1; topic 2 at
    50 with entries 10 and 9. *)
Definition ex_ta : topic := mkTopic 1 100.
Definition ex_tb : topic := mkTopic 2 50.
Definition ex_trie : ListTrie := mkListTrie [ex_ta; ex_tb].
Definition ex_window : TableWindow := mkTableWindow [(1, [2; 1]); (2, [10; 9])].
Definition ex_q : Query unit := mkQuery tt 0 2 [].

Lemma lookup_spec_witness :
  Z.of_nat (length (winEntries ex_q)) <= Limit ex_q /\
  let '(q', r) := lookup ex_trie ex_window ex_q in
  r = Ok tt /\ parts q' = parts ex_q /\ cutoff q' = cutoff ex_q /\ Limit q' = Limit ex_q /\
  winEntries q' ≡ₚ winEntries ex_q ++ take (Z.to_nat (Limit ex_q) - length (winEntries ex_q))
    (concat (map (topic_entries ex_window (cutoff ex_q))
                 (sort_slice by_offset (trie_lookup ex_trie (parts ex_q))))) /\
  Sorted by_seq (winEntries q') /\
  Z.of_nat (length (winEntries q')) <= Limit ex_q.
Proof. split; [cbn; lia|]. apply (lookup_spec ex_trie ex_window ex_q). cbn. lia. Defined.

Lemma lookup_limit_by_offset_witness :
  winEntries (fst (lookup ex_trie ex_window ex_q)) = [mkq (t_hash ex_ta) 2; mkq (t_hash ex_ta) 1].
Proof.
  apply (lookup_limit_by_offset ex_trie ex_window ex_q ex_ta ex_tb); (reflexivity || (cbn; lia)).
Defined.

End Query.
