(* ===== verification/FileCopy.v ===== *)
(** * Copying the log file: [_File.copy]
      (src/unnamed/part_001, lines 142-183)

    [copy] reads the file from its current offset through a buffer of
    at most [bufferSize] bytes and writes what it reads to a new file,
    until a read returns no byte.  After each read, when the bytes left
    ([stat.Size() - size]) are at least the buffer size, it allocates a
    buffer of all the bytes left.  The OS file is its bytes and its read
    offset; [os.File.Read] returns at most [len(buf)] bytes from the
    offset, no byte and [io.EOF] at the end, and no byte for an empty
    buffer.  [Sync], [Stat], [OpenFile] and the writes to the new file
    are taken to succeed; the new file is the list of bytes written.
    The [for] loop has no bound in the code: the model runs it with
    fuel, and three iterations suffice. *)

From S2P Require Import Prelude.

Module FileCopy.

(** An open OS file: its bytes and its read offset. *)
Record osFile := mkOsFile { fcontent : list Z; fpos : nat }.

(** [os.File.Read(buf)] with [len(buf) = k]: the bytes read, and whether
    the end of the file was reached ([io.EOF]). *)
Definition os_read (f : osFile) (k : nat) : osFile * list Z * bool :=
  if (k =? 0)%nat then (f, [], false)
  else if (length (fcontent f) <=? fpos f)%nat then (f, [], true)
  else let d := take k (drop (fpos f) (fcontent f)) in
       (mkOsFile (fcontent f) (fpos f + length d), d, false).

(** The copy loop: [st] is [stat.Size()], [bs] the buffer size, [size]
    the bytes copied, [out] the new file, [allocs] the sizes of the
    buffers allocated.  [None] is running out of fuel. *)
Fixpoint copy_loop (fuel : nat) (f : osFile) (st bs size : Z) (out : list Z) (allocs : list Z)
  : option (osFile * Z * list Z * list Z) :=
  match fuel with
  | O => None
  | S fu =>
    let '(f', d, _) := os_read f (Z.to_nat bs) in
    if (length d =? 0)%nat then Some (f', size, out, allocs) else
    let size' := size + Z.of_nat (length d) in
    if bs <=? st - size' then copy_loop fu f' st (st - size') size' (out ++ d) (allocs ++ [st - size'])
    else copy_loop fu f' st bs size' (out ++ d) allocs
  end.

(** [_File.copy(bufferSize)]: the size copied, the new file's bytes, the
    buffer sizes allocated, and the error ([make] of a negative size
    panics). *)
Definition copy (fuel : nat) (f : osFile) (bufferSize : Z)
  : option (Z * list Z * list Z * result unit) :=
  let st := Z.of_nat (length (fcontent f)) in
  if st =? 0 then Some (0, [], [], Ok tt) else
  let bufSize := if bufferSize <? st then bufferSize else st in
  if bufSize <? 0 then Some (0, [], [], Err errPanic) else
  match copy_loop fuel f st bufSize 0 [] [bufSize] with
  | None => None
  | Some (_, size, out, allocs) => Some (size, out, allocs, Ok tt)
  end.

(** ** Reads *)

Lemma os_read_some c p k :
  (0 < k)%nat -> (p < length c)%nat ->
  os_read (mkOsFile c p) k = (mkOsFile c (p + Nat.min k (length c - p)), take k (drop p c), false).
Proof.
  intros Hk Hp. unfold os_read. cbn [fcontent fpos].
  rewrite (proj2 (Nat.eqb_neq _ _)) by lia. rewrite (proj2 (Nat.leb_gt _ _)) by lia.
  by rewrite length_take, length_drop.
Qed.

Lemma os_read_end c p k :
  (0 < k)%nat -> (length c <= p)%nat -> os_read (mkOsFile c p) k = (mkOsFile c p, [], true).
Proof.
  intros Hk Hp. unfold os_read. cbn [fcontent fpos].
  rewrite (proj2 (Nat.eqb_neq _ _)) by lia. by rewrite (proj2 (Nat.leb_le _ _)) by lia.
Qed.

(** The loop from the start of a non-empty file with a buffer of [b]
    bytes: at most three reads. *)
Lemma copy_loop_run fuel c b :
  (3 <= fuel)%nat -> 0 < b <= Z.of_nat (length c) ->
  let st := Z.of_nat (length c) in
  copy_loop fuel (mkOsFile c 0) st b 0 [] [b] =
  Some (mkOsFile c (length c), st, c, b :: (if b <=? st - b then [st - b] else [])).
Proof.
  intros Hf Hb st. subst st. destruct fuel as [|[|[|fu]]]; [lia..|].
  cbn [copy_loop]. rewrite os_read_some by lia. rewrite length_take, drop_0.
  rewrite (proj2 (Nat.eqb_neq _ _)) by lia. cbn [app].
  replace (0 + Z.of_nat (Nat.min (Z.to_nat b) (length c))) with b by lia.
  replace (0 + Nat.min (Z.to_nat b) (length c - 0))%nat with (Z.to_nat b) by lia.
  destruct (Z.leb_spec b (Z.of_nat (length c) - b)) as [Hle|Hgt].
  - cbn [copy_loop]. rewrite os_read_some by lia.
    rewrite take_ge by (rewrite length_drop; lia).
    rewrite length_drop, (proj2 (Nat.eqb_neq _ _)) by lia.
    rewrite (proj2 (Z.leb_gt _ _)) by lia. cbn [copy_loop].
    rewrite os_read_end by lia. cbn. rewrite take_drop.
    repeat f_equal; lia.
  - destruct (decide (b = Z.of_nat (length c))) as [->|Hne].
    + cbn [copy_loop]. rewrite os_read_end by lia. cbn.
      rewrite take_ge by lia. repeat f_equal; lia.
    + cbn [copy_loop]. rewrite os_read_some by lia.
      rewrite take_ge by (rewrite length_drop; lia).
      rewrite length_drop, (proj2 (Nat.eqb_neq _ _)) by lia.
      rewrite (proj2 (Z.leb_gt _ _)) by lia. cbn [copy_loop].
      rewrite os_read_end by lia. cbn. rewrite take_drop.
      repeat f_equal; lia.
Qed.

Lemma copy_run fuel c bufferSize :
  (3 <= fuel)%nat -> c <> [] -> 0 < bufferSize ->
  let st := Z.of_nat (length c) in
  let b := Z.min bufferSize st in
  copy fuel (mkOsFile c 0) bufferSize =
  Some (st, c, b :: (if b <=? st - b then [st - b] else []), Ok tt).
Proof.
  intros Hf Hc Hb st b. subst st b. unfold copy. cbn [fcontent].
  assert (Hl : (0 < length c)%nat) by (destruct c; [done|cbn; lia]).
  rewrite (proj2 (Z.eqb_neq _ _)) by lia.
  replace (if bufferSize <? Z.of_nat (length c) then bufferSize else Z.of_nat (length c))
    with (Z.min bufferSize (Z.of_nat (length c)))
    by (destruct (Z.ltb_spec bufferSize (Z.of_nat (length c))); lia).
  rewrite (proj2 (Z.ltb_ge _ _)) by lia. rewrite copy_loop_run by lia. reflexivity.
Qed.

(** C36: [_File.copy] copies the whole file and terminates.  From the
    start of a non-empty file and with a positive buffer size, the loop
    of [copy] ends within three iterations, returns the file's size, and
    the new file holds exactly the file's bytes. *)
Theorem copy_copies_file fuel c bufferSize :
  (3 <= fuel)%nat -> c <> [] -> 0 < bufferSize ->
  exists allocs, copy fuel (mkOsFile c 0) bufferSize = Some (Z.of_nat (length c), c, allocs, Ok tt).
Proof. intros Hf Hc Hb. eexists. exact (copy_run fuel c bufferSize Hf Hc Hb). Qed.

Lemma copy_copies_file_witness :
  exists allocs, copy 3 (mkOsFile [1; 2; 3; 4; 5] 0) 2 = Some (5, [1; 2; 3; 4; 5], allocs, Ok tt).
Proof. apply (copy_copies_file 3 [1; 2; 3; 4; 5] 2); [lia|discriminate|lia]. Defined.

(** The buffer cap of [_File.copy] holds for the first read only.
    When the file holds at least twice [bufferSize] bytes, the check
    [bufSize <= stat.Size() - size] after the first read allocates a
    second buffer of all the bytes left: [copy] allocates exactly the
    buffers [bufferSize] and [stat.Size() - bufferSize], the second one
    larger than [bufferSize] whenever the file holds more than twice
    [bufferSize]. *)
Theorem copy_second_buffer_uncapped fuel c bufferSize :
  (3 <= fuel)%nat -> 0 < bufferSize -> 2 * bufferSize <= Z.of_nat (length c) ->
  copy fuel (mkOsFile c 0) bufferSize =
  Some (Z.of_nat (length c), c, [bufferSize; Z.of_nat (length c) - bufferSize], Ok tt).
Proof.
  intros Hf Hb Hl. rewrite copy_run by (done || lia || (intros ->; cbn in Hl; lia)).
  rewrite Z.min_l by lia. rewrite (proj2 (Z.leb_le _ _)) by lia. reflexivity.
Qed.

Lemma copy_second_buffer_uncapped_witness :
  copy 3 (mkOsFile (replicate 10 7) 0) 2 = Some (10, replicate 10 7, [2; 8], Ok tt).
Proof. apply (copy_second_buffer_uncapped 3 (replicate 10 7) 2); cbn; lia. Defined.

(** With a zero buffer size [_File.copy] copies nothing and reports
    success.  [bufSize] is then 0, the first [Read] into the empty buffer
    returns no byte, and the loop stops: [copy] returns size 0 and no
    error, and the new file is empty, whatever the file holds. *)
Theorem copy_zero_buffer fuel c :
  (1 <= fuel)%nat -> c <> [] -> copy fuel (mkOsFile c 0) 0 = Some (0, [], [0], Ok tt).
Proof.
  intros Hf Hc. destruct fuel as [|fu]; [lia|]. unfold copy. cbn [fcontent].
  assert (Hl : (0 < length c)%nat) by (destruct c; [done|cbn; lia]).
  rewrite (proj2 (Z.eqb_neq _ _)) by lia. rewrite (proj2 (Z.ltb_lt 0 (Z.of_nat (length c)))) by lia. reflexivity.
Qed.

Lemma copy_zero_buffer_witness : copy 1 (mkOsFile [1; 2; 3] 0) 0 = Some (0, [], [0], Ok tt).
Proof. apply (copy_zero_buffer 1 [1; 2; 3]); [lia|discriminate]. Defined.

End FileCopy.
