(* ===== verification/TraceFile.v ===== *)
(** * The tracedb file helpers: [file.extend] and [file.append]
      (src/unnamed/part_000, lines 12-68)

    A tracedb [file] is an OS file with the size the program tracks.
    [extend(size)] truncates the file up to [size] more bytes (zeros)
    and [append(data)] writes [data] at the tracked size; both return
    the offset where the new bytes start, and both re-map a memory-mapped
    file, whose error they return.  The file system ([fs.FileManager])
    is not under src/: the bytes are a list, [Truncate] and [WriteAt]
    have the semantics of [os.File], and the file's type and [Mmap] are
    Section context. *)

From S2P Require Import Prelude.

Module TraceFile.

(** [file]: the bytes of the OS file and the tracked [size]. *)
Record file := mkFile { fbytes : list Z; fsize : Z }.

(** [os.File.Truncate(n)]: cut or zero-fill to [n] bytes. *)
Definition truncate_to (n : nat) (bs : list Z) : list Z := take n bs ++ replicate (n - length bs) 0.

(** [os.File.WriteAt(data, off)], past the end zero-filling up to [off]. *)
Definition write_at (bs data : list Z) (off : nat) : list Z :=
  take off bs ++ replicate (off - length bs) 0 ++ data ++ drop (off + length data) bs.

Section File.

(** [f.FileManager.Type() == "MemoryMap"] and [Mmap(size)]. *)
Context (isMmap : bool) (mmap : Z -> result unit).

Definition remap (f : file) : result unit := if isMmap then mmap (fsize f) else Ok tt.

(** [extend(size)], [size] a [uint32]: the new file, the offset and the
    error.  A negative [Truncate] size fails. *)
Definition extend (f : file) (sz : Z) : file * Z * result unit :=
  let off := fsize f in
  if off + sz <? 0 then (f, 0, Err errIO) else
  let f' := mkFile (truncate_to (Z.to_nat (off + sz)) (fbytes f)) (off + sz) in
  (f', off, remap f').

(** [append(data)]: [WriteAt] at a negative offset fails. *)
Definition append (f : file) (data : list Z) : file * Z * result unit :=
  let off := fsize f in
  if off <? 0 then (f, 0, Err errIO) else
  let f' := mkFile (write_at (fbytes f) data (Z.to_nat off)) (off + Z.of_nat (length data)) in
  (f', off, remap f').

(** A run of calls, in order. *)
Inductive call := Extend (sz : Z) | Append (data : list Z).

Fixpoint run (f : file) (cs : list call) : file * list Z :=
  match cs with
  | [] => (f, [])
  | c :: cs' =>
    let '(f', off, _) := match c with Extend sz => extend f sz | Append d => append f d end in
    let '(f'', offs) := run f' cs' in (f'', off :: offs)
  end.

End File.

(** ** [openFile] (lines 20-40) *)

Section Open.
(** [fsyst.OpenFile(name, flag, perm)] (the bytes of the file), whether
    [fi.Stat()] and [bigcache.NewBigCache(config)] succeed. *)
Context (osOpenFile : result (list Z)) (statOk cacheOk : bool).

(** [openFile]: the file, its [cacheID] and the error.  An error returns
    the file as far as it was filled in: the size is set by [Stat], the
    [cacheID] after the cache.  [r1] and [r2] are the two
    [rand.Uint32()]; [uint64(r1)<<32 + uint64(r2)] is [uint64]
    arithmetic. *)
Definition openFile (r1 r2 : Z) : file * Z * result unit :=
  match osOpenFile with
  | Err e => (mkFile [] 0, 0, Err e)
  | Ok bs =>
    if negb statOk then (mkFile bs 0, 0, Err errIO) else
    let f := mkFile bs (Z.of_nat (length bs)) in
    if negb cacheOk then (f, 0, Err errIO) else
    (f, wrap 64 (wrap 64 (Z.shiftl (wrap 64 r1) 32) + wrap 64 r2), Ok tt)
  end.

End Open.

(** ** [writeMarshalableAt] and [readUnmarshalableAt] (lines 69-85) *)

(** [os.File.ReadAt(buf, off)] into a buffer of [n] bytes: [io.EOF] when
    the file ends first. *)
Definition read_at (bs : list Z) (n : nat) (off : Z) : result (list Z) :=
  if off <? 0 then Err errIO else
  let r := take n (drop (Z.to_nat off) bs) in
  if bool_decide (length r < n)%nat then Err errEOF else Ok r.

Section Marshal.
Context {A : Type}.

(** [f.writeMarshalableAt(m, off)]: [m.MarshalBinary()] then [WriteAt];
    the tracked size is left as it was. *)
Definition writeMarshalableAt (marshal : A -> result (list Z)) (f : file) (m : A) (off : Z)
  : file * result unit :=
  match marshal m with
  | Err e => (f, Err e)
  | Ok buf =>
    if off <? 0 then (f, Err errIO) else (mkFile (write_at (fbytes f) buf (Z.to_nat off)) (fsize f), Ok tt)
  end.

(** [f.readUnmarshalableAt(m, size, off)]: [size] is a [uint32]. *)
Definition readUnmarshalableAt (unmarshal : list Z -> result A) (f : file) (size off : Z) : result A :=
  buf <-- read_at (fbytes f) (Z.to_nat (wrap 32 size)) off ;; unmarshal buf.

End Marshal.

Lemma read_at_write_at bs data off :
  read_at (write_at bs data off) (length data) (Z.of_nat off) = Ok data.
Proof.
  unfold read_at, write_at. rewrite (proj2 (Z.ltb_ge _ _)) by lia. rewrite Nat2Z.id.
  assert (Hl : length (take off bs ++ replicate (off - length bs) 0) = off)
    by (rewrite length_app, length_take, length_replicate; lia).
  rewrite app_assoc, drop_app_length' by (symmetry; exact Hl). rewrite take_app_length.
  by rewrite bool_decide_false by lia.
Qed.

(** A value written at [off] and read back with its own size. *)
Lemma readUnmarshalableAt_write {A} (marshal : A -> result (list Z)) (unmarshal : list Z -> result A) f m off buf :
  marshal m = Ok buf -> 0 <= off -> Z.of_nat (length buf) < 2 ^ 32 ->
  readUnmarshalableAt unmarshal (writeMarshalableAt marshal f m off).1 (Z.of_nat (length buf)) off =
    unmarshal buf.
Proof.
  intros Hm Ho Hl. unfold writeMarshalableAt. rewrite Hm, (proj2 (Z.ltb_ge _ _)) by lia.
  unfold readUnmarshalableAt. cbn [fst fbytes]. rewrite wrap_small by (unfold in_uint; lia).
  rewrite Nat2Z.id. rewrite <- (Z2Nat.id off) at 2 by lia. by rewrite read_at_write_at.
Qed.

(** ** The file grows as the calls say *)

(** The bytes a call adds, and where each call's bytes start. *)
Definition call_bytes (c : call) : list Z :=
  match c with Extend sz => replicate (Z.to_nat sz) 0 | Append d => d end.

Fixpoint starts (base : nat) (cs : list call) : list nat :=
  match cs with
  | [] => []
  | c :: cs' => base :: starts (base + length (call_bytes c)) cs'
  end.

(** [extend] takes a [uint32] size. *)
Definition call_ok (c : call) : Prop :=
  match c with Extend sz => 0 <= sz < 2 ^ 32 | Append _ => True end.

Definition file_ok (f : file) : Prop := fsize f = Z.of_nat (length (fbytes f)).

Lemma extend_grow isMmap mmap f sz :
  file_ok f -> 0 <= sz ->
  (extend isMmap mmap f sz).1 =
    (mkFile (fbytes f ++ replicate (Z.to_nat sz) 0) (fsize f + sz), fsize f).
Proof.
  unfold file_ok, extend. intros Hf Hsz. rewrite (proj2 (Z.ltb_ge _ _)) by lia. cbn [fst].
  unfold truncate_to. rewrite take_ge by lia. repeat f_equal. lia.
Qed.

(** An [extend] whose re-map succeeds. *)
Lemma extend_ok isMmap mmap f sz :
  file_ok f -> 0 <= sz -> (forall z, mmap z = Ok tt) ->
  extend isMmap mmap f sz = (mkFile (fbytes f ++ replicate (Z.to_nat sz) 0) (fsize f + sz), fsize f, Ok tt).
Proof.
  intros Hf Hsz Hm. pose proof (extend_grow isMmap mmap f sz Hf Hsz) as G.
  destruct (extend isMmap mmap f sz) as [[f' off] r] eqn:E. cbn in G. injection G as -> ->.
  f_equal. unfold extend, remap in E. rewrite (proj2 (Z.ltb_ge _ _)) in E by (unfold file_ok in Hf; lia).
  injection E as _ <-. destruct isMmap; [apply Hm|reflexivity].
Qed.

Lemma append_grow isMmap mmap f d :
  file_ok f ->
  (append isMmap mmap f d).1 = (mkFile (fbytes f ++ d) (fsize f + Z.of_nat (length d)), fsize f).
Proof.
  unfold file_ok, append. intros Hf. rewrite (proj2 (Z.ltb_ge _ _)) by lia. cbn [fst].
  unfold write_at. rewrite Hf, Nat2Z.id, take_ge, Nat.sub_diag, drop_ge by (rewrite ?length_app; lia).
  by rewrite app_nil_r.
Qed.

(** [extend] and [append] lay the file out as the concatenation of
    what they add.  From a file whose tracked size is its length, any
    run of [extend] (with [uint32] sizes) and [append] calls, whatever
    their re-map errors, leaves the file holding its old bytes followed
    by each call's bytes in order (zeros for [extend], the data for
    [append]), keeps the tracked size equal to the length, and each call
    returns the offset where its own bytes start. *)
Theorem run_layout isMmap mmap f cs :
  file_ok f -> Forall call_ok cs ->
  let '(f', offs) := run isMmap mmap f cs in
  fbytes f' = fbytes f ++ concat (map call_bytes cs) /\ file_ok f' /\
  offs = map Z.of_nat (starts (length (fbytes f)) cs).
Proof.
  revert f. induction cs as [|c cs IH]; intros f Hf Hcs.
  - cbn. by rewrite app_nil_r.
  - apply Forall_cons in Hcs as [Hc Hcs]. cbn [run].
    destruct (match c with Extend sz => extend isMmap mmap f sz | Append d => append isMmap mmap f d end)
      as [[f1 off] r] eqn:E.
    assert (Hg : f1 = mkFile (fbytes f ++ call_bytes c) (fsize f + Z.of_nat (length (call_bytes c))) /\
                 off = fsize f).
    { destruct c as [sz|d]; cbn in Hc |- *.
      - pose proof (extend_grow isMmap mmap f sz Hf ltac:(lia)) as G. rewrite E in G.
        cbn in G. injection G as -> ->. rewrite length_replicate. split; [do 2 f_equal|]; lia.
      - pose proof (append_grow isMmap mmap f d Hf) as G. rewrite E in G. cbn in G.
        by injection G as -> ->. }
    destruct Hg as [-> ->].
    specialize (IH (mkFile (fbytes f ++ call_bytes c) (fsize f + Z.of_nat (length (call_bytes c)))) ltac:(unfold file_ok in *; cbn [fsize fbytes]; rewrite length_app; lia) Hcs).
    destruct (run isMmap mmap _ cs) as [f' offs]. destruct IH as (Hb & Hok & Ho).
    cbn [fbytes] in Hb, Ho. rewrite length_app in Ho. split_and!.
    + by rewrite Hb, <- app_assoc.
    + done.
    + cbn [starts map]. rewrite Ho. f_equal. exact Hf.
Qed.

Lemma run_layout_witness :
  file_ok (mkFile [1; 2] 2) /\ Forall call_ok [Append [7; 8; 9]; Extend 2; Append [5]] /\
  let '(f', offs) := run true (fun _ => Err errIO) (mkFile [1; 2] 2) [Append [7; 8; 9]; Extend 2; Append [5]] in
  fbytes f' = fbytes (mkFile [1; 2] 2) ++ concat (map call_bytes [Append [7; 8; 9]; Extend 2; Append [5]]) /\
  file_ok f' /\ offs = map Z.of_nat (starts (length (fbytes (mkFile [1; 2] 2))) [Append [7; 8; 9]; Extend 2; Append [5]]).
Proof.
  assert (H1 : file_ok (mkFile [1; 2] 2)) by reflexivity.
  assert (H2 : Forall call_ok [Append [7; 8; 9]; Extend 2; Append [5]])
    by (repeat constructor; cbn; lia).
  split_and!; [exact H1|exact H2|].
  exact (run_layout true (fun _ => Err errIO) _ _ H1 H2).
Defined.

(** ** The cache ID packs the two random halves *)

(** [uint64(r1)<<32 + uint64(r2)] of two [uint32] is [r1 * 2^32 + r2]. *)
Lemma pack32_spec r1 r2 :
  in_uint 32 r1 -> in_uint 32 r2 ->
  wrap 64 (wrap 64 (Z.shiftl (wrap 64 r1) 32) + wrap 64 r2) = r1 * 2 ^ 32 + r2.
Proof.
  intros H1 H2. unfold in_uint in *.
  rewrite !(wrap_small 64 r1), !(wrap_small 64 r2) by (unfold in_uint; lia).
  rewrite Z.shiftl_mul_pow2 by lia. rewrite (wrap_small 64 (r1 * 2 ^ 32)) by (unfold in_uint; nia).
  apply wrap_small. unfold in_uint. nia.
Qed.

(** A file that opens and stats has the size of its bytes, and its
    [cacheID] gives back both random halves: the high 32 bits are [r1]
    and the low 32 bits [r2], so distinct draws give distinct IDs. *)
Theorem openFile_cacheID bs cacheOk r1 r2 :
  cacheOk = true -> in_uint 32 r1 -> in_uint 32 r2 ->
  exists id, openFile (Ok bs) true cacheOk r1 r2 = (mkFile bs (Z.of_nat (length bs)), id, Ok tt) /\
    in_uint 64 id /\ Z.shiftr id 32 = r1 /\ Z.land id (Z.ones 32) = r2.
Proof.
  intros -> H1 H2. exists (r1 * 2 ^ 32 + r2). unfold openFile. cbn -[wrap].
  rewrite pack32_spec by done. unfold in_uint in *. split_and!; [done|nia|nia|..].
  - rewrite Z.shiftr_div_pow2 by lia. rewrite Z.div_add_l by lia. rewrite Z.div_small by lia. lia.
  - rewrite Z.land_ones by lia. rewrite Z.add_comm, Z.mod_add by lia. by apply Z.mod_small.
Qed.

Lemma openFile_cacheID_witness :
  exists id, openFile (Ok [1; 2; 3]) true true 5 7 = (mkFile [1; 2; 3] 3, id, Ok tt) /\
    in_uint 64 id /\ Z.shiftr id 32 = 5 /\ Z.land id (Z.ones 32) = 7.
Proof. apply (openFile_cacheID [1; 2; 3] true 5 7); [reflexivity|unfold in_uint; lia|unfold in_uint; lia]. Defined.

End TraceFile.
