(* ===== verification/Options.v ===== *)
(** * Option defaults (src/options.go)

    [Options.copyWithDefaults] copies the caller's options (none for a
    nil pointer) and fills in the defaults: every zero size or interval
    gets a default, a nil file system and a nil encryption key get the
    built-in ones, and the key expirer is switched on.  Durations are
    [Z] nanoseconds ([time.Duration] is an [int64]); the file system is
    an abstract type, [None] for a nil interface; a nil byte slice is
    [None], so that an empty key is told apart from a missing one. *)

From S2P Require Import Prelude.

Module Options.

Section Options.
Context {FS : Type}.
(** [fs.FileIO], the default file system. *)
Context (FileIO : FS).

(** [type Options struct]. *)
Record Options := mkOptions {
  BackgroundSyncInterval : Z;
  BackgroundKeyExpiry : bool;
  Encryption : bool;
  EncryptionKey : option (list Z);
  BlockCacheSize : Z;
  TinyBatchSize : Z;
  TinyBatchWriteInterval : Z;
  MemdbSize : Z;
  LogSize : Z;
  FileSystem : option FS
}.

Definition Second : Z := 1000000000.
Definition Millisecond : Z := 1000000.

(** [[]byte("4BWm1vZletvrCDGWsF6mex8oBSd59m6I")]. *)
Definition defaultEncryptionKey : list Z :=
  [52; 66; 87; 109; 49; 118; 90; 108; 101; 116; 118; 114; 67; 68; 71; 87;
   115; 70; 54; 109; 101; 120; 56; 111; 66; 83; 100; 53; 57; 109; 54; 73].

(** The zero [Options{}]. *)
Definition zeroOptions : Options := mkOptions 0 false false None 0 0 0 0 0 None.

(** [if opts.X == 0 { opts.X = d }] and [if opts.X == nil { opts.X = d }]. *)
Definition dflt (x d : Z) : Z := if x =? 0 then d else x.
Definition dflt_nil {A} (x : option A) (d : A) : option A :=
  match x with None => Some d | Some a => Some a end.

(** [src.copyWithDefaults()], [None] for a nil [src]. *)
Definition copyWithDefaults (src : option Options) : Options :=
  let o := match src with Some o => o | None => zeroOptions end in
  mkOptions
    (dflt (BackgroundSyncInterval o) (1 * Second))
    true
    (Encryption o)
    (dflt_nil (EncryptionKey o) defaultEncryptionKey)
    (dflt (BlockCacheSize o) (2 ^ 30))
    (dflt (TinyBatchSize o) 100)
    (dflt (TinyBatchWriteInterval o) (15 * Millisecond))
    (dflt (MemdbSize o) (2 ^ 20))
    (dflt (LogSize o) (2 ^ 30))
    (dflt_nil (FileSystem o) FileIO).

End Options.

Lemma dflt_nonzero x d : d <> 0 -> dflt x d <> 0.
Proof. unfold dflt. destruct (Z.eqb_spec x 0); lia. Qed.

Lemma dflt_dflt x d : d <> 0 -> dflt (dflt x d) d = dflt x d.
Proof. intros Hd. unfold dflt at 1. by rewrite (proj2 (Z.eqb_neq _ _) (dflt_nonzero x d Hd)). Qed.

Lemma dflt_kept x d : x <> 0 -> dflt x d = x.
Proof. intros Hx. unfold dflt. by rewrite (proj2 (Z.eqb_neq _ _) Hx). Qed.

Lemma dflt_nil_dflt_nil {A} (x : option A) d : dflt_nil (dflt_nil x d) d = dflt_nil x d.
Proof. by destruct x. Qed.

Section Properties.
Context {FS : Type} (FileIO : FS).

(** Filling in the defaults twice is filling them in once. *)
Theorem copyWithDefaults_idem src :
  copyWithDefaults FileIO (Some (copyWithDefaults FileIO src)) = copyWithDefaults FileIO src.
Proof.
  unfold copyWithDefaults at 1. cbn.
  rewrite !dflt_dflt, !dflt_nil_dflt_nil by (unfold Second, Millisecond; lia). reflexivity.
Qed.

(** The zero settings the field comments document cannot be chosen:
    after [copyWithDefaults] the background sync interval and the
    tiny-batch interval are never 0 (documented as "disables the
    background synchronization" and "immediately writes entries") and
    the key expirer is always on; a zero memdb size becomes [2^20]
    bytes, not the 1GB of its comment; every non-zero setting is
    kept. *)
Theorem copyWithDefaults_no_zero o :
  let r := copyWithDefaults FileIO (Some o) in
  BackgroundSyncInterval r <> 0 /\ TinyBatchWriteInterval r <> 0 /\ BackgroundKeyExpiry r = true /\
  (MemdbSize o = 0 -> MemdbSize r = 2 ^ 20) /\
  (BackgroundSyncInterval o <> 0 -> BackgroundSyncInterval r = BackgroundSyncInterval o) /\
  (TinyBatchWriteInterval o <> 0 -> TinyBatchWriteInterval r = TinyBatchWriteInterval o) /\
  (MemdbSize o <> 0 -> MemdbSize r = MemdbSize o).
Proof.
  cbn. split_and!; try (apply dflt_nonzero; unfold Second, Millisecond; lia); try done;
    [intros H; unfold dflt; by rewrite H|..]; intros; by apply dflt_kept.
Qed.

End Properties.

End Options.
