(* ===== verification/Iterator.v ===== *)
(** * The item iterator (src/iterator.go)

    [ItemIterator.Next] refills an empty queue bucket by bucket: from
    [nextBucketIdx] on, it walks the bucket's chain with
    [db.forEachBucket] and queues the key/value of each slot, until a
    bucket has given at least one item; then it pops the head of the
    queue into [item].  In the callback, an empty slot ends the chain, an
    expired key ends the bucket handle, and any other read error stops
    the walk, after which [Next] returns silently.

    The bucket store is outside src/: [forEachBucket] is modelled from
    its use as a walk over the chain's bucket handles that stops at the
    first [true] or error; the handles of a bucket, [entriesPerBucket]
    and [readKeyValue] are Section context.  The loop over the buckets
    is bounded by [nBuckets], which is its fuel.  A nil queue is [None],
    so that [Valid] can tell it from an empty one. *)

From S2P Require Import Prelude.

Module Iterator.

(** [type Item struct]. *)
Record Item := mkItem { key : list Z; value : list Z; expiresAt : Z; item_err : option error }.

Definition emptyItem : Item := mkItem [] [] 0 None.

(** A slot of a bucket handle: [kvOffset] and [expiresAt]. *)
Record slot := mkSlot { kvOffset : Z; sl_expiresAt : Z }.

(** [ItemIterator]: the next bucket, the current item and the queue. *)
Record ItemIterator := mkItemIterator { nextBucketIdx : Z; item : Item; queue : option (list Item) }.

(** [append] on a slice that may be nil. *)
Definition push (q : option (list Item)) (i : Item) : option (list Item) :=
  Some (default [] q ++ [i]).

Section Next.
Context (nBuckets : Z) (entriesPerBucket : nat).
(** The handles of bucket [idx] as [forEachBucket] visits them (each a
    list of [entriesPerBucket] slots), and [db.data.readKeyValue]. *)
Context (bucketChain : Z -> list (list slot)).
Context (readKeyValue : slot -> result (list Z * list Z)).
(** [ErrKeyExpired]. *)
Context (errKeyExpired : error).
Context (errKeyExpired_dec : forall e : error, {e = errKeyExpired} + {e <> errKeyExpired}).

(** The callback's loop over the slots of one handle: the queue, whether
    to stop the walk, and the error. *)
Fixpoint slots_cb (n : nat) (sls : list slot) (q : option (list Item))
  : option (list Item) * bool * result unit :=
  match n with
  | O => (q, false, Ok tt)
  | S n' =>
    match sls with
    | [] => (q, true, Err errPanic)
    | sl :: rest =>
      if kvOffset sl =? 0 then (q, true, Ok tt) else
      match readKeyValue sl with
      | Err e => if errKeyExpired_dec e then (q, false, Ok tt) else (q, true, Err e)
      | Ok (k, v) => slots_cb n' rest (push q (mkItem k v (sl_expiresAt sl) None))
      end
    end
  end.

(** [it.db.forEachBucket(idx, f)]: the handles in order, stopping at the
    first [true] or error, which it returns. *)
Fixpoint forEachBucket (hs : list (list slot)) (q : option (list Item)) : option (list Item) * result unit :=
  match hs with
  | [] => (q, Ok tt)
  | h :: hs' =>
    let '(q', stop, r) := slots_cb entriesPerBucket h q in
    match r with
    | Err e => (q', Err e)
    | Ok _ => if stop then (q', Ok tt) else forEachBucket hs' q'
    end
  end.

(** [for it.nextBucketIdx < it.db.nBuckets { ... }], [fuel] bounding the
    buckets left; [true] when a walk failed and [Next] returns. *)
Fixpoint refill (fuel : nat) (idx : Z) (q : option (list Item)) : Z * option (list Item) * bool :=
  match fuel with
  | O => (idx, q, false)
  | S fuel' =>
    if idx <? nBuckets then
      let '(q', r) := forEachBucket (bucketChain idx) q in
      match r with
      | Err _ => (idx, q', true)
      | Ok _ =>
        if bool_decide (0 < length (default [] q'))%nat then (idx + 1, q', false)
        else refill fuel' (idx + 1) q'
      end
    else (idx, q, false)
  end.

(** [ItemIterator.Next]: a failed walk returns at once, keeping what was
    queued. *)
Definition Next (it : ItemIterator) : ItemIterator :=
  let '(idx, q, failed) :=
    if bool_decide (length (default [] (queue it)) = 0)%nat
    then refill (Z.to_nat (nBuckets - nextBucketIdx it)) (nextBucketIdx it) (queue it)
    else (nextBucketIdx it, queue it, false) in
  if failed then mkItemIterator idx (item it) q else
  match q with
  | Some (i :: rest) => mkItemIterator idx i (Some rest)
  | _ => mkItemIterator idx (item it) q
  end.

End Next.

(** [ItemIterator.Valid]: a nil queue is done. *)
Definition Valid (it : ItemIterator) : bool :=
  match queue it with None => false | Some q => bool_decide (0 < length q)%nat end.

(** [Item], [Key], [Value] and [Error]. *)
Definition Item_ (it : ItemIterator) : Item := item it.
Definition Key (it : ItemIterator) : list Z := key (item it).
Definition Value (it : ItemIterator) : list Z := value (item it).
Definition Error (it : ItemIterator) : option error := None.

(** ** An expired key hides the rest of its bucket handle *)

Section Properties.
Context (nBuckets : Z) (entriesPerBucket : nat) (bucketChain : Z -> list (list slot)).
Context (readKeyValue : slot -> result (list Z * list Z)).
Context (errKeyExpired : error) (errKeyExpired_dec : forall e : error, {e = errKeyExpired} + {e <> errKeyExpired}).

(** A slot whose key/value reads back. *)
Definition live (s : slot) : Prop := kvOffset s <> 0 /\ exists kv, readKeyValue s = Ok kv.

(** The item the callback queues for a live slot. *)
Definition slot_item (s : slot) : Item :=
  match readKeyValue s with Ok (k, v) => mkItem k v (sl_expiresAt s) None | Err _ => emptyItem end.

Lemma slots_cb_live n pre sls l :
  Forall live pre -> (length pre <= n)%nat ->
  slots_cb readKeyValue errKeyExpired errKeyExpired_dec n (pre ++ sls) (Some l) =
  slots_cb readKeyValue errKeyExpired errKeyExpired_dec (n - length pre) sls (Some (l ++ map slot_item pre)).
Proof.
  revert n l. induction pre as [|s pre IH]; intros n l Hl Hn.
  - by rewrite app_nil_r, Nat.sub_0_r.
  - apply Forall_cons in Hl as [[Hk [[k v] Hkv]] Hl]. destruct n as [|n]; [cbn in Hn; lia|].
    assert (Hi : slot_item s = mkItem k v (sl_expiresAt s) None) by (unfold slot_item; by rewrite Hkv).
    cbn [app slots_cb]. rewrite (proj2 (Z.eqb_neq _ _) Hk), Hkv. unfold push. cbn [default].
    rewrite IH by (done || cbn in Hn; lia). cbn [map length]. by rewrite Hi, <- app_assoc.
Qed.

(** C14: An expired key hides the live keys after it.  When a bucket
    handle holds live slots [pre], then a slot whose key has expired,
    then any slots [rest], the iterator's callback queues the items of
    [pre] and tells the walk to go on to the next handle: the slots of
    [rest], live or not, are never read, so [Items] misses live keys
    that the spec says it returns (only expired records are skipped). *)
Theorem slots_cb_expired_hides_rest pre sl rest l :
  Forall live pre -> kvOffset sl <> 0 -> readKeyValue sl = Err errKeyExpired ->
  length (pre ++ sl :: rest) = entriesPerBucket ->
  slots_cb readKeyValue errKeyExpired errKeyExpired_dec entriesPerBucket (pre ++ sl :: rest) (Some l) =
    (Some (l ++ map slot_item pre), false, Ok tt).
Proof.
  intros Hpre Hk He Hl. rewrite slots_cb_live by (done || rewrite <- Hl, length_app; lia).
  rewrite <- Hl, length_app. replace (length pre + length (sl :: rest) - length pre)%nat
    with (S (length rest)) by (cbn; lia).
  cbn [slots_cb]. rewrite (proj2 (Z.eqb_neq _ _) Hk), He. by destruct (errKeyExpired_dec _).
Qed.

(** The bucket loop stops at the first bucket whose walk queues an item. *)
Lemma refill_first fuel idx q q' :
  idx < nBuckets -> forEachBucket entriesPerBucket readKeyValue errKeyExpired errKeyExpired_dec (bucketChain idx) q = (q', Ok tt) ->
  (0 < length (default [] q'))%nat ->
  refill nBuckets entriesPerBucket bucketChain readKeyValue errKeyExpired errKeyExpired_dec (S fuel) idx q = (idx + 1, q', false).
Proof.
  intros Hi Hw Hl. cbn [refill]. rewrite (proj2 (Z.ltb_lt _ _) Hi), Hw. by rewrite bool_decide_true.
Qed.

(** C37: [Valid] reads the queue, not the item.  When [Next] finds the
    queue empty and the next bucket gives a single item, [Next] makes it
    the current item and leaves the queue empty, so [Valid] reports the
    iteration done at once, though the item is new and the buckets after
    it are not visited yet (the comment says [Valid] is false when the
    iteration is done). *)
Theorem Next_single_item_invalid it x :
  default [] (queue it) = [] -> nextBucketIdx it < nBuckets ->
  forEachBucket entriesPerBucket readKeyValue errKeyExpired errKeyExpired_dec (bucketChain (nextBucketIdx it)) (queue it)
    = (Some [x], Ok tt) ->
  let it' := Next nBuckets entriesPerBucket bucketChain readKeyValue errKeyExpired errKeyExpired_dec it in
  item it' = x /\ Valid it' = false /\ nextBucketIdx it' = nextBucketIdx it + 1.
Proof.
  intros Hq Hi Hw. unfold Next. rewrite Hq, bool_decide_true by done.
  replace (Z.to_nat (nBuckets - nextBucketIdx it)) with (S (Z.to_nat (nBuckets - nextBucketIdx it) - 1)) by lia.
  by rewrite (refill_first _ _ _ (Some [x])) by (done || cbn; lia).
Qed.

End Properties.

(** A bucket handle with a live key, an expired one and another live key. *)
Definition ex_read (s : slot) : result (list Z * list Z) :=
  if kvOffset s =? 20 then Err errMsgExpired else Ok ([kvOffset s], [1]).

Lemma slots_cb_expired_hides_rest_witness :
  slots_cb ex_read errMsgExpired (fun e => decide (e = errMsgExpired)) 3
    ([mkSlot 10 0] ++ mkSlot 20 0 :: [mkSlot 30 0]) (Some []) =
    (Some ([] ++ map (slot_item ex_read) [mkSlot 10 0]), false, Ok tt).
Proof.
  apply (slots_cb_expired_hides_rest 3 ex_read errMsgExpired (fun e => decide (e = errMsgExpired))
           [mkSlot 10 0] (mkSlot 20 0) [mkSlot 30 0] []); try reflexivity; try discriminate.
  repeat constructor; [discriminate|]. eexists. reflexivity.
Defined.

(** Two buckets of one live key each. *)
Definition ex_chain (idx : Z) : list (list slot) :=
  if idx =? 0 then [[mkSlot 10 0; mkSlot 0 0]] else [[mkSlot 30 0; mkSlot 0 0]].

Lemma Next_single_item_invalid_witness :
  default [] (queue (mkItemIterator 0 emptyItem None)) = [] /\ nextBucketIdx (mkItemIterator 0 emptyItem None) < 2 /\
  let it' := Next 2 2 ex_chain ex_read errMsgExpired (fun e => decide (e = errMsgExpired)) (mkItemIterator 0 emptyItem None) in
  item it' = mkItem [10] [1] 0 None /\ Valid it' = false /\ nextBucketIdx it' = nextBucketIdx (mkItemIterator 0 emptyItem None) + 1.
Proof.
  split_and!; [reflexivity|cbn; lia|].
  apply (Next_single_item_invalid 2 2 ex_chain ex_read errMsgExpired (fun e => decide (e = errMsgExpired))
           (mkItemIterator 0 emptyItem None) (mkItem [10] [1] 0 None)); [reflexivity|cbn; lia|reflexivity].
Defined.

End Iterator.
