(* ===== verification/DBCommit.v ===== *)
(** * The main DB's WAL commits and counters
      (src/db_internal.go, lines 361-521)

    [DB.tinyCommit] hands the records of the current tiny batch to a new
    WAL writer one by one ([logWriter.Append]), records the current
    sequence as the log sequence and asks the writer to write the group
    ([SignalInitWrite]); the tiny batch is reset on the way out, whatever
    happened after the writer was created.  [DB.commit] does the same
    for the [l] records of a user batch's buffer.  Both loops are
    [commit_loop], which keeps the order of the effects: each record is
    sliced and appended before the next is sliced.  The counters are
    the atomic operations on the header fields.  The WAL writer is not
    under src/: [NewWriter], [Append] and [SignalInitWrite] are Section
    context, and each effect on it is an [event] of the trace the
    model returns.  The tiny batch type is not under src/ either: its
    record count and buffer. *)

From S2P Require Import Prelude WalFrames.
Import WalFrames.

Module DBCommit.

(** The main DB's tiny batch: [count()] and [buffer]. *)
Record TinyBatch := mkTinyBatch { tb_count : Z; tb_buffer : list Z }.

Definition empty_tb : TinyBatch := mkTinyBatch 0 [].

(** The fields of [DB] these functions touch: [closed], the [dbInfo]
    counters and the tiny batch. *)
Record DB := mkDB {
  closed : bool; sequence : Z; logSequence : Z; count : Z; blockIdx : Z; tinyBatch : TinyBatch
}.

(** ** The counters (lines 469-521) *)

Definition seq (db : DB) : Z := sequence db.

(** [atomic.AddUint64(&db.sequence, 1)]. *)
Definition nextSeq (db : DB) : DB * Z :=
  let s := wrap 64 (sequence db + 1) in
  (mkDB (closed db) s (logSequence db) (count db) (blockIdx db) (tinyBatch db), s).

Definition logSeq (db : DB) : Z := logSequence db.

Definition setLogSeq (db : DB) (s : Z) : DB * result unit :=
  (mkDB (closed db) (sequence db) s (count db) (blockIdx db) (tinyBatch db), Ok tt).

Definition blocks (db : DB) : Z := blockIdx db.

(** [atomic.AddInt32(&db.blockIdx, nBlocks)]: [int32] wrap-around. *)
Definition addBlocks (db : DB) (n : Z) : DB * Z :=
  let b := to_signed 32 (wrap 32 (blockIdx db + n)) in
  (mkDB (closed db) (sequence db) (logSequence db) (count db) b (tinyBatch db), b).

Definition incount (db : DB) (c : Z) : DB * Z :=
  let v := wrap 64 (count db + c) in
  (mkDB (closed db) (sequence db) (logSequence db) v (blockIdx db) (tinyBatch db), v).

(** [atomic.AddUint64(&db.count, -count)]: [-count] is [2^64 - count]. *)
Definition decount (db : DB) (c : Z) : DB * Z :=
  let v := wrap 64 (count db + wrap 64 (- c)) in
  (mkDB (closed db) (sequence db) (logSequence db) v (blockIdx db) (tinyBatch db), v).

(** [atomic.CompareAndSwapUint32(&db.closed, 0, 1)]. *)
Definition setClosed (db : DB) : DB * bool :=
  if closed db then (db, false)
  else (mkDB true (sequence db) (logSequence db) (count db) (blockIdx db) (tinyBatch db), true).

Definition isClosed (db : DB) : bool := closed db.

Definition ok (db : DB) : result unit := if isClosed db then Err errWalClosed else Ok tt.

Definition with_tinyBatch (db : DB) (tb : TinyBatch) : DB :=
  mkDB (closed db) (sequence db) (logSequence db) (count db) (blockIdx db) tb.

(** What the WAL writer is asked to do. *)
Inductive event := EvAppend (data : list Z) | EvSignal (logSeq : Z).

Section Commit.

Context {W : Type}.
(** [db.wal.NewWriter()], [<-logWriter.Append(data)] and
    [<-logWriter.SignalInitWrite(seq)]. *)
Context (newWriter : result W).
Context (append : W -> list Z -> W * result unit).
Context (signal : W -> Z -> W * result unit).

(** The loop of [tinyCommit] and [commit]: [n] records framed as
    [| u32 dataLen | data |] with [dataLen] counting its own 4 bytes,
    [offset] a [uint32]. *)
Fixpoint commit_loop (n : nat) (buf : list Z) (offset : Z) (w : W) (tr : list event)
  : W * list event * result unit :=
  match n with
  | O => (w, tr, Ok tt)
  | S n' =>
    match s <-- slice_z offset (wrap 32 (offset + 4)) buf ;; uint_le 4 s with
    | Err e => (w, tr, Err e)
    | Ok dataLen =>
      match slice_z (wrap 32 (offset + 4)) (wrap 32 (offset + dataLen)) buf with
      | Err e => (w, tr, Err e)
      | Ok data =>
        let '(w', r) := append w data in
        match r with
        | Err e => (w', tr ++ [EvAppend data], Err e)
        | Ok _ => commit_loop n' buf (wrap 32 (offset + dataLen)) w' (tr ++ [EvAppend data])
        end
      end
    end
  end.

(** [DB.tinyCommit]: the deferred reset of the tiny batch runs on every
    return after [NewWriter] succeeded. *)
Definition tinyCommit (db : DB) : DB * list event * result unit :=
  match ok db with
  | Err e => (db, [], Err e)
  | Ok _ =>
    if tb_count (tinyBatch db) =? 0 then (db, [], Ok tt) else
    match newWriter with
    | Err e => (db, [], Err e)
    | Ok w =>
      let '(w1, tr, r) :=
        commit_loop (Z.to_nat (tb_count (tinyBatch db))) (tb_buffer (tinyBatch db)) 0 w [] in
      let db0 := with_tinyBatch db empty_tb in
      match r with
      | Err e => (db0, tr, Err e)
      | Ok _ =>
        let '(db1, _) := setLogSeq db0 (seq db0) in
        let '(_, r2) := signal w1 (logSeq db1) in
        (db1, tr ++ [EvSignal (logSeq db1)], r2)
      end
    end
  end.

(** [DB.commit(l, buf)]: the deferred [buf.Reset()] is registered after
    the [ok] check and runs on every later return; the buffer after the
    call is returned. *)
Definition commit (db : DB) (l : Z) (buf : list Z) : DB * list event * list Z * result unit :=
  match ok db with
  | Err e => (db, [], buf, Err e)
  | Ok _ =>
    match newWriter with
    | Err e => (db, [], [], Err e)
    | Ok w =>
      let '(w1, tr, r) := commit_loop (Z.to_nat l) buf 0 w [] in
      match r with
      | Err e => (db, tr, [], Err e)
      | Ok _ =>
        let '(db1, _) := setLogSeq db (seq db) in
        let '(_, r2) := signal w1 (logSeq db1) in
        (db1, tr ++ [EvSignal (logSeq db1)], [], r2)
      end
    end
  end.

(** ** The loop on a buffer of framed records *)

(** One record framed as [Append] frames it: sliced, then appended. *)
Lemma commit_loop_frame n pre p R w tr :
  Z.of_nat (length (pre ++ append_frame p ++ R)) < 2 ^ 32 ->
  commit_loop (S n) (pre ++ append_frame p ++ R) (Z.of_nat (length pre)) w tr =
  let '(w1, r) := append w p in
  match r with
  | Err e => (w1, tr ++ [EvAppend p], Err e)
  | Ok _ => commit_loop n (pre ++ append_frame p ++ R) (Z.of_nat (length (pre ++ append_frame p)))
              w1 (tr ++ [EvAppend p])
  end.
Proof.
  intros Hlen.
  assert (Hl : Z.of_nat (length pre) + Z.of_nat (length p) + 4 < 2 ^ 32)
    by (rewrite !length_app, length_append_frame in Hlen; lia).
  set (B := pre ++ append_frame p ++ R). set (v := Z.of_nat (length p) + 4).
  assert (E1 : slice_z (Z.of_nat (length pre)) (Z.of_nat (length pre) + 4) B = Ok (le_put 4 v)).
  { unfold B, append_frame. rewrite <- app_assoc. apply slice_z_exact; rewrite ?length_le_put; lia. }
  assert (E2 : slice_z (Z.of_nat (length pre) + 4) (Z.of_nat (length pre) + v) B = Ok p).
  { unfold B, append_frame. rewrite <- app_assoc, app_assoc.
    apply slice_z_exact; rewrite ?length_app, ?length_le_put; unfold v; lia. }
  cbn [commit_loop]. rewrite (wrap_small 32 (Z.of_nat (length pre) + 4)) by (unfold in_uint; lia).
  rewrite E1. cbn [bind_result]. rewrite uint_le_put by (unfold in_uint, v; simpl; lia).
  rewrite wrap_small by (unfold in_uint, v; lia). rewrite E2.
  replace (Z.of_nat (length pre) + v) with (Z.of_nat (length (pre ++ append_frame p)))
    by (rewrite length_app, length_append_frame; unfold v; lia).
  by destruct (append w p) as [w1 [u|e]].
Qed.

Lemma group_cons_app p ps (pre rest : list Z) :
  pre ++ group (p :: ps) ++ rest = pre ++ append_frame p ++ (group ps ++ rest).
Proof. cbn [group map concat]. by rewrite <- app_assoc. Qed.

(** With a writer that accepts every record, the loop appends them all. *)
Lemma commit_loop_all pre ps rest w tr :
  (forall w d, snd (append w d) = Ok tt) ->
  Z.of_nat (length (pre ++ group ps ++ rest)) < 2 ^ 32 ->
  exists w', commit_loop (length ps) (pre ++ group ps ++ rest) (Z.of_nat (length pre)) w tr =
             (w', tr ++ map EvAppend ps, Ok tt).
Proof.
  intros Hacc. revert pre w tr. induction ps as [|p ps IH]; intros pre w tr Hlen.
  - exists w. by rewrite app_nil_r.
  - rewrite group_cons_app in *. cbn [length]. rewrite commit_loop_frame by done.
    specialize (Hacc w p). destruct (append w p) as [w1 r]. cbn in Hacc. subst r.
    rewrite app_assoc in *. destruct (IH (pre ++ append_frame p) w1 (tr ++ [EvAppend p]) Hlen)
      as [w' ->]. exists w'. by rewrite <- app_assoc.
Qed.

(** The record loop of [tinyCommit] and [commit] sends a prefix of
    the batch.  On a buffer of records framed as [Append] frames them
    (within the [uint32] range of the loop's offset), the loop never
    panics: it appends the records in order, all of them when it
    succeeds, and when an [Append] fails it stops right after that
    record, which is the last one sent, and returns its error. *)
Theorem commit_loop_prefix pre ps rest w tr :
  Z.of_nat (length (pre ++ group ps ++ rest)) < 2 ^ 32 ->
  let '(w', tr', r) := commit_loop (length ps) (pre ++ group ps ++ rest) (Z.of_nat (length pre)) w tr in
  exists k, (k <= length ps)%nat /\ tr' = tr ++ map EvAppend (take k ps) /\
    match r with
    | Ok _ => k = length ps
    | Err e => exists w0 p, last (take k ps) = Some p /\ append w0 p = (w', Err e)
    end.
Proof.
  revert pre w tr. induction ps as [|p ps IH]; intros pre w tr Hlen.
  - exists 0%nat. cbn. by rewrite app_nil_r.
  - rewrite group_cons_app in *. cbn [length]. rewrite commit_loop_frame by done.
    destruct (append w p) as [w1 [u|e]] eqn:Ea.
    + rewrite app_assoc in *. specialize (IH (pre ++ append_frame p) w1 (tr ++ [EvAppend p]) Hlen).
      destruct (commit_loop _ _ _ _ _) as [[w' tr'] r].
      destruct IH as (k & Hk & -> & Hr). exists (S k). split_and!; [lia|by rewrite <- app_assoc|].
      destruct r as [u'|e']; [by rewrite Hr|]. destruct Hr as (w0 & p' & Hlast & Hap).
      exists w0, p'. split; [|done]. cbn [take]. by rewrite last_cons, Hlast.
    + exists 1%nat. split_and!; [lia|done|]. exists w, p. done.
Qed.


(** C40: [DB.tinyCommit] sends the tiny batch to the WAL and resets it.
    On an open DB whose tiny batch holds [len ps > 0] records framed as
    [WalFrames.group ps] (within the [uint32] range of the loop's
    offset), with a writer that accepts every record, [tinyCommit] asks
    the writer to [Append] exactly the records [ps] in order and then to
    [SignalInitWrite] the current sequence; the log sequence becomes the
    current sequence, the tiny batch is reset, the other counters are
    unchanged, and the result is the one of [SignalInitWrite]. *)
Theorem tinyCommit_sends_batch db ps w :
  closed db = false -> tinyBatch db = mkTinyBatch (Z.of_nat (length ps)) (group ps) -> ps <> [] ->
  newWriter = Ok w -> Z.of_nat (length (group ps)) < 2 ^ 32 ->
  (forall w d, snd (append w d) = Ok tt) ->
  exists w', tinyCommit db =
    (mkDB false (sequence db) (sequence db) (count db) (blockIdx db) empty_tb,
     map EvAppend ps ++ [EvSignal (sequence db)], snd (signal w' (sequence db))).
Proof.
  intros Hc Htb Hne Hw Hlen Hacc. unfold tinyCommit, ok, isClosed. rewrite Hc, Htb, Hw.
  cbn [tb_count tb_buffer]. rewrite (proj2 (Z.eqb_neq _ _)) by (destruct ps; [done|cbn; lia]).
  rewrite Nat2Z.id.
  destruct (commit_loop_all [] ps [] w [] Hacc ltac:(by rewrite app_nil_r)) as [w1 E].
  rewrite app_nil_r in E. change (Z.of_nat (length (@nil Z))) with 0 in E. cbn [app] in E. rewrite E.
  exists w1. cbn. unfold with_tinyBatch. rewrite Hc. cbn.
  destruct (signal w1 (sequence db)) as [w2 r2]. reflexivity.
Qed.

End Commit.

(** A writer that fails on its second record. *)
Lemma commit_loop_prefix_witness :
  let '(w', tr', r) := commit_loop (fun (w : nat) (d : list Z) => (S w, if (w =? 1)%nat then Err errIO else Ok tt))
    (length [[1]; [2; 3]; [4]]) ([] ++ group [[1]; [2; 3]; [4]] ++ []) (Z.of_nat (length (@nil Z))) 0%nat [] in
  exists k, (k <= length [[1]; [2; 3]; [4]])%nat /\ tr' = [] ++ map EvAppend (take k [[1]; [2; 3]; [4]]) /\
    match r with
    | Ok _ => k = length [[1]; [2; 3]; [4]]
    | Err e => exists w0 p, last (take k [[1]; [2; 3]; [4]]) = Some p /\
        (fun (w : nat) (d : list Z) => (S w, if (w =? 1)%nat then Err errIO else Ok tt)) w0 p = (w', Err e)
    end.
Proof.
  apply (commit_loop_prefix (fun (w : nat) (d : list Z) => (S w, if (w =? 1)%nat then Err errIO else Ok tt))
    [] [[1]; [2; 3]; [4]] [] 0%nat []).
  vm_compute. reflexivity.
Defined.

(** A tiny batch of two records and a writer that collects them. *)
Definition ex_db : DB := mkDB false 7 3 0 0 (mkTinyBatch 2 (group [[1; 2]; [3]])).
Definition ex_append (w : list (list Z)) (d : list Z) : list (list Z) * result unit := (w ++ [d], Ok tt).
Definition ex_signal (w : list (list Z)) (_ : Z) : list (list Z) * result unit := (w, Ok tt).

Lemma tinyCommit_sends_batch_witness :
  exists w', tinyCommit (Ok []) ex_append ex_signal ex_db =
    (mkDB false 7 7 0 0 empty_tb, map EvAppend [[1; 2]; [3]] ++ [EvSignal 7], snd (ex_signal w' 7)).
Proof.
  apply (tinyCommit_sends_batch (Ok []) ex_append ex_signal ex_db [[1; 2]; [3]] []);
    [reflexivity|reflexivity|discriminate|reflexivity|vm_compute; reflexivity|done].
Defined.

End DBCommit.
