(* ===== verification/DBInternal.v ===== *)
(** * The main DB's header, index blocks and close
      (src/db_internal.go, lines 66-111, 182-198, 258-272)

    [DB.writeHeader] writes [header{signature, version, dbInfo}] at
    offset 0 of the index file (after defragmenting and writing the
    lease when asked) and [DB.readHeader] reads it back into
    [db.dbInfo], sets the time window's index and reads the lease, an
    [io.EOF] from the lease being no error.  [DB.newBlock] and
    [DB.extendBlocks] grow the index file by whole blocks and count
    them in [blockIdx]; [DB.close] sets the closed flag once.

    The DB is the record [DB]: the closed flag, counters and tiny batch
    are [DBCommit.DB], so that the counters are the ones [tinyCommit]
    uses; the rest of [dbInfo], the time window's index, the lease, the
    index file and the memdb are fields of their own.  The index file
    is an interface ([IndexFile], with its law in [IndexFileSpec]); its
    [extend] is a Section variable, instantiated in the theorems by the
    tracedb [file.extend] of [TraceFile].  The lease is Section
    context. *)

From S2P Require Import Prelude LogCodec TraceFile DBCommit.

Module DBInternal.

(** [version = 1], the file format version. *)
Definition version : Z := 1.

(** The index block size: declared outside src/, 4096 bytes in the spec. *)
Definition blockSize : Z := 4096.

(** [type dbInfo struct]. *)
Record dbInfo := mkdbInfo {
  encryption : Z; sequence : Z; logSequence : Z; count : Z;
  blockIdx : Z; windowIdx : Z; cacheID : Z }.

(** The index file header [header{signature, version, dbInfo}]; its
    type and codec are declared outside src/. *)
Record header := mkHeader { h_signature : list Z; h_version : Z; h_dbInfo : dbInfo }.

(** What the header's codec keeps: the spec's layout of the 47-byte
    header (signature, encryption, sequence, count, blockIdx, windowIdx,
    cacheID) has no [logSequence]. *)
Definition persisted (h : header) : header :=
  let i := h_dbInfo h in
  mkHeader (h_signature h) (h_version h)
    (mkdbInfo (encryption i) (sequence i) 0 (count i) (blockIdx i) (windowIdx i) (cacheID i)).

(** The index file as the header code uses it:
    [writeMarshalableAt(h, 0)] and [readUnmarshalableAt(h, headerSize, 0)]. *)
Class IndexFile (F : Type) := {
  writeHeaderAt : F -> header -> F * result unit;
  readHeaderAt : F -> result header
}.

(** A successful write is read back as the codec keeps it. *)
Class IndexFileSpec (F : Type) `{!IndexFile F} : Prop := {
  read_after_write f h f' : writeHeaderAt f h = (f', Ok tt) -> readHeaderAt f' = Ok (persisted h)
}.

(** The fields of [DB] this file touches. *)
Record DB (L I M : Type) := mkDB {
  core : DBCommit.DB;
  db_encryption : Z; db_windowIdx : Z; db_cacheID : Z;
  twIdx : Z;          (** [db.timeWindow]'s window index *)
  lease : L; index : I; mem : M
}.
Arguments mkDB {L I M}.
Arguments core {L I M}. Arguments db_encryption {L I M}. Arguments db_windowIdx {L I M}.
Arguments db_cacheID {L I M}. Arguments twIdx {L I M}. Arguments lease {L I M}.
Arguments index {L I M}. Arguments mem {L I M}.

Section Fields.
Context {L I M : Type}.

(** [db.dbInfo] as a value. *)
Definition get_dbInfo (db : DB L I M) : dbInfo :=
  let c := core db in
  mkdbInfo (db_encryption db) (DBCommit.sequence c) (DBCommit.logSequence c) (DBCommit.count c)
    (DBCommit.blockIdx c) (db_windowIdx db) (db_cacheID db).

(** [db.dbInfo = i]. *)
Definition set_dbInfo (db : DB L I M) (i : dbInfo) : DB L I M :=
  let c := core db in
  mkDB (DBCommit.mkDB (DBCommit.closed c) (sequence i) (logSequence i) (count i) (blockIdx i)
          (DBCommit.tinyBatch c))
    (encryption i) (windowIdx i) (cacheID i) (twIdx db) (lease db) (index db) (mem db).

Definition with_core (db : DB L I M) (c : DBCommit.DB) : DB L I M :=
  mkDB c (db_encryption db) (db_windowIdx db) (db_cacheID db) (twIdx db) (lease db) (index db) (mem db).

Definition with_twIdx (db : DB L I M) (w : Z) : DB L I M :=
  mkDB (core db) (db_encryption db) (db_windowIdx db) (db_cacheID db) w (lease db) (index db) (mem db).

Definition with_lease (db : DB L I M) (l : L) : DB L I M :=
  mkDB (core db) (db_encryption db) (db_windowIdx db) (db_cacheID db) (twIdx db) l (index db) (mem db).

Definition with_index (db : DB L I M) (f : I) : DB L I M :=
  mkDB (core db) (db_encryption db) (db_windowIdx db) (db_cacheID db) (twIdx db) (lease db) f (mem db).

Definition with_mem (db : DB L I M) (m : M) : DB L I M :=
  mkDB (core db) (db_encryption db) (db_windowIdx db) (db_cacheID db) (twIdx db) (lease db) (index db) m.

End Fields.

(** ** [writeHeader] and [readHeader] (lines 75-111) *)

Section Header.
Context {L I M : Type} `{!IndexFile I}.
(** [db.lease.defrag()], [db.lease.write()] and [db.lease.read()]. *)
Context (defrag : L -> L) (lease_write : L -> result unit) (lease_read : L -> L * result unit).

(** [DB.writeHeader(writeFreeList)]: [dbInfo]'s [logSequence] is left
    out of the literal, so it is written as 0. *)
Definition writeHeader (db : DB L I M) (writeFreeList : bool) : DB L I M * result unit :=
  let '(db1, r) :=
    if writeFreeList then let l := defrag (lease db) in (with_lease db l, lease_write l)
    else (db, Ok tt) in
  match r with
  | Err e => (db1, Err e)
  | Ok _ =>
    let h := mkHeader LogCodec.signature version
      (mkdbInfo (db_encryption db1) (DBCommit.seq (core db1)) 0 (DBCommit.count (core db1))
         (DBCommit.blocks (core db1)) (twIdx db1) (db_cacheID db1)) in
    let '(f, r') := writeHeaderAt (index db1) h in (with_index db1 f, r')
  end.

(** [DB.readHeader]: [db.dbInfo] and the window index are set before
    the lease is read. *)
Definition readHeader (db : DB L I M) : DB L I M * result unit :=
  match readHeaderAt (index db) with
  | Err e => (db, Err e)
  | Ok h =>
    let db1 := with_twIdx (set_dbInfo db (h_dbInfo h)) (windowIdx (h_dbInfo h)) in
    let '(l, r) := lease_read (lease db1) in
    let db2 := with_lease db1 l in
    match r with
    | Err errEOF => (db2, Ok tt)
    | Err e => (db2, Err e)
    | Ok _ => (db2, Ok tt)
    end
  end.

End Header.

(** ** [newBlock] and [extendBlocks] (lines 258-272) *)

Section Blocks.
Context {F : Type}.
(** [db.index.extend(size)]: the file, the offset of the new bytes and the error. *)
Context (extend : F -> Z -> F * Z * result unit).

(** [DB.newBlock]: [addBlocks(1)] runs whether [extend] failed or not. *)
Definition newBlock (f : F) (db : DBCommit.DB) : F * DBCommit.DB * Z * result unit :=
  let '(f', off, r) := extend f blockSize in
  let '(db', _) := DBCommit.addBlocks db 1 in
  (f', db', off, r).

(** [DB.extendBlocks(nBlocks)]: the size is the [uint32] product
    [uint32(nBlocks) * blockSize]. *)
Definition extendBlocks (f : F) (db : DBCommit.DB) (nBlocks : Z) : F * DBCommit.DB * result unit :=
  let '(f', _, r) := extend f (wrap 32 (wrap 32 nBlocks * blockSize)) in
  match r with
  | Err e => (f', db, Err e)
  | Ok _ => (f', fst (DBCommit.addBlocks db nBlocks), Ok tt)
  end.

(** [n] calls of [newBlock], stopping at the first error. *)
Fixpoint newBlocks (n : nat) (f : F) (db : DBCommit.DB) : F * DBCommit.DB * result unit :=
  match n with
  | O => (f, db, Ok tt)
  | S n' =>
    let '(f1, db1, _, r) := newBlock f db in
    match r with Err e => (f1, db1, Err e) | Ok _ => newBlocks n' f1 db1 end
  end.

End Blocks.

(** ** [close] (lines 182-198) *)

(** What [close] does after setting the flag: close [closeC], sleep for
    the tiny-batch interval, take the write and sync locks, wait for the
    goroutines. *)
Inductive close_event := CloseSignal | SleepInterval | AcquireWriteLock | AcquireSyncLock | WaitGoroutines.

Definition close (db : DBCommit.DB) : DBCommit.DB * list close_event * result unit :=
  let '(db', fresh) := DBCommit.setClosed db in
  if negb fresh then (db', [], Err errClosed)
  else (db', [CloseSignal; SleepInterval; AcquireWriteLock; AcquireSyncLock; WaitGoroutines], Ok tt).


(** ** [parseTopic] (lines 274-288) *)

Section ParseTopic.
Context {T : Type}.
(** [message.Topic]: [ParseKey] on a new topic, [Parse(contract, true)],
    the [TopicInvalid] test and [TTL()]. *)
Context (parseKey : list Z -> T) (parse : T -> Z -> bool -> T).
Context (topicInvalid : T -> bool) (ttl : T -> option Z).

(** [DB.parseTopic(contract, topic)]: the topic and its TTL, 0 without one. *)
Definition parseTopic (contract : Z) (topic : list Z) : result (T * Z) :=
  let t := parse (parseKey topic) contract true in
  if topicInvalid t then Err errBadRequest else
  match ttl t with
  | Some x => Ok (t, x)
  | None => Ok (t, 0)
  end.

End ParseTopic.

(** ** [delete] (lines 436-468) *)

Section Delete.
Context {L I M E : Type}.
(** [db.flags.Immutable] and [db.syncWrites]. *)
Context (immutable syncWrites : bool).
(** [db.filter.Test(seq)] and [startBlockIndex(seq)] (an [int32]). *)
Context (filterTest : Z -> bool) (startBlockIndex : Z -> Z).
(** [db.mem.Remove(blockID, memseq)]. *)
Context (memRemove : M -> Z -> Z -> M * result unit).
(** [newBlockWriter(&db.index, nil).del(seq)]: the deleted index entry. *)
Context (blockDel : I -> Z -> I * result E).
(** The entry's [seq], [msgOffset] and [mSize()], and [db.lease.free]. *)
Context (e_seq e_msgOffset mSize : E -> Z) (leaseFree : L -> Z -> Z -> Z -> L).
(** [db.sync()]. *)
Context (sync : DB L I M -> DB L I M * result unit).

(** [DB.delete(topicHash, seq)]; the meter is not modelled. *)
Definition delete (db : DB L I M) (topicHash sq : Z) : DB L I M * result unit :=
  if immutable then (db, Ok tt) else
  if negb (filterTest sq) then (db, Ok tt) else
  let blockID := startBlockIndex sq in
  let memseq := Z.lxor (db_cacheID db) sq in
  let '(m, r) := memRemove (mem db) (wrap 64 blockID) memseq in
  let db1 := with_mem db m in
  match r with
  | Err e => (db1, Err e)
  | Ok _ =>
    let blockIdx := startBlockIndex sq in
    if DBCommit.blocks (core db1) <? blockIdx then (db1, Ok tt) else
    let '(f, r2) := blockDel (index db1) sq in
    let db2 := with_index db1 f in
    match r2 with
    | Err e => (db2, Err e)
    | Ok e =>
      let db3 := with_lease db2 (leaseFree (lease db2) (e_seq e) (e_msgOffset e) (mSize e)) in
      let db4 := with_core db3 (fst (DBCommit.decount (core db3) 1)) in
      if syncWrites then sync db4 else (db4, Ok tt)
    end
  end.

End Delete.

(** ** Lemmas on the block counter and the index file *)

Lemma addBlocks_addBlocks db a b :
  fst (DBCommit.addBlocks (fst (DBCommit.addBlocks db a)) b) = fst (DBCommit.addBlocks db (a + b)).
Proof.
  unfold DBCommit.addBlocks. cbn [fst DBCommit.blockIdx].
  by rewrite wrap_to_signed_add, Z.add_assoc by lia.
Qed.

Lemma addBlocks_0 db : - 2 ^ 31 <= DBCommit.blocks db < 2 ^ 31 -> fst (DBCommit.addBlocks db 0) = db.
Proof.
  destruct db. unfold DBCommit.addBlocks, DBCommit.blocks. cbn. intros.
  by rewrite Z.add_0_r, to_signed_wrap32.
Qed.

Lemma addBlocks_range db n : - 2 ^ 31 <= DBCommit.blocks (fst (DBCommit.addBlocks db n)) < 2 ^ 31.
Proof.
  unfold DBCommit.addBlocks, DBCommit.blocks, to_signed. cbn.
  pose proof (wrap_range 32 (DBCommit.blockIdx db + n)) as R. unfold in_uint in R.
  destruct (Z.ltb_spec (wrap 32 (DBCommit.blockIdx db + n)) (2 ^ (32 - 1))); lia.
Qed.

(** [k] calls of [newBlock] on a tracedb file whose re-map succeeds. *)
Lemma newBlocks_ok isMmap mmap k f db :
  TraceFile.file_ok f -> (forall z, mmap z = Ok tt) -> - 2 ^ 31 <= DBCommit.blocks db < 2 ^ 31 ->
  newBlocks (TraceFile.extend isMmap mmap) k f db =
    (TraceFile.mkFile (TraceFile.fbytes f ++ replicate (k * Z.to_nat blockSize) 0)
       (TraceFile.fsize f + Z.of_nat k * blockSize),
     fst (DBCommit.addBlocks db (Z.of_nat k)), Ok tt).
Proof.
  intros Hf Hm. revert f db Hf. induction k as [|k IH]; intros f db Hf Hdb.
  - cbn [newBlocks Nat.mul replicate Z.of_nat]. rewrite app_nil_r, Z.mul_0_l, Z.add_0_r, addBlocks_0 by done.
    by destruct f.
  - cbn [newBlocks]. unfold newBlock. rewrite TraceFile.extend_ok by first [done | unfold blockSize; lia].
    destruct (DBCommit.addBlocks db 1) as [db1 x] eqn:Ea. cbn iota.
    assert (Hdb1 : db1 = fst (DBCommit.addBlocks db 1)) by (by rewrite Ea).
    rewrite IH; cycle 1.
    { unfold TraceFile.file_ok in Hf |- *. cbn [TraceFile.fsize TraceFile.fbytes].
      rewrite length_app, length_replicate. unfold blockSize. lia. }
    { rewrite Hdb1. apply addBlocks_range. }
    cbn [TraceFile.fbytes TraceFile.fsize]. rewrite Hdb1, addBlocks_addBlocks, <- app_assoc, <- replicate_add.
    replace (TraceFile.fsize f + blockSize + Z.of_nat k * blockSize)
      with (TraceFile.fsize f + Z.of_nat (S k) * blockSize) by lia.
    replace (1 + Z.of_nat k) with (Z.of_nat (S k)) by lia. do 4 f_equal.
Qed.

(** ** Properties *)

(** C3: [extendBlocks] is [n] calls of [newBlock].  On a tracedb index
    file whose re-map succeeds and an [int32] block counter in range,
    [extendBlocks(n)] with [n * blockSize] below [2^32] leaves the file,
    the counter and the error exactly as [n] successive [newBlock]
    calls do. *)
Theorem extendBlocks_newBlocks isMmap mmap f db n :
  TraceFile.file_ok f -> (forall z, mmap z = Ok tt) -> - 2 ^ 31 <= DBCommit.blocks db < 2 ^ 31 ->
  0 <= n -> n * blockSize < 2 ^ 32 ->
  extendBlocks (TraceFile.extend isMmap mmap) f db n =
    newBlocks (TraceFile.extend isMmap mmap) (Z.to_nat n) f db.
Proof.
  intros Hf Hm Hdb Hn Hsz. rewrite newBlocks_ok by done. unfold extendBlocks.
  rewrite (wrap_small 32 n), (wrap_small 32 (n * blockSize)) by (unfold in_uint, blockSize in *; lia).
  rewrite TraceFile.extend_ok by first [done | unfold blockSize; lia]. cbn iota.
  rewrite Z2Nat.id, <- Z2Nat.inj_mul by (unfold blockSize; lia). reflexivity.
Qed.


(** C38: [uint32] overflow in [extendBlocks].  The size
    [uint32(nBlocks) * blockSize] is computed in 32 bits: for
    [2^20 <= n < 2^31] the call succeeds and counts [n] more blocks, but
    the index file grows by [n * blockSize mod 2^32] bytes, fewer than
    the [n] blocks counted. *)
Theorem extendBlocks_size_wraps isMmap mmap f db n :
  TraceFile.file_ok f -> (forall z, mmap z = Ok tt) -> 2 ^ 20 <= n < 2 ^ 31 ->
  let '(f', db', r) := extendBlocks (TraceFile.extend isMmap mmap) f db n in
  r = Ok tt /\ TraceFile.fsize f' = TraceFile.fsize f + (n * blockSize) mod 2 ^ 32 /\
  TraceFile.fsize f' < TraceFile.fsize f + n * blockSize /\
  DBCommit.blocks db' = to_signed 32 (wrap 32 (DBCommit.blocks db + n)).
Proof.
  intros Hf Hm Hn. unfold extendBlocks.
  rewrite (wrap_small 32 n) by (unfold in_uint; lia).
  rewrite TraceFile.extend_ok by first [done | apply Z.mod_pos_bound; lia].
  cbn. split_and!; [done|done| |done].
  assert (0 <= (n * blockSize) mod 2 ^ 32 < 2 ^ 32) by (apply Z.mod_pos_bound; lia).
  unfold wrap, blockSize in *. lia.
Qed.

(** [newBlock] counts a block its [extend] did not add.  When the
    index file's [extend] fails before growing the file (a failed
    [Truncate]), [newBlock] returns the error with the file unchanged
    but [blocks()] one higher, while [extendBlocks(1)] on the same file
    returns the error and leaves [blocks()] alone. *)
Theorem newBlock_counts_failed_extend {F} (extend : F -> Z -> F * Z * result unit) f db e :
  extend f blockSize = (f, 0, Err e) -> - 2 ^ 31 <= DBCommit.blocks db < 2 ^ 31 - 1 ->
  let '(f1, db1, _, r1) := newBlock extend f db in
  let '(f2, db2, r2) := extendBlocks extend f db 1 in
  f1 = f /\ r1 = Err e /\ DBCommit.blocks db1 = DBCommit.blocks db + 1 /\
  f2 = f /\ r2 = Err e /\ db2 = db.
Proof.
  intros He Hdb. unfold newBlock, extendBlocks. rewrite He.
  rewrite (wrap_small 32 1) by (unfold in_uint; lia). change (wrap 32 (1 * blockSize)) with blockSize.
  rewrite He. cbn. split_and!; try done. unfold DBCommit.blocks in *. by rewrite to_signed_wrap32 by lia.
Qed.

(** Closing is once only.  [close] on an open DB succeeds and runs
    its shutdown steps; a second [close] returns [errClosed] and does
    nothing; after either, [tinyCommit] and [commit] fail with "wal is
    closed" without creating a WAL writer or handing it a record. *)
Theorem close_then_commit {W} (newWriter : result W) append signal db l buf :
  let '(db1, ev1, r1) := close db in
  (r1 = Ok tt <-> DBCommit.isClosed db = false) /\
  (r1 = Ok tt -> ev1 = [CloseSignal; SleepInterval; AcquireWriteLock; AcquireSyncLock; WaitGoroutines]) /\
  close db1 = (db1, [], Err errClosed) /\
  DBCommit.tinyCommit newWriter append signal db1 = (db1, [], Err errWalClosed) /\
  DBCommit.commit newWriter append signal db1 l buf = (db1, [], buf, Err errWalClosed).
Proof.
  destruct db as [[] sq lsq cnt bi tb]; cbn; split_and!; try done.
Qed.


Section HeaderSpec.
Context {L I M : Type} `{IndexFileSpec I}.
Context (defrag : L -> L) (lease_write : L -> result unit) (lease_read : L -> L * result unit).

(** C16: The header round trip loses [logSequence].  After a successful
    [writeHeader], [readHeader] (with a lease read that succeeds or hits
    [io.EOF]) succeeds and restores the encryption flag, sequence,
    count, block count and cache ID the DB had, sets [dbInfo.windowIdx]
    to the time window's index, keeps that index, and sets
    [logSequence] to 0 whatever it was. *)
Theorem readHeader_writeHeader (db db1 : DB L I M) wfl :
  writeHeader defrag lease_write db wfl = (db1, Ok tt) ->
  (forall e, snd (lease_read (lease db1)) = Err e -> e = errEOF) ->
  let '(db2, r) := readHeader lease_read db1 in
  r = Ok tt /\ twIdx db2 = twIdx db /\
  get_dbInfo db2 = mkdbInfo (db_encryption db) (DBCommit.seq (core db)) 0 (DBCommit.count (core db))
                     (DBCommit.blocks (core db)) (twIdx db) (db_cacheID db).
Proof.
  intros Hw Hl. unfold writeHeader in Hw.
  destruct wfl; [destruct (lease_write (defrag (lease db))) as [[]|e] eqn:Elw|];
    cbn iota zeta in Hw; try discriminate Hw.
  all: destruct (writeHeaderAt _ _) as [f r] eqn:Ew; injection Hw as <- ->.
  all: unfold readHeader; cbn [index with_index]; rewrite (read_after_write _ _ _ Ew); cbn iota.
  all: cbn in Hl |- *; destruct (lease_read _) as [l [[]|e]]; [|rewrite (Hl e) by done]; done.
Qed.

End HeaderSpec.

(** The index file as its header slot, for the examples. *)
#[export] Instance header_slot : IndexFile (option header) := {
  writeHeaderAt _ h := (Some (persisted h), Ok tt);
  readHeaderAt o := match o with Some h => Ok h | None => Err errEOF end
}.

#[export] Instance header_slot_spec : IndexFileSpec (option header).
Proof. split. by intros f h f' [= <-]. Qed.


(** ** The counters keep their Go types *)

(** [sequence], [logSequence] and [count] are [uint64], [blockIdx] an [int32]. *)
Definition typed (c : DBCommit.DB) : Prop :=
  in_uint 64 (DBCommit.sequence c) /\ in_uint 64 (DBCommit.logSequence c) /\
  in_uint 64 (DBCommit.count c) /\ - 2 ^ 31 <= DBCommit.blockIdx c < 2 ^ 31.

(** One operation of the DB on its counters, with the WAL writer and
    the index file's [extend] as they come. *)
Inductive counter_step {W F : Type} (newWriter : result W) (append : W -> list Z -> W * result unit)
    (signal : W -> Z -> W * result unit) (extend : F -> Z -> F * Z * result unit)
  : DBCommit.DB -> DBCommit.DB -> Prop :=
| st_nextSeq c : counter_step newWriter append signal extend c (DBCommit.nextSeq c).1
| st_incount c n : counter_step newWriter append signal extend c (DBCommit.incount c n).1
| st_decount c n : counter_step newWriter append signal extend c (DBCommit.decount c n).1
| st_addBlocks c n : counter_step newWriter append signal extend c (DBCommit.addBlocks c n).1
| st_setLogSeq c s : in_uint 64 s -> counter_step newWriter append signal extend c (DBCommit.setLogSeq c s).1
| st_tinyCommit c : counter_step newWriter append signal extend c (DBCommit.tinyCommit newWriter append signal c).1.1
| st_commit c l buf : counter_step newWriter append signal extend c (DBCommit.commit newWriter append signal c l buf).1.1.1
| st_close c : counter_step newWriter append signal extend c (close c).1.1
| st_newBlock f c : counter_step newWriter append signal extend c (newBlock extend f c).1.1.2
| st_extendBlocks f c n : counter_step newWriter append signal extend c (extendBlocks extend f c n).1.2.

Ltac typed_tac :=
  unfold typed, DBCommit.blocks in *; cbn in *; destruct_and?; split_and!;
  first [assumption | apply wrap_range; lia | lia].

Lemma typed_setLogSeq c s : typed c -> in_uint 64 s -> typed (DBCommit.setLogSeq c s).1.
Proof. intros. typed_tac. Qed.

Lemma typed_addBlocks c n : typed c -> typed (DBCommit.addBlocks c n).1.
Proof. intros. pose proof (addBlocks_range c n). typed_tac. Qed.

Lemma counter_step_typed {W F} newWriter append signal (extend : F -> Z -> F * Z * result unit) c c' :
  counter_step (W := W) newWriter append signal extend c c' -> typed c -> typed c'.
Proof.
  intros Hs Hc. destruct Hs as [c|c n|c n|c n|c s Hs|c|c l buf|c|f c|f c n];
    try solve [typed_tac | by apply typed_addBlocks | by apply typed_setLogSeq].
  - unfold DBCommit.tinyCommit, DBCommit.setLogSeq. repeat case_match; simplify_eq/=; typed_tac.
  - unfold DBCommit.commit, DBCommit.setLogSeq. repeat case_match; simplify_eq/=; typed_tac.
  - unfold close, DBCommit.setClosed. repeat case_match; simplify_eq/=; typed_tac.
  - replace (newBlock extend f c).1.1.2 with (DBCommit.addBlocks c 1).1
      by (unfold newBlock; by repeat case_match; simplify_eq/=).
    by apply typed_addBlocks.
  - unfold extendBlocks. repeat case_match; simplify_eq/=; [by apply typed_addBlocks|done].
Qed.

(** The counters keep their Go types.  From a DB whose [sequence],
    [logSequence] and [count] are [uint64] values and whose [blockIdx]
    is an [int32], any run of the counter operations, [tinyCommit],
    [commit], [close], [newBlock] and [extendBlocks], whatever the WAL
    writer and the index file do, keeps every counter in its Go type. *)
Theorem counters_typed {W F} newWriter append signal (extend : F -> Z -> F * Z * result unit) c c' :
  typed c -> rtc (counter_step (W := W) newWriter append signal extend) c c' -> typed c'.
Proof.
  intros Hc Hr. induction Hr as [c|c c1 c' Hs _ IH]; [done|].
  apply IH. by apply (counter_step_typed newWriter append signal extend c).
Qed.

(** The tracedb file as the index file, its header written and read by
    [writeMarshalableAt] and [readUnmarshalableAt] with a header codec
    (declared outside src/) of [headerSize] bytes. *)
Section TraceIndex.
Context (marshalHeader : header -> result (list Z)) (unmarshalHeader : list Z -> result header).
Context (headerSize : Z).

Definition trace_index : IndexFile TraceFile.file := {|
  writeHeaderAt f h := TraceFile.writeMarshalableAt marshalHeader f h 0;
  readHeaderAt f := TraceFile.readUnmarshalableAt unmarshalHeader f headerSize 0
|}.

(** A codec that writes [headerSize] bytes and reads back what the
    spec's layout keeps makes the tracedb file meet [IndexFileSpec]. *)
Lemma trace_index_spec :
  (forall h buf, marshalHeader h = Ok buf ->
     Z.of_nat (length buf) = headerSize /\ unmarshalHeader buf = Ok (persisted h)) ->
  headerSize < 2 ^ 32 ->
  @IndexFileSpec TraceFile.file trace_index.
Proof.
  intros Hc Hs. split. intros f h f' Hw. cbn in Hw |- *.
  destruct (marshalHeader h) as [buf|e] eqn:Em;
    [|unfold TraceFile.writeMarshalableAt in Hw; rewrite Em in Hw; discriminate].
  destruct (Hc h buf Em) as [Hl Hu].
  replace f' with (TraceFile.writeMarshalableAt marshalHeader f h 0).1 by (by rewrite Hw).
  rewrite <- Hl, (TraceFile.readUnmarshalableAt_write marshalHeader unmarshalHeader f h 0 buf Em) by lia.
  exact Hu.
Qed.

End TraceIndex.

(** ** Witnesses *)

Definition ex_core : DBCommit.DB := DBCommit.mkDB false 7 3 0 2 DBCommit.empty_tb.
Definition ex_file : TraceFile.file := TraceFile.mkFile [1; 2] 2.
Definition ex_mmap (_ : Z) : result unit := Ok tt.
(** A full disk: [Truncate] fails and the file is left as it was. *)
Definition ex_full_extend (f : TraceFile.file) (_ : Z) : TraceFile.file * Z * result unit :=
  (f, 0, Err errFull).

Definition ex_hdb : DB unit (option header) unit := mkDB ex_core 1 0 99 5 tt None tt.
Definition ex_lease_write (_ : unit) : result unit := Ok tt.
Definition ex_lease_read (l : unit) : unit * result unit := (l, Err errEOF).

Lemma extendBlocks_newBlocks_witness :
  extendBlocks (TraceFile.extend true ex_mmap) ex_file ex_core 3 =
    newBlocks (TraceFile.extend true ex_mmap) 3 ex_file ex_core.
Proof.
  apply (extendBlocks_newBlocks true ex_mmap ex_file ex_core 3);
    first [reflexivity | intros; reflexivity | cbn; lia | unfold blockSize; lia].
Defined.

Lemma extendBlocks_size_wraps_witness :
  let '(f', db', r) := extendBlocks (TraceFile.extend false ex_mmap) ex_file ex_core (2 ^ 20) in
  r = Ok tt /\ TraceFile.fsize f' = TraceFile.fsize ex_file + (2 ^ 20 * blockSize) mod 2 ^ 32 /\
  TraceFile.fsize f' < TraceFile.fsize ex_file + 2 ^ 20 * blockSize /\
  DBCommit.blocks db' = to_signed 32 (wrap 32 (DBCommit.blocks ex_core + 2 ^ 20)).
Proof.
  apply (extendBlocks_size_wraps false ex_mmap ex_file ex_core (2 ^ 20));
    first [reflexivity | intros; reflexivity | lia].
Defined.

Lemma newBlock_counts_failed_extend_witness :
  let '(f1, db1, _, r1) := newBlock ex_full_extend ex_file ex_core in
  let '(f2, db2, r2) := extendBlocks ex_full_extend ex_file ex_core 1 in
  f1 = ex_file /\ r1 = Err errFull /\ DBCommit.blocks db1 = DBCommit.blocks ex_core + 1 /\
  f2 = ex_file /\ r2 = Err errFull /\ db2 = ex_core.
Proof.
  apply (newBlock_counts_failed_extend ex_full_extend ex_file ex_core errFull);
    first [reflexivity | cbn; lia].
Defined.

Lemma readHeader_writeHeader_witness :
  let db1 := fst (writeHeader (fun l => l) ex_lease_write ex_hdb true) in
  let '(db2, r) := readHeader ex_lease_read db1 in
  r = Ok tt /\ twIdx db2 = twIdx ex_hdb /\
  get_dbInfo db2 = mkdbInfo (db_encryption ex_hdb) (DBCommit.seq (core ex_hdb)) 0
                     (DBCommit.count (core ex_hdb)) (DBCommit.blocks (core ex_hdb)) (twIdx ex_hdb)
                     (db_cacheID ex_hdb).
Proof.
  apply (readHeader_writeHeader (fun l => l) ex_lease_write ex_lease_read ex_hdb _ true);
    [reflexivity | intros e He; cbn in He; congruence].
Defined.

Lemma counters_typed_witness :
  typed ex_core /\ typed (close (DBCommit.nextSeq ex_core).1).1.1.
Proof.
  assert (H : typed ex_core) by (unfold typed, in_uint; cbn; lia).
  split; [exact H|].
  apply (counters_typed (W := unit) (Err errIO) (fun w _ => (w, Ok tt)) (fun w _ => (w, Ok tt))
           ex_full_extend ex_core); [exact H|].
  eapply rtc_l; [apply st_nextSeq|]. eapply rtc_l; [apply st_close|]. apply rtc_refl.
Defined.

End DBInternal.
