(* ===== verification/TrieBoot.v ===== *)
(** * The trie bootstrap [DB.loadTrie] (src/db_internal.go, lines 113-180)

    On open, [loadTrie] walks every window block of the time window
    file ([timeWindow.foreachWindowBlock]).  It remembers, per topic
    hash, the offset of the first block it meets with entries (the map
    [topics]); on the block that ends a topic's chain ([next == 0]) it
    reads the index block of the first sequence, scans its 255 slots
    for that sequence, reads and parses the topic and adds
    [topic{hash, topics[hash]}] to the trie.  An [io.EOF] on the index
    block skips the window block; any other error stops the walk.

    [foreachWindowBlock] is declared outside src/: it is modelled from
    the spec as the blocks in file order, stopping at the first [true]
    or error.  The index and data files, the topic parser and the trie
    are Section context; the theorem takes the trie to be a list of
    topics that [add] extends when the topic is new, as the spec's
    [add] does. *)

From S2P Require Import Prelude EntryDB Query.

Module TrieBoot.

(** A window block as [foreachWindowBlock] hands it over: [topicHash],
    [offset], [next], [entryIdx] and the sequences of its [entries]
    array, whose unset entries read as 0. *)
Record windowHandle := mkWindowHandle {
  w_topicHash : Z; w_offset : Z; w_next : Z; w_entryIdx : Z; w_entries : list Z }.

(** [timeWindow.foreachWindowBlock(f)]: [if stop, err := f(b); stop || err != nil { return err }]. *)
Fixpoint foreachWindowBlock {S} (f : S -> windowHandle -> S * bool * result unit) (s : S)
    (ws : list windowHandle) : S * result unit :=
  match ws with
  | [] => (s, Ok tt)
  | w :: ws' =>
    let '(s', stop, r) := f s w in
    match r with
    | Err e => (s', Err e)
    | Ok _ => if stop then (s', Ok tt) else foreachWindowBlock f s' ws'
    end
  end.

Section LoadTrie.
Context {Tr P : Type}.
(** [blockHandle{file: db.index, offset: off}.read()] and its [entries]. *)
Context (readIndexBlock : Z -> result (list EntryDB.slot)).
Context (startBlockIndex blockOffset : Z -> Z).
(** [db.data.readTopic(s)] and [t.Unmarshal(rawtopic)] giving [t.Parts] and [t.Depth]. *)
Context (readTopic : EntryDB.slot -> result (list Z)).
Context (unmarshalTopic : list Z -> result (P * Z)).
(** [db.trie.add(topic, parts, depth)]. *)
Context (trie_add : Tr -> Query.topic -> P -> Z -> Tr * bool).

(** The scan [for i := 0; i < entriesPerIndexBlock; i++] for the first
    slot with the sequence: [entryIdx], [None] for [-1]. *)
Fixpoint find_entry (n : nat) (slots : list EntryDB.slot) (sq : Z) : result (option EntryDB.slot) :=
  match n with
  | O => Ok None
  | S n' =>
    match slots with
    | [] => Err errPanic
    | s :: rest => if EntryDB.s_seq s =? sq then Ok (Some s) else find_entry n' rest sq
    end
  end.

(** The callback of [loadTrie] on the state [(topics, trie)]. *)
Definition loadTrie_cb (st : gmap Z Z * Tr) (w : windowHandle) : (gmap Z Z * Tr) * bool * result unit :=
  let '(topics0, tr) := st in
  if w_entryIdx w =? 0 then (st, false, Ok tt) else
  let topics :=
    match topics0 !! w_topicHash w with
    | Some _ => topics0
    | None => <[w_topicHash w := w_offset w]> topics0
    end in
  if negb (w_next w =? 0) then ((topics, tr), false, Ok tt) else
  let we := nth 0 (w_entries w) 0 in
  match readIndexBlock (blockOffset (startBlockIndex we)) with
  | Err errEOF => ((topics, tr), false, Ok tt)
  | Err e => ((topics, tr), true, Err e)
  | Ok slots =>
    match find_entry EntryDB.entriesPerIndexBlock slots we with
    | Err e => ((topics, tr), true, Err e)
    | Ok None => ((topics, tr), false, Ok tt)
    | Ok (Some s) =>
      if EntryDB.s_topicSize s =? 0 then ((topics, tr), false, Ok tt) else
      match readTopic s with
      | Err e => ((topics, tr), true, Err e)
      | Ok raw =>
        match unmarshalTopic raw with
        | Err e => ((topics, tr), true, Err e)
        | Ok (parts, depth) =>
          let '(tr', _) :=
            trie_add tr (Query.mkTopic (w_topicHash w) (default 0 (topics !! w_topicHash w))) parts depth in
          ((topics, tr'), false, Ok tt)
        end
      end
    end
  end.

(** [DB.loadTrie] on the trie and the window file's blocks. *)
Definition loadTrie (tr : Tr) (ws : list windowHandle) : Tr * result unit :=
  let '((_, tr'), r) := foreachWindowBlock loadTrie_cb (∅, tr) ws in (tr', r).

End LoadTrie.


(** ** The offsets the trie receives *)

(** The offset the bootstrap should give topic [h]: that of the first
    block of [h], in file order, with entries. *)
Definition first_offset (ws : list windowHandle) (h : Z) : option Z :=
  w_offset <$> List.find (fun w => negb (w_entryIdx w =? 0) && (w_topicHash w =? h)) ws.

#[export] Instance topic_eq_dec : EqDecision Query.topic.
Proof. solve_decision. Defined.

(** The spec's trie [add] on a trie kept as its list of topics: the
    topic is inserted when not already present. *)
Definition list_trie_add {P} (tr : list Query.topic) (t : Query.topic) (_ : P) (_ : Z)
  : list Query.topic * bool :=
  if decide (t ∈ tr) then (tr, false) else (tr ++ [t], true).

Lemma first_offset_snoc ws w h :
  first_offset (ws ++ [w]) h =
    match first_offset ws h with
    | Some o => Some o
    | None => if negb (w_entryIdx w =? 0) && (w_topicHash w =? h) then Some (w_offset w) else None
    end.
Proof.
  unfold first_offset. induction ws as [|w' ws IH]; cbn.
  - by destruct (_ && _).
  - destruct (negb (w_entryIdx w' =? 0) && (w_topicHash w' =? h)); [reflexivity|exact IH].
Qed.

Lemma first_offset_app ws ws' h o : first_offset ws h = Some o -> first_offset (ws ++ ws') h = Some o.
Proof.
  unfold first_offset. induction ws as [|w ws IH]; cbn; [discriminate|].
  destruct (_ && _); [done|exact IH].
Qed.

(** A walk keeps an invariant of the blocks it has visited. *)
Lemma foreach_inv {St} (f : St -> windowHandle -> St * bool * result unit) (Inv : list windowHandle -> St -> Prop) :
  (forall pre s w, Inv pre s -> Inv (pre ++ [w]) (f s w).1.1) ->
  forall ws pre s, Inv pre s -> exists k, Inv (pre ++ take k ws) (foreachWindowBlock f s ws).1.
Proof.
  intros Hstep ws. induction ws as [|w ws IH]; intros pre s Hs; cbn [foreachWindowBlock].
  - exists 0%nat. by rewrite take_nil, app_nil_r.
  - pose proof (Hstep pre s w Hs) as Hw. destruct (f s w) as [[s' stop] r]. cbn in Hw.
    destruct r as [_|e]; [destruct stop|]; try (exists 1%nat; exact Hw).
    destruct (IH (pre ++ [w]) s' Hw) as [k Hk]. exists (S k). by rewrite <- app_assoc in Hk.
Qed.

(** What the walk keeps: [topics] maps each hash to its first offset,
    and the trie holds distinct topics, each with its first offset. *)
Definition boot_inv (pre : list windowHandle) (st : gmap Z Z * list Query.topic) : Prop :=
  (forall h, st.1 !! h = first_offset pre h) /\ NoDup st.2 /\
  Forall (fun t => first_offset pre (Query.t_hash t) = Some (Query.t_offset t)) st.2.

Section Invariant.
Context {P : Type}.
Context (readIndexBlock : Z -> result (list EntryDB.slot)) (startBlockIndex blockOffset : Z -> Z).
Context (readTopic : EntryDB.slot -> result (list Z)) (unmarshalTopic : list Z -> result (P * Z)).

Lemma loadTrie_cb_inv pre st w :
  boot_inv pre st ->
  boot_inv (pre ++ [w])
    (loadTrie_cb readIndexBlock startBlockIndex blockOffset readTopic unmarshalTopic list_trie_add st w).1.1.
Proof.
  destruct st as [topics0 tr]. intros (Ht & Hnd & Htr). cbn [fst snd] in Ht, Hnd, Htr.
  assert (Htr' : Forall (fun t => first_offset (pre ++ [w]) (Query.t_hash t) = Some (Query.t_offset t)) tr).
  { eapply Forall_impl; [exact Htr|]. intros t. apply first_offset_app. }
  unfold loadTrie_cb. destruct (Z.eqb_spec (w_entryIdx w) 0) as [H0|H0]; cbn [fst].
  { split_and!; [|done|done]. intros h. cbn. rewrite first_offset_snoc, <- Ht, H0. by destruct (_ !! _). }
  set (topics := match topics0 !! w_topicHash w with Some _ => topics0 | None => _ end).
  assert (Ht' : forall h, topics !! h = first_offset (pre ++ [w]) h).
  { intros h. rewrite first_offset_snoc, <- Ht. subst topics.
    rewrite (proj2 (Z.eqb_neq _ _) H0). cbn [negb andb].
    destruct (Z.eqb_spec (w_topicHash w) h) as [<-|Hne].
    - destruct (topics0 !! w_topicHash w) eqn:E; [done|]. by rewrite lookup_insert_eq.
    - cbn [andb].
      destruct (topics0 !! w_topicHash w); [|rewrite lookup_insert_ne by done]; by destruct (topics0 !! h). }
  assert (Hw : exists o, topics !! w_topicHash w = Some o).
  { rewrite Ht', first_offset_snoc. destruct (first_offset pre _); [by eexists|].
    rewrite (proj2 (Z.eqb_neq _ _) H0), Z.eqb_refl. by eexists. }
  assert (Hadd : forall p d, boot_inv (pre ++ [w])
            (topics, (list_trie_add (P := P) tr (Query.mkTopic (w_topicHash w) (default 0 (topics !! w_topicHash w))) p d).1)).
  { intros p d. destruct Hw as [o Ho]. rewrite Ho. unfold list_trie_add. cbn [default].
    destruct (decide _) as [|Hnin]; cbn [fst]; split_and!; try done.
    - apply NoDup_app. split_and!; [done| |apply NoDup_singleton]. set_solver.
    - apply Forall_app. split; [done|]. apply Forall_singleton. cbn. by rewrite <- Ht'. }
  repeat case_match; cbn [fst]; try by split_and!.
  match goal with H : list_trie_add _ _ ?p ?d = _ |- _ => pose proof (Hadd p d) as Ha; by rewrite H in Ha end.
Qed.

(** C29: The trie bootstrap gives each topic its first offset.  Whatever
    the index and data files and the topic parser return, [loadTrie]
    from an empty trie (a list that [add] extends with new topics)
    leaves distinct topics, each carrying the offset of the first window
    block of its hash, in [foreachWindowBlock]'s order, that has entries:
    the map [topics] keeps the first offset it sees, even when the walk
    stops on an error. *)
Theorem loadTrie_first_offset ws :
  let '(tr, _) := loadTrie readIndexBlock startBlockIndex blockOffset readTopic unmarshalTopic
                    list_trie_add [] ws in
  NoDup tr /\ Forall (fun t => first_offset ws (Query.t_hash t) = Some (Query.t_offset t)) tr.
Proof.
  unfold loadTrie.
  destruct (foreach_inv _ boot_inv loadTrie_cb_inv ws [] (∅, [])) as [k Hk].
  { split_and!; [intros h; cbn; by rewrite lookup_empty|constructor|constructor]. }
  destruct (foreachWindowBlock _ _ ws) as [[topics tr] r]. destruct Hk as (_ & Hnd & Htr).
  split; [done|]. eapply Forall_impl; [exact Htr|]. intros t Ht.
  rewrite <- (take_drop k ws). by apply first_offset_app.
Qed.

End Invariant.

End TrieBoot.
