(* ===== verification/DBPut.v ===== *)
(** * [setEntry] over [parseTopic] (src/db_internal.go, lines 274-317)

    [EntryDB.setEntry] takes the topic parser as Section context;
    [DBInternal.parseTopic] is the parser of the main DB over the
    [message.Topic] primitives.  Here the two are composed as the code
    composes them ([db.setEntry] calls [db.parseTopic]), and the
    composition is shown to reject a topic that does not parse with
    [errBadRequest] before anything of the DB is touched, and to carry
    the topic's TTL into the entry. *)

From S2P Require Import Prelude EntryDB DBInternal.

Module DBPut.
Import EntryDB.

Section Put.
Context {T Lease : Type}.
(** The [message.Topic] primitives [DB.parseTopic] calls. *)
Context (parseKey : list Z -> T) (parse : T -> Z -> bool -> T) (topicInvalid : T -> bool) (ttl : T -> option Z).
(** The other collaborators of [setEntry], as in [EntryDB]. *)
Context (MasterContract : Z) (addContract : T -> Z -> T) (getHash : T -> Z -> Z) (marshalTopic : T -> list Z)
        (trie_has : Z -> bool) (getSlot : Lease -> Z -> option Z * Lease) (idSequence : list Z -> Z)
        (newID : Z -> list Z) (setContract : list Z -> Z -> list Z) (idPrefix snappyEncode encrypt : list Z -> list Z)
        (marshalEntry : Entry -> list Z) (entrySize : nat).

(** [db.setEntry(e, encr)] with [db.parseTopic] the main DB's. *)
Definition setEntry (db : EDB) (e : Entry) (encr : bool) : EDB * Entry * result unit :=
  EntryDB.setEntry MasterContract (DBInternal.parseTopic parseKey parse topicInvalid ttl) addContract getHash
    marshalTopic trie_has getSlot idSequence newID setContract idPrefix snappyEncode encrypt marshalEntry entrySize
    db e encr.

(** The contract [setEntry] parses the topic under. *)
Definition contract_of (e : Entry) : Z := if Contract e =? 0 then MasterContract else Contract e.

(** The topic as [parseTopic] parses it. *)
Definition parsed_topic (e : Entry) : T := parse (parseKey (Topic e)) (contract_of e) true.

(** [encode_entry] keeps the parsed fields and stores [ExpiresAt] as the
    index entry's [expiresAt]. *)
Lemma encode_entry_fields db e s id raw encr e2 r :
  @encode_entry Lease setContract idPrefix snappyEncode encrypt marshalEntry entrySize db e s id raw encr = (e2, r) ->
  ExpiresAt e2 = ExpiresAt e /\ parsed e2 = parsed e /\ Contract e2 = Contract e /\ expiresAt e2 = ExpiresAt e.
Proof. unfold encode_entry. cbv zeta. destruct (bind_result (go_copy _ _ _) _); by intros [= <- _]. Qed.

(** A topic that does not parse is rejected with [errBadRequest]: the
    sequence counter and the lease are untouched and the entry stays
    unparsed, but the entry has its zero contract replaced by the master
    contract, although the spec says a parse error mutates nothing. *)
Theorem setEntry_invalid_topic db e encr :
  parsed e = false -> topicInvalid (parsed_topic e) = true ->
  setEntry db e encr =
    (db, mkEntry (ID e) (contract_of e) (Topic e) (Payload e) (ExpiresAt e) false (topicHash e) (topicSize e)
                 (seq e) (expiresAt e) (valueSize e) (cacheEntry e), Err errBadRequest).
Proof.
  intros Hp Hi. unfold setEntry, EntryDB.setEntry, parse_entry. rewrite Hp.
  unfold DBInternal.parseTopic. fold (contract_of e). fold (parsed_topic e). by rewrite Hi.
Qed.

(** A topic with a positive TTL sets the expiry of an entry that has
    none: whatever happens after the parse, the entry [setEntry] returns
    expires at the TTL, and so does the index entry of a successful
    [setEntry]. *)
Theorem setEntry_topic_ttl db e encr x :
  parsed e = false -> ExpiresAt e = 0 -> topicInvalid (parsed_topic e) = false ->
  ttl (parsed_topic e) = Some x -> 0 < x ->
  let '(_, e', r) := setEntry db e encr in
  ExpiresAt e' = x /\ parsed e' = true /\ Contract e' = contract_of e /\
  (r = Ok tt -> expiresAt e' = x).
Proof.
  intros Hp He Hi Ht Hx. unfold setEntry, EntryDB.setEntry, parse_entry. rewrite Hp.
  unfold DBInternal.parseTopic. fold (contract_of e). fold (parsed_topic e). rewrite Hi, Ht, He.
  rewrite (proj2 (Z.ltb_lt _ _) Hx). cbn -[assign_seq encode_entry].
  destruct (assign_seq _ _ _ _ _) as [[db' s] id]. destruct (Z.eqb_spec s 0) as [Hs|Hs].
  - cbn. by split_and!.
  - destruct (encode_entry _ _ _ _ _ _ _ _ _ _ _ _) as [e2 r] eqn:E.
    apply encode_entry_fields in E as (H1 & H2 & H3 & H4). cbn in *. split_and!; congruence.
Qed.

End Put.

End DBPut.
