(* ===== verification/DBSync.v ===== *)
(** * Lock order of the commits and [close]
      (src/db_internal.go, lines 182-198, 361-436; src/memdb/timelock.go,
      lines 212-240, 394-420)

    [close], [tinyCommit] and [commit] synchronise through the
    single-token channel [writeLockC] (the spec's write latch), the
    channel [syncLockC] and the wait group [closeW].  This file keeps
    only those operations, in the order each function performs them:
    each function is a program of [instr]uctions, a configuration is the
    shared state and the program left to each goroutine, and
    [sync_step] runs one instruction of one goroutine whose instruction
    is enabled.  A goroutine that returns has the empty program.
    [explore] checks every interleaving of a configuration; it is sound
    for [sync_step] ([explore_sound]).  The memdb's [close] and
    [tinyCommit] are programs over the same instructions, with the join
    of the batch pool's workers. *)

From S2P Require Import Prelude.

Module DBSync.

(** The synchronisation operations, and the steps without any ([Work]:
    [NewWriter], the appends, [SignalInitWrite]). *)
Inductive instr :=
| OkCheck        (** [if err := db.ok(); err != nil { return err }] *)
| SetClosed      (** [if !db.setClosed() { return errClosed }] *)
| CloseSignal    (** [close(db.closeC)] *)
| Sleep          (** [time.Sleep(db.opts.TinyBatchWriteInterval)] *)
| AddW           (** [db.closeW.Add(1)] *)
| DoneW          (** [db.closeW.Done()] *)
| AcquireW       (** [db.writeLockC <- struct{}{}] *)
| ReleaseW       (** [<-db.writeLockC] *)
| AcquireS       (** [db.syncLockC <- struct{}{}] *)
| WaitW          (** [db.closeW.Wait()] *)
| JoinWorkers    (** the memdb's [batchPool.stopWait()]: wait for the pool's workers *)
| Work.

#[export] Instance instr_eq_dec : EqDecision instr.
Proof. solve_decision. Defined.

(** The closed flag, [closeC], the two single-token channels (full or
    not) and the wait group's counter. *)
Record shared := mkShared { closed : bool; closeC : bool; wlock : bool; slock : bool; closeW : nat }.

Definition config : Type := shared * list (list instr).

(** One instruction: [None] when it blocks, else the new state and
    whether the goroutine goes on ([false]: it returns).  [others] says
    whether every other goroutine has returned. *)
Definition exec (s : shared) (others : bool) (i : instr) : option (shared * bool) :=
  match i with
  | OkCheck => Some (s, negb (closed s))
  | SetClosed =>
    if closed s then Some (s, false)
    else Some (mkShared true (closeC s) (wlock s) (slock s) (closeW s), true)
  | CloseSignal => Some (mkShared (closed s) true (wlock s) (slock s) (closeW s), true)
  | Sleep | Work => Some (s, true)
  | AddW => Some (mkShared (closed s) (closeC s) (wlock s) (slock s) (S (closeW s)), true)
  | DoneW => Some (mkShared (closed s) (closeC s) (wlock s) (slock s) (closeW s - 1), true)
  | AcquireW =>
    if wlock s then None else Some (mkShared (closed s) (closeC s) true (slock s) (closeW s), true)
  | ReleaseW => Some (mkShared (closed s) (closeC s) false (slock s) (closeW s), true)
  | AcquireS =>
    if slock s then None else Some (mkShared (closed s) (closeC s) (wlock s) true (closeW s), true)
  | WaitW => if closeW s =? 0 then Some (s, true) else None
  | JoinWorkers => if others then Some (s, true) else None
  end%nat.

(** Every goroutine but [t] has returned. *)
Definition others_done (ps : list (list instr)) (t : nat) : bool :=
  forallb (fun t' => (t' =? t)%nat || match ps !! t' with Some [] => true | _ => false end) (seq 0 (length ps)).

(** Goroutine [t] runs its next instruction. *)
Definition step_thread (c : config) (t : nat) : option config :=
  match c.2 !! t with
  | Some (i :: rest) =>
    match exec c.1 (others_done c.2 t) i with
    | Some (s', true) => Some (s', <[t := rest]> c.2)
    | Some (s', false) => Some (s', <[t := []]> c.2)
    | None => None
    end
  | _ => None
  end.

Definition sync_step (c c' : config) : Prop := exists t, step_thread c t = Some c'.

(** The configurations one step away. *)
Definition succs (c : config) : list config := omap (step_thread c) (seq 0 (length c.2)).

(** No goroutine can run. *)
Definition stuck (c : config) : Prop := forall t, step_thread c t = None.

(** Every maximal interleaving from [c], within [fuel] steps, ends in a
    configuration satisfying [good]. *)
Fixpoint explore (good : config -> bool) (fuel : nat) (c : config) : bool :=
  match fuel with
  | O => false
  | S f =>
    match succs c with
    | [] => good c
    | cs => forallb (explore good f) cs
    end
  end.

(** [DB.close]. *)
Definition close_prog : list instr := [SetClosed; CloseSignal; Sleep; AcquireW; AcquireS; WaitW].

(** [DB.tinyCommit] of a non-empty tiny batch: [closeW.Add(1)] comes
    before the write lock; the deferred function releases the lock and
    then calls [Done]. *)
Definition tinyCommit_prog : list instr := [OkCheck; Work; AddW; AcquireW; Work; ReleaseW; DoneW].

(** [DB.commit]: the write lock comes before [closeW.Add(1)]. *)
Definition commit_prog : list instr := [OkCheck; AcquireW; AddW; Work; Work; ReleaseW; DoneW].

(** The memdb's [DB.close] (src/memdb/timelock.go, lines 212-240): the
    pool's workers are joined before the write lock is taken. *)
Definition memdb_close_prog : list instr := [SetClosed; Sleep; CloseSignal; JoinWorkers; AcquireW; WaitW].

(** The memdb's [DB.tinyCommit] (lines 394-420), run by a pool worker:
    [closeW.Add(1)] before the write lock, and the deferred functions in
    reverse order, the lock released before [Done]. *)
Definition memdb_tinyCommit_prog : list instr := [AddW; AcquireW; Work; ReleaseW; DoneW].

(** An open DB with every channel empty, running the given goroutines. *)
Definition start (ps : list (list instr)) : config := (mkShared false false false false 0, ps).

(** [close], goroutine 1, has returned. *)
Definition close_done (c : config) : bool := match c.2 !! 1%nat with Some [] => true | _ => false end.

(** Every goroutine has returned. *)
Definition all_done (c : config) : bool := forallb (fun p => match p with [] => true | _ => false end) c.2.

(** A schedule: the goroutine to run at each step. *)
Fixpoint run (c : config) (ts : list nat) : option config :=
  match ts with
  | [] => Some c
  | t :: ts' => match step_thread c t with Some c' => run c' ts' | None => None end
  end.

(** ** Soundness of [explore] *)

Lemma step_thread_lt c t c' : step_thread c t = Some c' -> (t < length c.2)%nat.
Proof.
  unfold step_thread. destruct (c.2 !! t) eqn:E; [|done]. intros _. by apply lookup_lt_Some in E.
Qed.

Lemma succs_spec c c' : c' ∈ succs c <-> sync_step c c'.
Proof.
  unfold succs, sync_step. rewrite list_elem_of_omap. split.
  - intros (t & _ & Ht). by exists t.
  - intros [t Ht]. exists t. split; [|done]. apply elem_of_seq. apply step_thread_lt in Ht. lia.
Qed.

Lemma succs_nil_stuck c : succs c = [] -> stuck c.
Proof.
  intros Hs t. destruct (step_thread c t) as [c'|] eqn:E; [|done].
  assert (Hin : c' ∈ succs c) by (apply succs_spec; by exists t). rewrite Hs in Hin. by apply elem_of_nil in Hin.
Qed.

Lemma stuck_succs_nil c : stuck c -> succs c = [].
Proof.
  intros Hs. destruct (succs c) as [|c' cs] eqn:E; [done|].
  assert (Hin : c' ∈ succs c) by (rewrite E; left). apply succs_spec in Hin as [t Ht]. by rewrite Hs in Ht.
Qed.

#[export] Instance stuck_dec c : Decision (stuck c).
Proof.
  destruct (decide (succs c = [])) as [H|H]; [left; by apply succs_nil_stuck|right; intros Hs; by apply H, stuck_succs_nil].
Defined.

Theorem explore_sound good fuel c c' :
  explore good fuel c = true -> rtc sync_step c c' -> stuck c' -> good c' = true.
Proof.
  revert c. induction fuel as [|f IH]; intros c He Hr Hs; [done|]. cbn in He.
  destruct Hr as [c|c c1 c' H1 Hr].
  - by rewrite (stuck_succs_nil c Hs) in He.
  - assert (Hin : c1 ∈ succs c) by by apply succs_spec.
    assert (Hall : forallb (explore good f) (succs c) = true)
      by (destruct (succs c); [by apply elem_of_nil in Hin|exact He]).
    apply (IH c1); [|done|done]. eapply (proj1 (forallb_forall _ _)) in Hall; [exact Hall|by apply list_elem_of_In].
Qed.

Lemma run_rtc c ts c' : run c ts = Some c' -> rtc sync_step c c'.
Proof.
  revert c. induction ts as [|t ts IH]; intros c; cbn; [intros [= ->]; apply rtc_refl|].
  destruct (step_thread c t) as [c1|] eqn:E; [|done]. intros Hr. eapply rtc_l; [by exists t|]. by apply IH.
Qed.

(** ** [close] against a concurrent commit *)

(** C34: [close] can deadlock with a concurrent [tinyCommit].
    [tinyCommit] adds itself to [closeW] before it takes the write lock,
    while [close] takes the write lock before it waits for [closeW]: when
    [close] takes the lock between the two, [tinyCommit] waits for the
    lock and [close] for [tinyCommit], and neither ever returns. *)
Theorem tinyCommit_close_deadlock :
  exists c, rtc sync_step (start [tinyCommit_prog; close_prog]) c /\ stuck c /\
    close_done c = false /\ c.2 !! 0%nat <> Some [].
Proof.
  exists (mkShared true true true true 1, [[AcquireW; Work; ReleaseW; DoneW]; [WaitW]]).
  split_and!; [|by apply succs_nil_stuck|done|done].
  by apply (run_rtc _ [0; 0; 0; 1; 1; 1; 1; 1]%nat).
Qed.

(** With [commit]'s order (the write lock first), [close] returns in
    every interleaving; but a [commit] that passed [db.ok()] before
    [close] took the lock waits for the lock forever. *)
Theorem commit_close :
  (forall c, rtc sync_step (start [commit_prog; close_prog]) c -> stuck c -> close_done c = true) /\
  exists c, rtc sync_step (start [commit_prog; close_prog]) c /\ stuck c /\ c.2 !! 0%nat <> Some [].
Proof.
  split.
  - intros c Hr Hs. apply (explore_sound close_done 20 (start [commit_prog; close_prog]) c); [vm_compute; reflexivity|done|done].
  - exists (mkShared true true true true 0, [[AcquireW; AddW; Work; Work; ReleaseW; DoneW]; []]).
    split_and!; [|by apply succs_nil_stuck|done].
    by apply (run_rtc _ [0; 1; 1; 1; 1; 1; 1]%nat).
Qed.

(** The memdb's [close] joins the batch pool's workers before it takes
    the write lock: with a worker running [tinyCommit], every
    interleaving ends with both goroutines returned. *)
Theorem memdb_close_returns c :
  rtc sync_step (start [memdb_tinyCommit_prog; memdb_close_prog]) c -> stuck c -> all_done c = true.
Proof. intros Hr Hs. apply (explore_sound all_done 20 (start [memdb_tinyCommit_prog; memdb_close_prog]) c); [vm_compute; reflexivity|done|done]. Qed.

End DBSync.
