(* ===== verification/Metrics.v ===== *)
(** * Metrics time series (src/unnamed/part_000, lines 104-345)

    [TimeSeries] is a Go interface with two implementations:
    [_TimeSeries], whose readings and updates go to a histogram, and
    [TimeSeriesSnapshot], a read-only copy whose updates panic.
    [GetOrRegisterTimeSeries] returns the series registered under a name
    or registers a new one; the caller gets a pointer, so two callers
    share one series.

    The histogram and the metrics registry are declared outside src/: the
    histogram is the class [Histogram] (readings, [AddTime],
    [SetWallTime], [Snapshot]) with its law [HistogramSpec] (a snapshot
    reads as the histogram it was taken from), and the registry is
    modelled from its contract (return the metric registered under the
    name, else register the new one).  Pointers are modelled: the heap
    maps locations to the objects of both types, an interface value is a
    location, and the registry maps names to interface values, so that
    the sharing of a series is visible. *)

From stdpp Require Import strings.
From S2P Require Import Prelude.

Module Metrics.

(** The readings of [TimeSeries]: [Cumulative] to [Range]. *)
Inductive stat :=
| Cumulative | HMean | Avg | P50 | P75 | P95 | P99 | P999 | Long5p | Short5p | Max | Min | StdDev | Range.

(** The histogram a series delegates to and its snapshot type. *)
Class Histogram (H HS : Type) := {
  h_get : H -> stat -> Z;
  h_addTime : H -> Z -> H;
  h_setWallTime : H -> Z -> H;
  h_snapshot : H -> HS;
  hs_get : HS -> stat -> Z
}.

Class HistogramSpec (H HS : Type) `{!Histogram H HS} : Prop := {
  snapshot_get h s : hs_get (h_snapshot h) s = h_get h s
}.

Section TimeSeries.
Context {H HS : Type} `{!Histogram H HS}.

(** [_TimeSeries] and [TimeSeriesSnapshot]; the mutex is not modelled. *)
Record _TimeSeries := mk_TimeSeries { histogram : H }.
Record TimeSeriesSnapshot := mkTimeSeriesSnapshot { snap_histogram : HS }.

(** The readings of [_TimeSeries] (lines 156-223). *)
Definition _TimeSeries_get (t : _TimeSeries) (s : stat) : Z := h_get (histogram t) s.

(** [_TimeSeries.AddTime] and [SetWallTime] (lines 233-243). *)
Definition _TimeSeries_AddTime (t : _TimeSeries) (d : Z) : _TimeSeries :=
  mk_TimeSeries (h_addTime (histogram t) d).

Definition _TimeSeries_SetWallTime (t : _TimeSeries) (d : Z) : _TimeSeries :=
  mk_TimeSeries (h_setWallTime (histogram t) d).

(** [_TimeSeries.Time(f)]: [AddTime(time.Since(ts))], with the clock read
    before and after [f] runs. *)
Definition _TimeSeries_Time (t : _TimeSeries) (before after : Z) : _TimeSeries :=
  _TimeSeries_AddTime t (after - before).

(** [_TimeSeries.Snapshot]: a copy of the histogram's snapshot. *)
Definition _TimeSeries_Snapshot (t : _TimeSeries) : TimeSeriesSnapshot :=
  mkTimeSeriesSnapshot (h_snapshot (histogram t)).

(** The readings of [TimeSeriesSnapshot] (lines 260-327). *)
Definition TimeSeriesSnapshot_get (t : TimeSeriesSnapshot) (s : stat) : Z := hs_get (snap_histogram t) s.

(** ** Pointers *)

(** A heap object: a [*_TimeSeries] or a [*TimeSeriesSnapshot]. *)
Inductive obj := OStd (t : _TimeSeries) | OSnap (t : TimeSeriesSnapshot).

(** A registered metric: a time series (its pointer) or a metric of another type. *)
Inductive metric := MTimeSeries (l : nat) | MOther.

Record store := mkStore { heap : gmap nat obj; next : nat; registry : gmap string metric }.

Definition alloc (st : store) (o : obj) : store * nat :=
  (mkStore (<[next st := o]> (heap st)) (S (next st)) (registry st), next st).

Definition set_obj (st : store) (l : nat) (o : obj) : store :=
  mkStore (<[l := o]> (heap st)) (next st) (registry st).

(** [NewTimeSeries()]: a series over a fresh histogram [h0]
    ([NewHistogram(NewSample(&Config{Size: 50}))]). *)
Definition NewTimeSeries (h0 : H) (st : store) : store * nat := alloc st (OStd (mk_TimeSeries h0)).

(** [GetOrRegisterTimeSeries(name, r)]: [r.GetOrRegister(name,
    NewTimeSeries).(TimeSeries)], whose type assertion panics on a
    metric of another type. *)
Definition GetOrRegisterTimeSeries (h0 : H) (name : string) (st : store) : store * result nat :=
  match registry st !! name with
  | Some (MTimeSeries l) => (st, Ok l)
  | Some MOther => (st, Err errPanic)
  | None =>
    let '(st1, l) := NewTimeSeries h0 st in
    (mkStore (heap st1) (next st1) (<[name := MTimeSeries l]> (registry st1)), Ok l)
  end.

(** The interface methods through a pointer; a dangling pointer is a nil
    dereference. *)
Definition get (st : store) (l : nat) (s : stat) : result Z :=
  match heap st !! l with
  | Some (OStd t) => Ok (_TimeSeries_get t s)
  | Some (OSnap t) => Ok (TimeSeriesSnapshot_get t s)
  | None => Err errPanic
  end.

(** [AddTime], [SetWallTime] and [Time] panic on a snapshot (lines 330-342). *)
Definition update (f : _TimeSeries -> _TimeSeries) (st : store) (l : nat) : store * result unit :=
  match heap st !! l with
  | Some (OStd t) => (set_obj st l (OStd (f t)), Ok tt)
  | Some (OSnap _) => (st, Err errPanic)
  | None => (st, Err errPanic)
  end.

Definition AddTime (st : store) (l : nat) (d : Z) : store * result unit :=
  update (fun t => _TimeSeries_AddTime t d) st l.

Definition SetWallTime (st : store) (l : nat) (d : Z) : store * result unit :=
  update (fun t => _TimeSeries_SetWallTime t d) st l.

Definition Time (st : store) (l : nat) (before after : Z) : store * result unit :=
  update (fun t => _TimeSeries_Time t before after) st l.

(** [Snapshot]: a new snapshot object, or the snapshot itself (line 345). *)
Definition Snapshot (st : store) (l : nat) : store * result nat :=
  match heap st !! l with
  | Some (OStd t) => let '(st1, l') := alloc st (OSnap (_TimeSeries_Snapshot t)) in (st1, Ok l')
  | Some (OSnap _) => (st, Ok l)
  | None => (st, Err errPanic)
  end.

End TimeSeries.

(** ** A registered series is shared; a snapshot is frozen *)

Section Properties.
Context {H HS : Type} `{!Histogram H HS}.

Lemma update_heap_other (f : @_TimeSeries H -> @_TimeSeries H) (st : @store H HS) l l' :
  l <> l' -> heap (update f st l).1 !! l' = heap st !! l'.
Proof. intros Hne. unfold update. repeat case_match; cbn; try done. by rewrite lookup_insert_ne. Qed.

(** Two callers of [GetOrRegisterTimeSeries] with the same name share a
    series: a time added through the pointer the first one got is read
    through the pointer the second one gets. *)
Theorem GetOrRegister_shared (h0 : H) name (st : @store H HS) d s :
  registry st !! name = None ->
  let '(st1, r1) := GetOrRegisterTimeSeries h0 name st in
  exists l, r1 = Ok l /\
  let '(st2, r2) := AddTime st1 l d in
  let '(st3, r3) := GetOrRegisterTimeSeries h0 name st2 in
  r2 = Ok tt /\ r3 = Ok l /\ st3 = st2 /\ get st3 l s = Ok (h_get (h_addTime h0 d) s).
Proof.
  intros Hn. unfold GetOrRegisterTimeSeries at 1. rewrite Hn. cbn.
  exists (next st). split; [done|].
  unfold AddTime, update. cbn. rewrite lookup_insert_eq. cbn.
  unfold GetOrRegisterTimeSeries. cbn. rewrite lookup_insert_eq.
  split_and!; [done|done|done|]. unfold get. cbn. by rewrite lookup_insert_eq.
Qed.

(** [AddTime] through one pointer, for each duration of [ds]. *)
Definition add_times (st : @store H HS) (l : nat) (ds : list Z) : @store H HS :=
  fold_left (fun st d => (AddTime st l d).1) ds st.

Lemma add_times_heap_other (st : @store H HS) l l' ds : l <> l' -> heap (add_times st l ds) !! l' = heap st !! l'.
Proof.
  revert st. induction ds as [|d ds IH]; intros st Hne; [done|].
  change (add_times st l (d :: ds)) with (add_times (AddTime st l d).1 l ds).
  rewrite IH by done. by apply update_heap_other.
Qed.

Context `{!HistogramSpec H HS}.

(** A snapshot of a series reads as the series did when it was taken,
    whatever time is added to the series afterwards, and stays its own
    snapshot. *)
Theorem Snapshot_frozen (st : @store H HS) l t ds s :
  heap st !! l = Some (OStd t) -> (l < next st)%nat ->
  let '(st1, r) := Snapshot st l in
  exists l', r = Ok l' /\
  get (add_times st1 l ds) l' s = Ok (_TimeSeries_get t s) /\
  Snapshot (add_times st1 l ds) l' = (add_times st1 l ds, Ok l').
Proof.
  intros Hl Hn. unfold Snapshot at 1. rewrite Hl. cbn -[add_times get Snapshot]. exists (next st). split; [done|].
  assert (Hne : l <> next st) by lia.
  unfold get, Snapshot. rewrite add_times_heap_other by done. cbn. rewrite lookup_insert_eq.
  split; [|done]. unfold TimeSeriesSnapshot_get, _TimeSeries_get. cbn. by rewrite snapshot_get.
Qed.

End Properties.

End Metrics.
