(* ===== verification/FileLock.v ===== *)
(** * The Windows lock file (src/fs/file_windows.go)

    [newLockFile(name)] opens the lock file with [CreateFile]
    ([CREATE_ALWAYS], every sharing mode) and takes an exclusive lock on
    its first byte with [LockFileEx], failing at once when another
    handle holds it; [Unlock] removes the file and closes the handle.
    [lockFile] turns a failed [LockFileEx] into [os.ErrExist] only for
    two error codes.

    The system calls are the class [WinAPI]; the operations of the file
    are proved against any instance.  [winOS] is an instance with the
    semantics the code relies on: a file is an object named in a
    directory, a handle refers to a file object, and a file object has
    at most one exclusive lock, held by a handle and dropped when it is
    closed.  [lock_step] runs the process's [newLockFile] and [Unlock]
    calls; [lock_inv] and [dir_inv] are its invariants, and the calls
    refine the lock service [spec_lock]/[spec_unlock] on the set of held
    names. *)

From stdpp Require Import strings.
From S2P Require Import Prelude.

Module FileLock.

(** [errorLockViolation = 0x21], [lockfileExclusiveLock = 3]. *)
Definition errorLockViolation : Z := 33.
Definition lockfileExclusiveLock : Z := 3.

(** [syscall.ERROR_FILE_EXISTS] and [syscall.ERROR_INVALID_HANDLE]. *)
Definition ERROR_FILE_EXISTS : Z := 80.
Definition ERROR_INVALID_HANDLE : Z := 6.

(** [type windowsFileLock struct { fd syscall.Handle; name string }]. *)
Record windowsFileLock := mkWindowsFileLock { fd : Z; name : string }.

#[export] Instance windowsFileLock_eq_dec : EqDecision windowsFileLock.
Proof. solve_decision. Defined.

(** The system calls the file makes. *)
Class WinAPI (OS : Type) := {
  (** [syscall.UTF16PtrFromString]: the path, or an error. *)
  utf16PtrFromString : string -> result string;
  (** [syscall.CreateFile(path, GENERIC_READ|GENERIC_WRITE, all sharing,
      nil, CREATE_ALWAYS, FILE_ATTRIBUTE_NORMAL, 0)]. *)
  createFile : OS -> string -> OS * result Z;
  (** [Syscall6(procLockFileEx.Addr(), 6, h, flags, reserved, locklow,
      lockhigh, ol)]: [r1] and the error number. *)
  lockFileEx : OS -> Z -> Z -> Z -> Z -> Z -> OS * (Z * Z);
  (** [os.Remove(name)] and [syscall.Close(h)]. *)
  removeFile : OS -> string -> OS * result unit;
  closeHandle : OS -> Z -> OS * result unit
}.

Section Ops.
Context {OS : Type} `{!WinAPI OS}.

(** [windowsFileLock.Unlock]: the handle is closed only when the file
    was removed. *)
Definition Unlock (os : OS) (fl : windowsFileLock) : OS * result unit :=
  let '(os1, r) := removeFile os (name fl) in
  match r with
  | Err e => (os1, Err e)
  | Ok _ => closeHandle os1 (fd fl)
  end.

(** [lockFile]: only [ERROR_FILE_EXISTS] and [errorLockViolation] are
    errors; any other failure of [LockFileEx] returns [nil]. *)
Definition lockFile (os : OS) (h flags reserved locklow lockhigh : Z) : OS * result unit :=
  let '(os1, (r1, err)) := lockFileEx os h flags reserved locklow lockhigh in
  if (r1 =? 0) && ((err =? ERROR_FILE_EXISTS) || (err =? errorLockViolation))
  then (os1, Err errExist) else (os1, Ok tt).

(** [newLockFile(name)]: a failed [CreateFile] is [os.ErrExist]; the
    deferred [Close] runs when [lockFile] failed. *)
Definition newLockFile (os : OS) (nm : string) : OS * result windowsFileLock :=
  match utf16PtrFromString nm with
  | Err e => (os, Err e)
  | Ok path =>
    let '(os1, r) := createFile os path in
    match r with
    | Err _ => (os1, Err errExist)
    | Ok h =>
      let '(os2, r2) := lockFile os1 h lockfileExclusiveLock 0 1 0 in
      match r2 with
      | Err e => ((closeHandle os2 h).1, Err e)
      | Ok _ => (os2, Ok (mkWindowsFileLock h nm))
      end
    end
  end.

End Ops.

(** ** A file system with exclusive locks *)

(** The directory (name to file object), the open handles (handle to
    file object) and the locks (file object to the handle holding it). *)
Record winOS := mkWinOS {
  files : gmap string Z; handles : gmap Z Z; locks : gmap Z Z; nextH : Z; nextF : Z
}.

Definition emptyOS : winOS := mkWinOS ∅ ∅ ∅ 1 1.

(** A Go string with a NUL byte has no UTF-16 path. *)
Fixpoint has_nul (s : string) : bool :=
  match s with
  | EmptyString => false
  | String c s' => bool_decide (c = Ascii.Ascii false false false false false false false false) || has_nul s'
  end.

Definition win_utf16 (s : string) : result string := if has_nul s then Err errIO else Ok s.

(** [CREATE_ALWAYS]: the named file object, created when missing, and a
    fresh handle to it. *)
Definition win_createFile (os : winOS) (nm : string) : winOS * result Z :=
  let '(fs, fid, nf) :=
    match files os !! nm with
    | Some fid => (files os, fid, nextF os)
    | None => (<[nm := nextF os]> (files os), nextF os, nextF os + 1)
    end in
  (mkWinOS fs (<[nextH os := fid]> (handles os)) (locks os) (nextH os + 1) nf, Ok (nextH os)).

(** An exclusive lock that fails at once when the file object is locked. *)
Definition win_lockFileEx (os : winOS) (h _flags _reserved _lo _hi : Z) : winOS * (Z * Z) :=
  match handles os !! h with
  | None => (os, (0, ERROR_INVALID_HANDLE))
  | Some fid =>
    match locks os !! fid with
    | Some _ => (os, (0, errorLockViolation))
    | None => (mkWinOS (files os) (handles os) (<[fid := h]> (locks os)) (nextH os) (nextF os), (1, 0))
    end
  end.

Definition win_remove (os : winOS) (nm : string) : winOS * result unit :=
  match files os !! nm with
  | None => (os, Err errIO)
  | Some _ => (mkWinOS (delete nm (files os)) (handles os) (locks os) (nextH os) (nextF os), Ok tt)
  end.

(** Closing a handle drops the locks it holds. *)
Definition win_close (os : winOS) (h : Z) : winOS * result unit :=
  match handles os !! h with
  | None => (os, Err errIO)
  | Some _ =>
    (mkWinOS (files os) (delete h (handles os)) (filter (fun kv => kv.2 <> h) (locks os)) (nextH os) (nextF os),
     Ok tt)
  end.

#[export] Instance winAPI : WinAPI winOS :=
  {| utf16PtrFromString := win_utf16; createFile := win_createFile; lockFileEx := win_lockFileEx;
     removeFile := win_remove; closeHandle := win_close |}.

(** The process's calls: a lock it obtains is held until its [Unlock]
    succeeds. *)
Inductive lock_step : winOS * list windowsFileLock -> winOS * list windowsFileLock -> Prop :=
| step_lock os held nm os' r :
    newLockFile os nm = (os', r) ->
    lock_step (os, held) (os', match r with Ok fl => fl :: held | Err _ => held end)
| step_unlock os held fl os' r :
    fl ∈ held -> Unlock os fl = (os', r) ->
    lock_step (os, held) (os', match r with Ok _ => filter (fun x => fd x <> fd fl) held | Err _ => held end).

(** A held lock: its file is in the directory, its handle is open on
    that file and holds the file's lock. *)
Definition held_ok (os : winOS) (fl : windowsFileLock) : Prop :=
  has_nul (name fl) = false /\
  exists fid, files os !! name fl = Some fid /\ handles os !! fd fl = Some fid /\ locks os !! fid = Some (fd fl).

Record lock_inv (os : winOS) (held : list windowsFileLock) : Prop := {
  inv_held : Forall (held_ok os) held;
  inv_handles : forall h fid, handles os !! h = Some fid -> h < nextH os /\ fid < nextF os;
  inv_files : forall n fid, files os !! n = Some fid -> fid < nextF os;
  inv_locks : forall fid h, locks os !! fid = Some h -> handles os !! h = Some fid
}.

(** ** The lock service the file implements *)

(** The names of the held locks. *)
Definition names (held : list windowsFileLock) : gset string := list_to_set (map name held).

(** Taking a lock succeeds exactly on a free name, and fails leaving
    the held names alone; releasing a lock frees its name. *)
Definition spec_lock (S : gset string) (n : string) : gset string * bool :=
  if decide (n ∈ S) then (S, false) else ({[n]} ∪ S, true).

Definition spec_unlock (S : gset string) (n : string) : gset string := S ∖ {[n]}.

Definition is_ok {A} (r : result A) : bool := match r with Ok _ => true | Err _ => false end.

(** The directory holds only the files of held locks, each file object
    under one name. *)
Definition dir_inv (os : winOS) (held : list windowsFileLock) : Prop :=
  (forall n fid, files os !! n = Some fid -> n ∈ names held) /\
  (forall n1 n2 fid, files os !! n1 = Some fid -> files os !! n2 = Some fid -> n1 = n2).

(** ** The invariant *)

Lemma held_same_name os fl1 fl2 :
  held_ok os fl1 -> held_ok os fl2 -> name fl1 = name fl2 -> fl1 = fl2.
Proof.
  intros [_ (f1 & Hf1 & _ & Hl1)] [_ (f2 & Hf2 & _ & Hl2)] Hn.
  rewrite Hn, Hf2 in Hf1. injection Hf1 as <-. rewrite Hl1 in Hl2. injection Hl2 as Hd.
  destruct fl1, fl2; cbn in *; congruence.
Qed.

Lemma lock_inv_fresh_handle os held : lock_inv os held -> handles os !! nextH os = None.
Proof. intros Hi. destruct (handles os !! nextH os) eqn:E; [|done]. apply (inv_handles _ _ Hi) in E. lia. Qed.

Lemma lock_inv_fresh_fid os held : lock_inv os held -> locks os !! nextF os = None.
Proof.
  intros Hi. destruct (locks os !! nextF os) eqn:E; [|done].
  apply (inv_locks _ _ Hi), (inv_handles _ _ Hi) in E. lia.
Qed.

Lemma lock_inv_sub os held held' : lock_inv os held -> (forall x, x ∈ held' -> x ∈ held) -> lock_inv os held'.
Proof.
  intros [Hh ???] Hs. split; try done. apply Forall_forall. intros x Hx.
  by apply (proj1 (Forall_forall _ _) Hh), Hs.
Qed.

Lemma lock_inv_init : lock_inv emptyOS [].
Proof. split; try done; intros ??; rewrite lookup_empty; done. Qed.

(** Closing a handle no held lock uses. *)
Lemma close_inv os held h :
  lock_inv os held -> Forall (fun fl => fd fl <> h) held -> lock_inv (win_close os h).1 held.
Proof.
  intros [Hh Hhd Hf Hl] Hne. unfold win_close. destruct (handles os !! h) eqn:E; [|done]. split; cbn.
  - apply Forall_forall. intros fl Hfl.
    pose proof (proj1 (Forall_forall _ _) Hh fl Hfl) as [Hn (fid & H1 & H2 & H3)].
    pose proof (proj1 (Forall_forall _ _) Hne fl Hfl) as Hfh.
    split; [done|]. exists fid. cbn. rewrite lookup_delete_ne by congruence.
    split_and!; [done|done|]. by apply map_lookup_filter_Some_2.
  - intros h' fid. destruct (decide (h = h')) as [<-|]; [by rewrite lookup_delete_eq|].
    rewrite lookup_delete_ne by done. apply Hhd.
  - done.
  - intros fid h'. rewrite map_lookup_filter_Some. intros [Hs Hh']. cbn in Hh'.
    rewrite lookup_delete_ne by congruence. by apply Hl.
Qed.

(** Removing a name no held lock has. *)
Lemma remove_inv os held n :
  lock_inv os held -> Forall (fun fl => name fl <> n) held -> lock_inv (win_remove os n).1 held.
Proof.
  intros [Hh Hhd Hf Hl] Hne. unfold win_remove. destruct (files os !! n) eqn:E; [|done]. split; cbn; try done.
  - apply Forall_forall. intros fl Hfl.
    pose proof (proj1 (Forall_forall _ _) Hh fl Hfl) as [Hn (fid & H1 & H2 & H3)].
    pose proof (proj1 (Forall_forall _ _) Hne fl Hfl) as Hfn.
    split; [done|]. exists fid. cbn. by rewrite lookup_delete_ne by congruence.
  - intros n' fid. destruct (decide (n = n')) as [<-|]; [by rewrite lookup_delete_eq|].
    rewrite lookup_delete_ne by done. apply Hf.
Qed.

(** A held lock stays held when its name, handle and lock are untouched. *)
Lemma held_ok_mono os os' fl :
  held_ok os fl -> files os' !! name fl = files os !! name fl -> handles os' !! fd fl = handles os !! fd fl ->
  (forall fid, locks os !! fid = Some (fd fl) -> locks os' !! fid = Some (fd fl)) -> held_ok os' fl.
Proof.
  intros [Hn (fid & H1 & H2 & H3)] E1 E2 E3. split; [done|]. exists fid. rewrite E1, E2. auto.
Qed.

Lemma held_fd_fresh os held : lock_inv os held -> Forall (fun fl => fd fl <> nextH os) held.
Proof.
  intros Hi. apply Forall_forall. intros fl Hfl.
  destruct (proj1 (Forall_forall _ _) (inv_held _ _ Hi) fl Hfl) as [_ (fid & _ & H2 & _)].
  apply (inv_handles _ _ Hi) in H2. lia.
Qed.

(** [CreateFile] opens a fresh handle on the named file and leaves the
    held locks alone. *)
Lemma createFile_inv os held nm :
  lock_inv os held ->
  (win_createFile os nm).2 = Ok (nextH os) /\ lock_inv (win_createFile os nm).1 held /\
  locks (win_createFile os nm).1 = locks os /\ nextH (win_createFile os nm).1 = nextH os + 1 /\
  exists fid, files (win_createFile os nm).1 !! nm = Some fid /\ handles (win_createFile os nm).1 !! nextH os = Some fid.
Proof.
  intros Hi. pose proof (held_fd_fresh _ _ Hi) as Hfr. pose proof (lock_inv_fresh_handle _ _ Hi) as Hfh.
  destruct Hi as [Hh Hhd Hf Hl].
  unfold win_createFile. destruct (files os !! nm) as [fid|] eqn:E; cbn; split_and!; try done;
    [|eexists; by rewrite E, lookup_insert_eq| |eexists; by rewrite lookup_insert_eq, lookup_insert_eq].
  - split; cbn.
    + apply Forall_forall. intros fl Hfl. apply (held_ok_mono os); [by apply (proj1 (Forall_forall _ _) Hh)|done| |done].
      cbn; by rewrite lookup_insert_ne by (symmetry; apply (proj1 (Forall_forall _ _) Hfr fl Hfl)).
    + intros h f. rewrite lookup_insert_Some. intros [[<- <-]|[_ Hs]]; [apply Hf in E; lia|].
      apply Hhd in Hs. lia.
    + done.
    + intros f h Hs. apply Hl in Hs as Hs'. apply Hhd in Hs'. rewrite lookup_insert_ne by lia. auto.
  - split; cbn.
    + apply Forall_forall. intros fl Hfl. pose proof (proj1 (Forall_forall _ _) Hh fl Hfl) as Hok.
      apply (held_ok_mono os); [done| |cbn; by rewrite lookup_insert_ne by (symmetry; apply (proj1 (Forall_forall _ _) Hfr fl Hfl))|done].
      destruct Hok as [_ (f & Hf1 & _)]. cbn. rewrite lookup_insert_ne; [done|]. intros ->. congruence.
    + intros h f. rewrite lookup_insert_Some. intros [[<- <-]|[_ Hs]]; [lia|]. apply Hhd in Hs. lia.
    + intros n f. rewrite lookup_insert_Some. intros [[<- <-]|[_ Hs]]; [lia|]. apply Hf in Hs. lia.
    + intros f h Hs. apply Hl in Hs as Hs'. apply Hhd in Hs'. rewrite lookup_insert_ne by lia. auto.
Qed.

(** [LockFileEx] on a fresh handle to an unlocked file takes its lock. *)
Lemma lock_fresh_inv os held nm fid :
  lock_inv os held -> has_nul nm = false -> Forall (fun fl => fd fl <> nextH os - 1) held ->
  files os !! nm = Some fid -> handles os !! (nextH os - 1) = Some fid -> locks os !! fid = None ->
  lock_inv (mkWinOS (files os) (handles os) (<[fid := nextH os - 1]> (locks os)) (nextH os) (nextF os))
           (mkWindowsFileLock (nextH os - 1) nm :: held).
Proof.
  intros [Hh Hhd Hf Hl] Hn Hfr Hfn Hhn Hln. split; cbn; try done.
  - constructor.
    + split; [done|]. exists fid. cbn. by rewrite lookup_insert_eq.
    + apply Forall_forall. intros fl Hfl. pose proof (proj1 (Forall_forall _ _) Hh fl Hfl) as Hok.
      apply (held_ok_mono os); [done|done|done|]. intros f Hs. cbn. rewrite lookup_insert_ne; [done|]. congruence.
  - intros f h. rewrite lookup_insert_Some. intros [[<- <-]|[_ Hs]]; auto.
Qed.

Lemma newLockFile_inv os held nm os' r :
  lock_inv os held -> newLockFile os nm = (os', r) ->
  lock_inv os' (match r with Ok fl => fl :: held | Err _ => held end).
Proof.
  intros Hi Hn. unfold newLockFile in Hn. cbn in Hn. unfold win_utf16 in Hn.
  destruct (has_nul nm) eqn:Hnul; [by simplify_eq/=|].
  destruct (createFile_inv os held nm Hi) as (Hr & Hi1 & Hl1 & Hn1 & fid & Hf1 & Hh1).
  pose proof (held_fd_fresh _ _ Hi) as Hfr.
  destruct (win_createFile os nm) as [os1 r1]. cbn in *. subst r1.
  unfold lockFile in Hn. cbn in Hn. unfold win_lockFileEx in Hn. rewrite Hh1 in Hn.
  destruct (locks os1 !! fid) as [h'|] eqn:Hl; cbn in Hn; simplify_eq.
  - apply close_inv; [done|]. eapply Forall_impl; [exact Hfr|]. done.
  - replace (nextH os) with (nextH os1 - 1) in * by lia.
    by apply lock_fresh_inv.
Qed.

Lemma Unlock_inv os held fl os' r :
  lock_inv os held -> fl ∈ held -> Unlock os fl = (os', r) ->
  lock_inv os' (match r with Ok _ => filter (fun x => fd x <> fd fl) held | Err _ => held end).
Proof.
  intros Hi Hfl Hu. unfold Unlock in Hu. cbn in Hu.
  pose proof (proj1 (Forall_forall _ _) (inv_held _ _ Hi)) as Hall.
  assert (Hi' : lock_inv os (filter (fun x => fd x <> fd fl) held)).
  { apply (lock_inv_sub _ _ _ Hi). intros x Hx. by apply list_elem_of_filter in Hx as [_ ?]. }
  destruct (win_remove os (name fl)) as [os1 r1] eqn:Er.
  destruct r1 as [[]|e]; [|by simplify_eq; unfold win_remove in Er; repeat case_match; simplify_eq].
  assert (Hh1 : handles os1 = handles os) by (unfold win_remove in Er; case_match; by simplify_eq).
  destruct (Hall fl Hfl) as [_ (fid & _ & Hhf & _)].
  assert (Hc : (win_close os1 (fd fl)).2 = Ok tt) by (unfold win_close; by rewrite Hh1, Hhf).
  rewrite Hu in Hc. cbn in Hc. subst r. change os' with (os', Ok tt : result unit).1. rewrite <- Hu. apply close_inv.
  - change os1 with (os1, Ok tt : result unit).1. rewrite <- Er. apply remove_inv; [done|].
    apply Forall_forall. intros x Hx Hn. apply list_elem_of_filter in Hx as [Hd Hx].
    apply Hd. f_equal. by apply held_same_name with os; auto.
  - apply Forall_forall. intros x Hx. by apply list_elem_of_filter in Hx as [? _].
Qed.

Lemma lock_step_inv s s' : lock_step s s' -> lock_inv s.1 s.2 -> lock_inv s'.1 s'.2.
Proof. intros Hs Hi. destruct Hs; cbn in *; [by eapply newLockFile_inv|by eapply Unlock_inv]. Qed.

Lemma lock_steps_inv s s' : rtc lock_step s s' -> lock_inv s.1 s.2 -> lock_inv s'.1 s'.2.
Proof. induction 1; [done|]. eauto using lock_step_inv. Qed.

Lemma lock_reachable_inv st : rtc lock_step (emptyOS, []) st -> lock_inv st.1 st.2.
Proof. intros Hr. apply (lock_steps_inv _ _ Hr), lock_inv_init. Qed.

Lemma reachable_held_ok st fl : rtc lock_step (emptyOS, []) st -> fl ∈ st.2 -> held_ok st.1 fl.
Proof. intros Hr Hfl. exact (proj1 (Forall_forall _ _) (inv_held _ _ (lock_reachable_inv _ Hr)) fl Hfl). Qed.

(** ** Mutual exclusion *)

(** A lock file is held at most once.  In every state the process
    reaches from an empty file system by [newLockFile] and [Unlock]
    calls, two locks it holds on the same file name are the same lock. *)
Corollary lock_exclusive st fl1 fl2 :
  rtc lock_step (emptyOS, []) st -> fl1 ∈ st.2 -> fl2 ∈ st.2 -> name fl1 = name fl2 -> fl1 = fl2.
Proof. intros Hr H1 H2. apply held_same_name with st.1; by apply reachable_held_ok. Qed.

Lemma names_elem held n : n ∈ names held <-> exists fl, fl ∈ held /\ name fl = n.
Proof. unfold names. rewrite elem_of_list_to_set, list_elem_of_fmap. naive_solver. Qed.

(** Two held locks with one handle are the same lock. *)
Lemma held_same_fd os held fl1 fl2 :
  dir_inv os held -> held_ok os fl1 -> held_ok os fl2 -> fd fl1 = fd fl2 -> fl1 = fl2.
Proof.
  intros [_ Hinj] Hok1 Hok2 Hfd. apply (held_same_name os); [done|done|].
  destruct Hok1 as [_ (f1 & Hf1 & Hh1 & _)], Hok2 as [_ (f2 & Hf2 & Hh2 & _)].
  rewrite Hfd, Hh2 in Hh1. injection Hh1 as Heq. rewrite Heq in Hf2. exact (Hinj _ _ f1 Hf1 Hf2).
Qed.

(** [newLockFile] on the name of a held lock: the new handle is closed. *)
Lemma newLockFile_busy os held nm :
  lock_inv os held -> nm ∈ names held ->
  newLockFile os nm = ((win_close (win_createFile os nm).1 (nextH os)).1, Err errExist).
Proof.
  intros Hi Hin. apply names_elem in Hin as (fl & Hfl & <-).
  destruct (proj1 (Forall_forall _ _) (inv_held _ _ Hi) fl Hfl) as [Hn (fid & Hf & _ & Hl)].
  unfold newLockFile; cbn. unfold win_utf16. rewrite Hn. unfold win_createFile. rewrite Hf. cbn.
  unfold lockFile; cbn. unfold win_lockFileEx; cbn. by rewrite lookup_insert_eq, Hl.
Qed.

(** [newLockFile] on a free name creates its file and locks it. *)
Lemma newLockFile_free os held nm :
  lock_inv os held -> dir_inv os held -> has_nul nm = false -> nm ∉ names held ->
  newLockFile os nm =
    (mkWinOS (<[nm := nextF os]> (files os)) (<[nextH os := nextF os]> (handles os))
             (<[nextF os := nextH os]> (locks os)) (nextH os + 1) (nextF os + 1),
     Ok (mkWindowsFileLock (nextH os) nm)).
Proof.
  intros Hi [Hdir _] Hn Hout. assert (Hnone : files os !! nm = None).
  { destruct (files os !! nm) eqn:E; [|done]. by apply Hdir in E. }
  unfold newLockFile; cbn. unfold win_utf16. rewrite Hn. unfold win_createFile. rewrite Hnone. cbn.
  unfold lockFile; cbn. unfold win_lockFileEx; cbn. rewrite lookup_insert_eq.
  by rewrite (lock_inv_fresh_fid _ _ Hi).
Qed.

(** [Unlock] of a held lock removes its file and closes its handle. *)
Lemma Unlock_held os held fl :
  lock_inv os held -> fl ∈ held ->
  Unlock os fl =
    (mkWinOS (delete (name fl) (files os)) (delete (fd fl) (handles os))
             (filter (fun kv => kv.2 <> fd fl) (locks os)) (nextH os) (nextF os), Ok tt).
Proof.
  intros Hi Hfl. destruct (proj1 (Forall_forall _ _) (inv_held _ _ Hi) fl Hfl) as [_ (fid & Hf & Hh & _)].
  unfold Unlock; cbn. unfold win_remove, win_close. rewrite Hf. cbn. by rewrite Hh.
Qed.

Lemma newLockFile_dir os held nm os' r :
  lock_inv os held -> dir_inv os held -> newLockFile os nm = (os', r) ->
  dir_inv os' (match r with Ok fl => fl :: held | Err _ => held end).
Proof.
  intros Hi Hd Hn. destruct (has_nul nm) eqn:Hnul.
  { unfold newLockFile in Hn; cbn in Hn. unfold win_utf16 in Hn. rewrite Hnul in Hn. by simplify_eq. }
  destruct (decide (nm ∈ names held)) as [Hin|Hout].
  - rewrite (newLockFile_busy _ _ _ Hi Hin) in Hn. simplify_eq.
    apply names_elem in Hin as (fl & Hfl & <-).
    destruct (proj1 (Forall_forall _ _) (inv_held _ _ Hi) fl Hfl) as [_ (fid & Hf & _)].
    unfold win_close, win_createFile. rewrite Hf. cbn. by case_match.
  - rewrite (newLockFile_free _ _ _ Hi Hd Hnul Hout) in Hn. simplify_eq. destruct Hd as [Hdir Hinj].
    split; cbn.
    + intros n fid. rewrite lookup_insert_Some. unfold names. cbn. intros [[<- _]|[_ Hs]]; [set_solver|].
      apply Hdir in Hs. set_solver.
    + intros n1 n2 fid. rewrite !lookup_insert_Some.
      intros [[<- <-]|[_ H1]] [[<- Heq]|[_ H2]]; [done| | |exact (Hinj _ _ fid H1 H2)].
      * apply (inv_files _ _ Hi) in H2. lia.
      * apply (inv_files _ _ Hi) in H1. lia.
Qed.

Lemma Unlock_dir os held fl :
  lock_inv os held -> dir_inv os held -> fl ∈ held ->
  dir_inv (Unlock os fl).1 (filter (fun x => fd x <> fd fl) held).
Proof.
  intros Hi Hd Hfl. rewrite (Unlock_held _ _ _ Hi Hfl). pose proof Hd as [Hdir Hinj]. split; cbn.
  - intros n fid. rewrite lookup_delete_Some. intros [Hne Hs]. apply Hdir, names_elem in Hs as (x & Hx & <-).
    apply names_elem. exists x. split; [|done]. apply list_elem_of_filter. split; [|done].
    intros Hfd. apply Hne. f_equal. symmetry.
    apply (held_same_fd os held); [done| | |done]; by apply (proj1 (Forall_forall _ _) (inv_held _ _ Hi)).
  - intros n1 n2 fid. rewrite !lookup_delete_Some. intros [_ H1] [_ H2]. by apply (Hinj _ _ fid).
Qed.

Lemma lock_step_dir s s' : lock_step s s' -> lock_inv s.1 s.2 -> dir_inv s.1 s.2 -> dir_inv s'.1 s'.2.
Proof.
  intros Hs Hi Hd. destruct Hs as [os held nm os' r Hn|os held fl os' r Hfl Hu]; cbn in *; [by eapply newLockFile_dir|].
  pose proof (Unlock_dir _ _ _ Hi Hd Hfl) as Hd'. rewrite Hu in Hd'.
  rewrite (Unlock_held _ _ _ Hi Hfl) in Hu. by injection Hu as _ <-.
Qed.

Lemma lock_steps_invs s s' :
  rtc lock_step s s' -> lock_inv s.1 s.2 -> dir_inv s.1 s.2 -> lock_inv s'.1 s'.2 /\ dir_inv s'.1 s'.2.
Proof. induction 1; [done|]. intros Hi Hd. apply IHrtc; eauto using lock_step_inv, lock_step_dir. Qed.

Lemma lock_reachable_invs st : rtc lock_step (emptyOS, []) st -> lock_inv st.1 st.2 /\ dir_inv st.1 st.2.
Proof.
  intros Hr. apply (lock_steps_invs _ _ Hr); [apply lock_inv_init|].
  split; cbn; [intros ??; by rewrite lookup_empty|intros ???; by rewrite lookup_empty].
Qed.

(** C25: The lock file implements a lock service.  In every state
    reached from an empty file system by the process's [newLockFile]
    and [Unlock] calls, [newLockFile] on a name succeeds exactly when no
    held lock has that name, and then holds a lock on it, and fails with
    [os.ErrExist] otherwise, leaving the held names as they were; [Unlock]
    of a held lock succeeds and frees its name, and only its name. *)
Theorem lock_refines st :
  rtc lock_step (emptyOS, []) st ->
  (forall nm, has_nul nm = false ->
     let r := (newLockFile st.1 nm).2 in
     (names (match r with Ok fl => fl :: st.2 | Err _ => st.2 end), is_ok r) = spec_lock (names st.2) nm /\
     match r with Ok fl => name fl = nm | Err e => e = errExist end) /\
  (forall fl, fl ∈ st.2 ->
     (Unlock st.1 fl).2 = Ok tt /\
     names (filter (fun x => fd x <> fd fl) st.2) = spec_unlock (names st.2) (name fl)).
Proof.
  intros Hr. destruct (lock_reachable_invs _ Hr) as [Hi Hd]. destruct st as [os held]; cbn [fst snd] in *. split.
  - intros nm Hn. unfold spec_lock. destruct (decide (nm ∈ names held)) as [Hin|Hout].
    + by rewrite (newLockFile_busy _ _ _ Hi Hin).
    + by rewrite (newLockFile_free _ _ _ Hi Hd Hn Hout).
  - intros fl Hfl. rewrite (Unlock_held _ _ _ Hi Hfl). split; [done|].
    pose proof (proj1 (Forall_forall _ _) (inv_held _ _ Hi)) as Hok.
    apply set_eq. intros n. unfold spec_unlock. rewrite elem_of_difference, elem_of_singleton, !names_elem.
    split.
    + intros (x & Hx & <-). apply list_elem_of_filter in Hx as [Hfd Hx]. split; [by exists x|].
      intros Hn. apply Hfd. f_equal. by apply (held_same_name os); auto.
    + intros [(x & Hx & <-) Hne]. exists x. split; [|done]. apply list_elem_of_filter. split; [|done].
      intros Hfd. apply Hne. f_equal. by apply (held_same_fd os held); auto.
Qed.

(** ** Failures of [LockFileEx] that are not reported *)

Section AnyAPI.
Context {OS : Type} `{!WinAPI OS}.

(** C35: [lockFile] reports a failed [LockFileEx] only for
    [ERROR_FILE_EXISTS] and [ERROR_LOCK_VIOLATION]: when the call fails
    with any other error number, [newLockFile] returns a lock without
    holding it, and keeps the handle open. *)
Theorem newLockFile_lock_error_ignored os nm path os1 h os2 e :
  utf16PtrFromString nm = Ok path -> createFile os path = (os1, Ok h) ->
  lockFileEx os1 h lockfileExclusiveLock 0 1 0 = (os2, (0, e)) ->
  e <> ERROR_FILE_EXISTS -> e <> errorLockViolation ->
  newLockFile os nm = (os2, Ok (mkWindowsFileLock h nm)).
Proof.
  intros Hu Hc Hl H1 H2. unfold newLockFile. rewrite Hu, Hc. unfold lockFile. rewrite Hl.
  by rewrite (proj2 (Z.eqb_neq _ _) H1), (proj2 (Z.eqb_neq _ _) H2).
Qed.

End AnyAPI.

(** ** Witnesses *)

(** One lock taken on ["db.lock"] from an empty file system. *)
Definition ex_state : winOS * list windowsFileLock :=
  ((newLockFile emptyOS "db.lock"%string).1, [mkWindowsFileLock 1 "db.lock"]).

Lemma lock_refines_witness :
  (forall nm, has_nul nm = false ->
     let r := (newLockFile ex_state.1 nm).2 in
     (names (match r with Ok fl => fl :: ex_state.2 | Err _ => ex_state.2 end), is_ok r) =
       spec_lock (names ex_state.2) nm /\
     match r with Ok fl => name fl = nm | Err e => e = errExist end) /\
  (forall fl, fl ∈ ex_state.2 ->
     (Unlock ex_state.1 fl).2 = Ok tt /\
     names (filter (fun x => fd x <> fd fl) ex_state.2) = spec_unlock (names ex_state.2) (name fl)).
Proof.
  apply lock_refines.
  eapply rtc_l; [exact (step_lock emptyOS [] "db.lock" _ _ eq_refl)|apply rtc_refl].
Defined.

(** A system whose [LockFileEx] fails with [ERROR_NOT_ENOUGH_MEMORY]. *)
#[local] Instance lowMemAPI : WinAPI unit :=
  {| utf16PtrFromString := win_utf16; createFile := fun os _ => (os, Ok 7);
     lockFileEx := fun os _ _ _ _ _ => (os, (0, 8)); removeFile := fun os _ => (os, Ok tt);
     closeHandle := fun os _ => (os, Ok tt) |}.

Lemma newLockFile_lock_error_ignored_witness :
  newLockFile tt "db.lock"%string = (tt, Ok (mkWindowsFileLock 7 "db.lock")).
Proof. apply (newLockFile_lock_error_ignored tt _ "db.lock" tt 7 tt 8); first [reflexivity | discriminate]. Defined.

End FileLock.
