(* ===== verification/GoFmt.v ===== *)
(** * Go's string conversions, as the sample program and the WAL tests use them

    [[]byte(s)] of a string literal, and [fmt.Sprintf]'s [%2d] verb for
    a non-negative integer: its decimal digits, padded on the left with
    spaces to a width of two. *)

From stdpp Require Import strings.
From Stdlib Require Numbers.DecimalString.
From S2P Require Import Prelude.

Module GoFmt.

(** [[]byte(s)]. *)
Definition bytes (s : string) : list Z :=
  map (fun a => Z.of_nat (Ascii.nat_of_ascii a)) (String.list_ascii_of_string s).

(** [fmt.Sprintf("%2d", j)]. *)
Definition fmt_2d (j : nat) : list Z :=
  let ds := bytes (DecimalString.NilEmpty.string_of_uint (Nat.to_uint j)) in
  replicate (2 - length ds) 32 ++ ds.

End GoFmt.
