(* ===== verification/MemMap.v ===== *)
(** * The memory-mapped file of package fs (src/docs/usage/advanced.md,
      lines 313-436)

    The usage documentation carries the listing of package fs's
    [OSFile]: an [os.File] with its memory-mapped region [data] and the
    region's size [mmapSize].  [osfs.OpenFile] opens the file and maps
    it when it is not empty, [Mmap] re-maps it as it grows (a first
    mapping of at least 1 GiB, then the size doubled), [Slice] hands out
    a view of the mapping, [Close] unmaps it and closes the file, and
    [oslockfile.Unlock] removes a lock file and closes it.

    The system calls the listing makes ([os.OpenFile], [Stat], [mmap],
    [munmap], [os.Remove], [os.File.Close]) are not in it.  The process
    they act on is the record [world]: the regions mapped and the file
    handles open.  What [mmap] and [munmap] return is Section context,
    as are the results of [os.OpenFile], [Stat] and [os.Remove], which
    are arguments of the calls.  A mapping is a region and the size
    [mmap] reports; the bytes seen through it are not modelled, only
    which region a slice views and whether that region is still
    mapped: reading through a view of an unmapped region faults. *)

From stdpp Require Import gmap sets strings.
From S2P Require Import Prelude.

Module MemMap.

(** [initialMmapSize = 1024 << 20]. *)
Definition initialMmapSize : Z := Z.shiftl 1024 20.

(** A region returned by [mmap] and its length. *)
Record mapping := mkMapping { region : nat; mlen : Z }.

(** [OSFile{*os.File, data, mmapSize}]: [data] is [None] for a nil slice. *)
Record OSFile := mkOSFile { handle : nat; data : option mapping; mmapSize : Z }.

(** The process: the regions mapped, the handles open, the next fresh id. *)
Record world := mkWorld { mapped : gset nat; open_files : gset nat; next_id : nat }.

Section Sys.

(** The size [mmap(f, fileSize, size)] maps, or its error, and whether
    [munmap] of a region succeeds. *)
Context (mmap_size : Z -> Z -> result Z) (munmap_ok : nat -> bool).

Definition sys_mmap (w : world) (fileSize size : Z) : world * result mapping :=
  match mmap_size fileSize size with
  | Err e => (w, Err e)
  | Ok msz =>
    (mkWorld ({[next_id w]} ∪ mapped w) (open_files w) (S (next_id w)), Ok (mkMapping (next_id w) msz))
  end.

(** [munmap(b)]; of a nil slice it fails (EINVAL). *)
Definition sys_munmap (w : world) (d : option mapping) : world * result unit :=
  match d with
  | None => (w, Err errIO)
  | Some m =>
    if munmap_ok (region m) then (mkWorld (mapped w ∖ {[region m]}) (open_files w) (next_id w), Ok tt)
    else (w, Err errIO)
  end.

(** [os.File.Close]: [os.ErrClosed] on a closed file. *)
Definition sys_close (w : world) (h : nat) : world * result unit :=
  if decide (h ∈ open_files w) then (mkWorld (mapped w) (open_files w ∖ {[h]}) (next_id w), Ok tt)
  else (w, Err errClosed).

(** [os.OpenFile], its outcome given. *)
Definition sys_open (w : world) (r : result unit) : world * result nat :=
  match r with
  | Err e => (w, Err e)
  | Ok _ => (mkWorld (mapped w) ({[next_id w]} ∪ open_files w) (S (next_id w)), Ok (next_id w))
  end.

(** [f.Mmap(fileSize)] (lines 407-436).  [mmapSize *= 2] is [int64]
    arithmetic.  A failed [munmap] or [mmap] returns its error with [f]
    left as it was. *)
Definition Mmap (w : world) (f : OSFile) (fileSize : Z) : world * OSFile * result unit :=
  let sz := mmapSize f in
  if negb (fileSize =? 0) && (fileSize <=? sz) then (w, f, Ok tt) else
  let '(w1, sz1, r1) :=
    if sz =? 0 then (w, (if initialMmapSize <? fileSize then fileSize else initialMmapSize), Ok tt)
    else let '(w1, r) := sys_munmap w (data f) in (w1, wrap_i64 (sz * 2), r) in
  match r1 with
  | Err e => (w1, f, Err e)
  | Ok _ =>
    match sys_mmap w1 fileSize sz1 with
    | (w2, Err e) => (w2, f, Err e)
    | (w2, Ok m) => (w2, mkOSFile (handle f) (Some m) (mlen m), Ok tt)
    end
  end.

(** [f.Slice(start, end)] (lines 389-394): [os.ErrClosed] on a nil
    [data], else the view [data[start:end]], a Go panic out of bounds.
    Slicing does not touch the region: the view of an unmapped region is
    handed out. *)
Definition Slice (f : OSFile) (start end_ : Z) : result (mapping * Z * Z) :=
  match data f with
  | None => Err errClosed
  | Some m =>
    if (0 <=? start) && (start <=? end_) && (end_ <=? mlen m) then Ok (m, start, end_) else Err errPanic
  end.

(** [f.Close()] (lines 396-405): a failed [munmap] returns nil. *)
Definition Close (w : world) (f : OSFile) : world * OSFile * result unit :=
  match data f with
  | Some m =>
    match sys_munmap w (Some m) with
    | (w1, Err _) => (w1, f, Ok tt)
    | (w1, Ok _) =>
      let f' := mkOSFile (handle f) None (mmapSize f) in
      let '(w2, r) := sys_close w1 (handle f') in (w2, f', r)
    end
  | None => let '(w2, r) := sys_close w (handle f) in (w2, f, r)
  end.

(** [osfs.OpenFile(name, flag, perm)] (lines 343-359), given what
    [os.OpenFile] and [Stat] return: a non-empty file is mapped.  The
    errors of [Stat] and [Mmap] return [nil] without closing the file. *)
Definition OpenFile (w : world) (osOpen : result unit) (stat : result Z)
  : world * option OSFile * result unit :=
  match sys_open w osOpen with
  | (w1, Err e) => (w1, None, Err e)
  | (w1, Ok h) =>
    match stat with
    | Err e => (w1, None, Err e)
    | Ok size =>
      let mf := mkOSFile h None 0 in
      if 0 <? size then
        match Mmap w1 mf size with
        | (w2, _, Err e) => (w2, None, Err e)
        | (w2, mf', Ok _) => (w2, Some mf', Ok tt)
        end
      else (w1, Some mf, Ok tt)
    end
  end.

(** [oslockfile.Unlock()] (lines 378-383), given whether [os.Remove]
    of its path succeeds. *)
Definition Unlock (w : world) (h : nat) (removed : bool) : world * result unit :=
  if removed then sys_close w h else (w, Err errIO).

End Sys.

(** [f.Type()] (lines 385-387). *)
Definition Type_ : string := "MemoryMap".

(** ** What the listing does on its error paths *)

(** A failed [munmap] in [Close] is reported as success: the file stays
    open and mapped, and [data] still holds the region. *)
Lemma Close_munmap_error_ignored munmap_ok w f m :
  data f = Some m -> munmap_ok (region m) = false -> Close munmap_ok w f = (w, f, Ok tt).
Proof. intros Hd Hm. unfold Close, sys_munmap. by rewrite Hd, Hm. Qed.

(** C39: A failed re-map leaves a dangling mapping.  When the file has
    grown past the mapped size, [Mmap] first unmaps the region and then
    asks [mmap] for twice the size; if that [mmap] fails, [Mmap] returns
    its error with [f] unchanged, so [f.data] still refers to the region
    just unmapped, and [Slice] keeps handing out views of it, through
    which any read faults. *)
Theorem Mmap_failed_remap_dangling mmap_size munmap_ok w f m fileSize e :
  data f = Some m -> mmapSize f <> 0 -> mmapSize f < fileSize ->
  munmap_ok (region m) = true -> mmap_size fileSize (wrap_i64 (mmapSize f * 2)) = Err e ->
  exists w', Mmap mmap_size munmap_ok w f fileSize = (w', f, Err e) /\ (region m ∉ mapped w') /\
    (forall s t, 0 <= s <= t -> t <= mlen m -> Slice f s t = Ok (m, s, t)).
Proof.
  intros Hd Hz Hlt Hok He. unfold Mmap.
  rewrite (proj2 (Z.leb_gt _ _) Hlt), andb_false_r, (proj2 (Z.eqb_neq _ _) Hz).
  unfold sys_munmap. rewrite Hd, Hok. cbn [mapped]. unfold sys_mmap. rewrite He.
  eexists. split_and!; [reflexivity|cbn [mapped]; set_solver|].
  intros s t Hst Ht. unfold Slice. rewrite Hd.
  by rewrite (proj2 (Z.leb_le 0 s)), (proj2 (Z.leb_le s t)), (proj2 (Z.leb_le t (mlen m))) by lia.
Qed.

(** [Mmap] doubles the mapping once: from a mapping of [n] bytes, a file
    that has grown past [2n] is mapped with [2n] bytes (for an [mmap]
    that maps the size asked), so the mapping does not cover the file
    and a [Slice] up to the file's size panics. *)
Lemma Mmap_doubles_once mmap_size munmap_ok w f m fileSize :
  data f = Some m -> munmap_ok (region m) = true -> 0 < mmapSize f ->
  2 * mmapSize f < fileSize < 2 ^ 62 ->
  mmap_size fileSize (2 * mmapSize f) = Ok (2 * mmapSize f) ->
  exists w' f', Mmap mmap_size munmap_ok w f fileSize = (w', f', Ok tt) /\
    mmapSize f' = 2 * mmapSize f /\ Slice f' 0 fileSize = Err errPanic.
Proof.
  intros Hd Hok Hpos Hlt He. unfold Mmap.
  rewrite (proj2 (Z.leb_gt _ _)), andb_false_r, (proj2 (Z.eqb_neq _ _)) by lia.
  unfold sys_munmap. rewrite Hd, Hok. cbn [mapped].
  rewrite wrap_i64_small by (unfold in_int64; lia). rewrite Z.mul_comm.
  unfold sys_mmap. rewrite He. do 2 eexists. split_and!; [reflexivity|reflexivity|].
  unfold Slice. cbn [data mlen]. by rewrite (proj2 (Z.leb_gt fileSize _)), andb_false_r by lia.
Qed.

(** A 1 GiB mapping of region 1 of file 0, an [mmap] that fails and a
    [munmap] that succeeds. *)
Lemma Mmap_failed_remap_dangling_witness :
  exists w', Mmap (fun _ _ => Err errIO) (fun _ => true) (mkWorld {[1%nat]} {[0%nat]} 2)
               (mkOSFile 0 (Some (mkMapping 1 initialMmapSize)) initialMmapSize) (initialMmapSize + 1) =
             (w', mkOSFile 0 (Some (mkMapping 1 initialMmapSize)) initialMmapSize, Err errIO) /\
    (region (mkMapping 1 initialMmapSize) ∉ mapped w') /\
    (forall s t, 0 <= s <= t -> t <= mlen (mkMapping 1 initialMmapSize) ->
      Slice (mkOSFile 0 (Some (mkMapping 1 initialMmapSize)) initialMmapSize) s t =
      Ok (mkMapping 1 initialMmapSize, s, t)).
Proof.
  apply (Mmap_failed_remap_dangling (fun _ _ => Err errIO) (fun _ => true));
    [reflexivity|vm_compute; discriminate|vm_compute; reflexivity|reflexivity|reflexivity].
Defined.

End MemMap.
