(* ===== verification/PubAPI.v ===== *)
(** * The public API of unitdb, as the sample program calls it

    [src/cmd/sample/main.go] is written against the package's public
    API ([unitdb.Open], [DB.PutEntry], [DB.Get], [DB.Batch],
    [DB.NewContract], [DB.Close], [Entry.WithPayload], [NewEntry],
    [NewQuery]), which is not under src/.  This file states that API as
    an interface, the class [UnitDB], so that the sample is a client
    proved against any implementation, and gives one implementation
    modelled from the spec: [store], a message store with the topic
    grammar of the spec (dotted parts, [*] and a terminal [...], and
    the [ttl] and [last] options), its wildcard matching (section 4.H),
    contract isolation, TTL expiry, newest-first reads cut at the
    query's limit, and all-or-nothing batches.  The clock is one instant
    ([s_now]): every call of the sample happens at it. *)

From stdpp Require Import strings.
From S2P Require Import Prelude GoFmt EntryDB.

Module PubAPI.
Import GoFmt EntryDB.

(** ** The interface *)

(** [unitdb.NewEntry(topic, payload)]; [&unitdb.Entry{Topic: t}] is
    [NewEntry t []]. *)
Definition NewEntry (topic payload : list Z) : Entry :=
  mkEntry None 0 topic payload 0 false 0 0 0 0 0 [].

(** [e.WithPayload(p)] sets the payload of [e] and returns [e] itself. *)
Definition WithPayload (e : Entry) (p : list Z) : Entry :=
  mkEntry (ID e) (Contract e) (Topic e) p (ExpiresAt e) (parsed e) (topicHash e) (topicSize e)
          (seq e) (expiresAt e) (valueSize e) (cacheEntry e).

(** The options of [Open] and of a batch. *)
Inductive db_option := WithDefaultOptions | WithMutable.
Inductive batch_option := WithBatchContract (c : Z) | WithBatchEncryption.

(** The calls a batch function makes on its [*Batch]. *)
Inductive batch_op :=
| SetOptions (o : batch_option)
| BPut (topic payload : list Z)
| BPutEntry (e : Entry).

(** [unitdb.NewQuery(topic).WithLimit(n)]. *)
Record PubQuery := mkPubQuery { qTopic : list Z; qLimit : Z }.
Definition NewQuery (t : list Z) : PubQuery := mkPubQuery t 0.
Definition WithLimit (q : PubQuery) (n : Z) : PubQuery := mkPubQuery (qTopic q) n.

(** The DB handle's methods.  [PutEntry] returns the entry it was given
    as it leaves it: the caller's [*Entry] is shared and mutated.
    [NewContract] returns its value and its error separately, as Go
    does. *)
Class UnitDB (D : Type) := {
  Open : string -> list db_option -> result D;
  Close : D -> D * result unit;
  PutEntry : D -> Entry -> D * Entry * result unit;
  Get : D -> PubQuery -> D * result (list (list Z));
  Batch : D -> list batch_op -> D * result unit;
  NewContract : D -> D * Z * result unit
}.

(** ** Topics *)

Inductive part := Lit (w : list Z) | Star | Multi.

#[export] Instance part_eq_dec : EqDecision part.
Proof. solve_decision. Defined.

(** The words of [l] between the bytes [c]. *)
Fixpoint split_on (c : Z) (l : list Z) : list (list Z) :=
  match l with
  | [] => [[]]
  | b :: l' =>
    if b =? c then [] :: split_on c l'
    else match split_on c l' with w :: ws => (b :: w) :: ws | [] => [[b]] end
  end.

(** [l] cut at the first [c]: before it, and after it if there is one. *)
Fixpoint break_at (c : Z) (l : list Z) : list Z * option (list Z) :=
  match l with
  | [] => ([], None)
  | b :: l' => if b =? c then ([], Some l') else let '(x, y) := break_at c l' in (b :: x, y)
  end.

Definition word_part (w : list Z) : option part :=
  match w with [] => None | [42] => Some Star | _ => Some (Lit w) end.

(** The path: dotted parts; [...] only as the last part. *)
Definition parse_path (p : list Z) : option (list part) :=
  let n := length p in
  if bool_decide (3 <= n)%nat && bool_decide (drop (n - 3) p = [46; 46; 46]) then
    let pre := take (n - 3) p in
    if bool_decide (pre = []) then Some [Multi]
    else ps ← mapM word_part (split_on 46 pre); Some (ps ++ [Multi])
  else mapM word_part (split_on 46 p).

(** The options after [?]: [ttl=duration] and [last=duration|count]. *)
Record topts := mkTopts { o_ttl : option Z; o_last : option Z; o_count : option Z }.
Definition no_opts : topts := mkTopts None None None.

Definition is_digit (b : Z) : bool := (48 <=? b) && (b <=? 57).

Definition digits_val (l : list Z) : option Z :=
  if bool_decide (l <> []) && forallb is_digit l then Some (foldl (fun acc b => 10 * acc + (b - 48)) 0 l)
  else None.

(** A duration: digits and one of Go's units, in nanoseconds. *)
Definition unit_ns (u : list Z) : option Z :=
  if bool_decide (u = bytes "h") then Some 3600000000000
  else if bool_decide (u = bytes "m") then Some 60000000000
  else if bool_decide (u = bytes "s") then Some 1000000000
  else if bool_decide (u = bytes "ms") then Some 1000000
  else if bool_decide (u = bytes "us") then Some 1000
  else if bool_decide (u = bytes "ns") then Some 1
  else None.

Fixpoint span_digits (l : list Z) : list Z * list Z :=
  match l with
  | b :: l' => if is_digit b then let '(x, y) := span_digits l' in (b :: x, y) else ([], l)
  | [] => ([], [])
  end.

Definition parse_duration (v : list Z) : option Z :=
  let '(ds, u) := span_digits v in
  n ← digits_val ds; k ← unit_ns u; Some (n * k).

Definition parse_kv (o : topts) (kv : list Z) : option topts :=
  match break_at 61 kv with
  | (k, Some v) =>
    if bool_decide (k = bytes "ttl") then d ← parse_duration v; Some (mkTopts (Some d) (o_last o) (o_count o))
    else if bool_decide (k = bytes "last") then
      match parse_duration v with
      | Some d => Some (mkTopts (o_ttl o) (Some d) (o_count o))
      | None => n ← digits_val v; Some (mkTopts (o_ttl o) (o_last o) (Some n))
      end
    else None
  | (_, None) => None
  end.

Fixpoint parse_opts (o : topts) (kvs : list (list Z)) : option topts :=
  match kvs with [] => Some o | kv :: kvs' => o' ← parse_kv o kv; parse_opts o' kvs' end.

(** A topic string: [None] is [TopicInvalid]. *)
Definition parse_topic (t : list Z) : option (list part * topts) :=
  if bool_decide (t = []) || (65536 <? Z.of_nat (length t)) then None else
  let '(path, q) := break_at 63 t in
  ps ← parse_path path;
  o ← (match q with None => Some no_opts | Some qs => parse_opts no_opts (split_on 38 qs) end);
  Some (ps, o).

(** Section 4.H: a query literal matches the same literal or a [*]
    published at that level, a query [*] any literal, and a [...] on
    either side everything at or below its level. *)
Fixpoint parts_match (s q : list part) : bool :=
  match s, q with
  | Multi :: _, _ | _, Multi :: _ => true
  | [], [] => true
  | Lit a :: s', Lit b :: q' => bool_decide (a = b) && parts_match s' q'
  | Star :: s', Lit _ :: q' | Lit _ :: s', Star :: q' => parts_match s' q'
  | _, _ => false
  end.

(** ** A message store implementing the interface *)

(** The master contract: that of every query, and of a message put
    without a contract (a zero contract is the master's, as in
    [DB.setEntry]). *)
Definition MasterContract : Z := 1.

Definition contract_or_master (c : Z) : Z := if c =? 0 then MasterContract else c.

Record msg := mkMsg {
  m_seq : Z; m_contract : Z; m_parts : list part; m_payload : list Z;
  m_expires : Z; m_time : Z; m_encrypted : bool
}.

(** The messages, newest first; the last sequence and contract given
    out; the clock; whether the DB is closed. *)
Record store := mkStore { s_msgs : list msg; s_seq : Z; s_contract : Z; s_now : Z; s_closed : bool }.

Definition empty_store : store := mkStore [] 0 MasterContract 0 false.

(** One message of topic [t] under contract [c]; an [expiresAt] of 0
    takes the topic's TTL. *)
Definition put_msg (st : store) (c : Z) (enc : bool) (t payload : list Z) (exp : Z) : result (store * msg) :=
  if s_closed st then Err errClosed else
  if bool_decide (payload = []) then Err errValueEmpty else
  match parse_topic t with
  | None => Err errBadRequest
  | Some (ps, o) =>
    let exp' := if exp =? 0 then match o_ttl o with Some d => s_now st + d | None => 0 end else exp in
    let m := mkMsg (s_seq st + 1) c ps payload exp' (s_now st) enc in
    Ok (mkStore (m :: s_msgs st) (s_seq st + 1) (s_contract st) (s_now st) (s_closed st), m)
  end.

(** [PutEntry] leaves the entry parsed, with its contract, expiry and
    sequence set. *)
Definition store_PutEntry (st : store) (e : Entry) : store * Entry * result unit :=
  let c := contract_or_master (Contract e) in
  match put_msg st c false (Topic e) (Payload e) (ExpiresAt e) with
  | Err err => (st, e, Err err)
  | Ok (st', m) =>
    (st', mkEntry (ID e) c (Topic e) (Payload e) (m_expires m) true (topicHash e) (topicSize e)
                  (m_seq m) (m_expires m) (valueSize e) (cacheEntry e), Ok tt)
  end.

(** The calls of a batch function, under the batch's contract and
    encryption flag. *)
Fixpoint batch_run (st : store) (c : Z) (enc : bool) (ops : list batch_op) : result store :=
  match ops with
  | [] => Ok st
  | SetOptions (WithBatchContract c') :: ops' => batch_run st (contract_or_master c') enc ops'
  | SetOptions WithBatchEncryption :: ops' => batch_run st c true ops'
  | BPut t p :: ops' =>
    match put_msg st c enc t p 0 with Ok (st', _) => batch_run st' c enc ops' | Err err => Err err end
  | BPutEntry e :: ops' =>
    let c' := if Contract e =? 0 then c else Contract e in
    match put_msg st c' enc (Topic e) (Payload e) (ExpiresAt e) with
    | Ok (st', _) => batch_run st' c enc ops'
    | Err err => Err err
    end
  end.

(** A batch commits all its messages or none. *)
Definition store_Batch (st : store) (ops : list batch_op) : store * result unit :=
  match batch_run st MasterContract false ops with
  | Ok st' => (st', Ok tt)
  | Err err => (st, Err err)
  end.

(** What a query of the master contract sees: a matching topic, not
    expired, and within its [last] window. *)
Definition visible (st : store) (ps : list part) (o : topts) (m : msg) : bool :=
  (m_contract m =? MasterContract) && parts_match (m_parts m) ps &&
  ((m_expires m =? 0) || (s_now st <=? m_expires m)) &&
  match o_last o with Some d => s_now st - d <=? m_time m | None => true end.

(** [Get]: the visible payloads, newest first, at most [Limit] (and at
    most the [last] count). *)
Definition store_Get (st : store) (q : PubQuery) : store * result (list (list Z)) :=
  if s_closed st then (st, Err errClosed) else
  match parse_topic (qTopic q) with
  | None => (st, Err errBadRequest)
  | Some (ps, o) =>
    let n := match o_count o with Some k => Z.min k (qLimit q) | None => qLimit q end in
    (st, Ok (map m_payload (take (Z.to_nat n) (filter (visible st ps o) (s_msgs st)))))
  end.

Definition store_Close (st : store) : store * result unit :=
  if s_closed st then (st, Err errClosed)
  else (mkStore (s_msgs st) (s_seq st) (s_contract st) (s_now st) true, Ok tt).

(** A fresh contract, never the master's. *)
Definition store_NewContract (st : store) : store * Z * result unit :=
  (mkStore (s_msgs st) (s_seq st) (s_contract st + 1) (s_now st) (s_closed st), s_contract st + 1, Ok tt).

#[export] Instance storeDB : UnitDB store := {
  Open _ _ := Ok empty_store;
  Close := store_Close;
  PutEntry := store_PutEntry;
  Get := store_Get;
  Batch := store_Batch;
  NewContract := store_NewContract
}.

End PubAPI.
