(* ===== verification/Sample.v ===== *)
(** * The sample program (src/cmd/sample/main.go)

    [main] opens a DB, stores 50 messages through one reused [Entry],
    reads them back, writes through four batches (one to a wildcard
    topic, one to two topics, two under a fresh contract), reads after
    each, and ends with an encrypted batch.  It is written here against
    the interface [PubAPI.UnitDB], call by call; its observable
    behaviour is the lines it logs, how it exits ([log.Fatal] or a
    normal return) and whether the deferred [db.Close()] runs. *)

From stdpp Require Import strings.
From S2P Require Import Prelude GoFmt EntryDB DBInternal DBPut PubAPI.

Module Sample.
Import GoFmt EntryDB PubAPI.

(** The payload of line 24,
    [fmt.Sprintf("msg for team alpha channel1 receiver1 #%2d", j)]. *)
Definition msg_alpha (j : nat) : list Z := bytes "msg for team alpha channel1 receiver1 #" ++ fmt_2d j.

(** [log.Printf("%s ", msg)]. *)
Definition log_line (msg : list Z) : list Z := msg ++ bytes " ".

Inductive exit_status := ExitOk | Fatal (e : error).

(** What a run shows: the DB handle if [Open] gave one, the lines
    logged, how the process exits and whether [db.Close()] ran. *)
Record outcome (D : Type) := mkOutcome {
  out_db : option D; out_log : list (list Z); out_exit : exit_status; out_closed : bool
}.
Arguments mkOutcome {D}.
Arguments out_db {D}. Arguments out_log {D}. Arguments out_exit {D}. Arguments out_closed {D}.

(** [for j := 0; j < 50; j++ { db.PutEntry(entry.WithPayload(...)) }]
    over a [PutEntry] of any DB: the errors are dropped and the one
    [entry], which [PutEntry] mutates, is threaded through. *)
Fixpoint put_loop {D} (putEntry : D -> Entry -> D * Entry * result unit) (db : D) (entry : Entry) (js : list nat)
  : D * Entry :=
  match js with
  | [] => (db, entry)
  | j :: js' =>
    let '(db', entry', _) := putEntry db (WithPayload entry (msg_alpha j)) in put_loop putEntry db' entry' js'
  end.

Section Main.
Context {D : Type} `{UnitDB D}.

(** [if msgs, err := db.Get(unitdb.NewQuery(topic).WithLimit(n)); err == nil
    { for _, msg := range msgs { log.Printf("%s ", msg) } }]. *)
Definition get_print (db : D) (topic : string) (n : Z) (lg : list (list Z)) : D * list (list Z) :=
  match Get db (WithLimit (NewQuery (bytes topic)) n) with
  | (db', Ok msgs) => (db', lg ++ map log_line msgs)
  | (db', Err _) => (db', lg)
  end.

(** [if err != nil { log.Fatal(err); return }]: [log.Fatal] exits the
    process, so the deferred [db.Close()] does not run. *)
Definition check (db : D) (lg : list (list Z)) (err : result unit) (k : unit -> outcome D) : outcome D :=
  match err with Err e => mkOutcome (Some db) lg (Fatal e) false | Ok _ => k tt end.

Definition alpha_star : list Z := bytes "teams.alpha.ch1.*?ttl=1h".

(** The calls of the five batch functions (lines 34-38, 56-60, 82-89,
    92-99, 128-133); each returns [nil]. *)
Definition wildcard_batch : list batch_op :=
  [BPut alpha_star (bytes "msg for team alpha channel1 all receivers")].

Definition entries_batch : list batch_op :=
  [BPutEntry (NewEntry (bytes "teams.alpha.ch1.u2") (bytes "msg for team alpha channel1 receiver2"));
   BPutEntry (NewEntry (bytes "teams.alpha.ch1.u3") (bytes "msg for team alpha channel1 receiver3"))].

Definition contract_batch (contract : Z) : list batch_op :=
  [SetOptions (WithBatchContract contract);
   BPut alpha_star (bytes "msg for team alpha channel1 all receivers #1");
   BPut alpha_star (bytes "msg for team alpha channel1 all receivers #2");
   BPut alpha_star (bytes "msg for team alpha channel1 all receivers #3")].

Definition contract_entries_batch (contract : Z) : list batch_op :=
  [SetOptions (WithBatchContract contract);
   BPutEntry (NewEntry (bytes "teams.*.ch1") (bytes "msg for any team channel1"));
   BPutEntry (NewEntry (bytes "teams.alpha.*") (bytes "msg for team alpha all channels"));
   BPutEntry (NewEntry (bytes "teams...") (bytes "msg for all teams and all channels"));
   BPutEntry (NewEntry (bytes "...") (bytes "msg broadcast to all receivers of all teams all channels"))].

Definition encrypted_batch : list batch_op :=
  [SetOptions WithBatchEncryption;
   BPut (bytes "teams.alpha.ch1.u1?ttl=1h") (bytes "msg for team alpha channel1 receiver1")].

Definition main : outcome D :=
  match Open "example" [WithDefaultOptions; WithMutable] with
  | Err e => mkOutcome None [] (Fatal e) false
  | Ok db =>
    let topic := bytes "teams.alpha.ch1.u1" in
    let entry := NewEntry topic [] in
    let '(db, _) := put_loop PutEntry db entry (List.seq 0 50) in
    let '(db, lg) := get_print db "teams.alpha.ch1.u1?last=1h" 100 [] in
    let '(db, err) := Batch db wildcard_batch in
    check db lg err (fun _ =>
    let '(db, lg) := get_print db "teams.alpha.ch1.u2?last=1h" 10 lg in
    let '(db, lg) := get_print db "teams.alpha.ch1.u3?last=1h" 10 lg in
    let '(db, err) := Batch db entries_batch in
    check db lg err (fun _ =>
    let '(db, lg) := get_print db "teams.alpha.ch1.u2?last=1h" 10 lg in
    let '(db, lg) := get_print db "teams.alpha.ch1.u3?last=1h" 10 lg in
    let '(db, contract, _) := NewContract db in
    let '(db, _) := Batch db (contract_batch contract) in
    let '(db, err) := Batch db (contract_entries_batch contract) in
    check db lg err (fun _ =>
    let '(db, lg) := get_print db "teams.alpha.ch1?last=1h" 10 lg in
    let '(db, lg) := get_print db "teams.beta.ch1?last=1h" 10 lg in
    let '(db, lg) := get_print db "teams.beta.ch2.u1?last=1h" 10 lg in
    let '(db, err) := Batch db encrypted_batch in
    check db lg err (fun _ =>
    let '(db, _) := Close db in
    mkOutcome (Some db) lg ExitOk true))))
  end.

(** ** Exits *)

(** The deferred [db.Close()] runs exactly when [main] returns normally:
    for every implementation of the API, when [Open] or one of the
    three checked batches fails, [log.Fatal] ends the process and the
    DB is never closed. *)
Theorem main_closes_iff_exit_ok : out_closed main = true <-> out_exit main = ExitOk.
Proof.
  unfold main, check. repeat case_match; cbn [out_closed out_exit]; split; congruence.
Qed.

(** C10: The sample checks only some errors.  Only [Open] and four of
    the five batches are checked: when they succeed, [main] returns
    normally and closes the DB whatever [PutEntry], [Get],
    [NewContract], [Close] and the first batch under the new contract
    (lines 82-89) return. *)
Theorem main_completes db0 :
  Open "example" [WithDefaultOptions; WithMutable] = Ok db0 ->
  (forall d, snd (Batch d wildcard_batch) = Ok tt) -> (forall d, snd (Batch d entries_batch) = Ok tt) ->
  (forall d c, snd (Batch d (contract_entries_batch c)) = Ok tt) -> (forall d, snd (Batch d encrypted_batch) = Ok tt) ->
  out_exit main = ExitOk /\ out_closed main = true.
Proof.
  intros Ho H1 H2 H3 H4. unfold main, check. rewrite Ho.
  let contra H E := (let Hr := fresh "Hr" in pose proof H as Hr; rewrite E in Hr; discriminate) in
  repeat first
    [ match goal with
      | |- context [Batch ?d ?ops] =>
        let E := fresh "E" in
        destruct (Batch d ops) as [? []] eqn:E;
        try first [contra (H1 d) E | contra (H2 d) E | lazymatch ops with contract_entries_batch ?c => contra (H3 d c) E end | contra (H4 d) E]
      end
    | case_match ]; by split.
Qed.

End Main.

(** A DB on which every call succeeds and reads return nothing. *)
#[local] Instance nullDB : UnitDB unit := {
  Open _ _ := Ok tt;
  Close d := (d, Ok tt);
  PutEntry d e := (d, e, Ok tt);
  Get d _ := (d, Ok []);
  Batch d _ := (d, Ok tt);
  NewContract d := (d, 0, Ok tt)
}.

Lemma main_completes_witness : out_exit (main (D:=unit)) = ExitOk /\ out_closed (main (D:=unit)) = true.
Proof. apply (main_completes tt); intros; reflexivity. Defined.

(** ** The run on the message store *)

Definition all_receivers : list Z := bytes "msg for team alpha channel1 all receivers".
Definition receiver2 : list Z := bytes "msg for team alpha channel1 receiver2".
Definition receiver3 : list Z := bytes "msg for team alpha channel1 receiver3".

(** What the sample prints.  On the spec's message store, the
    sample logs the 50 messages of its loop newest first ([#49] to
    [# 0]); the wildcard message for [u2] and for [u3]; then
    [receiver2] and [receiver3], each before the wildcard message; and nothing for the three reads of lines 105-124
    ("Get message for team alpha channel1", ...): their messages were
    put under the new contract and the queries are the master
    contract's.  It returns normally and closes the DB. *)
Theorem sample_output :
  out_log (main (D:=store)) =
    map log_line (map msg_alpha (rev (List.seq 0 50)) ++
                  [all_receivers; all_receivers; receiver2; all_receivers; receiver3; all_receivers]) /\
  out_exit (main (D:=store)) = ExitOk /\ out_closed (main (D:=store)) = true.
Proof. split_and!; vm_compute; reflexivity. Qed.

(** ** The loop over [DB.setEntry] *)

Section PutLoop.
Context {T Lease : Type}.
Context (parseKey : list Z -> T) (parse : T -> Z -> bool -> T) (topicInvalid : T -> bool) (ttl : T -> option Z).
Context (MasterContract : Z) (addContract : T -> Z -> T) (getHash : T -> Z -> Z) (marshalTopic : T -> list Z)
        (trie_has : Z -> bool) (getSlot : Lease -> Z -> option Z * Lease) (idSequence : list Z -> Z)
        (newID : Z -> list Z) (setContract : list Z -> Z -> list Z) (idPrefix snappyEncode encrypt : list Z -> list Z)
        (marshalEntry : Entry -> list Z) (entrySize : nat).
Hypothesis marshal_len : forall e, length (marshalEntry e) = entrySize.
Hypothesis prefix_len : forall id, length (idPrefix id) = 8%nat.

Local Abbreviation setEntry := (DBPut.setEntry parseKey parse topicInvalid ttl MasterContract addContract getHash
  marshalTopic trie_has getSlot idSequence newID setContract idPrefix snappyEncode encrypt marshalEntry entrySize).
Local Abbreviation enc_value := (enc_value snappyEncode encrypt).
Local Abbreviation parseTopic := (DBInternal.DBInternal.parseTopic parseKey parse topicInvalid ttl).
Local Abbreviation reused := (setEntry_reused_entry MasterContract parseTopic addContract getHash marshalTopic
  trie_has getSlot idSequence newID setContract idPrefix snappyEncode encrypt marshalEntry entrySize marshal_len prefix_len).
Local Abbreviation ok_fields := (setEntry_ok_fields MasterContract parseTopic addContract getHash marshalTopic
  trie_has getSlot idSequence newID setContract idPrefix snappyEncode encrypt marshalEntry entrySize).

(** [DB.PutEntry] on the write path of the spec: [setEntry], and the
    entry's cache entry appended to the tiny batch. *)
Definition tb_PutEntry (st : EDB (Lease := Lease) * list (list Z)) (e : Entry)
  : EDB * list (list Z) * Entry * result unit :=
  match setEntry st.1 e false with
  | (db', e', Ok _) => (db', st.2 ++ [cacheEntry e'], e', Ok tt)
  | (db', e', Err err) => (db', st.2, e', Err err)
  end.

(** A cache entry whose topic region is [n] zero bytes. *)
Definition zero_topic (n c b : Z) (ce : list Z) : Prop :=
  exists hdr id v, length hdr = entrySize /\
    ce = hdr ++ idPrefix (setContract id c) ++ b :: replicate (Z.to_nat n) 0 ++ v.

Section NoLease.
(** No leased slot: every sequence comes from [db.nextSeq()]. *)
Hypothesis no_lease : forall l h, getSlot l h = (None, l).

Lemma assign_seq_next db e :
  ID e = None ->
  assign_seq getSlot idSequence newID db e =
    (mkEDB (encryption db) (wrap 64 (sequence db + 1)) (lease db), wrap 64 (sequence db + 1),
     newID (wrap 64 (sequence db + 1))).
Proof. intros Hi. unfold assign_seq. by rewrite Hi, no_lease. Qed.

(** The loop after its first round: the entry is parsed with a
    non-zero [topicSize], so every [PutEntry] appends a cache entry
    whose topic region is zeros, and the entry keeps its fields. *)
Lemma put_loop_reused js : forall db buf e,
  parsed e = true -> 0 < topicSize e -> ID e = None ->
  0 <= sequence db -> sequence db + Z.of_nat (length js) < 2 ^ 64 ->
  Forall (fun j => Z.of_nat entrySize + 9 + topicSize e + Z.of_nat (length (enc_value db (NewEntry [] (msg_alpha j)) false))
                   < 2 ^ 32) js ->
  let '(st', e') := put_loop tb_PutEntry (db, buf) e js in
  encryption st'.1 = encryption db /\ sequence st'.1 = sequence db + Z.of_nat (length js) /\
  parsed e' = true /\ ID e' = None /\ Contract e' = Contract e /\ topicSize e' = topicSize e /\
  exists new, st'.2 = buf ++ new /\ length new = length js /\
    Forall (zero_topic (topicSize e) (Contract e) (enc_bit db false)) new.
Proof.
  induction js as [|j js IH]; intros db buf e Hp Ht Hi H0 Hs Hb.
  { cbn. split_and!; try done; [lia|]. exists []. by rewrite app_nil_r. }
  cbn [put_loop length] in *. apply Forall_cons in Hb as [Hb1 Hb]. set (e1 := WithPayload e (msg_alpha j)).
  assert (Hw : wrap 64 (sequence db + 1) = sequence db + 1) by (apply wrap_small; unfold in_uint; lia).
  destruct (reused db e1 false Hp Ht Hb1
              _ _ _ (assign_seq_next db e1 Hi) ltac:(lia)) as (e' & hdr & Hset & Hh & Hts & Hce).
  unfold tb_PutEntry at 1. cbn [fst snd]. unfold DBPut.setEntry. rewrite Hset.
  destruct (ok_fields _ _ _ _ _ Hset) as (Hp' & Hi' & _ & _ & Hc' & Hts').
  change (parsed e1) with (parsed e) in Hc', Hts'. change (Contract e1) with (Contract e) in Hc'.
  change (topicSize e1) with (topicSize e) in Hts, Hts'. change (ID e1) with (ID e) in Hi'.
  rewrite Hp in Hc', Hts'. specialize (Hts' eq_refl).
  pose proof (IH (mkEDB (encryption db) (wrap 64 (sequence db + 1)) (lease db)) (buf ++ [cacheEntry e']) e') as IH'.
  destruct (put_loop _ _ _ _) as [[db2 buf2] e2].
  destruct IH' as (He & Hs' & Hp'' & Hi'' & Hc'' & Hts'' & new & Hn & Hl & Hf); cbn [encryption sequence fst snd] in *;
    [done|lia|congruence|lia|lia|by rewrite Hts'|].
  split_and!; [done|lia|done|done|congruence|congruence|].
  exists (cacheEntry e' :: new). rewrite Hn, <- app_assoc. split_and!; [done|cbn; lia|].
  constructor; [by exists hdr, (newID (wrap 64 (sequence db + 1))), (enc_value db e1 false)|].
  rewrite Hts', Hc' in Hf. exact Hf.
Qed.

(** C26: The sample's bulk loop stores stale topic sizes.  The sample
    stores its 50 messages through one [Entry] and [WithPayload], as
    its comment recommends ("topic is parsed one time on first
    request").  With [PutEntry] writing through [DB.setEntry], on a DB
    without leased slots and a topic new to the trie: the first cache
    entry carries the marshalled topic, and each of the other 49 keeps
    [topicSize] at the topic's length with a topic region of zero bytes,
    where the spec has [topicSize = 0] for every entry but the first of
    its topic. *)
Theorem sample_put_loop_zero_topics db topic :
  let t := parse (parseKey topic) MasterContract true in
  let raw := marshalTopic (addContract t MasterContract) in
  topicInvalid t = false -> trie_has (getHash (addContract t MasterContract) MasterContract) = false ->
  0 < Z.of_nat (length raw) < 2 ^ 16 -> 0 <= sequence db -> sequence db + 50 < 2 ^ 64 ->
  Forall (fun j => Z.of_nat entrySize + 9 + Z.of_nat (length raw) +
                   Z.of_nat (length (enc_value db (NewEntry [] (msg_alpha j)) false)) < 2 ^ 32) (List.seq 0 50) ->
  let '(st, e) := put_loop tb_PutEntry (db, []) (NewEntry topic []) (List.seq 0 50) in
  sequence st.1 = sequence db + 50 /\ length st.2 = 50%nat /\ topicSize e = Z.of_nat (length raw) /\
  (exists hdr id v, length hdr = entrySize /\
     st.2 !! 0%nat = Some (hdr ++ idPrefix (setContract id MasterContract) ++ enc_bit db false :: raw ++ v)) /\
  Forall (zero_topic (Z.of_nat (length raw)) MasterContract (enc_bit db false)) (drop 1 st.2).
Proof.
  intros t raw Hv Hh Hr H0 Hs Hb. apply Forall_cons in Hb as [Hb0 Hb].
  set (e0 := WithPayload (NewEntry topic []) (msg_alpha 0)).
  set (ttl0 := match ttl t with Some x => x | None => 0 end).
  assert (Hpt : parseTopic MasterContract (Topic e0) = Ok (t, ttl0))
    by (unfold DBInternal.DBInternal.parseTopic; cbn; fold t; rewrite Hv; by destruct (ttl t)).
  destruct (parse_entry_new MasterContract parseTopic addContract getHash marshalTopic trie_has e0 t ttl0
              eq_refl Hpt Hh (proj2 Hr)) as (e1 & Hpe & _ & _ & _ & Hi1 & _).
  assert (Hw : wrap 64 (sequence db + 1) = sequence db + 1) by (apply wrap_small; unfold in_uint; lia).
  assert (Hs0 : wrap 64 (sequence db + 1) <> 0) by lia.
  destruct (setEntry_new_topic MasterContract parseTopic addContract getHash marshalTopic trie_has getSlot
              idSequence newID setContract idPrefix snappyEncode encrypt marshalEntry entrySize marshal_len prefix_len
              db e0 false t ttl0 eq_refl Hpt Hh (proj2 Hr) Hb0
              (mkEDB (encryption db) (wrap 64 (sequence db + 1)) (lease db)) (wrap 64 (sequence db + 1))
              (newID (wrap 64 (sequence db + 1)))
              ltac:(rewrite Hpe; exact (assign_seq_next db e1 Hi1)) Hs0) as (e' & hdr & Hset & Hhdr & Hts & Hce).
  destruct (ok_fields _ _ _ _ _ Hset) as (Hp' & Hi' & _ & _ & Hc' & _). cbn in Hc', Hi'.
  change (topicSize e' = Z.of_nat (length raw)) in Hts.
  change (List.seq 0 50) with (0%nat :: List.seq 1 49). cbn [put_loop]. fold e0.
  unfold tb_PutEntry at 1. cbn [fst snd]. unfold DBPut.setEntry. rewrite Hset.
  pose proof (put_loop_reused (List.seq 1 49) (mkEDB (encryption db) (wrap 64 (sequence db + 1)) (lease db))
                [cacheEntry e'] e' Hp' ltac:(lia) Hi' ltac:(cbn; lia)
                ltac:(rewrite length_seq; cbn; lia) ltac:(by rewrite Hts)) as L.
  destruct (put_loop _ _ _ _) as [[db2 buf2] e2].
  destruct L as (_ & Hs2 & _ & _ & Hc2 & Hts2 & new & -> & Hl & Hf). cbn [fst snd sequence] in *.
  rewrite length_seq in Hl, Hs2. rewrite Hts, Hc' in Hf.
  split_and!; [lia|cbn; lia|congruence| |done].
  exists hdr, (newID (wrap 64 (sequence db + 1))), (enc_value db e0 false). split; [done|]. cbn. by rewrite Hce.
Qed.

End NoLease.

End PutLoop.

(** The loop on a concrete DB: the topic is its own marshalled form,
    the ID prefix and entry header those of [EntryDB]'s examples. *)
Lemma sample_put_loop_zero_topics_witness :
  let '(st, e) := put_loop (tb_PutEntry (Lease := unit) (fun k => k) (fun t _ _ => t) (fun _ => false) (fun _ => None) 1
                              (fun t _ => t) (fun _ _ => 7) (fun t => t) (fun _ => false) (fun l _ => (None, l))
                              (fun _ => 0) (fun s => [s]) (fun id _ => id) ex_prefix (fun v => v) (fun v => v)
                              ex_marshal 4)
                           (mkEDB 0 0 tt, []) (NewEntry (bytes "teams.alpha.ch1.u1") []) (List.seq 0 50) in
  sequence st.1 = 50 /\ length st.2 = 50%nat /\ topicSize e = 18 /\
  (exists hdr id v, length hdr = 4%nat /\
     st.2 !! 0%nat = Some (hdr ++ ex_prefix id ++ 0 :: bytes "teams.alpha.ch1.u1" ++ v)) /\
  Forall (zero_topic (fun id _ => id) ex_prefix 4 18 1 0) (drop 1 st.2).
Proof.
  apply (sample_put_loop_zero_topics (Lease := unit) (fun k => k) (fun t _ _ => t) (fun _ => false) (fun _ => None) 1
           (fun t _ => t) (fun _ _ => 7) (fun t => t) (fun _ => false) (fun l _ => (None, l))
           (fun _ => 0) (fun s => [s]) (fun id _ => id) ex_prefix (fun v => v) (fun v => v)
           ex_marshal 4 ex_marshal_len ex_prefix_len (fun _ _ => eq_refl) (mkEDB 0 0 tt) (bytes "teams.alpha.ch1.u1"));
    [reflexivity|reflexivity|vm_compute; split; reflexivity|cbn; lia|cbn; lia|].
  repeat constructor.
Defined.

End Sample.
