(* ===== verification/WalTests.v ===== *)
(** * The WAL's tests (src/wal/reader.go, lines 186-333)

    [TestEmptyLog], [TestRecovery], [TestLogApplied] and [TestSimple]
    drive the WAL through its life: [New] on a fresh or an existing
    log file, a [Writer] that [Append]s records and [SignalInitWrite]s
    them as one group, [Close], a reopen that must report recovery, a
    [Reader] whose [Read] callback drains each group with [Next], and
    [SignalLogApplied].  Only [Read], [Next] and the segmented file are
    under src/; the rest of the WAL ([New], [Close], the writer,
    [SignalLogApplied], the log statuses) is modelled here from the
    spec, composed of the development's models of the code:
    - the file is a [Segments._File] with its bytes; a group is
      allocated with [_File.allocate], its body written, then its
      28-byte [_LogInfo] header with status WRITTEN (spec 4.B);
    - [Close] writes the 47-byte file header with the segments;
    - [New] on an existing file reads that header and recovers the
      logs by stepping over the free segments with [recoveryOffset]
      and reading one header after another (spec 4.A); it reports
      recovery when a WRITTEN log is found;
    - [Reader.Read] is [WalRead.Read], run with the fuel that
      [WalRead.Read_terminates] shows is always enough, and the
      callback's loop over [Next] is [WalFrames.next_n].
    The disk is the log file's bytes, if the file exists.

    The tests pass on the model ([wal_tests_pass],
    [TestLogApplied_reads_back], by evaluation).  Section [OneGroup]
    proves the life cycle they exercise for any records:
    [wal_write_reopen_read] follows a group from the writer through
    [SignalInitWrite], [Close], the recovery of [New] and [Read] back to
    the callback, over the lemmas of each step ([fresh_SignalInitWrite],
    [Close_header_in_place], [reopen_one_group], [read_one_group]). *)

From stdpp Require Import strings.
From S2P Require Import Prelude GoFmt Segments LogCodec WalFrames WalRead.

Module WalTests.
Import GoFmt LogCodec WalFrames WalRead.

(** ** The WAL, modelled from the spec *)

(** The log statuses and the log version are not under src/. *)
Definition logStatusWritten : Z := 2.
Definition logStatusApplied : Z := 3.
Definition logStatusReleased : Z := 4.
Definition logVersion : Z := 1.
Definition walVersion : Z := 1.

Record Options := mkOptions { Path : string; TargetSize : Z; BufferSize : Z; Reset : bool }.

(** The open WAL: its file, the file's bytes, the logs recovered at
    [New], the logs written since, its options and whether it is
    closed. *)
Record WAL := mkWAL {
  wfile : Segments._File; wbytes : list Z; recovered : list _LogInfo; written : list _LogInfo;
  wopts : Options; wclosed : bool
}.

Definition disk : Type := option (list Z).

Definition file_header (sg : Segments._Segments) : list Z :=
  Header_MarshalBinary (mkHeader signature walVersion sg).

(** Recovery: from [off], step over the free segments and read a log
    header; a header of size 0 or past the end of the file ends the
    logs. *)
Fixpoint scan_logs (fuel : nat) (sg : Segments._Segments) (bs : list Z) (off : Z) : list _LogInfo :=
  match fuel with
  | O => []
  | S fu =>
    let off := Segments.recoveryOffset sg off in
    match readUnmarshalableAt LogInfo_UnmarshalBinary bs (Z.of_nat logHeaderSize) off with
    | Err _ => []
    | Ok l => if size l =? 0 then [] else l :: scan_logs fu sg bs (off + size l)
    end
  end.

(** [wal.New(opts)]: a missing file is created with an empty header; an
    existing one is recovered.  The boolean is [needRecovery]. *)
Definition New (d : disk) (o : Options) : WAL * bool * result unit :=
  match d with
  | None =>
    let sg := Segments.newSegments in
    (mkWAL (Segments.mkFile sg Segments.headerSize (TargetSize o)) (file_header sg) [] [] o false, false, Ok tt)
  | Some bs =>
    match Header_UnmarshalBinary bs with
    | Err e => (mkWAL (Segments.openFile (Ok tt) (Ok (Z.of_nat (length bs))) (TargetSize o)).1 bs [] [] o true, false, Err e)
    | Ok h =>
      let sg := h_segments h in
      let rl := scan_logs (length bs) sg bs Segments.headerSize in
      (mkWAL (Segments.mkFile sg (Z.of_nat (length bs)) (TargetSize o)) bs rl [] o false,
       existsb (fun l => status l =? logStatusWritten) rl, Ok tt)
    end
  end.

(** [wal.Close()]: the file header with the segments is written and the
    file is left on the disk. *)
Definition Close (w : WAL) : WAL * disk * result unit :=
  if wclosed w then (w, Some (wbytes w), Err errClosed) else
  match writeAt (wbytes w) (file_header (Segments.segments (wfile w))) 0 with
  | Err e => (w, Some (wbytes w), Err e)
  | Ok bs => (mkWAL (wfile w) bs (recovered w) (written w) (wopts w) true, Some bs, Ok tt)
  end.

(** A [Writer]: the records appended and their count. *)
Record Writer := mkWriter { wbuf : list Z; wcount : Z }.

Definition NewWriter (w : WAL) : Writer * result unit :=
  if wclosed w then (mkWriter [] 0, Err errClosed) else (mkWriter [] 0, Ok tt).

(** [Append(p)]: the record is framed into the writer's buffer. *)
Definition Append (wr : Writer) (p : list Z) : Writer * result unit :=
  (mkWriter (wbuf wr ++ append_frame p) (wcount wr + 1), Ok tt).

(** The header of the group the writer holds, WRITTEN at [off]. *)
Definition group_info (wr : Writer) (timeID off : Z) : _LogInfo :=
  mkLogInfo logVersion logStatusWritten timeID (wcount wr)
            (Z.of_nat logHeaderSize + Z.of_nat (length (wbuf wr))) off.

(** [SignalInitWrite(timeID)]: a region for the header and the body is
    allocated from the file, the body written, then the header with
    status WRITTEN. *)
Definition SignalInitWrite (w : WAL) (wr : Writer) (timeID : Z) : WAL * result unit :=
  if wclosed w then (w, Err errClosed) else
  let sz := Z.of_nat logHeaderSize + Z.of_nat (length (wbuf wr)) in
  match Segments.File_allocate Segments.tok_all (wfile w) sz with
  | Err e => (w, Err e)
  | Ok (off, f') =>
    let info := group_info wr timeID off in
    match (b <-- writeAt (wbytes w) (wbuf wr) (off + Z.of_nat logHeaderSize) ;;
           writeAt b (LogInfo_MarshalBinary info) off) with
    | Err e => (w, Err e)
    | Ok bs => (mkWAL f' bs (recovered w) (written w ++ [info]) (wopts w) false, Ok tt)
    end
  end.

Definition set_applied (t : Z) (l : _LogInfo) : _LogInfo :=
  if LogCodec.timeID l =? t then set_status l logStatusApplied else l.

(** [SignalLogApplied(timeID)]: the group of [timeID] is marked APPLIED
    and its header rewritten. *)
Definition SignalLogApplied (w : WAL) (t : Z) : WAL * result unit :=
  if wclosed w then (w, Err errClosed) else
  match List.find (fun l => LogCodec.timeID l =? t) (written w) with
  | None => (w, Ok tt)
  | Some l =>
    let l' := set_status l logStatusApplied in
    match writeAt (wbytes w) (LogInfo_MarshalBinary l') (offset l) with
    | Err e => (w, Err e)
    | Ok bs => (mkWAL (wfile w) bs (recovered w) (map (set_applied t) (written w)) (wopts w) false, Ok tt)
    end
  end.

(** [wal.NewReader()] (reader.go, lines 42-52): [wal.ok()] fails on a
    closed WAL. *)
Definition NewReader (w : WAL) : result unit := if wclosed w then Err errClosed else Ok tt.

(** [r.Read(f)] on the WAL: [WalRead.Read] over the WAL's logs and
    file, [WAL.writeHeader] writing the file header. *)
Definition wal_state (w : WAL) : WalState :=
  mkWal (recovered w) (wbytes w) (Segments.file_size (wfile w)) (Segments.segments (wfile w))
        (BufferSize (wopts w)).

Definition Reader_Read {St} (w : WAL) (f : St -> Z -> Reader -> St * (bool * result unit)) (c : St)
  : WAL * St * result unit :=
  match Read logStatusWritten logStatusReleased f
             (fun bs => writeAt bs (file_header (Segments.segments (wfile w))) 0)
             (2 * length (recovered w) + 2) (wal_state w) c with
  | None => (w, c, Err errPanic)
  | Some (c', ws, r) => (mkWAL (wfile w) (logFile ws) (recoveredLogs ws) (written w) (wopts w) (wclosed w), c', r)
  end.

(** ** The tests *)

(** A test passes, or stops at [t.Fatal(err)] ([None] is a [nil] error). *)
Inductive test_result := Pass | Fail (e : option error).

Definition fatal (r : result unit) : test_result :=
  match r with Err e => Fail (Some e) | Ok _ => Fail None end.

(** [newTestWal(del)] (lines 188-198): [os.RemoveAll] removes the log
    file when [del]; the directory is always made. *)
Definition testOpts : Options := mkOptions "test/test.log" 256 256 false.

Definition newTestWal (del : bool) (d : disk) : WAL * bool * result unit :=
  New (if del then None else d) testOpts.

(** [fmt.Sprintf("msg.%2d", i)]. *)
Definition test_val (i : nat) : list Z := bytes "msg." ++ fmt_2d i.

(** [for i = 0; i < n; i++ { if err := <-logWriter.Append(val); err != nil { t.Fatal(err) } }]. *)
Fixpoint append_all (wr : Writer) (ix : list nat) : Writer * result unit :=
  match ix with
  | [] => (wr, Ok tt)
  | i :: ix' => match Append wr (test_val i) with (wr', Ok _) => append_all wr' ix' | (wr', Err e) => (wr', Err e) end
  end.

Definition n : nat := 1000.

(** The writing part the tests share (lines 222-236, 257-271, 313-327):
    a writer, [n] appends and [SignalInitWrite(n)]. *)
Definition write_n (w : WAL) : WAL * result unit :=
  match NewWriter w with
  | (_, Err e) => (w, Err e)
  | (wr, Ok _) =>
    match append_all wr (seq 0 n) with
    | (_, Err e) => (w, Err e)
    | (wr, Ok _) => SignalInitWrite w wr (Z.of_nat n)
    end
  end.

(** [TestEmptyLog] (lines 200-206). *)
Definition TestEmptyLog (d0 : disk) : test_result :=
  let '(_, needRecover, err) := newTestWal true d0 in
  match err with Err e => Fail (Some e) | Ok _ => if needRecover then Fail None else Pass end.

(** The part [TestRecovery] (lines 222-245) and [TestLogApplied] (lines
    257-279) share, from the WAL [newTestWal(true)] opened: write [n]
    records, close, reopen; the reopened WAL must need recovery. *)
Definition write_close_reopen (w : WAL) : WAL * test_result :=
  match write_n w with
  | (w, Err e) => (w, Fail (Some e))
  | (w, Ok _) =>
    match Close w with
    | (w, _, Err e) => (w, Fail (Some e))
    | (_, d, Ok _) =>
      let '(w2, needRecovery, err) := newTestWal false d in
      if negb needRecovery then (w2, fatal err)
      else match err with Err e => (w2, Fail (Some e)) | Ok _ => (w2, Pass) end
    end
  end.

(** [TestRecovery] (lines 208-246). *)
Definition TestRecovery (d0 : disk) : test_result :=
  let '(w, needRecovery, err) := newTestWal true d0 in
  match err with
  | Err e => Fail (Some e)
  | Ok _ => if needRecovery then Fail None else (write_close_reopen w).2
  end.

(** The callback of [TestLogApplied]: [Next] until it reports the end
    or an error, then [(false, nil)].  The records it reads are kept, to
    state what it saw. *)
Definition drain (seen : list (list Z)) (_ : Z) (r : Reader) : list (list Z) * (bool * result unit) :=
  match next_n (S (Z.to_nat (Count r))) r with
  | (_, Ok recs) => (seen ++ recs, (false, Ok tt))
  | (_, Err _) => (seen, (false, Ok tt))
  end.

(** [TestLogApplied] (lines 248-301). *)
Definition TestLogApplied (d0 : disk) : test_result * list (list Z) :=
  let '(w, _, err) := newTestWal true d0 in
  match err with Err e => (Fail (Some e), []) | Ok _ =>
  match write_close_reopen w with
  | (_, Fail e) => (Fail e, [])
  | (w, Pass) =>
    match NewReader w with
    | Err e => (Fail (Some e), [])
    | Ok _ =>
      match Reader_Read w drain [] with
      | (_, seen, Err e) => (Fail (Some e), seen)
      | (w, seen, Ok _) =>
        match Close w with (_, _, Err e) => (Fail (Some e), seen) | _ => (Pass, seen) end
      end
    end
  end
  end.

(** [TestSimple] (lines 303-333). *)
Definition TestSimple (d0 : disk) : test_result :=
  let '(w, _, err) := newTestWal true d0 in
  match err with
  | Err e => Fail (Some e)
  | Ok _ =>
    match write_n w with
    | (_, Err e) => Fail (Some e)
    | (w, Ok _) => match SignalLogApplied w (Z.of_nat n) with (_, Err e) => Fail (Some e) | _ => Pass end
    end
  end.

(** ** The tests pass *)

(** [TestEmptyLog], [TestRecovery] and [TestSimple] pass on the model,
    whatever the disk holds before: a fresh log needs no recovery, a
    log with a WRITTEN group of 1000 records needs recovery after a
    reopen, and the group can be signalled applied. *)
Theorem wal_tests_pass d0 : TestEmptyLog d0 = Pass /\ TestRecovery d0 = Pass /\ TestSimple d0 = Pass.
Proof. split_and!; vm_compute; reflexivity. Qed.

(** The WAL gives back what was written.  [TestLogApplied] passes,
    and its [Read] callback, draining each recovered group with [Next],
    reads exactly the 1000 records [msg. 0] ... [msg.999] in the order
    they were appended: through the writer's framing, [_File.allocate],
    the group and file headers, the recovery after the reopen (whose
    first window, 256 bytes, is smaller than the group), [Reader.Read]
    and [Next]. *)
Theorem TestLogApplied_reads_back d0 : TestLogApplied d0 = (Pass, map test_val (seq 0 n)).
Proof. vm_compute. reflexivity. Qed.

(** ** Write, close, reopen and read, for any records *)

Lemma writeAt_past file bs off :
  Z.of_nat (length file) <= off ->
  writeAt file bs off = Ok (file ++ replicate (Z.to_nat off - length file) 0 ++ bs).
Proof.
  intros H. unfold writeAt. rewrite (proj2 (Z.leb_le _ _)) by lia.
  rewrite take_ge, (drop_ge file) by lia. by rewrite app_nil_r.
Qed.

Lemma readAt_mid P X R off m :
  off = Z.of_nat (length P) -> m = Z.of_nat (length X) -> readAt (P ++ X ++ R) off m = Ok X.
Proof.
  intros -> ->. rewrite readAt_ok by (rewrite ?length_app; lia).
  by rewrite !Nat2Z.id, drop_app_length, take_app_length.
Qed.

Lemma readAt_suffix P X off m :
  off = Z.of_nat (length P) -> m = Z.of_nat (length X) -> readAt (P ++ X) off m = Ok X.
Proof. intros Ho Hm. rewrite <- (app_nil_r X) at 1. exact (readAt_mid P X [] off m Ho Hm). Qed.

Lemma buf_slice_after h body i j :
  i = Z.of_nat (length h) -> j = Z.of_nat (length h + length body) -> buf_slice (h ++ body) i j = Ok body.
Proof.
  intros -> ->. unfold buf_slice. rewrite length_app.
  rewrite (proj2 (Z.leb_le _ _)), (proj2 (Z.leb_le _ _)), (proj2 (Z.leb_le _ _)) by lia. cbn [andb].
  rewrite Nat2Z.id, drop_app_length. f_equal. rewrite take_ge; [done|lia].
Qed.

Lemma readUnmarshalableAt_mid {A} (dec : list Z -> result A) P X R off m :
  off = Z.of_nat (length P) -> m = Z.of_nat (length X) -> m < 2 ^ 32 ->
  readUnmarshalableAt dec (P ++ X ++ R) m off = dec X.
Proof.
  intros Ho Hm Hl. unfold readUnmarshalableAt.
  rewrite wrap_small by (unfold in_uint; lia). by rewrite (readAt_mid P X R off m Ho Hm).
Qed.

Lemma recoveryOffset_new_past off :
  Segments.headerSize < off -> Segments.recoveryOffset Segments.newSegments off = off.
Proof.
  intros H. unfold Segments.recoveryOffset.
  cbn [Segments.newSegments Segments.sg0 Segments.sg1 Segments.sg2 Segments.offset Segments.size].
  repeat case_match; rewrite ?Z.eqb_eq in *; unfold Segments.headerSize in *; lia.
Qed.

Lemma file_header_length sg : Z.of_nat (length (file_header sg)) = Segments.headerSize.
Proof. unfold file_header, Header_MarshalBinary. by rewrite !length_app, !length_le_put. Qed.

Lemma readAt_past file off m :
  0 <= off -> 0 <= m -> Z.of_nat (length file) < off + m -> readAt file off m = Err errIO.
Proof.
  intros H1 H2 H3. unfold readAt.
  by rewrite (proj2 (Z.leb_le _ _) H1), (proj2 (Z.leb_le _ _) H2), (proj2 (Z.leb_gt _ _) H3).
Qed.

(** The file header decodes from the head of the file, whatever follows. *)
Lemma Header_decode_prefix h rest :
  wf_header h -> Header_UnmarshalBinary (Header_MarshalBinary h ++ rest) = Ok h.
Proof.
  intros (Hl & Hb & Hv & [Hs0 Ho0] & [Hs1 Ho1] & [Hs2 Ho2]).
  unfold Header_UnmarshalBinary, Header_MarshalBinary.
  rewrite take_ge by lia. rewrite <- !app_assoc.
  rewrite slice_head by exact Hl. cbn [bind_result].
  decode_fields.
  rewrite !to_signed_wrap64 by assumption.
  destruct h as [sig v [[o0 s0] [o1 s1] [o2 s2]]]; reflexivity.
Qed.

(** [SignalInitWrite] on a fresh WAL: the group goes right after the
    47-byte file header, its log header first, then its body. *)
Lemma fresh_SignalInitWrite o wr t :
  Z.of_nat logHeaderSize + Z.of_nat (length (wbuf wr)) < 2 ^ 32 ->
  SignalInitWrite (New None o).1.1 wr t =
  (mkWAL (Segments.mkFile Segments.newSegments
            (Segments.headerSize + size (group_info wr t Segments.headerSize)) (TargetSize o))
         (file_header Segments.newSegments ++
          LogInfo_MarshalBinary (group_info wr t Segments.headerSize) ++ wbuf wr)
         [] [group_info wr t Segments.headerSize] o false, Ok tt).
Proof.
  intros Hsz. unfold SignalInitWrite, New. cbn [wclosed wfile wbytes recovered written wopts fst].
  unfold Segments.File_allocate. cbn [Segments.file_size Segments.segments Segments.targetSize].
  change (Z.of_nat logHeaderSize) with 28 in *.
  rewrite (proj2 (Z.eqb_neq _ _)) by lia.
  replace (Segments.currSize Segments.newSegments <? _) with true by (symmetry; apply Z.ltb_lt; cbn; lia).
  rewrite orb_true_r. cbn [Segments.tok_all].
  assert (Hh : length (file_header Segments.newSegments) = 47%nat) by reflexivity.
  rewrite writeAt_past by (rewrite Hh; unfold Segments.headerSize; lia). cbn [bind_result]. rewrite Hh.
  pose proof (writeAt_hdr (file_header Segments.newSegments)
                (replicate (Z.to_nat (Segments.headerSize + 28) - 47) 0)
                (LogInfo_MarshalBinary (group_info wr t Segments.headerSize)) (wbuf wr)) as E.
  rewrite Hh, length_replicate, length_LogInfo_MarshalBinary in E. specialize (E eq_refl).
  change (Z.of_nat 47) with Segments.headerSize in E. rewrite E.
  rewrite wrap_i64_small by (unfold in_int64, Segments.headerSize; lia). reflexivity.
Qed.

(** The file header written over itself. *)
Lemma file_header_in_place sg rest :
  writeAt (file_header sg ++ rest) (file_header sg) 0 = Ok (file_header sg ++ rest).
Proof.
  pose proof (writeAt_hdr [] (file_header sg) (file_header sg) rest eq_refl) as E.
  cbn [app length] in E. change (Z.of_nat 0) with 0 in E. exact E.
Qed.

(** [Close] rewrites the file header that is already there. *)
Lemma Close_header_in_place (w : WAL) rest :
  wclosed w = false -> wbytes w = file_header (Segments.segments (wfile w)) ++ rest ->
  Close w = (mkWAL (wfile w) (wbytes w) (recovered w) (written w) (wopts w) true, Some (wbytes w), Ok tt).
Proof. intros Hc Hb. unfold Close. by rewrite Hc, Hb, file_header_in_place. Qed.

Lemma wf_file_header_new : wf_header (mkHeader signature walVersion Segments.newSegments).
Proof.
  unfold wf_header, wf_segment_fields, in_uint, in_int64, walVersion; cbn.
  unfold Segments.headerSize. split_and!; try lia. unfold Prelude.bytes, signature. repeat constructor; unfold is_byte; lia.
Qed.



Lemma length_group_ge ps : (4 * length ps <= length (WalFrames.group ps))%nat.
Proof.
  induction ps as [|p ps IH]; [done|].
  rewrite length_group_cons. cbn [length]. lia.
Qed.

(** The callback of [TestLogApplied] on a group of records reads them all. *)
Lemma drain_group c t' qs :
  Z.of_nat (length (WalFrames.group qs)) < 2 ^ 32 ->
  drain c t' (mkReader (WalFrames.group qs) 0 (Z.of_nat (length qs))) = (c ++ qs, (false, Ok tt)).
Proof.
  intros H. unfold drain. cbn [Count entryCount]. rewrite Nat2Z.id.
  pose proof (next_n_group [] qs []) as E. rewrite !app_nil_r in E. cbn [app length] in E.
  change (Z.of_nat 0) with 0 in E.
  by rewrite E.
Qed.

(** The writer's [Append] loop frames every record into its buffer. *)
Lemma appends_group qs b k :
  fold_left (fun wr p => (Append wr p).1) qs (mkWriter b k) =
  mkWriter (b ++ WalFrames.group qs) (k + Z.of_nat (length qs)).
Proof.
  revert b k. induction qs as [|q qs IH]; intros b k; cbn [fold_left length].
  - by rewrite app_nil_r, Z.add_0_r.
  - cbn [Append fst wbuf wcount]. rewrite IH, <- app_assoc. f_equal. lia.
Qed.

Section OneGroup.
(** A fresh WAL, a writer holding the framed records [ps] and the time
    ID [t] the group is signalled with. *)
Context (o : Options) (ps : list (list Z)) (t : Z).
Hypothesis Hps : ps <> [].
Hypothesis Hbuf : 0 <= BufferSize o.
Hypothesis Ht : in_int64 t.
Hypothesis Hsz : Z.of_nat logHeaderSize + Z.of_nat (length (WalFrames.group ps)) < 2 ^ 32.

Local Abbreviation wr := (mkWriter (WalFrames.group ps) (Z.of_nat (length ps))).
Local Abbreviation info := (group_info wr t Segments.headerSize).
Local Abbreviation log := (file_header Segments.newSegments ++ LogInfo_MarshalBinary info ++ WalFrames.group ps).

(** Arithmetic on the group's size and offset. *)
Local Ltac size_lia :=
  unfold group_info in *; cbn [size wbuf wcount] in *;
  rewrite ?Nat2Z.inj_add in *; change (Z.of_nat logHeaderSize) with 28 in *;
  unfold Segments.headerSize, in_int64, in_uint in *; lia.

Lemma info_wf : wf_loginfo info.
Proof.
  pose proof (length_group_ge ps).
  unfold wf_loginfo, group_info, in_uint, in_int64, logVersion, logStatusWritten,
    Segments.headerSize in *.
  cbn -[Z.pow]. change (Z.of_nat logHeaderSize) with 28 in *. lia.
Qed.

Lemma scan_one_group fu : scan_logs (S (S fu)) Segments.newSegments log Segments.headerSize = [info].
Proof.
  cbn [scan_logs].
  replace (Segments.recoveryOffset Segments.newSegments Segments.headerSize)
    with Segments.headerSize by reflexivity.
  rewrite (readUnmarshalableAt_mid _ _ _ _ _ _ (eq_sym (file_header_length _)))
    by (rewrite ?length_LogInfo_MarshalBinary; done).
  rewrite LogInfo_decode_marshal by exact info_wf.
  assert (Hl : Z.of_nat (length log) = Segments.headerSize + size info).
  { rewrite !length_app, length_LogInfo_MarshalBinary, Nat2Z.inj_add, file_header_length.
    size_lia. }
  rewrite (proj2 (Z.eqb_neq _ _)) by size_lia.
  rewrite recoveryOffset_new_past by size_lia.
  unfold readUnmarshalableAt. rewrite readAt_past by (rewrite ?Hl, ?wrap_small; unfold in_uint; size_lia).
  reflexivity.
Qed.

(** Reopening the closed file reads its header and recovers the one
    WRITTEN group: [New] reports that recovery is needed. *)
Lemma reopen_one_group :
  New (Some log) o =
  (mkWAL (Segments.mkFile Segments.newSegments (Z.of_nat (length log)) (TargetSize o)) log [info] [] o false,
   true, Ok tt).
Proof.
  unfold New.
  pose proof (Header_decode_prefix _ (LogInfo_MarshalBinary info ++ WalFrames.group ps)
                wf_file_header_new) as Hh.
  fold (file_header Segments.newSegments) in Hh. rewrite Hh. cbn [h_segments].
  assert (Hs : scan_logs (length log) Segments.newSegments log Segments.headerSize = [info]).
  { destruct (length log) as [|[|fu]] eqn:E; [..|apply scan_one_group];
      rewrite !length_app, length_LogInfo_MarshalBinary in E; unfold logHeaderSize in E; lia. }
  by rewrite Hs.
Qed.

Local Abbreviation w2 :=
  (mkWAL (Segments.mkFile Segments.newSegments (Z.of_nat (length log)) (TargetSize o)) log [info] [] o false).
Local Abbreviation log' :=
  (file_header Segments.newSegments ++ LogInfo_MarshalBinary (set_status info logStatusReleased) ++
   WalFrames.group ps).

Lemma log_length : Z.of_nat (length log) = Segments.headerSize + size info.
Proof. rewrite !length_app, length_LogInfo_MarshalBinary, Nat2Z.inj_add, file_header_length. size_lia. Qed.

Lemma info_not_empty : (LogCodec.entryCount info =? 0) = false.
Proof. apply Z.eqb_neq. cbn. destruct ps; [done|cbn [length]; lia]. Qed.

(** The iteration of [Read]'s outer loop whose window runs from the
    group to the end of the file: the callback reads every record, the
    group's header is rewritten RELEASED. *)
Lemma outer_whole_group fu c :
  outer logStatusWritten logStatusReleased drain (S fu) (wal_state w2)
    (mkScan 0 Segments.headerSize (size info) [info] log c) =
  Some (mkScan 1 Segments.headerSize (size info) [set_status info logStatusReleased] log' (c ++ ps), Ok tt).
Proof.
  rewrite outer_S. cbn [win fileOff file idx logs cb].
  rewrite (proj2 (Z.ltb_ge _ _)) by size_lia.
  rewrite (readAt_suffix _ _ _ _ (eq_sym (file_header_length _)))
    by (rewrite length_app, length_LogInfo_MarshalBinary; size_lia).
  cbn [drop inner].
  rewrite info_not_empty. change (status info) with logStatusWritten. rewrite Z.eqb_refl. cbn [orb negb].
  cbn [idx fileOff win logs file cb].
  rewrite Z.ltb_irrefl, Z.sub_0_r, wrap_i64_small, Z.ltb_irrefl by size_lia.
  rewrite (buf_slice_after (LogInfo_MarshalBinary info))
    by (rewrite length_LogInfo_MarshalBinary, wrap_i64_small; size_lia).
  change (LogCodec.entryCount info) with (Z.of_nat (length ps)).
  rewrite drain_group by size_lia. cbv iota beta.
  change (offset (set_status info logStatusReleased)) with Segments.headerSize.
  pose proof (writeAt_hdr (file_header Segments.newSegments) (LogInfo_MarshalBinary info)
                (LogInfo_MarshalBinary (set_status info logStatusReleased)) (WalFrames.group ps)) as E.
  rewrite file_header_length, !length_LogInfo_MarshalBinary in E. rewrite (E eq_refl).
  reflexivity.
Qed.

Lemma read_one_group : Reader_Read w2 drain [] = (mkWAL (wfile w2) log' [] [] o false, ps, Ok tt).
Proof.
  unfold Reader_Read. cbn [recovered length]. change (2 * 1 + 2)%nat with 4%nat.
  unfold Read. cbn [wal_state recoveredLogs logFile fileSize segs bufferSize wfile wbytes wopts
                    recovered Segments.segments Segments.file_size length].
  replace (remove_released logStatusReleased 1 0 [info]) with [info] by reflexivity.
  change (offset info) with Segments.headerSize.
  assert (Hw : wrap_i64 (Z.of_nat (length log) - Segments.headerSize) = size info)
    by (rewrite log_length, wrap_i64_small; size_lia).
  rewrite Hw.
  destruct (Z.ltb_spec (BufferSize o) (size info)).
  - rewrite outer_S. cbn [win fileOff file idx logs cb].
    rewrite (proj2 (Z.ltb_ge _ _)), readAt_ok by (rewrite ?log_length; size_lia).
    cbn [drop inner]. rewrite info_not_empty. change (status info) with logStatusWritten.
    rewrite Z.eqb_refl. cbn [orb negb idx fileOff win logs file cb].
    rewrite (proj2 (Z.ltb_lt _ _) H). cbn [idx logs length Nat.eqb].
    rewrite outer_whole_group.
    cbn [idx logs length Nat.eqb file cb app]. by rewrite file_header_in_place.
  - change (if false then BufferSize o else size info) with (size info).
    rewrite outer_whole_group.
    cbn [idx logs length Nat.eqb file cb app]. by rewrite file_header_in_place.
Qed.

(** C24: A group written to the WAL is read back.  On a fresh WAL, a
    writer that [Append]s the records [ps] (at least one, the group
    fitting a [uint32] size) and [SignalInitWrite(t)]s them writes the
    group after the file header; [Close] keeps it on the disk; [New] on
    the reopened file reads the file header, recovers the group and
    reports that recovery is needed; and [Reader.Read], whose callback
    drains the group with [Next], reads exactly [ps] in order, whatever
    the buffer size (a group larger than the buffer is re-read with a
    grown window), rewrites the group's header as RELEASED, empties the
    recovered logs and succeeds. *)
Theorem wal_write_reopen_read :
  let w0 := (New None o).1.1 in
  let wr := fold_left (fun wr p => (Append wr p).1) ps (NewWriter w0).1 in
  exists w1 w1' d w2 w3,
    SignalInitWrite w0 wr t = (w1, Ok tt) /\ Close w1 = (w1', Some d, Ok tt) /\
    New (Some d) o = (w2, true, Ok tt) /\ Reader_Read w2 drain [] = (w3, ps, Ok tt) /\
    recovered w3 = [] /\
    wbytes w3 = file_header Segments.newSegments ++
                LogInfo_MarshalBinary (set_status (group_info wr t Segments.headerSize) logStatusReleased) ++
                WalFrames.group ps.
Proof.
  intros w0 wr. subst w0.
  assert (Hwr : wr = mkWriter (WalFrames.group ps) (Z.of_nat (length ps))) by apply appends_group.
  rewrite Hwr, fresh_SignalInitWrite by size_lia.
  eexists _, _, _, _, _. split_and!;
    [reflexivity | by eapply Close_header_in_place | apply reopen_one_group | apply read_one_group
    | reflexivity | reflexivity].
Qed.

End OneGroup.

Lemma wal_write_reopen_read_witness :
  let ps := [bytes "a"; bytes "bc"] in
  let w0 := (New None testOpts).1.1 in
  let wr := fold_left (fun wr p => (Append wr p).1) ps (NewWriter w0).1 in
  exists w1 w1' d w2 w3,
    SignalInitWrite w0 wr 7 = (w1, Ok tt) /\ Close w1 = (w1', Some d, Ok tt) /\
    New (Some d) testOpts = (w2, true, Ok tt) /\ Reader_Read w2 drain [] = (w3, ps, Ok tt) /\
    recovered w3 = [] /\
    wbytes w3 = file_header Segments.newSegments ++
                LogInfo_MarshalBinary (set_status (group_info wr 7 Segments.headerSize) logStatusReleased) ++
                WalFrames.group ps.
Proof.
  apply wal_write_reopen_read; [discriminate | cbn; lia | unfold in_int64; lia | vm_compute; reflexivity].
Defined.

End WalTests.
